(** * vtrie: a trie keyed by byte strings with Hamming-distance iterators

    Shallow embedding of [src/trie.c] and verification of its stated
    properties.

    Conventions of the embedding.

    - A [TrieNode] owns its children through the [child]/[sibling] links:
      the NULL-terminated sibling list of a node is the list [children],
      first child first.
    - A pointer to a node ([struct TrieNode *]) is the byte path that leads
      from the root to that node ([nodeptr]); the parent link of a node is
      the path with its last byte removed.  Dereferencing walks the sibling
      lists exactly as [trienode_get_child] does.
    - [size_t] is 64 bits wide, [long long] is 64 bits wide and [int] is
      32 bits wide (LP64); every arithmetic operation of the source is
      followed by the wrap-around of its type.
    - Functions that dereference a stored pointer return [option]: [None]
      is the run that the C program does not have (a NULL dereference) or,
      for the loops driven by a fuel argument, the run that was cut short.
    - The calls of a value deallocator are recorded as a list of events. *)

From Stdlib Require Import Strings.Byte Strings.String.
From Stdlib Require Import ZArith List Bool Lia Arith PeanoNat.
From Stdlib Require Import Sorting.Permutation.
Import ListNotations.
Open Scope Z_scope.

Set Warnings "-register-all".

(* ------------------------------------------------------------------ *)
(** ** Machine integers *)

Definition to_size_t (z : Z) : Z := z mod 2 ^ 64.
Definition to_int (z : Z) : Z := (z + 2 ^ 31) mod 2 ^ 32 - 2 ^ 31.
Definition to_llong (z : Z) : Z := (z + 2 ^ 63) mod 2 ^ 64 - 2 ^ 63.

Definition INT_MAX : Z := 2 ^ 31 - 1.
Definition LLONG_MAX : Z := 2 ^ 63 - 1.
Definition SIZE_MAX : Z := 2 ^ 64 - 1.

(** Object sizes of the LP64 ABI. *)
Definition sizeof_TRIECHAR : Z := 1.
Definition sizeof_TrieNode : Z := 56.
Definition sizeof_TrieRoot : Z := 96.

(* ------------------------------------------------------------------ *)
(** ** Data model *)

Definition TRIECHAR := byte.
Definition NUL : TRIECHAR := x00.

(** [TRIEVALUE *] is an opaque address; [NULL] is address zero. *)
Definition TRIEVALUE := Z.
Definition NULL : TRIEVALUE := 0.

(** A [DeallocHandler] is a function pointer: [None] is the NULL handler. *)
Definition DeallocHandler := option positive.

Inductive event :=
| Dealloc (h : positive) (v : TRIEVALUE).

Definition TRIE_EXPLORED : Z := 1.

(** The contents of a NUL-terminated buffer: the bytes before the first
    NUL.  A [list TRIECHAR] given as a key stands for the buffer made of
    these bytes followed by a terminator. *)
Fixpoint cstr (s : list TRIECHAR) : list TRIECHAR :=
  match s with
  | [] => []
  | c :: r => if Byte.eqb c NUL then [] else c :: cstr r
  end.

Definition strlen (s : list TRIECHAR) : Z := Z.of_nat (length (cstr s)).

Record TrieItem := mkItem {
  key : option (list TRIECHAR);
  value : TRIEVALUE;
  keylen : Z
}.

Inductive TrieNode := Node {
  item : TrieItem;
  ch : TRIECHAR;
  flags : Z;
  children : list TrieNode
}.

Definition nodeptr := list TRIECHAR.

Record TrieRoot := mkRoot {
  rnode : TrieNode;
  num_nodes : Z;
  num_items : Z;
  memsize : Z;
  state_id : Z;
  dirty_iter : option positive
}.

Record TrieIterState := mkState {
  node : nodeptr;
  query : nodeptr;
  hd : Z;
  depth : Z
}.

Record TrieSearchResult := mkResult {
  r_query : nodeptr;
  r_target : nodeptr;
  r_hd : Z
}.

Inductive TrieIterNextFunc :=
| suffixes_next
| neighbors_next
| hammingpairs_next.

Definition E_SUCCESS : Z := 0.
Definition E_OUT_OF_SYNC : Z := -1.
Definition E_REPLACED : Z := -2.

(** [states] is the part [head .. fill) of the state buffer, most recent
    push first; [cap] is [tail - head]; [self] is the address of the
    iterator object. *)
Record TrieIter := mkIter {
  self : positive;
  states : list TrieIterState;
  cap : Z;
  maxhd : Z;
  target_depth : Z;
  len_query : Z;
  is_dirty : bool;
  trie_state_id : Z;
  errcode : Z;
  stack : list nodeptr;
  next : TrieIterNextFunc
}.

(* ------------------------------------------------------------------ *)
(** ** Nodes *)

Definition has_item (n : TrieNode) : bool :=
  match key (item n) with Some _ => true | None => false end.

Definition trieitem_free (it : TrieItem) (dealloc : DeallocHandler)
  : TrieItem * list event :=
  match dealloc with
  | Some h =>
      if value it =? NULL then (mkItem None (value it) 0, [])
      else (mkItem None NULL 0, [Dealloc h (value it)])
  | None => (mkItem None (value it) 0, [])
  end.

Definition trienode_new (k : option (list TRIECHAR)) (v : TRIEVALUE)
  (kl : Z) (cs : list TrieNode) (c : TRIECHAR) (fl : Z) : TrieNode :=
  Node (mkItem k v kl) c fl cs.

Definition trienode_free (n : TrieNode) (dealloc : DeallocHandler)
  : list event :=
  snd (trieitem_free (item n) dealloc).

Definition trienode_get_child (n : TrieNode) (c : TRIECHAR)
  : option TrieNode :=
  find (fun x => Byte.eqb (ch x) c) (children n).

Fixpoint remove_child_list (cs : list TrieNode) (c : TRIECHAR)
  (dealloc : DeallocHandler) : list TrieNode * list event :=
  match cs with
  | [] => ([], [])
  | x :: r =>
      if Byte.eqb (ch x) c then
        match children x with
        | [] => (r, trienode_free x dealloc)
        | _ :: _ => (cs, [])
        end
      else
        let '(r', ev) := remove_child_list r c dealloc in (x :: r', ev)
  end.

Definition trienode_remove_child (n : TrieNode) (c : TRIECHAR)
  (dealloc : DeallocHandler) : TrieNode * list event :=
  let '(cs, ev) := remove_child_list (children n) c dealloc in
  (Node (item n) (ch n) (flags n) cs, ev).

(** Reading through a node pointer, and writing through one. *)
Fixpoint get_node (n : TrieNode) (p : nodeptr) {struct p}
  : option TrieNode :=
  match p with
  | [] => Some n
  | c :: r =>
      match trienode_get_child n c with
      | Some x => get_node x r
      | None => None
      end
  end.

Fixpoint update_child (c : TRIECHAR) (f : TrieNode -> TrieNode)
  (cs : list TrieNode) : list TrieNode :=
  match cs with
  | [] => []
  | x :: r => if Byte.eqb (ch x) c then f x :: r
              else x :: update_child c f r
  end.

Fixpoint update_node (n : TrieNode) (p : nodeptr)
  (f : TrieNode -> TrieNode) {struct p} : TrieNode :=
  match p with
  | [] => f n
  | c :: r =>
      Node (item n) (ch n) (flags n)
           (update_child c (fun x => update_node x r f) (children n))
  end.

Definition set_item (i : TrieItem) (n : TrieNode) : TrieNode :=
  Node i (ch n) (flags n) (children n).

Definition set_flags (fl : Z) (n : TrieNode) : TrieNode :=
  Node (item n) (ch n) fl (children n).

Definition mark_explored (n : TrieNode) : TrieNode :=
  set_flags (Z.lor (flags n) TRIE_EXPLORED) n.

Definition is_explored (n : TrieNode) : bool :=
  Z.land (flags n) TRIE_EXPLORED =? TRIE_EXPLORED.

Fixpoint trie_reset (n : TrieNode) : TrieNode :=
  match n with
  | Node i c _ cs => Node i c 0 (map trie_reset cs)
  end.

(* ------------------------------------------------------------------ *)
(** ** The store *)

Definition trie_new : TrieRoot :=
  mkRoot (Node (mkItem None NULL 0) NUL 0 []) 0 0 sizeof_TrieRoot 0 None.

Definition with_rnode (root : TrieRoot) (n : TrieNode) : TrieRoot :=
  mkRoot n (num_nodes root) (num_items root) (memsize root)
         (state_id root) (dirty_iter root).

Definition trie_get_node (root : TrieRoot) (k : list TRIECHAR)
  : option TrieNode :=
  get_node (rnode root) (cstr k).

Definition trie_num_nodes (root : TrieRoot) : Z := num_nodes root.
Definition trie_num_items (root : TrieRoot) : Z := num_items root.
Definition trie_mem_usage (root : TrieRoot) : Z := memsize root.

Definition trie_has_key (root : TrieRoot) (k : list TRIECHAR) : bool :=
  match trie_get_node root k with
  | Some n => has_item n
  | None => false
  end.

Definition trie_has_node (root : TrieRoot) (k : list TRIECHAR) : bool :=
  match trie_get_node root k with
  | Some _ => true
  | None => false
  end.

Definition trie_get_item (root : TrieRoot) (k : list TRIECHAR)
  : option TrieItem :=
  match trie_get_node root k with
  | Some n => if has_item n then Some (item n) else None
  | None => None
  end.

(** The walk of [trie_set_item]: follow [k] below [n], creating each
    missing child at the front of the sibling list and counting it in
    [num_nodes] and [memsize] ([nn], [ms]); [fin] is what is done to the
    node the walk ends at. *)
Fixpoint set_walk {A : Type} (n : TrieNode) (k : list TRIECHAR)
  (nn ms : Z) (fin : TrieNode -> TrieNode * A) {struct k}
  : TrieNode * Z * Z * A :=
  match k with
  | [] => let '(n', a) := fin n in (n', nn, ms, a)
  | c :: r =>
      match trienode_get_child n c with
      | Some x =>
          let '(x', nn', ms', a) := set_walk x r nn ms fin in
          (Node (item n) (ch n) (flags n)
                (update_child c (fun _ => x') (children n)), nn', ms', a)
      | None =>
          let '(x', nn', ms', a) :=
            set_walk (trienode_new None NULL 0 [] c 0) r
                     (to_size_t (nn + 1))
                     (to_size_t (ms + sizeof_TrieNode)) fin in
          (Node (item n) (ch n) (flags n) (x' :: children n), nn', ms', a)
      end
  end.

(** The block of [trie_set_item] after the walk, as far as it touches the
    node: reports whether the node was not item-bearing, the old [keylen]
    and the deallocator calls. *)
Definition set_final (k : list TRIECHAR) (v : TRIEVALUE)
  (dealloc : DeallocHandler) (n : TrieNode)
  : TrieNode * (bool * Z * list event) :=
  let new_item :=
    mkItem (Some k) v (to_size_t (Z.of_nat (length k))) in
  match key (item n) with
  | None => (set_item new_item n, (true, 0, []))
  | Some _ =>
      (set_item new_item n,
       (false, keylen (item n), snd (trieitem_free (item n) dealloc)))
  end.

Definition trie_set_item (root : TrieRoot) (k : list TRIECHAR)
  (v : TRIEVALUE) (dealloc : DeallocHandler)
  : Z * TrieRoot * list event :=
  let k := cstr k in
  let '(n', nn, ms, (fresh, oldlen, ev)) :=
    set_walk (rnode root) k (num_nodes root) (memsize root)
             (set_final k v dealloc) in
  let ni := if fresh then to_size_t (num_items root + 1)
            else num_items root in
  let sid := if fresh then to_llong (state_id root + 1)
             else state_id root in
  let ms1 := if fresh then ms
             else to_size_t (ms - to_size_t (sizeof_TRIECHAR * (oldlen + 1))) in
  let klen := to_size_t (Z.of_nat (length k)) in
  let ms2 := to_size_t (ms1 + to_size_t (sizeof_TRIECHAR * (klen + 1))) in
  (0, mkRoot n' nn ni ms2 sid (dirty_iter root), ev).

(** The upward loop of [trie_del_item].  [rp] is the pointer [node],
    last byte first, so that its tail is [node->parent]. *)
Fixpoint del_prune (rp : list TRIECHAR) (root : TrieRoot)
  (dealloc : DeallocHandler) {struct rp} : option (TrieRoot * list event) :=
  match rp with
  | [] => Some (root, [])
  | _ :: rparent =>
      match get_node (rnode root) (rev rp) with
      | None => None
      | Some n =>
          match children n, key (item n) with
          | [], None =>
              match get_node (rnode root) (rev rparent) with
              | None => None
              | Some parent =>
                  let ev := snd (trienode_remove_child parent (ch n) dealloc) in
                  let rn :=
                    update_node (rnode root) (rev rparent)
                      (fun x => fst (trienode_remove_child x (ch n) dealloc)) in
                  let root' :=
                    mkRoot rn (to_size_t (num_nodes root - 1))
                           (num_items root)
                           (to_size_t (memsize root - sizeof_TrieNode))
                           (state_id root) (dirty_iter root) in
                  match del_prune rparent root' dealloc with
                  | None => None
                  | Some (root'', ev') => Some (root'', ev ++ ev')
                  end
              end
          | _, _ => Some (root, [])
          end
      end
  end.

Definition trie_del_item (root : TrieRoot) (k : list TRIECHAR)
  (dealloc : DeallocHandler) : option (Z * TrieRoot * list event) :=
  let k := cstr k in
  match get_node (rnode root) k with
  | None => Some (-1, root, [])
  | Some n =>
      match key (item n) with
      | None => Some (-1, root, [])
      | Some _ =>
          let ms := to_size_t (memsize root
                     - to_size_t (sizeof_TRIECHAR * (keylen (item n) + 1))) in
          let '(i', ev) := trieitem_free (item n) dealloc in
          let root1 :=
            mkRoot (update_node (rnode root) k (set_item i'))
                   (num_nodes root) (to_size_t (num_items root - 1)) ms
                   (state_id root) (dirty_iter root) in
          match del_prune (rev k) root1 dealloc with
          | None => None
          | Some (root2, ev') =>
              Some (0,
                    mkRoot (rnode root2) (num_nodes root2) (num_items root2)
                           (memsize root2) (to_llong (state_id root2 + 1))
                           (dirty_iter root2),
                    ev ++ ev')
          end
      end
  end.

(* ------------------------------------------------------------------ *)
(** ** Iterators: the state stack *)

Definition with_states (it : TrieIter) (st : list TrieIterState) (c : Z)
  : TrieIter :=
  mkIter (self it) st c (maxhd it) (target_depth it) (len_query it)
         (is_dirty it) (trie_state_id it) (errcode it) (stack it) (next it).

Definition with_errcode (it : TrieIter) (e : Z) : TrieIter :=
  mkIter (self it) (states it) (cap it) (maxhd it) (target_depth it)
         (len_query it) (is_dirty it) (trie_state_id it) e (stack it)
         (next it).

Definition with_stack (it : TrieIter) (s : list nodeptr) : TrieIter :=
  mkIter (self it) (states it) (cap it) (maxhd it) (target_depth it)
         (len_query it) (is_dirty it) (trie_state_id it) (errcode it) s
         (next it).

Definition trieiter_push_state (it : TrieIter) (n q : nodeptr) (h d : Z)
  : TrieIter :=
  with_states it (mkState n q h d :: states it)
    (if Z.of_nat (length (states it)) =? cap it then 2 * cap it
     else cap it).

Definition trieiter_pop_state (it : TrieIter)
  : option (TrieIterState * TrieIter) :=
  match states it with
  | [] => None
  | s :: r => Some (s, with_states it r (cap it))
  end.

Definition stack_push (st : list nodeptr) (v : nodeptr) : list nodeptr :=
  v :: st.

Definition stack_pop (st : list nodeptr)
  : option (nodeptr * list nodeptr) :=
  match st with
  | [] => None
  | v :: r => Some (v, r)
  end.

(** [addr] is the address of the iterator object that [safe_malloc]
    returns. *)
Definition trieiter_new (root : TrieRoot) (addr : positive)
  (num_states mhd tdepth lquery : Z) (stk : list nodeptr)
  (nxt : TrieIterNextFunc) (dirty : bool) : option (TrieIter * TrieRoot) :=
  if (num_states <? 1) || (mhd <? 0) || (tdepth <? 0) then None
  else
    let it := mkIter addr [] num_states mhd tdepth lquery dirty
                     (state_id root) E_SUCCESS stk nxt in
    if dirty then
      let rn := match dirty_iter root with
                | Some _ => trie_reset (rnode root)
                | None => rnode root
                end in
      Some (it, mkRoot rn (num_nodes root) (num_items root) (memsize root)
                       (state_id root) (Some addr))
    else Some (it, root).

Definition trieiter_errcode (it : TrieIter) : Z := errcode it.
Definition trieiter_len_query (it : TrieIter) : Z :=
  to_size_t (len_query it).

Definition trieiter_free (root : TrieRoot) (it : TrieIter) : TrieRoot :=
  match dirty_iter root with
  | Some a =>
      if Pos.eqb a (self it) then
        mkRoot (trie_reset (rnode root)) (num_nodes root) (num_items root)
               (memsize root) (state_id root) None
      else root
  | None => root
  end.

Definition triesearchresult_new (q t : nodeptr) (h : Z)
  : TrieSearchResult := mkResult q t h.

(** A [while] loop whose body either goes round again ([inl]) or leaves
    the function with a value ([inr]); [fuel] bounds the iterations. *)
Fixpoint while_loop {S R : Type} (body : S -> option (S + R))
  (fuel : nat) (s : S) : option R :=
  match fuel with
  | O => None
  | Datatypes.S f =>
      match body s with
      | None => None
      | Some (inl s') => while_loop body f s'
      | Some (inr r) => Some r
      end
  end.

(** [key[d]] in a key buffer: the terminator sits at index [length k]. *)
Definition key_char (k : list TRIECHAR) (d : Z) : option TRIECHAR :=
  if d <? 0 then None else nth_error (k ++ [NUL]) (Z.to_nat d).

Definition query_char (root : TrieRoot) (q : nodeptr) (d : Z)
  : option TRIECHAR :=
  match get_node (rnode root) q with
  | Some qn =>
      match key (item qn) with
      | Some qk => key_char qk d
      | None => None
      end
  | None => None
  end.

(* ------------------------------------------------------------------ *)
(** ** Suffix iterator *)

Definition suffixes_push_children (cs : list TrieNode) (p q : nodeptr)
  (d : Z) (it : TrieIter) : TrieIter :=
  fold_left
    (fun i child =>
       trieiter_push_state i (p ++ [ch child]) q 0 (to_int (d + 1)))
    cs it.

Definition suffixes_body (root : TrieRoot) (it : TrieIter)
  : option (TrieIter + (option TrieSearchResult * TrieIter)) :=
  match trieiter_pop_state it with
  | None => Some (inr (None, it))
  | Some (state, it1) =>
      match get_node (rnode root) (node state) with
      | None => None
      | Some n =>
          let it2 :=
            suffixes_push_children (children n) (node state) (query state)
                                   (depth state) it1 in
          if has_item n then
            Some (inr (Some (triesearchresult_new (query state)
                                                  (node state) 0), it2))
          else Some (inl it2)
      end
  end.

Definition trieiter_suffixes_next (fuel : nat) (root : TrieRoot)
  (it : TrieIter) : option (option TrieSearchResult * TrieRoot * TrieIter) :=
  match while_loop (suffixes_body root) fuel it with
  | Some (res, it') => Some (res, root, it')
  | None => None
  end.

Definition trieiter_suffixes (root : TrieRoot) (addr : positive)
  (k : list TRIECHAR) : option (TrieIter * TrieRoot) :=
  match trie_get_node root k with
  | None => None
  | Some _ =>
      match trieiter_new root addr 1 0 0 (to_int (strlen k)) []
                         suffixes_next false with
      | None => None
      | Some (it, root') =>
          Some (trieiter_push_state it (cstr k) (cstr k) 0 0, root')
      end
  end.

(* ------------------------------------------------------------------ *)
(** ** Neighbor iterator *)

Fixpoint neighbors_push_children (cs : list TrieNode)
  (qc : option TRIECHAR) (p q : nodeptr) (h d : Z) (it : TrieIter)
  : option TrieIter :=
  match cs with
  | [] => Some it
  | child :: r =>
      match qc with
      | None => None
      | Some c =>
          if Byte.eqb (ch child) c then
            neighbors_push_children r qc p q h d
              (trieiter_push_state it (p ++ [ch child]) q h (to_int (d + 1)))
          else if h <? maxhd it then
            neighbors_push_children r qc p q h d
              (trieiter_push_state it (p ++ [ch child]) q (to_int (h + 1))
                                   (to_int (d + 1)))
          else neighbors_push_children r qc p q h d it
      end
  end.

Definition neighbors_body (root : TrieRoot) (it : TrieIter)
  : option (TrieIter + (option TrieSearchResult * TrieIter)) :=
  match trieiter_pop_state it with
  | None => Some (inr (None, it))
  | Some (state, it1) =>
      match get_node (rnode root) (node state) with
      | None => None
      | Some n =>
          if depth state =? target_depth it1 then
            if negb (has_item n) || (hd state =? 0) then Some (inl it1)
            else Some (inr (Some (triesearchresult_new (query state)
                                    (node state) (hd state)), it1))
          else
            match neighbors_push_children (children n)
                    (query_char root (query state) (depth state))
                    (node state) (query state) (hd state) (depth state)
                    it1 with
            | None => None
            | Some it2 => Some (inl it2)
            end
      end
  end.

Definition trieiter_neighbors_next (fuel : nat) (root : TrieRoot)
  (it : TrieIter) : option (option TrieSearchResult * TrieRoot * TrieIter) :=
  match while_loop (neighbors_body root) fuel it with
  | Some (res, it') => Some (res, root, it')
  | None => None
  end.

Definition trieiter_neighbors (root : TrieRoot) (addr : positive)
  (k : list TRIECHAR) (mhd : Z) : option (TrieIter * TrieRoot) :=
  if mhd <? 1 then None
  else
    match trie_get_node root k with
    | None => None
    | Some qn =>
        match key (item qn) with
        | None => None
        | Some _ =>
            match trieiter_new root addr 1 mhd
                    (to_int (keylen (item qn))) (to_int (keylen (item qn)))
                    [] neighbors_next false with
            | None => None
            | Some (it, root') =>
                Some (trieiter_push_state it [] (cstr k) 0 0, root')
            end
        end
    end.

(* ------------------------------------------------------------------ *)
(** ** All-pairs iterator *)

Fixpoint trie_find_all_strings (n : TrieNode) (p : nodeptr) (d : Z)
  (targets : list nodeptr) : list nodeptr :=
  match n with
  | Node i _ _ cs =>
      if (d =? 0) && (match key i with Some _ => true | None => false end)
      then stack_push targets p
      else if d >? 0 then
        fold_left
          (fun tg child =>
             trie_find_all_strings child (p ++ [ch child]) (to_int (d - 1)) tg)
          cs targets
      else targets
  end.

(** The [for] loop over the children in [trieiter_hammingpairs_next];
    the accumulator is the iterator with [n_children] and [n_explored]. *)
Fixpoint hammingpairs_push_children (cs : list TrieNode)
  (qc : option TRIECHAR) (p q : nodeptr) (h d : Z)
  (acc : TrieIter * Z * Z) : option (TrieIter * Z * Z) :=
  match cs with
  | [] => Some acc
  | child :: r =>
      let '(it, n_children, n_explored) := acc in
      let n_children := to_int (n_children + 1) in
      if is_explored child then
        hammingpairs_push_children r qc p q h d
          (it, n_children, to_int (n_explored + 1))
      else
        match qc with
        | None => None
        | Some c =>
            if Byte.eqb (ch child) c then
              hammingpairs_push_children r qc p q h d
                (trieiter_push_state it (p ++ [ch child]) q h
                                     (to_int (d + 1)),
                 n_children, n_explored)
            else if h <? maxhd it then
              hammingpairs_push_children r qc p q h d
                (trieiter_push_state it (p ++ [ch child]) q
                                     (to_int (h + 1)) (to_int (d + 1)),
                 n_children, n_explored)
            else
              hammingpairs_push_children r qc p q h d
                (it, n_children, n_explored)
        end
  end.

Definition mark_at (root : TrieRoot) (p : nodeptr) : TrieRoot :=
  with_rnode root (update_node (rnode root) p mark_explored).

Definition hammingpairs_body (s : TrieRoot * TrieIter)
  : option (TrieRoot * TrieIter
            + (option TrieSearchResult * TrieRoot * TrieIter)) :=
  let '(root, it) := s in
  match trieiter_pop_state it with
  | None =>
      match stack_pop (stack it) with
      | None => Some (inr (None, root, it))
      | Some (q, rest) =>
          match get_node (rnode root) q with
          | None => None
          | Some _ =>
              Some (inl (mark_at root q,
                         trieiter_push_state (with_stack it rest) [] q 0 0))
          end
      end
  | Some (state, it1) =>
      match get_node (rnode root) (node state) with
      | None => None
      | Some n =>
          if depth state =? target_depth it1 then
            if negb (has_item n) then
              Some (inl (mark_at root (node state), it1))
            else
              Some (inr (Some (triesearchresult_new (query state)
                                 (node state) (hd state)), root, it1))
          else
            match hammingpairs_push_children (children n)
                    (query_char root (query state) (depth state))
                    (node state) (query state) (hd state) (depth state)
                    (it1, 0, 0) with
            | None => None
            | Some (it2, n_children, n_explored) =>
                if n_children =? n_explored then
                  Some (inl (mark_at root (node state), it2))
                else Some (inl (root, it2))
            end
      end
  end.

Definition trieiter_hammingpairs_next (fuel : nat) (root : TrieRoot)
  (it : TrieIter) : option (option TrieSearchResult * TrieRoot * TrieIter) :=
  while_loop hammingpairs_body fuel (root, it).

Definition trieiter_hammingpairs (root : TrieRoot) (addr : positive)
  (klen mhd : Z) : option (TrieIter * TrieRoot) :=
  if klen <=? 0 then None
  else
    let targets := trie_find_all_strings (rnode root) [] klen [] in
    trieiter_new root addr 1 mhd klen klen targets hammingpairs_next true.

(* ------------------------------------------------------------------ *)
(** ** Advancing an iterator *)

Definition trieiter_next (fuel : nat) (root : TrieRoot) (it : TrieIter)
  : option (option TrieSearchResult * TrieRoot * TrieIter) :=
  if negb (trie_state_id it =? state_id root) then
    Some (None, root, with_errcode it E_OUT_OF_SYNC)
  else if is_dirty it
          && negb (match dirty_iter root with
                   | Some a => Pos.eqb a (self it)
                   | None => false
                   end) then
    Some (None, root, with_errcode it E_REPLACED)
  else
    match next it with
    | suffixes_next => trieiter_suffixes_next fuel root it
    | neighbors_next => trieiter_neighbors_next fuel root it
    | hammingpairs_next => trieiter_hammingpairs_next fuel root it
    end.

(** A consumer that calls [trieiter_next] until it returns NULL and
    collects the results in the order they were returned. *)
Definition drain_body (fuel : nat)
  (s : TrieRoot * TrieIter * list TrieSearchResult)
  : option (TrieRoot * TrieIter * list TrieSearchResult
            + (list TrieSearchResult * TrieRoot * TrieIter)) :=
  let '(root, it, acc) := s in
  match trieiter_next fuel root it with
  | None => None
  | Some (None, root', it') => Some (inr (acc, root', it'))
  | Some (Some r, root', it') => Some (inl (root', it', acc ++ [r]))
  end.

Definition trieiter_drain (fuel : nat) (root : TrieRoot) (it : TrieIter)
  : option (list TrieSearchResult * TrieRoot * TrieIter) :=
  while_loop (drain_body fuel) fuel (root, it, []).

(** Keys written as string literals. *)
Definition bytes (s : string) : list TRIECHAR := list_byte_of_string s.


(* ------------------------------------------------------------------ *)
(** ** Longest stored prefix *)

(** The loop of [trie_longest_prefix]: [n] is [node] ([None] when it is
    NULL), [k] what is left of the key and [res] the item found last. *)
Fixpoint longest_prefix_walk (n : option TrieNode) (k : list TRIECHAR)
  (res : option TrieItem) {struct k} : option TrieItem :=
  match k with
  | [] => res
  | c :: r =>
      match n with
      | None => res
      | Some x =>
          let n' := trienode_get_child x c in
          longest_prefix_walk n' r
            (match n' with
             | Some y => if has_item y then Some (item y) else res
             | None => res
             end)
      end
  end.

Definition trie_longest_prefix (root : TrieRoot) (k : list TRIECHAR)
  : option TrieItem :=
  longest_prefix_walk (Some (rnode root)) (cstr k)
    (if has_item (rnode root) then Some (item (rnode root)) else None).

(* ------------------------------------------------------------------ *)
(** ** Destroying a store *)

(** [_trie_free node dealloc]: the deallocator calls, in order.  [sib]
    are the calls made for [node->sibling], which the C function makes
    after those for [node->child] and before the node's own. *)
Fixpoint _trie_free (n : TrieNode) (sib : list event)
  (dealloc : DeallocHandler) : list event :=
  match n with
  | Node i c fl cs =>
      (fix siblings (l : list TrieNode) : list event :=
         match l with
         | [] => []
         | x :: r => _trie_free x (siblings r) dealloc
         end) cs
      ++ sib ++ trienode_free n dealloc
  end.

Definition trie_free (root : TrieRoot) (dealloc : DeallocHandler)
  : list event :=
  _trie_free (rnode root) [] dealloc.

(* ------------------------------------------------------------------ *)
(** ** Specification vocabulary *)

(** Every node at or below [n] has no flag set. *)
Fixpoint all_flags_zero (n : TrieNode) : bool :=
  match n with
  | Node _ _ fl cs => (fl =? 0) && forallb all_flags_zero cs
  end.

(** Nodes at or below [n], [n] included. *)
Fixpoint count_nodes (n : TrieNode) : nat :=
  match n with
  | Node _ _ _ cs => S (list_sum (map count_nodes cs))
  end.

(** Item-bearing nodes at or below [n]. *)
Fixpoint count_items (n : TrieNode) : nat :=
  match n with
  | Node i _ _ cs =>
      (match key i with Some _ => 1 | None => 0 end
       + list_sum (map count_items cs))%nat
  end.

(** The mutating calls of the interface. *)
Inductive mutation :=
| Set_item (k : list TRIECHAR) (v : TRIEVALUE) (d : DeallocHandler)
| Del_item (k : list TRIECHAR) (d : DeallocHandler).

Definition apply_mutation (root : TrieRoot) (m : mutation)
  : option (Z * TrieRoot * list event) :=
  match m with
  | Set_item k v d => Some (trie_set_item root k v d)
  | Del_item k d => trie_del_item root k d
  end.

Fixpoint run_mutations (root : TrieRoot) (ms : list mutation)
  : option TrieRoot :=
  match ms with
  | [] => Some root
  | m :: r =>
      match apply_mutation root m with
      | Some (_, root', _) => run_mutations root' r
      | None => None
      end
  end.

(** The call changes the set of stored keys: a [set] of a key that is
    not stored, or a [del] of a key that is. *)
Definition changes_keys (root : TrieRoot) (m : mutation) : bool :=
  match m with
  | Set_item k _ _ => negb (trie_has_key root k)
  | Del_item k _ => trie_has_key root k
  end.

Fixpoint any_key_change (root : TrieRoot) (ms : list mutation) : bool :=
  match ms with
  | [] => false
  | m :: r =>
      changes_keys root m
      || match apply_mutation root m with
         | Some (_, root', _) => any_key_change root' r
         | None => false
         end
  end.

(** The node a walk along [k] below [n] ends at: the node found there,
    or else the node that [trie_set_item] creates for the last byte. *)
Definition end_node (n : TrieNode) (k : list TRIECHAR) : TrieNode :=
  match get_node n k with
  | Some x => x
  | None => trienode_new None NULL 0 [] (last k NUL) 0
  end.

Definition chfind (c : TRIECHAR) (cs : list TrieNode) : option TrieNode :=
  find (fun x => Byte.eqb (ch x) c) cs.


(** The store obtained from a new one by setting the keys [ks], in order,
    each to the value [v]. *)
Definition store_of (ks : list string) (v : TRIEVALUE) : TrieRoot :=
  fold_left (fun r k => snd (fst (trie_set_item r (bytes k) v None)))
            ks trie_new.

Definition created_or {A : Type} (o : option (A * TrieRoot)) (a : A)
  : A * TrieRoot :=
  match o with Some x => x | None => (a, trie_new) end.

Definition no_iter : TrieIter :=
  mkIter 1 [] 1 0 0 0 false 0 0 [] suffixes_next.

Definition advanced (o : option (option TrieSearchResult * TrieRoot * TrieIter))
  : TrieRoot * TrieIter :=
  match o with
  | Some (_, r, i) => (r, i)
  | None => (trie_new, no_iter)
  end.

(** Example stores and iterators. *)
Definition store_a : TrieRoot :=
  Eval vm_compute in store_of ["a"%string] 7.

Definition store_ab : TrieRoot :=
  Eval vm_compute in store_of ["ab"%string] 7.

Definition store_aa_ab : TrieRoot :=
  Eval vm_compute in store_of ["aa"%string; "ab"%string] 7.


(** Two all-pairs iterators on [store_aa_ab], the second created while
    the first is live and then advanced once. *)
Definition pairs_iter_1 : TrieIter :=
  Eval vm_compute in
    fst (created_or (trieiter_hammingpairs store_aa_ab 1 2 1) no_iter).

Definition pairs_store_1 : TrieRoot :=
  Eval vm_compute in
    snd (created_or (trieiter_hammingpairs store_aa_ab 1 2 1) no_iter).

(** The first of them after one call of [trieiter_next]. *)
Definition pairs_store_1' : TrieRoot :=
  Eval vm_compute in fst (advanced (trieiter_next 10 pairs_store_1 pairs_iter_1)).

Definition pairs_iter_1' : TrieIter :=
  Eval vm_compute in snd (advanced (trieiter_next 10 pairs_store_1 pairs_iter_1)).

Definition pairs_iter_2 : TrieIter :=
  Eval vm_compute in
    fst (created_or (trieiter_hammingpairs pairs_store_1 2 2 1) no_iter).

Definition pairs_store_2 : TrieRoot :=
  Eval vm_compute in
    snd (created_or (trieiter_hammingpairs pairs_store_1 2 2 1) no_iter).

Definition pairs_store_3 : TrieRoot :=
  Eval vm_compute in fst (advanced (trieiter_next 10 pairs_store_2 pairs_iter_2)).

Definition pairs_iter_2' : TrieIter :=
  Eval vm_compute in snd (advanced (trieiter_next 10 pairs_store_2 pairs_iter_2)).

(** [store_a] after a [set] of the new key "b", and after a [set] that
    overwrites the value of "a". *)
Definition store_a_plus_b : TrieRoot :=
  Eval vm_compute in snd (fst (trie_set_item store_a (bytes "b") 9 None)).

Definition store_a_overwritten : TrieRoot :=
  Eval vm_compute in snd (fst (trie_set_item store_a (bytes "a") 9 None)).

(** [store_ab] after a [set] of its prefix "a". *)
Definition store_ab_plus_a : TrieRoot :=
  Eval vm_compute in snd (fst (trie_set_item store_ab (bytes "a") 7 None)).

(** Replace the value of a node's item and nothing else. *)
Definition set_value (v : TRIEVALUE) (n : TrieNode) : TrieNode :=
  set_item (mkItem (key (item n)) v (keylen (item n))) n.

(* ------------------------------------------------------------------ *)
(** ** Well-formed stores *)

Fixpoint nodup_ch (l : list TRIECHAR) : bool :=
  match l with
  | [] => true
  | c :: r => negb (existsb (Byte.eqb c) r) && nodup_ch r
  end.

Fixpoint bytes_eqb (a b : list TRIECHAR) : bool :=
  match a, b with
  | [], [] => true
  | x :: a', y :: b' => Byte.eqb x y && bytes_eqb a' b'
  | _, _ => false
  end.

(** The item of the node that [p] points to: its key, when present, is
    the path itself. *)
Definition item_ok (p : nodeptr) (i : TrieItem) : bool :=
  match key i with
  | Some k => bytes_eqb k p && (keylen i =? to_size_t (Z.of_nat (length p)))
  | None => true
  end.

(** Invariants 2 and 5 of the data model, below the node that [p]
    points to. *)
Fixpoint wf_node (p : nodeptr) (n : TrieNode) : bool :=
  match n with
  | Node i _ _ cs =>
      item_ok p i && nodup_ch (map ch cs)
      && forallb (fun x => wf_node (p ++ [ch x]) x) cs
  end.

Definition live (n : TrieNode) : bool :=
  has_item n || match children n with [] => false | _ :: _ => true end.

(** Invariant 6: no node below [n] is a dead branch. *)
Fixpoint no_dead (n : TrieNode) : bool :=
  match n with
  | Node _ _ _ cs => forallb (fun x => live x && no_dead x) cs
  end.

Definition wf_store (root : TrieRoot) : bool :=
  wf_node [] (rnode root)
  && no_dead (rnode root)
  && (num_nodes root =? to_size_t (Z.of_nat (count_nodes (rnode root)) - 1))
  && (num_items root =? to_size_t (Z.of_nat (count_items (rnode root))))
  && (0 <=? memsize root) && (memsize root <? 2 ^ 64)
  && match dirty_iter root with
     | None => all_flags_zero (rnode root)
     | Some _ => true
     end.

(** The node structure below [n]: the tree of bytes, without items and
    flags. *)
Fixpoint skeleton (n : TrieNode) : TrieNode :=
  match n with
  | Node _ c _ cs => Node (mkItem None NULL 0) c 0 (map skeleton cs)
  end.

(* ------------------------------------------------------------------ *)
(** ** The keys and nodes of a tree, and the abstract store *)

(** The paths, relative to [n], of the item-bearing nodes at or below
    [n]. *)
Fixpoint keys_below (n : TrieNode) : list nodeptr :=
  match n with
  | Node i _ _ cs =>
      (match key i with Some _ => [[]] | None => [] end)
      ++ flat_map (fun x => map (cons (ch x)) (keys_below x)) cs
  end.

(** The paths, relative to [n], of the nodes below [n]. *)
Fixpoint nodes_below (n : TrieNode) : list nodeptr :=
  match n with
  | Node _ _ _ cs =>
      flat_map (fun x => map (cons (ch x)) ([] :: nodes_below x)) cs
  end.

Definition has_key_at (n : TrieNode) (q : nodeptr) : bool :=
  match get_node n q with
  | Some x => has_item x
  | None => false
  end.

Definition key_eq_dec : forall a b : list TRIECHAR, {a = b} + {a <> b} :=
  list_eq_dec Byte.byte_eq_dec.

Arguments key_eq_dec : simpl never.

(** The set of stored keys, as the interface describes it: a [set] adds
    its key, a [del] removes it. *)
Definition model_step (s : list (list TRIECHAR)) (m : mutation)
  : list (list TRIECHAR) :=
  match m with
  | Set_item k _ _ =>
      if in_dec key_eq_dec (cstr k) s then s else cstr k :: s
  | Del_item k _ => remove key_eq_dec (cstr k) s
  end.

Definition model_keys (ms : list mutation) : list (list TRIECHAR) :=
  fold_left model_step ms [].

(** The non-empty prefixes of a key: the edges of its root-to-key
    path, each named by the node it leads to. *)
Fixpoint prefixes (k : list TRIECHAR) : list nodeptr :=
  match k with
  | [] => []
  | c :: r => [c] :: map (cons c) (prefixes r)
  end.

(** The edges of the union of the root-to-key paths of the keys [s]. *)
Definition path_edges (s : list (list TRIECHAR)) : list nodeptr :=
  nodup key_eq_dec (flat_map prefixes s).

(** A node made item-bearing; used to say "no dead branch, except
    possibly here". *)
Definition revive (n : TrieNode) : TrieNode :=
  set_item (mkItem (Some []) NULL 0) n.

(** The tree that the walk of [trie_set_item] leaves behind. *)
Fixpoint set_node (n : TrieNode) (k : list TRIECHAR)
  (f : TrieNode -> TrieNode) {struct k} : TrieNode :=
  match k with
  | [] => f n
  | c :: r =>
      match chfind c (children n) with
      | Some x =>
          Node (item n) (ch n) (flags n)
               (update_child c (fun _ => set_node x r f) (children n))
      | None =>
          Node (item n) (ch n) (flags n)
               (set_node (trienode_new None NULL 0 [] c 0) r f :: children n)
      end
  end.

(** The state of the upward loop of [trie_del_item] when [node] is the
    pointer [p]: the tree is well formed and has no dead branch, except
    possibly the node at [p]. *)
Definition prune_pre (root : TrieRoot) (p : nodeptr) : Prop :=
  wf_node [] (rnode root) = true
  /\ get_node (rnode root) p <> None
  /\ no_dead (update_node (rnode root) p revive) = true.

(** The store [root] holds exactly the keys [s]. *)
Definition holds_keys (root : TrieRoot) (s : list (list TRIECHAR)) : Prop :=
  wf_store root = true
  /\ NoDup s
  /\ forall q, In q s <-> has_key_at (rnode root) q = true.

(* ------------------------------------------------------------------ *)
(** ** What the iterators are to return *)

(** Hamming distance of two strings of equal length. *)
Fixpoint hamming (a b : list TRIECHAR) : Z :=
  match a, b with
  | x :: a', y :: b' => (if Byte.eqb x y then 0 else 1) + hamming a' b'
  | _, _ => 0
  end.

(** The iterator fields that [trieiter_next] never writes. *)
Definition same_config (it it' : TrieIter) : Prop :=
  self it' = self it /\ maxhd it' = maxhd it
  /\ target_depth it' = target_depth it /\ len_query it' = len_query it
  /\ is_dirty it' = is_dirty it /\ trie_state_id it' = trie_state_id it
  /\ errcode it' = errcode it /\ next it' = next it.

(** The results of the suffix iterator for the subtree [n] at [p], in
    the order of the depth-first walk: the node itself, then its
    children, last child first. *)
Fixpoint suffixes_out (q p : nodeptr) (n : TrieNode)
  : list TrieSearchResult :=
  match n with
  | Node i _ _ cs =>
      (match key i with Some _ => [mkResult q p 0] | None => [] end)
      ++ fold_right
           (fun x acc => acc ++ suffixes_out q (p ++ [ch x]) x) [] cs
  end.

Definition deref_size (root : TrieRoot) (s : TrieIterState) : nat :=
  match get_node (rnode root) (node s) with
  | Some n => count_nodes n
  | None => 0
  end.

(** The number of nodes at or below the states of a stack. *)
Definition stack_size (root : TrieRoot) (st : list TrieIterState) : nat :=
  list_sum (map (deref_size root) st).

Definition suffixes_state_out (root : TrieRoot) (s : TrieIterState)
  : list TrieSearchResult :=
  match get_node (rnode root) (node s) with
  | Some n => suffixes_out (query s) (node s) n
  | None => []
  end.

Definition suffixes_inv (root : TrieRoot) (it : TrieIter) : Prop :=
  wf_node [] (rnode root) = true
  /\ next it = suffixes_next
  /\ is_dirty it = false
  /\ trie_state_id it = state_id root
  /\ Forall (fun s => get_node (rnode root) (node s) <> None) (states it).

Definition suffixes_due (root : TrieRoot) (it : TrieIter)
  : list TrieSearchResult :=
  flat_map (suffixes_state_out root) (states it).

Definition states_size (root : TrieRoot) (it : TrieIter) : nat :=
  stack_size root (states it).

(* ------------------------------------------------------------------ *)
(** ** The neighbor iterator *)

(** The results of the neighbor walk for the subtree [n] at [p], reached
    at depth [d] with distance [h] so far; [qk] is the key of the query
    node [q]. *)
Fixpoint neighbors_out (qk : list TRIECHAR) (mhd td : Z) (q p : nodeptr)
  (h d : Z) (n : TrieNode) : list TrieSearchResult :=
  match n with
  | Node i _ _ cs =>
      if d =? td then
        match key i with
        | Some _ => if h =? 0 then [] else [mkResult q p h]
        | None => []
        end
      else
        fold_right
          (fun x acc =>
             acc ++
             match key_char qk d with
             | Some c =>
                 if Byte.eqb (ch x) c then
                   neighbors_out qk mhd td q (p ++ [ch x]) h
                                 (to_int (d + 1)) x
                 else if h <? mhd then
                   neighbors_out qk mhd td q (p ++ [ch x])
                                 (to_int (h + 1)) (to_int (d + 1)) x
                 else []
             | None => []
             end)
          [] cs
  end.

(** The states that the [for] loop of [trieiter_neighbors_next] pushes
    for the children [cs], in the order it pushes them. *)
Definition neighbors_pushed (c : TRIECHAR) (mhd : Z) (p q : nodeptr)
  (h d : Z) (cs : list TrieNode) : list TrieIterState :=
  flat_map
    (fun x =>
       if Byte.eqb (ch x) c then
         [mkState (p ++ [ch x]) q h (to_int (d + 1))]
       else if h <? mhd then
         [mkState (p ++ [ch x]) q (to_int (h + 1)) (to_int (d + 1))]
       else [])
    cs.

Definition neighbors_state_out (root : TrieRoot) (mhd td : Z)
  (s : TrieIterState) : list TrieSearchResult :=
  match get_node (rnode root) (node s) with
  | Some n =>
      neighbors_out (query s) mhd td (query s) (node s) (hd s) (depth s) n
  | None => []
  end.

Definition neighbors_due (root : TrieRoot) (it : TrieIter)
  : list TrieSearchResult :=
  flat_map (neighbors_state_out root (maxhd it) (target_depth it))
           (states it).

(** A state of the neighbor walk for the query [q] is in order. *)
Definition neighbors_state_ok (root : TrieRoot) (q : nodeptr) (td : Z)
  (s : TrieIterState) : Prop :=
  get_node (rnode root) (node s) <> None
  /\ query s = q
  /\ 0 <= depth s <= td.

Definition neighbors_inv (root : TrieRoot) (q : nodeptr) (it : TrieIter)
  : Prop :=
  wf_node [] (rnode root) = true
  /\ next it = neighbors_next
  /\ is_dirty it = false
  /\ trie_state_id it = state_id root
  /\ has_key_at (rnode root) q = true
  /\ target_depth it = Z.of_nat (length q)
  /\ target_depth it <= INT_MAX
  /\ Forall (neighbors_state_ok root q (target_depth it)) (states it).

(** The result that the neighbor iterator owes for the stored key at
    [p ++ s], and the test that it owes one. *)
Definition neighbor_result (q p s : nodeptr) : TrieSearchResult :=
  mkResult q (p ++ s) (hamming q (p ++ s)).

Definition is_neighbor (q : nodeptr) (mhd : Z) (t : nodeptr) : bool :=
  (length t =? length q)%nat
  && (0 <? hamming q t) && (hamming q t <=? mhd).

(** The words of the neighbor-search scenario. *)
Definition store_words : TrieRoot :=
  Eval vm_compute in
    store_of ["abcd"%string; "abce"%string; "abzd"%string; "zzzz"%string] 7.

(** The words of the all-pairs scenario. *)
Definition store_four_words : TrieRoot :=
  Eval vm_compute in
    store_of ["aaaa"%string; "aaab"%string; "aabb"%string; "abbb"%string] 7.

(** Two keys of [n + 1] bytes at Hamming distance one, and the store
    that holds them. *)
Definition long_a (n : nat) : list TRIECHAR :=
  repeat "a"%byte n ++ ["a"%byte].

Definition long_b (n : nat) : list TRIECHAR :=
  repeat "a"%byte n ++ ["b"%byte].

Definition long_store (n : nat) : TrieRoot :=
  snd (fst (trie_set_item
              (snd (fst (trie_set_item trie_new (long_a n) 7 None)))
              (long_b n) 7 None)).

(** [INT_MAX] as a number of bytes; it is only named, never counted
    out. *)
Abbreviation long_len := (Z.to_nat (2 ^ 31 - 1)).

(* ------------------------------------------------------------------ *)
(** ** The all-pairs iterator *)

(** The node that [p] points to has the flag [TRIE_EXPLORED]. *)
Definition explored_at (n : TrieNode) (p : nodeptr) : bool :=
  match get_node n p with
  | Some x => is_explored x
  | None => false
  end.

Definition is_prefix (p t : nodeptr) : bool :=
  if key_eq_dec (firstn (length p) t) p then true else false.

Definition mem (t : nodeptr) (l : list nodeptr) : bool :=
  if in_dec key_eq_dec t l then true else false.

Definition result_eq_dec :
  forall a b : TrieSearchResult, {a = b} + {a <> b}.
Proof.
  decide equality; [apply Z.eq_dec | apply key_eq_dec | apply key_eq_dec].
Defined.

(** The queries of the all-pairs iterator are the strings [T]; [E] are
    those it has taken already.  The walk for the query [q] owes the
    result [r] when [r] joins [q] with a string not yet taken, within
    the bound. *)
Definition pair_due (T E : list nodeptr) (mhd : Z) (q : nodeptr)
  (r : TrieSearchResult) : bool :=
  (if key_eq_dec (r_query r) q then true else false)
  && mem (r_target r) T
  && negb (mem (r_target r) E)
  && (r_hd r =? hamming q (r_target r))
  && (hamming q (r_target r) <=? mhd).

(** The state [s] of the walk owes [r]: the target is below its node. *)
Definition state_due (T E : list nodeptr) (mhd : Z)
  (r : TrieSearchResult) (s : TrieIterState) : bool :=
  pair_due T E mhd (query s) r && is_prefix (node s) (r_target r).

(** How often the queries [qs] still to be taken owe [r]. *)
Fixpoint later_due (T E : list nodeptr) (mhd : Z) (qs : list nodeptr)
  (r : TrieSearchResult) : nat :=
  match qs with
  | [] => 0
  | q :: rest =>
      ((if pair_due T (q :: E) mhd q r then 1 else 0)
       + later_due T (q :: E) mhd rest r)%nat
  end.

Definition hp_due (T E : list nodeptr) (mhd : Z) (it : TrieIter)
  (r : TrieSearchResult) : nat :=
  (length (filter (state_due T E mhd r) (states it))
   + later_due T E mhd (stack it) r)%nat.

(** The flags say no more than what has been explored: an explored node
    above the strings has explored children only, an explored string
    has been a query, and every string that has been a query is
    explored. *)
Definition flags_sound (L : nat) (E : list nodeptr) (n : TrieNode)
  : Prop :=
  (forall p c, (length p < L)%nat -> explored_at n p = true ->
     get_node n (p ++ [c]) <> None -> explored_at n (p ++ [c]) = true)
  /\ (forall t, length t = L -> explored_at n t = true ->
        has_key_at n t = true -> In t E)
  /\ (forall t, In t E -> explored_at n t = true).

Definition hp_state_ok (R : TrieNode) (T E : list nodeptr) (L : nat)
  (mhd : Z) (s : TrieIterState) : Prop :=
  In (query s) T
  /\ get_node R (node s) <> None
  /\ (length (node s) <= L)%nat
  /\ depth s = Z.of_nat (length (node s))
  /\ hd s = hamming (firstn (length (node s)) (query s)) (node s)
  /\ hd s <= mhd
  /\ (length (node s) = L -> ~ In (node s) E).

(** The strings of length [L] below [n], in the order in which the
    iterator takes them as queries. *)
Definition hp_targets (n : TrieNode) (L : nat) : list nodeptr :=
  trie_find_all_strings n [] (Z.of_nat L) [].

(** The state of an all-pairs iterator that started as [it1] on the
    store [root1], has taken the queries [E] and still owes each result
    [r] exactly [c r] times. *)
Definition hp_inv_at (root1 : TrieRoot) (it1 : TrieIter) (L : nat)
  (E : list nodeptr) (c : TrieSearchResult -> nat) (root : TrieRoot)
  (it : TrieIter) : Prop :=
  root = with_rnode root1 (rnode root)
  /\ trie_reset (rnode root) = rnode root1
  /\ same_config it1 it
  /\ rev E ++ stack it = hp_targets (rnode root1) L
  /\ flags_sound L E (rnode root)
  /\ Forall (hp_state_ok (rnode root1) (hp_targets (rnode root1) L)
                         E L (maxhd it1)) (states it)
  /\ forall r,
       c r = hp_due (hp_targets (rnode root1) L) E (maxhd it1) it r.

Definition hp_inv (root1 : TrieRoot) (it1 : TrieIter) (L : nat)
  (c : TrieSearchResult -> nat) (root : TrieRoot) (it : TrieIter) : Prop :=
  exists E, hp_inv_at root1 it1 L E c root it.

(** An all-pairs iterator that started as [it1] on [root1] and has
    been advanced: nothing but flags differs from the store it started
    on, and it has latched no error. *)
Definition hp_fin (root1 : TrieRoot) (it1 : TrieIter) (L : nat)
  (root : TrieRoot) (it : TrieIter) : Prop :=
  root = with_rnode root1 (rnode root)
  /\ trie_reset (rnode root) = rnode root1
  /\ same_config it1 it
  /\ exists c, hp_inv root1 it1 L c root it.

Definition hp_size (root1 : TrieRoot) (it : TrieIter) : nat :=
  (stack_size root1 (states it)
   + length (stack it) * S (count_nodes (rnode root1)))%nat.

(** The states that the [for] loop of [trieiter_hammingpairs_next]
    pushes for the children [cs], in the order it pushes them. *)
Definition hp_pushed (c : TRIECHAR) (mhd : Z) (p q : nodeptr) (h d : Z)
  (cs : list TrieNode) : list TrieIterState :=
  flat_map
    (fun x =>
       if is_explored x then []
       else if Byte.eqb (ch x) c then
         [mkState (p ++ [ch x]) q h (to_int (d + 1))]
       else if h <? mhd then
         [mkState (p ++ [ch x]) q (to_int (h + 1)) (to_int (d + 1))]
       else [])
    cs.

(** The result [r] joins the strings [x] and [y], in either
    orientation. *)
Definition joins (x y : nodeptr) (r : TrieSearchResult) : bool :=
  (bytes_eqb (r_query r) x && bytes_eqb (r_target r) y)
  || (bytes_eqb (r_query r) y && bytes_eqb (r_target r) x).

(** [x] and [y] are stored keys of length [L] at a distance in
    [(0, mhd]]. *)
Definition is_pair (n : TrieNode) (L mhd : Z) (x y : nodeptr) : bool :=
  has_key_at n x && has_key_at n y
  && (Z.of_nat (length x) =? L) && (Z.of_nat (length y) =? L)
  && (0 <? hamming x y) && (hamming x y <=? mhd).

(** [root] and [it] are what calls of [trieiter_next] on the iterator,
    and nothing else, make of [root0] and [it0]. *)
Inductive iter_advanced (root0 : TrieRoot) (it0 : TrieIter)
  : TrieRoot -> TrieIter -> Prop :=
| iter_advanced_zero : iter_advanced root0 it0 root0 it0
| iter_advanced_next root it fuel res root' it' :
    iter_advanced root0 it0 root it ->
    trieiter_next fuel root it = Some (res, root', it') ->
    iter_advanced root0 it0 root' it'.

(* ------------------------------------------------------------------ *)
(** ** Further vocabulary *)

(** The item found last is that of the longest stored prefix seen so
    far. *)
Definition longest_so_far (n : TrieNode) (p : nodeptr)
  (res : option TrieItem) : Prop :=
  match res with
  | Some i =>
      exists q s x,
        p = q ++ s /\ get_node n q = Some x /\ has_item x = true
        /\ i = item x
        /\ forall q' s', p = q' ++ s' -> (length q < length q')%nat ->
                         has_key_at n q' = false
  | None => forall q s, p = q ++ s -> has_key_at n q = false
  end.

(** The item that a lookup of the path [q] below [n] returns. *)
Definition get_item_at (n : TrieNode) (q : nodeptr) : option TrieItem :=
  match get_node n q with
  | Some x => if has_item x then Some (item x) else None
  | None => None
  end.

(** The number of nodes that the walk of [trie_set_item] along [k]
    below [n] creates. *)
Fixpoint fresh_nodes (n : TrieNode) (k : list TRIECHAR) : nat :=
  match k with
  | [] => 0
  | c :: r =>
      match chfind c (children n) with
      | Some x => fresh_nodes x r
      | None => S (length r)
      end
  end.

(** The bytes of the key buffers that the nodes at or below [n] own:
    every key with its terminator. *)
Fixpoint key_bytes (n : TrieNode) : nat :=
  match n with
  | Node i _ _ cs =>
      (match key i with Some k => S (length k) | None => 0 end
       + list_sum (map key_bytes cs))%nat
  end.

(** The same for a set of keys. *)
Definition key_sizes (s : list (list TRIECHAR)) : nat :=
  list_sum (map (fun k => S (length k)) s).

(** The nodes at or below [n] whose value field is [v]. *)
Fixpoint count_value (v : TRIEVALUE) (n : TrieNode) : nat :=
  match n with
  | Node i _ _ cs =>
      ((if (value i =? v)%Z then 1 else 0)
       + list_sum (map (count_value v) cs))%nat
  end.

(** The nodes at or below [n] that have no key but a value field that
    is not NULL. *)
Fixpoint count_stale (n : TrieNode) : nat :=
  match n with
  | Node i _ _ cs =>
      (match key i with
       | Some _ => 0
       | None => if (value i =? NULL)%Z then 0 else 1
       end
       + list_sum (map count_stale cs))%nat
  end.

Definition event_eq_dec : forall a b : event, {a = b} + {a <> b}.
Proof.
  decide equality; [apply Z.eq_dec | apply Pos.eq_dec].
Defined.

(** How often the handler [h] was called on the value [v]. *)
Definition released (h : positive) (v : TRIEVALUE) (ev : list event)
  : nat :=
  count_occ event_eq_dec ev (Dealloc h v).

(** A sequence of mutating calls, with the deallocator calls it makes
    in the order they are made. *)
Fixpoint run_events (root : TrieRoot) (ms : list mutation)
  : option (TrieRoot * list event) :=
  match ms with
  | [] => Some (root, [])
  | m :: r =>
      match apply_mutation root m with
      | Some (_, root', ev) =>
          match run_events root' r with
          | Some (root'', ev') => Some (root'', ev ++ ev')
          | None => None
          end
      | None => None
      end
  end.

Definition handler_of (m : mutation) : DeallocHandler :=
  match m with
  | Set_item _ _ d => d
  | Del_item _ d => d
  end.

(** How often the calls [ms] store the value [v]. *)
Fixpoint stored (v : TRIEVALUE) (ms : list mutation) : nat :=
  match ms with
  | [] => 0
  | Set_item _ v' _ :: r => ((if (v' =? v)%Z then 1 else 0) + stored v r)%nat
  | Del_item _ _ :: r => stored v r
  end.

(** [store_aa_ab] after the key "aa" has been deleted without a
    handler. *)
Definition store_ab_again : TrieRoot :=
  Eval vm_compute in
    match trie_del_item store_aa_ab (bytes "aa") None with
    | Some (_, r, _) => r
    | None => trie_new
    end.

(** The bytes that a store with the tree [n] occupies: the root
    structure, the nodes below it and the key buffers. *)
Definition store_bytes (n : TrieNode) : Z :=
  sizeof_TrieRoot
  + sizeof_TrieNode * (Z.of_nat (count_nodes n) - 1)
  + sizeof_TRIECHAR * Z.of_nat (key_bytes n).

(** The call [m] passes the handler [h]. *)
Definition uses_handler (h : positive) (m : mutation) : bool :=
  match handler_of m with
  | Some h' => Pos.eqb h' h
  | None => false
  end.

(** The store as the interface describes it: a finite map from keys to
    items.  A [set] binds its key to the new item, a [del] removes the
    binding. *)
Definition model_item_step (f : list TRIECHAR -> option TrieItem)
  (m : mutation) : list TRIECHAR -> option TrieItem :=
  fun q =>
    match m with
    | Set_item k v _ =>
        if key_eq_dec q (cstr k)
        then Some (mkItem (Some (cstr k)) v
                          (to_size_t (Z.of_nat (length (cstr k)))))
        else f q
    | Del_item k _ => if key_eq_dec q (cstr k) then None else f q
    end.

Definition model_items (ms : list mutation)
  : list TRIECHAR -> option TrieItem :=
  fold_left model_item_step ms (fun _ => None).

(* ------------------------------------------------------------------ *)
(** ** The life of an iterator *)









(* ------------------------------------------------------------------ *)
(** ** Basic facts *)

Lemma TrieNode_ind' (P : TrieNode -> Prop) :
  (forall i c fl cs, Forall P cs -> P (Node i c fl cs)) ->
  forall n, P n.
Proof.
  intros H. fix IH 1. intros [i c fl cs]. apply H.
  induction cs as [|x cs IHcs]; constructor; auto.
Qed.

Lemma to_llong_small z :
  - 2 ^ 63 <= z < 2 ^ 63 -> to_llong z = z.
Proof.
  intros H. unfold to_llong. rewrite Z.mod_small; lia.
Qed.

Lemma to_int_small z :
  - 2 ^ 31 <= z < 2 ^ 31 -> to_int z = z.
Proof.
  intros H. unfold to_int. rewrite Z.mod_small; lia.
Qed.

Lemma to_size_t_small z :
  0 <= z < 2 ^ 64 -> to_size_t z = z.
Proof.
  intros H. unfold to_size_t. apply Z.mod_small; lia.
Qed.

Lemma to_size_t_range z : 0 <= to_size_t z < 2 ^ 64.
Proof.
  unfold to_size_t. apply Z.mod_pos_bound. lia.
Qed.

Lemma byte_eqb_eq (a b : byte) : Byte.eqb a b = true <-> a = b.
Proof.
  split.
  - apply Byte.byte_dec_bl.
  - apply Byte.byte_dec_lb.
Qed.

Lemma byte_eqb_neq (a b : byte) : Byte.eqb a b = false <-> a <> b.
Proof.
  rewrite <- byte_eqb_eq. destruct (Byte.eqb a b); split; congruence.
Qed.

Lemma byte_eqb_refl (a : byte) : Byte.eqb a a = true.
Proof.
  apply byte_eqb_eq. reflexivity.
Qed.

(** *** Flags *)

Lemma trie_reset_flags_zero n : all_flags_zero (trie_reset n) = true.
Proof.
  induction n as [i c fl cs IH] using TrieNode_ind'. simpl.
  rewrite forallb_forall. intros x Hx.
  apply in_map_iff in Hx. destruct Hx as [y [<- Hy]].
  rewrite Forall_forall in IH. auto.
Qed.

Lemma trie_reset_id n : all_flags_zero n = true -> trie_reset n = n.
Proof.
  induction n as [i c fl cs IH] using TrieNode_ind'. simpl.
  intros H. apply andb_prop in H. destruct H as [Hf Hc].
  apply Z.eqb_eq in Hf. subst fl. f_equal.
  rewrite forallb_forall in Hc. rewrite Forall_forall in IH.
  rewrite <- (map_id cs) at 2. apply map_ext_in. auto.
Qed.

(** *** Sibling lists and node pointers *)

Lemma chfind_ch c cs x : chfind c cs = Some x -> ch x = c.
Proof.
  unfold chfind. intros H. apply find_some in H.
  apply byte_eqb_eq. tauto.
Qed.

Lemma chfind_in c cs x : chfind c cs = Some x -> In x cs.
Proof.
  unfold chfind. intros H. apply find_some in H. tauto.
Qed.

Lemma get_child_chfind n c : trienode_get_child n c = chfind c (children n).
Proof. reflexivity. Qed.

Lemma chfind_update_child_same c f cs :
  (forall x, chfind c cs = Some x -> ch (f x) = c) ->
  chfind c (update_child c f cs) = option_map f (chfind c cs).
Proof.
  unfold chfind. induction cs as [|y cs IH]; simpl; intros H; auto.
  destruct (Byte.eqb (ch y) c) eqn:E; simpl.
  - rewrite (H y eq_refl), byte_eqb_refl. reflexivity.
  - rewrite E. apply IH. exact H.
Qed.

Lemma chfind_update_child_other c c' f cs :
  (forall x, chfind c cs = Some x -> ch (f x) = c) ->
  c <> c' ->
  chfind c' (update_child c f cs) = chfind c' cs.
Proof.
  unfold chfind. induction cs as [|y cs IH]; simpl; intros H Hne; auto.
  destruct (Byte.eqb (ch y) c) eqn:E; simpl.
  - rewrite (H y eq_refl). apply byte_eqb_eq in E. rewrite E.
    apply byte_eqb_neq in Hne. rewrite Hne. reflexivity.
  - destruct (Byte.eqb (ch y) c'); auto.
Qed.

Lemma update_child_none c f cs :
  chfind c cs = None -> update_child c f cs = cs.
Proof.
  unfold chfind. induction cs as [|y cs IH]; simpl; intros H; auto.
  destruct (Byte.eqb (ch y) c); [discriminate|]. f_equal. auto.
Qed.

Lemma update_child_ext c f g cs :
  (forall x, chfind c cs = Some x -> f x = g x) ->
  update_child c f cs = update_child c g cs.
Proof.
  unfold chfind. induction cs as [|y cs IH]; simpl; intros H; auto.
  destruct (Byte.eqb (ch y) c) eqn:E.
  - f_equal. apply H. reflexivity.
  - f_equal. apply IH. exact H.
Qed.

Lemma update_child_compose c f g cs :
  (forall x, chfind c cs = Some x -> ch (f x) = c) ->
  update_child c g (update_child c f cs)
  = update_child c (fun x => g (f x)) cs.
Proof.
  unfold chfind. induction cs as [|y cs IH]; simpl; intros H; auto.
  destruct (Byte.eqb (ch y) c) eqn:E; simpl.
  - rewrite (H y eq_refl), byte_eqb_refl. reflexivity.
  - rewrite E. f_equal. apply IH. exact H.
Qed.

Lemma ch_update_node n p f :
  (p = [] -> ch (f n) = ch n) -> ch (update_node n p f) = ch n.
Proof.
  destruct p; simpl; intros H; [apply H|]; reflexivity.
Qed.

Lemma get_node_app n p q :
  get_node n (p ++ q)
  = match get_node n p with
    | Some x => get_node x q
    | None => None
    end.
Proof.
  revert n. induction p as [|c p IH]; simpl; intros n; auto.
  destruct (trienode_get_child n c); auto.
Qed.

Lemma get_node_prefix n p q x :
  get_node n (p ++ q) = Some x -> exists y, get_node n p = Some y.
Proof.
  rewrite get_node_app. destruct (get_node n p); [eauto|discriminate].
Qed.

Lemma update_node_app n p q f :
  update_node n (p ++ q) f = update_node n p (fun x => update_node x q f).
Proof.
  revert n. induction p as [|c p IH]; simpl; intros n; auto.
  f_equal. apply update_child_ext. intros x _. apply IH.
Qed.

Lemma update_node_ext n p f g :
  (forall x, get_node n p = Some x -> f x = g x) ->
  update_node n p f = update_node n p g.
Proof.
  revert n. induction p as [|c p IH]; simpl; intros n H; auto.
  f_equal. apply update_child_ext. intros x Hx. apply IH.
  intros y Hy. apply H. rewrite get_child_chfind, Hx. exact Hy.
Qed.

Lemma update_node_invalid n p f :
  get_node n p = None -> update_node n p f = n.
Proof.
  revert n. induction p as [|c p IH]; simpl; intros n H; [discriminate|].
  destruct n as [i c0 fl cs]. simpl in *. f_equal.
  rewrite get_child_chfind in H. simpl in H.
  destruct (chfind c cs) as [x|] eqn:E.
  - rewrite (update_child_ext c _ (fun y => y)).
    + clear. induction cs as [|y cs IH]; simpl; auto.
      destruct (Byte.eqb (ch y) c); f_equal; auto.
    + intros y Hy. rewrite E in Hy. injection Hy as <-. auto.
  - apply update_child_none. exact E.
Qed.

Lemma get_node_update_same n p f :
  (forall x, get_node n p = Some x -> ch (f x) = ch x) ->
  get_node (update_node n p f) p = option_map f (get_node n p).
Proof.
  revert n. induction p as [|c p IH]; simpl; intros n H; auto.
  rewrite !get_child_chfind. simpl.
  rewrite chfind_update_child_same.
  - destruct (chfind c (children n)) as [x|] eqn:E; simpl; auto.
    apply IH. intros y Hy. apply H.
    rewrite get_child_chfind, E. exact Hy.
  - intros x Hx. rewrite ch_update_node.
    + eapply chfind_ch; eauto.
    + intros ->. apply H. rewrite get_child_chfind, Hx. reflexivity.
Qed.

Lemma get_node_update_below n p q f :
  (forall x, get_node n p = Some x -> ch (f x) = ch x) ->
  get_node (update_node n p f) (p ++ q)
  = match get_node n p with
    | Some x => get_node (f x) q
    | None => None
    end.
Proof.
  intros H. rewrite get_node_app, get_node_update_same by exact H.
  destruct (get_node n p); reflexivity.
Qed.

(** Pointers that part ways at some byte do not see each other's
    writes. *)
Lemma get_node_update_diverge n l a b p q f :
  a <> b ->
  (forall x, get_node n (l ++ a :: p) = Some x -> ch (f x) = ch x) ->
  get_node (update_node n (l ++ a :: p) f) (l ++ b :: q)
  = get_node n (l ++ b :: q).
Proof.
  intros Hab. revert n. induction l as [|c l IH]; simpl; intros n H.
  - rewrite !get_child_chfind. simpl.
    rewrite chfind_update_child_other; auto.
    intros x Hx. rewrite ch_update_node.
    + eapply chfind_ch; eauto.
    + intros ->. apply H. rewrite get_child_chfind, Hx. reflexivity.
  - rewrite !get_child_chfind. simpl.
    rewrite chfind_update_child_same.
    + destruct (chfind c (children n)) as [x|] eqn:E; simpl; auto.
      apply IH. intros y Hy. apply H.
      rewrite get_child_chfind, E. exact Hy.
    + intros x Hx. rewrite ch_update_node.
      * eapply chfind_ch; eauto.
      * intros Hl. destruct l; discriminate.
Qed.


(* ------------------------------------------------------------------ *)
(** ** The walk of [trie_set_item] *)

Lemma end_node_nil n : end_node n [] = n.
Proof. reflexivity. Qed.

Lemma end_node_found n c r x :
  trienode_get_child n c = Some x -> end_node n (c :: r) = end_node x r.
Proof.
  intros E. unfold end_node. simpl. rewrite E.
  destruct (get_node x r) eqn:G; auto.
  destruct r; [discriminate|reflexivity].
Qed.

Lemma end_node_fresh n c r :
  trienode_get_child n c = None ->
  end_node n (c :: r) = end_node (trienode_new None NULL 0 [] c 0) r.
Proof.
  intros E. unfold end_node. simpl. rewrite E.
  destruct r as [|c' r]; simpl; reflexivity.
Qed.

Lemma set_walk_spec {A : Type} (fin : TrieNode -> TrieNode * A) :
  (forall x, ch (fst (fin x)) = ch x) ->
  forall k n nn ms,
    snd (set_walk n k nn ms fin) = snd (fin (end_node n k))
    /\ get_node (fst (fst (fst (set_walk n k nn ms fin)))) k
       = Some (fst (fin (end_node n k)))
    /\ ch (fst (fst (fst (set_walk n k nn ms fin)))) = ch n.
Proof.
  intros Hch. induction k as [|c r IH]; intros n nn ms.
  - simpl. rewrite end_node_nil. specialize (Hch n).
    destruct (fin n) as [n' a]. simpl in *. auto.
  - simpl. destruct (trienode_get_child n c) as [x|] eqn:E.
    + rewrite (end_node_found n c r x E).
      destruct (IH x nn ms) as [Ha [Hg Hc]].
      destruct (set_walk x r nn ms fin) as [[[x' nn'] ms'] a].
      simpl in *. repeat split; auto.
      rewrite get_child_chfind. simpl.
      rewrite get_child_chfind in E.
      rewrite chfind_update_child_same, E; simpl; auto.
      intros y Hy. rewrite Hc. eapply chfind_ch; eauto.
    + rewrite (end_node_fresh n c r E).
      destruct (IH (trienode_new None NULL 0 [] c 0)
                   (to_size_t (nn + 1)) (to_size_t (ms + sizeof_TrieNode)))
        as [Ha [Hg Hc]].
      destruct (set_walk _ r _ _ fin) as [[[x' nn'] ms'] a].
      simpl in *. repeat split; auto.
      unfold trienode_get_child. simpl. rewrite Hc, byte_eqb_refl.
      exact Hg.
Qed.

Lemma set_final_ch k v d x : ch (fst (set_final k v d x)) = ch x.
Proof.
  unfold set_final. destruct (key (item x)); reflexivity.
Qed.

Lemma set_final_node k v d x :
  fst (set_final k v d x)
  = set_item (mkItem (Some k) v (to_size_t (Z.of_nat (length k)))) x.
Proof.
  unfold set_final. destruct (key (item x)); reflexivity.
Qed.

Lemma has_item_end_node n k :
  has_item (end_node n k)
  = match get_node n k with Some x => has_item x | None => false end.
Proof.
  unfold end_node. destruct (get_node n k); reflexivity.
Qed.

(** What [trie_set_item] leaves in the store, field by field. *)
Lemma trie_set_item_fields root k v d :
  let w := set_walk (rnode root) (cstr k) (num_nodes root) (memsize root)
                    (set_final (cstr k) v d) in
  let e := end_node (rnode root) (cstr k) in
  let root' := snd (fst (trie_set_item root k v d)) in
  fst (fst (trie_set_item root k v d)) = 0
  /\ rnode root' = fst (fst (fst w))
  /\ num_nodes root' = snd (fst (fst w))
  /\ num_items root'
     = (if has_item e then num_items root
        else to_size_t (num_items root + 1))
  /\ state_id root'
     = (if has_item e then state_id root
        else to_llong (state_id root + 1))
  /\ dirty_iter root' = dirty_iter root
  /\ snd (trie_set_item root k v d)
     = (if has_item e then snd (trieitem_free (item e) d) else [])
  /\ memsize root'
     = to_size_t
         ((if has_item e then
             to_size_t (snd (fst w)
                        - to_size_t (sizeof_TRIECHAR * (keylen (item e) + 1)))
           else snd (fst w))
          + to_size_t (sizeof_TRIECHAR
                       * (to_size_t (Z.of_nat (length (cstr k))) + 1))).
Proof.
  intros w e root'. subst root'. unfold trie_set_item.
  pose proof (set_walk_spec (set_final (cstr k) v d)
                (set_final_ch (cstr k) v d)
                (cstr k) (rnode root) (num_nodes root) (memsize root))
    as [Ha _].
  fold w in Ha. fold e in Ha. fold w.
  destruct w as [[[n' nn] ms] [[fresh oldlen] ev]]. simpl in *.
  unfold set_final in Ha. unfold has_item.
  destruct (key (item e)); simpl in Ha; inversion Ha; subst;
    simpl; repeat split; reflexivity.
Qed.

Lemma trie_has_key_end_node root k :
  trie_has_key root k = has_item (end_node (rnode root) (cstr k)).
Proof.
  unfold trie_has_key, trie_get_node. rewrite has_item_end_node.
  reflexivity.
Qed.

Lemma trie_set_item_state_id root k v d :
  state_id (snd (fst (trie_set_item root k v d)))
  = if trie_has_key root k then state_id root
    else to_llong (state_id root + 1).
Proof.
  rewrite trie_has_key_end_node.
  apply (trie_set_item_fields root k v d).
Qed.

Lemma trie_set_item_get_node root k v d :
  trie_get_node (snd (fst (trie_set_item root k v d))) k
  = Some (set_item (mkItem (Some (cstr k)) v
                           (to_size_t (Z.of_nat (length (cstr k)))))
                   (end_node (rnode root) (cstr k))).
Proof.
  unfold trie_get_node.
  destruct (trie_set_item_fields root k v d) as [_ [-> _]].
  pose proof (set_walk_spec (set_final (cstr k) v d)
                (set_final_ch (cstr k) v d)
                (cstr k) (rnode root) (num_nodes root) (memsize root))
    as [_ [Hg _]].
  rewrite Hg, set_final_node. reflexivity.
Qed.

(* ------------------------------------------------------------------ *)
(** ** The upward loop of [trie_del_item] *)

Lemma remove_child_ch x c d : ch (fst (trienode_remove_child x c d)) = ch x.
Proof.
  unfold trienode_remove_child.
  destruct (remove_child_list (children x) c d). reflexivity.
Qed.

Lemma del_prune_frame d rp :
  forall root root' ev,
    del_prune rp root d = Some (root', ev) ->
    state_id root' = state_id root /\ dirty_iter root' = dirty_iter root
    /\ num_items root' = num_items root.
Proof.
  induction rp as [|c rp IH]; intros root root' ev H.
  - simpl in H. inversion H. auto.
  - cbn [del_prune] in H.
    destruct (get_node (rnode root) (rev (c :: rp))) as [n|]; [|discriminate].
    destruct (children n); [|inversion H; auto].
    destruct (key (item n)); [inversion H; auto|].
    destruct (get_node (rnode root) (rev rp)) as [parent|]; [|discriminate].
    match type of H with
    | match del_prune rp ?r d with _ => _ end = _ =>
        destruct (del_prune rp r d) as [[r2 ev2]|] eqn:E; [|discriminate];
        apply IH in E
    end.
    inversion H; subst. simpl in E. exact E.
Qed.

Lemma del_prune_total d rp :
  forall root,
    get_node (rnode root) (rev rp) <> None ->
    del_prune rp root d <> None.
Proof.
  induction rp as [|c rp IH]; intros root Hv.
  - simpl. discriminate.
  - cbn [del_prune].
    destruct (get_node (rnode root) (rev (c :: rp))) as [n|] eqn:En;
      [|congruence].
    destruct (children n); [|discriminate].
    destruct (key (item n)); [discriminate|].
    simpl in En. destruct (get_node_prefix _ _ _ _ En) as [parent Ep].
    rewrite Ep.
    match goal with
    | |- match del_prune rp ?r d with _ => _ end <> _ =>
        pose proof (IH r) as IH'; destruct (del_prune rp r d) as [[r2 ev2]|]
    end; [discriminate|].
    exfalso. apply IH'; [|reflexivity]. simpl.
    rewrite get_node_update_same, Ep; [discriminate|].
    intros. apply remove_child_ch.
Qed.

Lemma set_item_ch i x : ch (set_item i x) = ch x.
Proof. reflexivity. Qed.

Lemma trie_del_item_absent root k d :
  trie_has_key root k = false ->
  trie_del_item root k d = Some (-1, root, []).
Proof.
  unfold trie_has_key, trie_get_node, trie_del_item, has_item.
  destruct (get_node (rnode root) (cstr k)) as [n|]; auto.
  destruct (key (item n)); [discriminate|auto].
Qed.

Lemma trie_del_item_present root k d :
  trie_has_key root k = true ->
  exists root' ev,
    trie_del_item root k d = Some (0, root', ev)
    /\ state_id root' = to_llong (state_id root + 1)
    /\ dirty_iter root' = dirty_iter root
    /\ num_items root' = to_size_t (num_items root - 1).
Proof.
  unfold trie_has_key, trie_get_node, trie_del_item, has_item.
  destruct (get_node (rnode root) (cstr k)) as [n|] eqn:En; [|discriminate].
  destruct (key (item n)); [intros _|discriminate].
  destruct (trieitem_free (item n) d) as [i' ev].
  match goal with
  | |- context [del_prune ?rp ?r d] =>
      pose proof (del_prune_total d rp r) as Ht;
      pose proof (del_prune_frame d rp r) as Hf;
      destruct (del_prune rp r d) as [[r2 ev2]|]
  end.
  - destruct (Hf _ _ eq_refl) as [Hs [Hd Hn]]. simpl in *.
    eexists _, _. split; [reflexivity|]. simpl. rewrite Hs, Hd, Hn. auto.
  - exfalso. apply Ht; [|reflexivity]. simpl. rewrite rev_involutive.
    rewrite get_node_update_same, En; [discriminate|].
    intros. apply set_item_ch.
Qed.

Lemma trie_del_item_total root k d :
  exists rc root' ev, trie_del_item root k d = Some (rc, root', ev).
Proof.
  destruct (trie_has_key root k) eqn:E.
  - destruct (trie_del_item_present root k d E) as [r [ev [H _]]]. eauto.
  - rewrite (trie_del_item_absent root k d E). eauto.
Qed.

Lemma apply_mutation_total root m :
  exists rc root' ev, apply_mutation root m = Some (rc, root', ev).
Proof.
  destruct m as [k v d|k d]; simpl.
  - destruct (trie_set_item root k v d) as [[rc r] ev]. eauto.
  - apply trie_del_item_total.
Qed.

(** The effect of one mutating call on [state_id]. *)
Lemma apply_mutation_state_id root m rc root' ev :
  apply_mutation root m = Some (rc, root', ev) ->
  state_id root'
  = if changes_keys root m then to_llong (state_id root + 1)
    else state_id root.
Proof.
  destruct m as [k v d|k d]; simpl; intros H.
  - inversion H as [H1].
    pose proof (trie_set_item_state_id root k v d) as Hs.
    rewrite H1 in Hs. simpl in Hs. rewrite Hs.
    destruct (trie_has_key root k); reflexivity.
  - destruct (trie_has_key root k) eqn:E.
    + destruct (trie_del_item_present root k d E) as [r [e [Hd [Hs _]]]].
      congruence.
    + rewrite (trie_del_item_absent root k d E) in H. congruence.
Qed.

(* ------------------------------------------------------------------ *)
(** ** Setting a key whose node exists *)

Lemma set_walk_existing {A : Type} (fin : TrieNode -> TrieNode * A) k :
  forall n nn ms x,
    get_node n k = Some x ->
    set_walk n k nn ms fin
    = (update_node n k (fun y => fst (fin y)), nn, ms, snd (fin x)).
Proof.
  induction k as [|c r IH]; intros n nn ms x H; simpl in *.
  - inversion H; subst. destruct (fin x); reflexivity.
  - destruct (trienode_get_child n c) as [y|] eqn:E; [|discriminate].
    rewrite (IH y nn ms x H).
    rewrite (update_child_ext c
               (fun _ => update_node y r (fun y0 => fst (fin y0)))
               (fun z => update_node z r (fun y0 => fst (fin y0)))
               (children n)); [reflexivity|].
    intros z Hz. rewrite get_child_chfind in E. congruence.
Qed.

Lemma list_sum_update_child (g : TrieNode -> nat) c f cs :
  (forall x, chfind c cs = Some x -> g (f x) = g x) ->
  list_sum (map g (update_child c f cs)) = list_sum (map g cs).
Proof.
  unfold chfind. induction cs as [|y cs IH]; simpl; intros H; auto.
  destruct (Byte.eqb (ch y) c) eqn:E; simpl.
  - rewrite (H y eq_refl). reflexivity.
  - rewrite IH; auto.
Qed.

Lemma count_nodes_eq n :
  count_nodes n = S (list_sum (map count_nodes (children n))).
Proof. destruct n; reflexivity. Qed.

Lemma count_items_eq n :
  count_items n
  = ((if has_item n then 1 else 0)
     + list_sum (map count_items (children n)))%nat.
Proof. destruct n as [i c fl cs]. unfold has_item. simpl.
  destruct (key i); reflexivity. Qed.

Lemma count_nodes_update_node p f :
  forall n,
    (forall x, get_node n p = Some x -> count_nodes (f x) = count_nodes x) ->
    count_nodes (update_node n p f) = count_nodes n.
Proof.
  induction p as [|c r IH]; intros n H; simpl.
  - apply H. reflexivity.
  - rewrite (count_nodes_eq n). f_equal.
    apply list_sum_update_child. intros x Hx. apply IH.
    intros y Hy. apply H. simpl. rewrite get_child_chfind, Hx. exact Hy.
Qed.

Lemma trie_set_item_existing root k v d x :
  trie_get_node root k = Some x ->
  rnode (snd (fst (trie_set_item root k v d)))
  = update_node (rnode root) (cstr k)
      (set_item (mkItem (Some (cstr k)) v
                        (to_size_t (Z.of_nat (length (cstr k))))))
  /\ num_nodes (snd (fst (trie_set_item root k v d))) = num_nodes root.
Proof.
  unfold trie_get_node. intros H.
  destruct (trie_set_item_fields root k v d) as [_ [-> [-> _]]].
  rewrite (set_walk_existing _ _ _ _ _ _ H). simpl. split; auto.
  apply update_node_ext. intros y _. apply set_final_node.
Qed.

(** C6 (amended).  A mutating call advances [state_id] by one when it
    changes the set of stored keys (a [set] of a key that was not stored,
    a [del] of a stored key) and leaves it unchanged otherwise, in
    particular when a [set] overwrites the value of a stored key; every
    call that adds or removes a node advances it; it never decreases.
    The counter is assumed not to be at [LLONG_MAX]. *)
Theorem state_id_tracks_key_changes root m rc root' ev :
  - 2 ^ 63 <= state_id root < LLONG_MAX ->
  apply_mutation root m = Some (rc, root', ev) ->
  state_id root' = state_id root + (if changes_keys root m then 1 else 0)
  /\ (count_nodes (rnode root') <> count_nodes (rnode root) ->
      state_id root < state_id root')
  /\ state_id root <= state_id root'.
Proof.
  unfold LLONG_MAX. intros Hr H.
  pose proof (apply_mutation_state_id _ _ _ _ _ H) as Hs.
  assert (Hs' : state_id root'
                = state_id root + (if changes_keys root m then 1 else 0)).
  { rewrite Hs. destruct (changes_keys root m); [|lia].
    apply to_llong_small. lia. }
  split; [exact Hs'|]. split; [|destruct (changes_keys root m); lia].
  intros Hcount. destruct (changes_keys root m) eqn:Hk; [lia|].
  exfalso. apply Hcount. destruct m as [k v d|k d]; simpl in *.
  - apply negb_false_iff in Hk. unfold trie_has_key in Hk.
    destruct (trie_get_node root k) as [x|] eqn:G; [|discriminate].
    destruct (trie_set_item_existing root k v d x G) as [Hn _].
    inversion H as [H1]. rewrite H1 in Hn. simpl in Hn. rewrite Hn.
    apply count_nodes_update_node. intros y _. destruct y; reflexivity.
  - rewrite (trie_del_item_absent root k d Hk) in H. inversion H; subst.
    reflexivity.
Qed.

Lemma state_id_tracks_key_changes_witness :
  - 2 ^ 63 <= state_id store_a < LLONG_MAX
  /\ apply_mutation store_a (Set_item (bytes "b") 9 None)
     = Some (0, store_a_plus_b, [])
  /\ state_id store_a_plus_b
     = state_id store_a
       + (if changes_keys store_a (Set_item (bytes "b") 9 None)
          then 1 else 0)
  /\ (count_nodes (rnode store_a_plus_b) <> count_nodes (rnode store_a) ->
      state_id store_a < state_id store_a_plus_b)
  /\ state_id store_a <= state_id store_a_plus_b.
Proof.
  assert (H1 : - 2 ^ 63 <= state_id store_a < LLONG_MAX)
    by (split; [vm_compute; discriminate|vm_compute; reflexivity]).
  assert (H2 : apply_mutation store_a (Set_item (bytes "b") 9 None)
               = Some (0, store_a_plus_b, []))
    by (vm_compute; reflexivity).
  split; [exact H1|]. split; [exact H2|].
  exact (state_id_tracks_key_changes store_a
           (Set_item (bytes "b") 9 None) 0 store_a_plus_b [] H1 H2).
Defined.

(** C6, as stated, fails: setting the prefix "a" of the stored key "ab"
    adds no node and removes none, and [state_id] increases. *)
Lemma set_of_prefix_bumps_state_id :
  apply_mutation store_ab (Set_item (bytes "a") 7 None)
  = Some (0, store_ab_plus_a, [])
  /\ count_nodes (rnode store_ab_plus_a) = count_nodes (rnode store_ab)
  /\ trie_reset (update_node (rnode store_ab_plus_a) (bytes "a")
                             (set_item (mkItem None NULL 0)))
     = rnode store_ab
  /\ num_nodes store_ab_plus_a = num_nodes store_ab
  /\ state_id store_ab < state_id store_ab_plus_a.
Proof.
  repeat split; vm_compute; reflexivity.
Qed.

(* ------------------------------------------------------------------ *)
(** ** Iterator creation and the state counter *)



Lemma run_mutations_state_id ms :
  forall root root',
    - 2 ^ 63 <= state_id root ->
    state_id root + Z.of_nat (length ms) <= LLONG_MAX ->
    run_mutations root ms = Some root' ->
    state_id root <= state_id root' <= state_id root + Z.of_nat (length ms)
    /\ (any_key_change root ms = true -> state_id root < state_id root').
Proof.
  unfold LLONG_MAX.
  induction ms as [|m ms IH]; intros root root' Hlo Hhi Hrun.
  - simpl in *. inversion Hrun; subst. split; [lia|discriminate].
  - cbn [run_mutations any_key_change] in *.
    destruct (apply_mutation root m) as [[[rc r1] ev]|] eqn:E;
      [|discriminate].
    pose proof (apply_mutation_state_id _ _ _ _ _ E) as Hs.
    change (length (m :: ms)) with (S (length ms)) in *.
    assert (Hs' : state_id r1
                  = state_id root + (if changes_keys root m then 1 else 0)).
    { rewrite Hs. destruct (changes_keys root m); [|lia].
      apply to_llong_small. lia. }
    assert (H1 : - 2 ^ 63 <= state_id r1)
      by (rewrite Hs'; destruct (changes_keys root m); lia).
    assert (H2 : state_id r1 + Z.of_nat (length ms) <= 2 ^ 63 - 1)
      by (rewrite Hs'; destruct (changes_keys root m); lia).
    destruct (IH r1 root' H1 H2 Hrun) as [Hb Hc].
    split.
    + rewrite Hs' in Hb. destruct (changes_keys root m); lia.
    + intros Hany. rewrite Hs' in Hb, Hc.
      destruct (changes_keys root m); simpl in Hany; [lia|].
      specialize (Hc Hany). lia.
Qed.


(* ------------------------------------------------------------------ *)
(** ** Teardown *)

(** C9 (amended).  After [trieiter_free], every node's flags are zero
    provided the iterator torn down is the one registered as the store's
    dirty iterator, or no flag was set when it was torn down. *)
Theorem trieiter_free_flags_zero root it :
  dirty_iter root = Some (self it) \/ all_flags_zero (rnode root) = true ->
  all_flags_zero (rnode (trieiter_free root it)) = true.
Proof.
  unfold trieiter_free. intros [H|H].
  - rewrite H, Pos.eqb_refl. simpl. apply trie_reset_flags_zero.
  - destruct (dirty_iter root) as [a|]; [|exact H].
    destruct (Pos.eqb a (self it)); [|exact H].
    simpl. apply trie_reset_flags_zero.
Qed.

Lemma trieiter_free_flags_zero_witness :
  (dirty_iter pairs_store_3 = Some (self pairs_iter_2')
   \/ all_flags_zero (rnode pairs_store_3) = true)
  /\ all_flags_zero (rnode pairs_store_3) = false
  /\ all_flags_zero (rnode (trieiter_free pairs_store_3 pairs_iter_2')) = true.
Proof.
  assert (H : dirty_iter pairs_store_3 = Some (self pairs_iter_2')
              \/ all_flags_zero (rnode pairs_store_3) = true)
    by (left; vm_compute; reflexivity).
  split; [exact H|]. split; [vm_compute; reflexivity|].
  exact (trieiter_free_flags_zero pairs_store_3 pairs_iter_2' H).
Defined.

(** C9, as stated, fails: a dirty iterator that was replaced is torn down
    while its successor has marked nodes, and the marks stay. *)
Lemma teardown_of_replaced_iterator_keeps_flags :
  trieiter_hammingpairs store_aa_ab 1 2 1 = Some (pairs_iter_1, pairs_store_1)
  /\ trieiter_hammingpairs pairs_store_1 2 2 1
     = Some (pairs_iter_2, pairs_store_2)
  /\ trieiter_next 10 pairs_store_2 pairs_iter_2
     = Some (Some (mkResult (bytes "aa") (bytes "ab") 1),
             pairs_store_3, pairs_iter_2')
  /\ all_flags_zero (rnode (trieiter_free pairs_store_3 pairs_iter_1)) = false.
Proof.
  repeat split; vm_compute; reflexivity.
Qed.

(* ------------------------------------------------------------------ *)
(** ** Round trip through [set] and [get_item] *)

Lemma trie_set_item_get_item root k v d :
  fst (fst (trie_set_item root k v d)) = 0
  /\ trie_get_item (snd (fst (trie_set_item root k v d))) k
     = Some (mkItem (Some (cstr k)) v
                    (to_size_t (Z.of_nat (length (cstr k))))).
Proof.
  split.
  - apply (trie_set_item_fields root k v d).
  - unfold trie_get_item. rewrite trie_set_item_get_node. reflexivity.
Qed.

Lemma trie_set_item_events_after_set root k v1 v2 d :
  snd (trie_set_item (snd (fst (trie_set_item root k v1 d))) k v2 d)
  = match d with
    | Some h => if v1 =? NULL then [] else [Dealloc h v1]
    | None => []
    end.
Proof.
  destruct (trie_set_item_fields (snd (fst (trie_set_item root k v1 d)))
              k v2 d) as [_ [_ [_ [_ [_ [_ [-> _]]]]]]].
  pose proof (trie_set_item_get_node root k v1 d) as G.
  unfold trie_get_node in G. unfold end_node. rewrite G.
  unfold has_item, trieitem_free. simpl.
  destruct d as [h|]; [|reflexivity].
  destruct (v1 =? NULL); reflexivity.
Qed.

(** C4 (amended).  After [set(k, v)], [get_item(k)] returns an item whose
    value is [v] and whose key is [k]; after [set(k, v1, dealloc)]
    followed by [set(k, v2, dealloc)], [get_item(k)] returns the value
    [v2], and the second [set] calls the deallocator exactly once, on
    [v1], when [v1] is not NULL and a deallocator is given, and does not
    call it otherwise. *)
Theorem set_get_roundtrip root k v1 v2 d :
  let s1 := trie_set_item root k v1 d in
  let s2 := trie_set_item (snd (fst s1)) k v2 d in
  fst (fst s1) = 0
  /\ trie_get_item (snd (fst s1)) k
     = Some (mkItem (Some (cstr k)) v1
                    (to_size_t (Z.of_nat (length (cstr k)))))
  /\ fst (fst s2) = 0
  /\ trie_get_item (snd (fst s2)) k
     = Some (mkItem (Some (cstr k)) v2
                    (to_size_t (Z.of_nat (length (cstr k)))))
  /\ snd s2 = match d with
              | Some h => if v1 =? NULL then [] else [Dealloc h v1]
              | None => []
              end.
Proof.
  intros s1 s2. subst s1 s2.
  destruct (trie_set_item_get_item root k v1 d) as [H1 H2].
  destruct (trie_set_item_get_item
              (snd (fst (trie_set_item root k v1 d))) k v2 d) as [H3 H4].
  repeat split; auto. apply trie_set_item_events_after_set.
Qed.

(** C4, as stated, fails: a NULL value that is overwritten is not passed
    to the deallocator. *)
Lemma null_value_is_not_deallocated :
  let s1 := trie_set_item trie_new (bytes "a") NULL (Some 1%positive) in
  let s2 := trie_set_item (snd (fst s1)) (bytes "a") 5 (Some 1%positive) in
  fst (fst s1) = 0
  /\ fst (fst s2) = 0
  /\ trie_get_item (snd (fst s2)) (bytes "a")
     = Some (mkItem (Some (bytes "a")) 5 1)
  /\ snd s1 ++ snd s2 = [].
Proof.
  repeat split; vm_compute; reflexivity.
Qed.

(** A C string without NUL is its own contents. *)
Lemma cstr_id k : existsb (Byte.eqb NUL) k = false -> cstr k = k.
Proof.
  induction k as [|c k IH]; simpl; auto.
  intros H. apply orb_false_iff in H. destruct H as [Hc Hk].
  destruct (Byte.eqb c NUL) eqn:E.
  - apply byte_eqb_eq in E. apply byte_eqb_neq in Hc. congruence.
  - f_equal. auto.
Qed.

(* ------------------------------------------------------------------ *)
(** ** Well-formedness read through a pointer *)

Lemma bytes_eqb_eq a b : bytes_eqb a b = true <-> a = b.
Proof.
  revert b. induction a as [|x a IH]; intros [|y b]; simpl;
    split; intros H; try discriminate; auto.
  - apply andb_prop in H. destruct H as [H1 H2].
    apply byte_eqb_eq in H1. apply IH in H2. congruence.
  - inversion H; subst. rewrite byte_eqb_refl. apply IH. reflexivity.
Qed.

Lemma nodup_ch_NoDup l : nodup_ch l = true <-> NoDup l.
Proof.
  induction l as [|c l IH]; simpl.
  - split; [constructor|reflexivity].
  - rewrite andb_true_iff, negb_true_iff, IH. split.
    + intros [H1 H2]. constructor; auto. intros Hin.
      assert (existsb (Byte.eqb c) l = true); [|congruence].
      apply existsb_exists. exists c. split; auto. apply byte_eqb_refl.
    + intros H. inversion H; subst. split; auto.
      destruct (existsb (Byte.eqb c) l) eqn:E; auto.
      apply existsb_exists in E. destruct E as [y [Hy Hc]].
      apply byte_eqb_eq in Hc. subst. contradiction.
Qed.

Lemma wf_node_eq p n :
  wf_node p n
  = item_ok p (item n) && nodup_ch (map ch (children n))
    && forallb (fun x => wf_node (p ++ [ch x]) x) (children n).
Proof. destruct n; reflexivity. Qed.

Lemma wf_node_parts p n :
  wf_node p n = true ->
  item_ok p (item n) = true
  /\ NoDup (map ch (children n))
  /\ (forall x, In x (children n) -> wf_node (p ++ [ch x]) x = true).
Proof.
  rewrite wf_node_eq, !andb_true_iff, nodup_ch_NoDup, forallb_forall.
  tauto.
Qed.

Lemma wf_node_get p :
  forall q n x,
    wf_node q n = true -> get_node n p = Some x ->
    wf_node (q ++ p) x = true.
Proof.
  induction p as [|c p IH]; intros q n x Hw Hg; simpl in Hg.
  - inversion Hg; subst. rewrite app_nil_r. exact Hw.
  - destruct (trienode_get_child n c) as [y|] eqn:E; [|discriminate].
    rewrite get_child_chfind in E.
    apply wf_node_parts in Hw. destruct Hw as [_ [_ Hc]].
    specialize (Hc y (chfind_in _ _ _ E)).
    rewrite (chfind_ch _ _ _ E) in Hc.
    replace (q ++ c :: p) with ((q ++ [c]) ++ p)
      by (rewrite <- app_assoc; reflexivity).
    eapply IH; eauto.
Qed.

Lemma item_ok_key p i k0 :
  item_ok p i = true -> key i = Some k0 ->
  k0 = p /\ keylen i = to_size_t (Z.of_nat (length p)).
Proof.
  unfold item_ok. intros H Hk. rewrite Hk in H. apply andb_prop in H.
  destruct H as [H1 H2]. apply bytes_eqb_eq in H1. apply Z.eqb_eq in H2.
  auto.
Qed.

(** The key stored at a node is the pointer to the node. *)
Lemma wf_key_is_path root p x k0 :
  wf_node [] (rnode root) = true ->
  get_node (rnode root) p = Some x ->
  key (item x) = Some k0 ->
  k0 = p /\ keylen (item x) = to_size_t (Z.of_nat (length p)).
Proof.
  intros Hw Hg Hk.
  pose proof (wf_node_get p [] _ _ Hw Hg) as Hx. simpl in Hx.
  apply wf_node_parts in Hx. destruct Hx as [Hi _].
  eapply item_ok_key; eauto.
Qed.

Lemma wf_store_parts root :
  wf_store root = true ->
  wf_node [] (rnode root) = true
  /\ no_dead (rnode root) = true
  /\ num_nodes root = to_size_t (Z.of_nat (count_nodes (rnode root)) - 1)
  /\ num_items root = to_size_t (Z.of_nat (count_items (rnode root)))
  /\ 0 <= memsize root < 2 ^ 64
  /\ (dirty_iter root = None -> all_flags_zero (rnode root) = true).
Proof.
  unfold wf_store. rewrite !andb_true_iff.
  intros [[[[[[H1 H2] H3] H4] H5] H6] H7].
  apply Z.eqb_eq in H3, H4. apply Z.leb_le in H5. apply Z.ltb_lt in H6.
  repeat split; auto. intros Hd. rewrite Hd in H7. exact H7.
Qed.

(** A write that keeps [ch] and [children] is not seen through any
    other pointer, as far as items go. *)
Lemma get_node_update_other_item f :
  (forall x, ch (f x) = ch x) ->
  (forall x, children (f x) = children x) ->
  forall q p n,
    p <> q ->
    option_map item (get_node (update_node n p f) q)
    = option_map item (get_node n q).
Proof.
  intros Hch Hcs. induction q as [|c' q IH]; intros p n Hne.
  - destruct p; [contradiction|]. reflexivity.
  - destruct p as [|c r].
    + simpl. rewrite !get_child_chfind, Hcs. reflexivity.
    + simpl. rewrite !get_child_chfind. simpl.
      destruct (Byte.eqb c c') eqn:E.
      * apply byte_eqb_eq in E. subst c'.
        rewrite chfind_update_child_same.
        -- destruct (chfind c (children n)) as [x|]; simpl; auto.
           apply IH. congruence.
        -- intros x Hx. rewrite ch_update_node; [eapply chfind_ch; eauto|].
           intros _. apply Hch.
      * apply byte_eqb_neq in E.
        rewrite chfind_update_child_other; auto.
        intros x Hx. rewrite ch_update_node; [eapply chfind_ch; eauto|].
        intros _. apply Hch.
Qed.

Lemma trie_get_item_of_items root root' k :
  option_map item (trie_get_node root' k)
  = option_map item (trie_get_node root k) ->
  trie_get_item root' k = trie_get_item root k.
Proof.
  unfold trie_get_item, has_item.
  destruct (trie_get_node root' k) as [x|], (trie_get_node root k) as [y|];
    simpl; intros H; inversion H; auto.
Qed.

Lemma to_size_t_sub_add ms a :
  0 <= ms < 2 ^ 64 ->
  to_size_t (to_size_t (ms - a) + a) = ms.
Proof.
  intros H. unfold to_size_t. rewrite Zplus_mod_idemp_l.
  replace (ms - a + a) with ms by lia. apply Z.mod_small. lia.
Qed.

Lemma skeleton_eq n :
  skeleton n = Node (mkItem None NULL 0) (ch n) 0 (map skeleton (children n)).
Proof. destruct n; reflexivity. Qed.

Lemma skeleton_update_node p f :
  forall n,
    (forall x, get_node n p = Some x -> skeleton (f x) = skeleton x) ->
    skeleton (update_node n p f) = skeleton n.
Proof.
  induction p as [|c r IH]; intros n H; simpl.
  - apply H. reflexivity.
  - rewrite (skeleton_eq n). f_equal.
    assert (Hc : forall x, chfind c (children n) = Some x ->
                           skeleton (update_node x r f) = skeleton x).
    { intros x Hx. apply IH. intros y Hy. apply H. simpl.
      rewrite get_child_chfind, Hx. exact Hy. }
    revert Hc. generalize (children n). unfold chfind.
    induction l as [|y l IHl]; simpl; intros Hc; auto.
    destruct (Byte.eqb (ch y) c) eqn:E; simpl.
    + rewrite (Hc y eq_refl). reflexivity.
    + f_equal. apply IHl. intros x Hx. apply Hc. exact Hx.
Qed.

(* ------------------------------------------------------------------ *)
(** ** Overwriting a stored key *)

(** C10.  A [set] of a key that is already stored replaces the value of
    that key's item and nothing else: the key buffer has the same
    contents and length, the tree is the old one with that value written
    in, the counters, [state_id] and [memsize] keep their values, and the
    item of every other key is what it was. *)
Theorem overwrite_changes_only_value root k v2 d :
  wf_store root = true ->
  trie_has_key root k = true ->
  let root' := snd (fst (trie_set_item root k v2 d)) in
  rnode root' = update_node (rnode root) (cstr k) (set_value v2)
  /\ (exists v1,
        trie_get_item root k
        = Some (mkItem (Some (cstr k)) v1
                       (to_size_t (Z.of_nat (length (cstr k)))))
        /\ trie_get_item root' k
           = Some (mkItem (Some (cstr k)) v2
                          (to_size_t (Z.of_nat (length (cstr k))))))
  /\ num_nodes root' = num_nodes root
  /\ num_items root' = num_items root
  /\ state_id root' = state_id root
  /\ memsize root' = memsize root
  /\ dirty_iter root' = dirty_iter root
  /\ skeleton (rnode root') = skeleton (rnode root)
  /\ (forall k', cstr k' <> cstr k ->
        trie_get_item root' k' = trie_get_item root k').
Proof.
  intros Hwf Hk root'.
  apply wf_store_parts in Hwf.
  destruct Hwf as [Hw [_ [_ [_ [Hms _]]]]].
  pose proof Hk as Hk'. unfold trie_has_key in Hk'.
  destruct (trie_get_node root k) as [x|] eqn:G; [|discriminate].
  unfold has_item in Hk'.
  destruct (key (item x)) as [k0|] eqn:Kx; [clear Hk'|discriminate].
  unfold trie_get_node in G.
  destruct (wf_key_is_path root _ _ _ Hw G Kx) as [-> Hlen].
  assert (He : end_node (rnode root) (cstr k) = x)
    by (unfold end_node; rewrite G; reflexivity).
  assert (Hx : has_item x = true) by (unfold has_item; rewrite Kx; auto).
  destruct (trie_set_item_existing root k v2 d x G) as [Hn Hnn].
  destruct (trie_set_item_fields root k v2 d)
    as [_ [_ [_ [Hni [Hsid [Hdi [_ Hmem]]]]]]].
  rewrite He, Hx in Hni, Hsid, Hmem.
  assert (Hn' : rnode root'
                = update_node (rnode root) (cstr k) (set_value v2)).
  { subst root'. rewrite Hn. apply update_node_ext. intros y Hy.
    rewrite G in Hy. inversion Hy; subst y.
    unfold set_value. rewrite Kx, Hlen. reflexivity. }
  split; [exact Hn'|]. split.
  { exists (value (item x)). split.
    - unfold trie_get_item, trie_get_node. rewrite G, Hx. f_equal.
      destruct x as [[kx vx lx] cx fx csx]. simpl in *. congruence.
    - apply (trie_set_item_get_item root k v2 d). }
  split; [exact Hnn|]. split; [exact Hni|]. split; [exact Hsid|].
  split.
  { subst root'. rewrite Hmem.
    rewrite (set_walk_existing _ _ _ _ _ _ G). simpl snd. simpl fst.
    rewrite Hlen. apply to_size_t_sub_add. exact Hms. }
  split; [exact Hdi|]. split.
  { rewrite Hn'. apply skeleton_update_node. intros y _.
    destruct y; reflexivity. }
  intros k' Hne. apply trie_get_item_of_items.
  unfold trie_get_node. rewrite Hn'.
  apply get_node_update_other_item; auto.
Qed.

Lemma overwrite_changes_only_value_witness :
  wf_store store_a = true
  /\ trie_has_key store_a (bytes "a") = true
  /\ rnode store_a_overwritten
     = update_node (rnode store_a) (cstr (bytes "a")) (set_value 9)
  /\ memsize store_a_overwritten = memsize store_a.
Proof.
  assert (H1 : wf_store store_a = true) by (vm_compute; reflexivity).
  assert (H2 : trie_has_key store_a (bytes "a") = true)
    by (vm_compute; reflexivity).
  split; [exact H1|]. split; [exact H2|].
  destruct (overwrite_changes_only_value store_a (bytes "a") 9 None H1 H2)
    as [Ha [_ [_ [_ [_ [Hb _]]]]]].
  split; [exact Ha|exact Hb].
Defined.

(* ------------------------------------------------------------------ *)
(** ** The keys and the nodes of a well-formed tree *)

Lemma keys_below_eq n :
  keys_below n
  = (if has_item n then [[]] else [])
    ++ flat_map (fun x => map (cons (ch x)) (keys_below x)) (children n).
Proof.
  destruct n as [i c fl cs]. unfold has_item. simpl.
  destruct (key i); reflexivity.
Qed.

Lemma nodes_below_eq n :
  nodes_below n
  = flat_map (fun x => map (cons (ch x)) ([] :: nodes_below x)) (children n).
Proof. destruct n; reflexivity. Qed.

Lemma length_keys_below n : length (keys_below n) = count_items n.
Proof.
  induction n as [i c fl cs IH] using TrieNode_ind'. simpl.
  rewrite length_app, length_flat_map. f_equal.
  - destruct (key i); reflexivity.
  - f_equal. apply map_ext_in. intros x Hx. rewrite length_map.
    rewrite Forall_forall in IH. auto.
Qed.

Lemma length_nodes_below n : S (length (nodes_below n)) = count_nodes n.
Proof.
  induction n as [i c fl cs IH] using TrieNode_ind'. simpl.
  rewrite length_flat_map. do 2 f_equal.
  apply map_ext_in. intros x Hx. simpl. rewrite length_map.
  rewrite Forall_forall in IH. auto.
Qed.

Lemma chfind_NoDup cs x :
  NoDup (map ch cs) -> In x cs -> chfind (ch x) cs = Some x.
Proof.
  unfold chfind. induction cs as [|y cs IH]; simpl; intros Hnd Hin.
  - contradiction.
  - inversion Hnd; subst. destruct Hin as [->|Hin].
    + rewrite byte_eqb_refl. reflexivity.
    + destruct (Byte.eqb (ch y) (ch x)) eqn:E; auto.
      apply byte_eqb_eq in E. exfalso. apply H1. rewrite E.
      apply in_map. exact Hin.
Qed.

Lemma has_key_at_nil n : has_key_at n [] = has_item n.
Proof. reflexivity. Qed.

Lemma has_key_at_cons n c q :
  has_key_at n (c :: q)
  = match chfind c (children n) with
    | Some x => has_key_at x q
    | None => false
    end.
Proof.
  unfold has_key_at. simpl. rewrite get_child_chfind.
  destruct (chfind c (children n)); reflexivity.
Qed.

Lemma in_keys_below n :
  forall p k,
    wf_node p n = true ->
    (In k (keys_below n) <-> has_key_at n k = true).
Proof.
  induction n as [i c fl cs IH] using TrieNode_ind'.
  intros p k Hw. apply wf_node_parts in Hw. simpl in Hw.
  destruct Hw as [_ [Hnd Hc]].
  rewrite keys_below_eq. simpl children. rewrite in_app_iff, in_flat_map.
  rewrite Forall_forall in IH. split.
  - intros [H|[x [Hx H]]].
    + destruct (has_item (Node i c fl cs)) eqn:E; [|contradiction].
      destruct H as [<-|[]]. exact E.
    + apply in_map_iff in H. destruct H as [k' [<- Hk']].
      rewrite has_key_at_cons. simpl. rewrite (chfind_NoDup cs x Hnd Hx).
      apply (IH x Hx (p ++ [ch x]) k' (Hc x Hx)). exact Hk'.
  - destruct k as [|c' k'].
    + rewrite has_key_at_nil. intros ->. left. left. reflexivity.
    + rewrite has_key_at_cons. simpl.
      destruct (chfind c' cs) as [x|] eqn:E; [|discriminate].
      intros H. right. exists x. split; [eapply chfind_in; eauto|].
      rewrite (chfind_ch _ _ _ E). apply in_map.
      apply (IH x (chfind_in _ _ _ E) (p ++ [ch x]) k'); auto.
      apply Hc. eapply chfind_in; eauto.
Qed.

Lemma NoDup_flat_map_cons (f : TrieNode -> list nodeptr) cs :
  NoDup (map ch cs) ->
  (forall x, In x cs -> NoDup (f x)) ->
  NoDup (flat_map (fun x => map (cons (ch x)) (f x)) cs).
Proof.
  induction cs as [|y cs IH]; simpl; intros Hnd Hf.
  - constructor.
  - inversion Hnd; subst. apply NoDup_app.
    + apply Finite.Injective_map_NoDup; auto.
      intros a b H. inversion H. reflexivity.
    + apply IH; auto.
    + intros a Ha Hb. apply in_map_iff in Ha. destruct Ha as [a' [<- _]].
      apply in_flat_map in Hb. destruct Hb as [x [Hx Hb]].
      apply in_map_iff in Hb. destruct Hb as [b' [Hb _]].
      inversion Hb. apply H1. rewrite <- H0. apply in_map. exact Hx.
Qed.

Lemma NoDup_keys_below n :
  forall p, wf_node p n = true -> NoDup (keys_below n).
Proof.
  induction n as [i c fl cs IH] using TrieNode_ind'.
  intros p Hw. apply wf_node_parts in Hw. simpl in Hw.
  destruct Hw as [_ [Hnd Hc]]. rewrite keys_below_eq. simpl children.
  rewrite Forall_forall in IH. apply NoDup_app.
  - destruct (has_item _); repeat constructor. intros [].
  - apply NoDup_flat_map_cons; auto. intros x Hx.
    apply (IH x Hx (p ++ [ch x])). auto.
  - intros a Ha Hb. destruct (has_item _); [|contradiction].
    destruct Ha as [<-|[]]. apply in_flat_map in Hb.
    destruct Hb as [x [_ Hb]]. apply in_map_iff in Hb.
    destruct Hb as [b' [Hb _]]. discriminate.
Qed.

Lemma in_nodes_below n :
  forall p q,
    wf_node p n = true ->
    (In q (nodes_below n) <-> q <> [] /\ get_node n q <> None).
Proof.
  induction n as [i c fl cs IH] using TrieNode_ind'.
  intros p q Hw. apply wf_node_parts in Hw. simpl in Hw.
  destruct Hw as [_ [Hnd Hc]].
  rewrite nodes_below_eq. simpl children. rewrite in_flat_map.
  rewrite Forall_forall in IH. split.
  - intros [x [Hx H]]. apply in_map_iff in H.
    destruct H as [q' [<- Hq']]. split; [discriminate|].
    simpl. rewrite get_child_chfind. simpl.
    rewrite (chfind_NoDup cs x Hnd Hx).
    destruct Hq' as [<-|Hq']; [discriminate|].
    apply (IH x Hx (p ++ [ch x]) q' (Hc x Hx)). exact Hq'.
  - intros [Hne Hg]. destruct q as [|c' q']; [congruence|].
    simpl in Hg. rewrite get_child_chfind in Hg. simpl in Hg.
    destruct (chfind c' cs) as [x|] eqn:E; [|congruence].
    exists x. split; [eapply chfind_in; eauto|].
    rewrite (chfind_ch _ _ _ E). apply in_map.
    destruct q' as [|c'' q'']; [left; reflexivity|right].
    apply (IH x (chfind_in _ _ _ E) (p ++ [ch x]) (c'' :: q'')).
    + apply Hc. eapply chfind_in; eauto.
    + split; [discriminate|exact Hg].
Qed.

Lemma NoDup_nodes_below n :
  forall p, wf_node p n = true -> NoDup (nodes_below n).
Proof.
  induction n as [i c fl cs IH] using TrieNode_ind'.
  intros p Hw. apply wf_node_parts in Hw. simpl in Hw.
  destruct Hw as [_ [Hnd Hc]]. rewrite nodes_below_eq. simpl children.
  rewrite Forall_forall in IH.
  apply (NoDup_flat_map_cons (fun x => [] :: nodes_below x)); auto.
  intros x Hx. constructor.
  - intros H. apply (in_nodes_below x (p ++ [ch x]) [] (Hc x Hx)) in H.
    destruct H as [H _]. congruence.
  - apply (IH x Hx (p ++ [ch x])). auto.
Qed.

(* ------------------------------------------------------------------ *)
(** ** What a write through a pointer preserves *)

Lemma map_ch_update_child c f cs :
  (forall x, chfind c cs = Some x -> ch (f x) = ch x) ->
  map ch (update_child c f cs) = map ch cs.
Proof.
  unfold chfind. induction cs as [|y cs IH]; simpl; intros H; auto.
  destruct (Byte.eqb (ch y) c) eqn:E; simpl.
  - rewrite (H y eq_refl). reflexivity.
  - f_equal. apply IH. exact H.
Qed.

Lemma in_update_child c f cs y :
  In y (update_child c f cs) ->
  In y cs \/ exists x, chfind c cs = Some x /\ y = f x.
Proof.
  unfold chfind. induction cs as [|z cs IH]; simpl; intros H; auto.
  destruct (Byte.eqb (ch z) c) eqn:E; simpl in H.
  - destruct H as [<-|H]; [right; eauto|auto].
  - destruct H as [<-|H]; auto.
    destruct (IH H) as [H'|H']; auto.
Qed.

Lemma forallb_update_child (P : TrieNode -> bool) c f cs :
  forallb P cs = true ->
  (forall x, chfind c cs = Some x -> P (f x) = true) ->
  forallb P (update_child c f cs) = true.
Proof.
  intros H1 H2. apply forallb_forall. intros y Hy.
  rewrite forallb_forall in H1.
  destruct (in_update_child c f cs y Hy) as [H|[x [Hx ->]]]; auto.
Qed.

Lemma update_child_id c cs : update_child c (fun x => x) cs = cs.
Proof.
  induction cs as [|y cs IH]; simpl; auto.
  destruct (Byte.eqb (ch y) c); f_equal; auto.
Qed.

Lemma update_node_id p : forall n, update_node n p (fun x => x) = n.
Proof.
  induction p as [|c r IH]; intros n; simpl; auto.
  destruct n as [i c0 fl cs]. simpl. f_equal.
  rewrite (update_child_ext c _ (fun x => x)); [apply update_child_id|].
  intros x _. apply IH.
Qed.

Lemma update_node_compose p f g :
  forall n,
    (forall x, get_node n p = Some x -> ch (f x) = ch x) ->
    update_node (update_node n p f) p g
    = update_node n p (fun x => g (f x)).
Proof.
  induction p as [|c r IH]; intros n H; simpl; auto.
  f_equal. rewrite update_child_compose.
  - apply update_child_ext. intros x Hx. apply IH.
    intros y Hy. apply H. simpl. rewrite get_child_chfind, Hx. exact Hy.
  - intros x Hx. rewrite ch_update_node; [eapply chfind_ch; eauto|].
    intros ->. apply H. simpl. rewrite get_child_chfind, Hx. reflexivity.
Qed.

Lemma wf_node_update_node f p :
  forall q n,
    wf_node q n = true ->
    (forall x, get_node n p = Some x -> wf_node (q ++ p) x = true ->
               wf_node (q ++ p) (f x) = true /\ ch (f x) = ch x) ->
    wf_node q (update_node n p f) = true.
Proof.
  induction p as [|c r IH]; intros q n Hw H; simpl.
  - rewrite app_nil_r in H. apply H; auto.
  - pose proof (wf_node_parts _ _ Hw) as [Hi [Hnd Hc]].
    assert (Hg : forall x, chfind c (children n) = Some x ->
                   wf_node (q ++ [c]) (update_node x r f) = true
                   /\ ch (update_node x r f) = ch x).
    { intros x Hx. pose proof (chfind_in _ _ _ Hx) as Hin.
      pose proof (chfind_ch _ _ _ Hx) as Hcx. split.
      - apply IH; [rewrite <- Hcx; auto|].
        intros y Hy Hwy. rewrite <- app_assoc in *. simpl in *.
        apply H; auto. rewrite get_child_chfind, Hx. exact Hy.
      - apply ch_update_node. intros ->.
        apply (H x).
        + simpl. rewrite get_child_chfind, Hx. reflexivity.
        + rewrite <- Hcx. auto. }
    rewrite Hi. simpl.
    rewrite map_ch_update_child by (intros x Hx; apply Hg; auto).
    apply nodup_ch_NoDup in Hnd. rewrite Hnd. simpl.
    apply forallb_forall. intros y Hy.
    destruct (in_update_child _ _ _ _ Hy) as [Hin|[x [Hx ->]]]; auto.
    destruct (Hg x Hx) as [H1 H2]. rewrite H2, (chfind_ch _ _ _ Hx).
    exact H1.
Qed.

Section Counting.
Variable g : TrieNode -> nat.
Variable w : TrieItem -> nat.
Hypothesis g_eq :
  forall n, g n = (w (item n) + list_sum (map g (children n)))%nat.

Lemma list_sum_update_child_gen c f cs x :
  chfind c cs = Some x ->
  (list_sum (map g (update_child c f cs)) + g x
   = list_sum (map g cs) + g (f x))%nat.
Proof.
  unfold chfind. induction cs as [|y cs IH]; simpl; intros H.
  - discriminate.
  - destruct (Byte.eqb (ch y) c) eqn:E; simpl.
    + inversion H; subst. lia.
    + specialize (IH H). lia.
Qed.

Lemma measure_update_node p f :
  forall n x,
    get_node n p = Some x ->
    (g (update_node n p f) + g x = g n + g (f x))%nat.
Proof.
  induction p as [|c r IH]; intros n x H; simpl in *.
  - inversion H; subst. lia.
  - rewrite get_child_chfind in H.
    destruct (chfind c (children n)) as [y|] eqn:E; [|discriminate].
    rewrite (g_eq n), (g_eq (Node _ _ _ _)). simpl.
    pose proof (list_sum_update_child_gen c
                  (fun z => update_node z r f) (children n) y E) as H1.
    specialize (IH y x H). lia.
Qed.
End Counting.

Lemma count_nodes_measure n :
  count_nodes n
  = ((fun _ => 1%nat) (item n) + list_sum (map count_nodes (children n)))%nat.
Proof. destruct n; reflexivity. Qed.

Lemma count_items_measure n :
  count_items n
  = ((fun i => match key i with Some _ => 1 | None => 0 end)%nat (item n)
     + list_sum (map count_items (children n)))%nat.
Proof. destruct n; reflexivity. Qed.

Lemma all_flags_zero_eq n :
  all_flags_zero n
  = (flags n =? 0) && forallb all_flags_zero (children n).
Proof. destruct n; reflexivity. Qed.

Lemma all_flags_zero_update_node f p :
  forall n,
    all_flags_zero n = true ->
    (forall x, get_node n p = Some x -> all_flags_zero x = true ->
               all_flags_zero (f x) = true) ->
    all_flags_zero (update_node n p f) = true.
Proof.
  induction p as [|c r IH]; intros n Hz H; cbn [update_node].
  - apply H; auto.
  - rewrite all_flags_zero_eq in Hz. apply andb_prop in Hz.
    destruct Hz as [H1 H2]. rewrite all_flags_zero_eq. simpl.
    rewrite H1. simpl. apply forallb_update_child; auto.
    intros x Hx. rewrite forallb_forall in H2. apply IH.
    + apply H2. eapply chfind_in; eauto.
    + intros y Hy. apply H. simpl. rewrite get_child_chfind, Hx. exact Hy.
Qed.

Lemma no_dead_eq n :
  no_dead n = forallb (fun x => live x && no_dead x) (children n).
Proof. destruct n; reflexivity. Qed.

Lemma update_child_nonempty c f cs :
  match update_child c f cs with [] => false | _ :: _ => true end
  = match cs with [] => false | _ :: _ => true end.
Proof.
  destruct cs as [|y cs]; simpl; auto.
  destruct (Byte.eqb (ch y) c); reflexivity.
Qed.

(** Two writes through the same pointer, the second at least as live as
    the first. *)
Lemma no_dead_update_node_mono g1 g2 p :
  forall n,
    (forall y, get_node n p = Some y ->
       (no_dead (g1 y) = true -> no_dead (g2 y) = true)
       /\ (p <> [] -> live (g1 y) = true -> live (g2 y) = true)) ->
    no_dead (update_node n p g1) = true ->
    no_dead (update_node n p g2) = true.
Proof.
  induction p as [|c r IH]; intros n H; cbn [update_node].
  - apply H. reflexivity.
  - rewrite !no_dead_eq. simpl. intros Hd.
    assert (Hsub : forall y, chfind c (children n) = Some y ->
              forall z, get_node y r = Some z ->
                (no_dead (g1 z) = true -> no_dead (g2 z) = true)
                /\ (c :: r <> [] -> live (g1 z) = true -> live (g2 z) = true)).
    { intros y Hy z Hz. apply H. simpl.
      rewrite get_child_chfind, Hy. exact Hz. }
    clear H. revert Hd Hsub. generalize (children n). unfold chfind.
    induction l as [|y l IHl]; simpl; intros Hd Hsub; auto.
    destruct (Byte.eqb (ch y) c) eqn:E; simpl in *.
    + apply andb_prop in Hd. destruct Hd as [Hy Hl].
      apply andb_prop in Hy. destruct Hy as [Hlive Hnd].
      rewrite Hl, andb_true_r. apply andb_true_intro. split.
      * destruct r as [|c2 r2].
        -- simpl in *. apply (Hsub y eq_refl y eq_refl); auto. discriminate.
        -- unfold live in *. simpl in *.
           rewrite update_child_nonempty in *. exact Hlive.
      * apply IH; auto. intros z Hz.
        destruct (Hsub y eq_refl z Hz) as [Ha Hb]. split; auto.
        intros Hr. apply Hb. discriminate.
    + apply andb_prop in Hd. destruct Hd as [Hy Hl].
      rewrite Hy. simpl. apply IHl; auto.
Qed.

(* ------------------------------------------------------------------ *)
(** ** [trie_set_item] keeps the store well formed *)

Lemma set_walk_node {A : Type} (fin : TrieNode -> TrieNode * A) k :
  forall n nn ms,
    fst (fst (fst (set_walk n k nn ms fin)))
    = set_node n k (fun x => fst (fin x)).
Proof.
  induction k as [|c r IH]; intros n nn ms; simpl.
  - destruct (fin n); reflexivity.
  - rewrite get_child_chfind.
    destruct (chfind c (children n)) as [x|].
    + specialize (IH x nn ms).
      destruct (set_walk x r nn ms fin) as [[[x' nn'] ms'] a].
      simpl in *. subst. reflexivity.
    + specialize (IH (trienode_new None NULL 0 [] c 0)
                     (to_size_t (nn + 1))
                     (to_size_t (ms + sizeof_TrieNode))).
      destruct (set_walk _ r _ _ fin) as [[[x' nn'] ms'] a].
      simpl in *. subst. reflexivity.
Qed.

Lemma set_node_ch f k :
  (forall x, ch (f x) = ch x) ->
  forall n, ch (set_node n k f) = ch n.
Proof.
  intros Hf. destruct k as [|c r]; intros n; simpl; auto.
  destruct (chfind c (children n)); reflexivity.
Qed.

Lemma chfind_none_not_in c cs :
  chfind c cs = None -> ~ In c (map ch cs).
Proof.
  unfold chfind. intros H Hin. apply in_map_iff in Hin.
  destruct Hin as [x [Hx Hin]].
  apply (find_none _ _ H) in Hin. apply byte_eqb_neq in Hin. congruence.
Qed.

Lemma bytes_eqb_refl a : bytes_eqb a a = true.
Proof. apply bytes_eqb_eq. reflexivity. Qed.

Lemma set_node_wf v k :
  forall q n,
    wf_node q n = true ->
    wf_node q
      (set_node n k
         (set_item (mkItem (Some (q ++ k)) v
                           (to_size_t (Z.of_nat (length (q ++ k)))))))
    = true.
Proof.
  induction k as [|c r IH]; intros q n Hw.
  - cbn [set_node]. rewrite app_nil_r.
    pose proof (wf_node_parts _ _ Hw) as [_ [Hnd Hc]].
    rewrite wf_node_eq. simpl. unfold item_ok. simpl.
    rewrite bytes_eqb_refl, Z.eqb_refl. simpl.
    apply nodup_ch_NoDup in Hnd. rewrite Hnd. simpl.
    apply forallb_forall. exact Hc.
  - pose proof (wf_node_parts _ _ Hw) as [Hi [Hnd Hc]].
    cbn [set_node].
    replace (q ++ c :: r) with ((q ++ [c]) ++ r)
      by (rewrite <- app_assoc; reflexivity).
    destruct (chfind c (children n)) as [x|] eqn:E.
    + pose proof (chfind_in _ _ _ E) as Hin.
      pose proof (chfind_ch _ _ _ E) as Hcx.
      specialize (IH (q ++ [c]) x).
      rewrite <- Hcx in IH at 1. specialize (IH (Hc x Hin)).
      rewrite wf_node_eq. simpl. rewrite Hi. simpl.
      rewrite map_ch_update_child.
      * apply nodup_ch_NoDup in Hnd. rewrite Hnd. simpl.
        apply forallb_forall. intros y Hy.
        destruct (in_update_child _ _ _ _ Hy) as [H|[z [Hz ->]]]; auto.
        rewrite set_node_ch by reflexivity.
        rewrite E in Hz. inversion Hz; subst z. rewrite Hcx. exact IH.
      * intros z Hz. rewrite set_node_ch by reflexivity. congruence.
    + specialize (IH (q ++ [c]) (trienode_new None NULL 0 [] c 0) eq_refl).
      assert (Hnd' : nodup_ch (c :: map ch (children n)) = true).
      { apply nodup_ch_NoDup. constructor; auto.
        apply chfind_none_not_in. exact E. }
      rewrite wf_node_eq. simpl. rewrite Hi. simpl.
      rewrite set_node_ch by reflexivity. simpl.
      simpl in Hnd'. rewrite Hnd'. simpl.
      rewrite IH. simpl. apply forallb_forall. exact Hc.
Qed.

Lemma live_set_node i k n :
  key i <> None -> live (set_node n k (set_item i)) = true.
Proof.
  intros Hi. unfold live, has_item. destruct k as [|c r]; simpl.
  - destruct (key i); [reflexivity|congruence].
  - destruct (chfind c (children n)) eqn:E; simpl.
    + rewrite update_child_nonempty.
      destruct (children n); [discriminate|apply orb_true_r].
    + apply orb_true_r.
Qed.

Lemma no_dead_set_node i k :
  key i <> None ->
  forall n, no_dead n = true -> no_dead (set_node n k (set_item i)) = true.
Proof.
  intros Hi. induction k as [|c r IH]; intros n Hn.
  - simpl. rewrite no_dead_eq in *. exact Hn.
  - cbn [set_node]. rewrite no_dead_eq in Hn.
    destruct (chfind c (children n)) as [x|] eqn:E.
    + rewrite no_dead_eq. simpl. apply forallb_update_child; auto.
      intros y Hy. rewrite E in Hy. inversion Hy; subst y.
      rewrite live_set_node by exact Hi. simpl. apply IH.
      rewrite forallb_forall in Hn.
      specialize (Hn x (chfind_in _ _ _ E)).
      apply andb_prop in Hn. tauto.
    + rewrite no_dead_eq. simpl. rewrite Hn, andb_true_r.
      rewrite live_set_node by exact Hi. simpl. apply IH. reflexivity.
Qed.

Lemma all_flags_zero_set_node i k :
  forall n,
    all_flags_zero n = true ->
    all_flags_zero (set_node n k (set_item i)) = true.
Proof.
  induction k as [|c r IH]; intros n Hn.
  - simpl. rewrite all_flags_zero_eq in *. exact Hn.
  - cbn [set_node]. rewrite all_flags_zero_eq in Hn.
    apply andb_prop in Hn. destruct Hn as [H1 H2].
    destruct (chfind c (children n)) as [x|] eqn:E.
    + rewrite all_flags_zero_eq. simpl. rewrite H1. simpl.
      apply forallb_update_child; auto.
      intros y Hy. rewrite E in Hy. inversion Hy; subst y.
      apply IH. rewrite forallb_forall in H2. apply H2.
      eapply chfind_in; eauto.
    + rewrite all_flags_zero_eq. simpl. rewrite H1, H2, andb_true_r.
      simpl. apply IH. reflexivity.
Qed.

Lemma has_key_at_leaf c q :
  has_key_at (trienode_new None NULL 0 [] c 0) q = false.
Proof. destruct q; reflexivity. Qed.

Lemma set_node_has_key_at i k :
  key i <> None ->
  forall n q,
    has_key_at (set_node n k (set_item i)) q
    = if key_eq_dec q k then true else has_key_at n q.
Proof.
  intros Hi. induction k as [|c r IH]; intros n q.
  - simpl. destruct q as [|c' q'].
    + rewrite has_key_at_nil. unfold has_item. simpl.
      destruct (key i); [|congruence].
      destruct (key_eq_dec [] []); [reflexivity|congruence].
    + destruct (key_eq_dec (c' :: q') []); [discriminate|].
      rewrite !has_key_at_cons. reflexivity.
  - cbn [set_node]. destruct q as [|c' q'].
    + destruct (key_eq_dec [] (c :: r)); [discriminate|].
      destruct (chfind c (children n)); reflexivity.
    + rewrite (has_key_at_cons n).
      destruct (chfind c (children n)) as [x|] eqn:E.
      * rewrite has_key_at_cons. simpl.
        destruct (Byte.byte_eq_dec c c') as [<-|Hne].
        -- rewrite chfind_update_child_same, E.
           ++ simpl. rewrite IH.
              destruct (key_eq_dec q' r), (key_eq_dec (c :: q') (c :: r));
                congruence.
           ++ intros y Hy. rewrite set_node_ch by reflexivity.
              eapply chfind_ch; eauto.
        -- rewrite chfind_update_child_other; auto.
           ++ destruct (key_eq_dec (c' :: q') (c :: r)); congruence.
           ++ intros y Hy. rewrite set_node_ch by reflexivity.
              eapply chfind_ch; eauto.
      * rewrite has_key_at_cons. simpl. unfold chfind at 1. simpl.
        rewrite set_node_ch by reflexivity. simpl.
        destruct (Byte.eqb c c') eqn:Ec.
        -- apply byte_eqb_eq in Ec. subst c'. rewrite E, IH.
           rewrite has_key_at_leaf.
           destruct (key_eq_dec q' r), (key_eq_dec (c :: q') (c :: r));
             congruence.
        -- apply byte_eqb_neq in Ec. fold (chfind c' (children n)).
           destruct (key_eq_dec (c' :: q') (c :: r)); congruence.
Qed.

Lemma to_size_t_succ X : to_size_t (to_size_t X + 1) = to_size_t (X + 1).
Proof. unfold to_size_t. apply Zplus_mod_idemp_l. Qed.

Lemma to_size_t_pred X : to_size_t (to_size_t X - 1) = to_size_t (X - 1).
Proof. unfold to_size_t. apply Zminus_mod_idemp_l. Qed.

Lemma set_walk_num_nodes {A : Type} (fin : TrieNode -> TrieNode * A) k :
  (forall x, count_nodes (fst (fin x)) = count_nodes x) ->
  forall n nn ms X,
    nn = to_size_t X ->
    snd (fst (fst (set_walk n k nn ms fin)))
    = to_size_t (X + Z.of_nat (count_nodes
                                 (set_node n k (fun x => fst (fin x))))
                 - Z.of_nat (count_nodes n)).
Proof.
  intros Hf. induction k as [|c r IH]; intros n nn ms X HX.
  - simpl. rewrite Hf. destruct (fin n). simpl. rewrite HX. f_equal. lia.
  - simpl. rewrite get_child_chfind.
    destruct (chfind c (children n)) as [x|] eqn:E.
    + specialize (IH x nn ms X HX).
      destruct (set_walk x r nn ms fin) as [[[x' nn'] ms'] a].
      simpl in *. rewrite IH. f_equal.
      pose proof (list_sum_update_child_gen count_nodes c
                    (fun _ => set_node x r (fun y => fst (fin y)))
                    (children n) x E) as H1.
      rewrite (count_nodes_eq n). lia.
    + specialize (IH (trienode_new None NULL 0 [] c 0)
                     (to_size_t (nn + 1))
                     (to_size_t (ms + sizeof_TrieNode)) (X + 1)).
      rewrite HX, to_size_t_succ in IH. specialize (IH eq_refl).
      rewrite HX, to_size_t_succ.
      destruct (set_walk _ r _ _ fin) as [[[x' nn'] ms'] a].
      simpl in *. rewrite IH. f_equal.
      rewrite (count_nodes_eq n). lia.
Qed.

Lemma has_item_node i c fl cs :
  has_item (Node i c fl cs)
  = match key i with Some _ => true | None => false end.
Proof. reflexivity. Qed.

Lemma count_items_set_node i k :
  key i <> None ->
  forall n,
    count_items (set_node n k (set_item i))
    = (count_items n + if has_key_at n k then 0 else 1)%nat.
Proof.
  intros Hi. induction k as [|c r IH]; intros n.
  - cbn [set_node]. rewrite has_key_at_nil.
    rewrite (count_items_eq (set_item i n)), (count_items_eq n).
    unfold set_item. rewrite has_item_node. cbn [children].
    destruct (key i); [|congruence]. destruct (has_item n); lia.
  - cbn [set_node]. rewrite has_key_at_cons.
    destruct (chfind c (children n)) as [x|] eqn:E.
    + rewrite (count_items_eq n), (count_items_eq (Node _ _ _ _)).
      rewrite has_item_node. cbn [children]. fold (has_item n).
      pose proof (list_sum_update_child_gen count_items c
                    (fun _ => set_node x r (set_item i))
                    (children n) x E) as H1.
      cbv beta in H1. rewrite IH in H1. destruct (has_item n); lia.
    + rewrite (count_items_eq n), (count_items_eq (Node _ _ _ _)).
      rewrite has_item_node. cbn [children map list_sum].
      fold (has_item n).
      rewrite IH, has_key_at_leaf. simpl count_items. simpl list_sum.
      destruct (has_item n); lia.
Qed.

Lemma trie_set_item_rnode root k v d :
  rnode (snd (fst (trie_set_item root k v d)))
  = set_node (rnode root) (cstr k)
      (set_item (mkItem (Some (cstr k)) v
                        (to_size_t (Z.of_nat (length (cstr k)))))).
Proof.
  destruct (trie_set_item_fields root k v d) as [_ [-> _]].
  rewrite set_walk_node. clear.
  generalize (rnode root). generalize (cstr k) at 1 3.
  induction l as [|c r IH]; intros n; simpl.
  - apply set_final_node.
  - destruct (chfind c (children n)); rewrite IH; reflexivity.
Qed.

Lemma trie_has_key_has_key_at root k :
  trie_has_key root k = has_key_at (rnode root) (cstr k).
Proof. reflexivity. Qed.

Lemma trie_set_item_has_key root k v d k' :
  trie_has_key (snd (fst (trie_set_item root k v d))) k'
  = if key_eq_dec (cstr k') (cstr k) then true else trie_has_key root k'.
Proof.
  rewrite !trie_has_key_has_key_at, trie_set_item_rnode.
  apply set_node_has_key_at. discriminate.
Qed.

Lemma wf_store_intro root :
  wf_node [] (rnode root) = true ->
  no_dead (rnode root) = true ->
  num_nodes root = to_size_t (Z.of_nat (count_nodes (rnode root)) - 1) ->
  num_items root = to_size_t (Z.of_nat (count_items (rnode root))) ->
  0 <= memsize root < 2 ^ 64 ->
  (dirty_iter root = None -> all_flags_zero (rnode root) = true) ->
  wf_store root = true.
Proof.
  intros H1 H2 H3 H4 H5 H6. unfold wf_store.
  rewrite !andb_true_iff. repeat split; auto.
  - apply Z.eqb_eq. exact H3.
  - apply Z.eqb_eq. exact H4.
  - apply Z.leb_le. tauto.
  - apply Z.ltb_lt. tauto.
  - destruct (dirty_iter root); auto.
Qed.

Lemma trie_set_item_wf root k v d :
  wf_store root = true ->
  wf_store (snd (fst (trie_set_item root k v d))) = true.
Proof.
  intros Hwf. apply wf_store_parts in Hwf.
  destruct Hwf as [Hw [Hnd [Hnn [Hni [Hms Hfl]]]]].
  pose proof (trie_set_item_rnode root k v d) as Hr.
  destruct (trie_set_item_fields root k v d)
    as [_ [Hr' [Hnn' [Hni' [_ [Hdi [_ Hms']]]]]]].
  apply wf_store_intro.
  - rewrite Hr. apply (set_node_wf v (cstr k) [] (rnode root) Hw).
  - rewrite Hr. apply no_dead_set_node; [discriminate|exact Hnd].
  - rewrite Hnn', Hr', set_walk_node.
    rewrite (set_walk_num_nodes (set_final (cstr k) v d) (cstr k))
      with (X := Z.of_nat (count_nodes (rnode root)) - 1); auto.
    + f_equal. lia.
    + intros x. rewrite set_final_node. destruct x; reflexivity.
  - rewrite Hni', Hr, count_items_set_node by discriminate.
    rewrite has_item_end_node. fold (has_key_at (rnode root) (cstr k)).
    destruct (has_key_at (rnode root) (cstr k)).
    + rewrite Hni. f_equal. lia.
    + rewrite Hni, to_size_t_succ. f_equal. lia.
  - rewrite Hms'. apply to_size_t_range.
  - rewrite Hdi, Hr. intros Hd. apply all_flags_zero_set_node. auto.
Qed.

(* ------------------------------------------------------------------ *)
(** ** [trie_del_item] keeps the store well formed *)

Lemma has_key_at_update_node f p :
  forall n q,
    (forall x, get_node n p = Some x ->
       ch (f x) = ch x /\ forall q', has_key_at (f x) q' = has_key_at x q') ->
    has_key_at (update_node n p f) q = has_key_at n q.
Proof.
  induction p as [|c r IH]; intros n q H.
  - simpl. apply H. reflexivity.
  - cbn [update_node]. destruct q as [|c' q']; [reflexivity|].
    rewrite !has_key_at_cons. cbn [children].
    assert (Hch : forall x, chfind c (children n) = Some x ->
                            ch (update_node x r f) = c).
    { intros x Hx. rewrite ch_update_node; [eapply chfind_ch; eauto|].
      intros ->. apply H. simpl. rewrite get_child_chfind, Hx. reflexivity. }
    destruct (Byte.byte_eq_dec c c') as [<-|Hne].
    + rewrite chfind_update_child_same by exact Hch.
      destruct (chfind c (children n)) as [x|] eqn:E; simpl; auto.
      apply IH. intros y Hy. apply H. simpl.
      rewrite get_child_chfind, E. exact Hy.
    + rewrite chfind_update_child_other; auto.
Qed.

(** *** Unlinking a childless child *)

Lemma remove_child_list_found cs c d n :
  chfind c cs = Some n -> children n = [] ->
  NoDup (map ch cs) ->
  let cs' := fst (remove_child_list cs c d) in
  (forall z, In z cs' -> In z cs /\ ch z <> c)
  /\ NoDup (map ch cs')
  /\ (forall g : TrieNode -> nat,
        (list_sum (map g cs') + g n = list_sum (map g cs))%nat)
  /\ (forall c', chfind c' cs'
                 = if Byte.eqb c c' then None else chfind c' cs).
Proof.
  unfold chfind. induction cs as [|y cs IH]; simpl; intros Hf Hleaf Hnd.
  - discriminate.
  - inversion Hnd as [|? ? Hnotin Hnd']; subst.
    destruct (Byte.eqb (ch y) c) eqn:E.
    + inversion Hf; subst y. rewrite Hleaf. simpl.
      apply byte_eqb_eq in E. subst c.
      split; [|split; [|split]].
      * intros z Hz. split; [right; exact Hz|].
        intros Heq. apply Hnotin. rewrite <- Heq. apply in_map. exact Hz.
      * exact Hnd'.
      * intros g. lia.
      * intros c'. destruct (Byte.eqb (ch n) c') eqn:E'; auto.
        apply byte_eqb_eq in E'. subst c'.
        destruct (find _ cs) as [z|] eqn:Ez; auto.
        apply find_some in Ez. destruct Ez as [Hz1 Hz2].
        apply byte_eqb_eq in Hz2. exfalso. apply Hnotin.
        rewrite <- Hz2. apply in_map. exact Hz1.
    + specialize (IH Hf Hleaf Hnd').
      destruct (remove_child_list cs c d) as [cs' ev]. simpl in *.
      destruct IH as [I1 [I2 [I3 I4]]].
      split; [|split; [|split]].
      * intros z [<-|Hz].
        -- split; [left; reflexivity|apply byte_eqb_neq; exact E].
        -- destruct (I1 z Hz). split; [right|]; auto.
      * constructor; auto. intros Hin. apply Hnotin.
        apply in_map_iff in Hin. destruct Hin as [z [Hz1 Hz2]].
        rewrite <- Hz1. apply in_map. apply I1. exact Hz2.
      * intros g. specialize (I3 g). lia.
      * intros c'. rewrite I4.
        destruct (Byte.eqb (ch y) c') eqn:E'; auto.
        apply byte_eqb_eq in E'. subst c'.
        destruct (Byte.eqb c (ch y)) eqn:E''; auto.
        apply byte_eqb_eq in E''. apply byte_eqb_neq in E. congruence.
Qed.

Lemma in_update_child_other c f cs z :
  In z cs -> ch z <> c -> In z (update_child c f cs).
Proof.
  induction cs as [|y cs IH]; simpl; intros Hin Hne; auto.
  destruct (Byte.eqb (ch y) c) eqn:E.
  - destruct Hin as [->|Hin]; [|right; exact Hin].
    apply byte_eqb_eq in E. contradiction.
  - destruct Hin as [->|Hin]; [left; reflexivity|right; auto].
Qed.

Lemma remove_child_fields y c d :
  item (fst (trienode_remove_child y c d)) = item y
  /\ flags (fst (trienode_remove_child y c d)) = flags y
  /\ children (fst (trienode_remove_child y c d))
     = fst (remove_child_list (children y) c d).
Proof.
  unfold trienode_remove_child.
  destruct (remove_child_list (children y) c d). auto.
Qed.

Lemma has_key_at_childless n q :
  children n = [] -> has_item n = false -> has_key_at n q = false.
Proof.
  intros Hc Hi. destruct q as [|c q]; [exact Hi|].
  rewrite has_key_at_cons, Hc. reflexivity.
Qed.

Lemma count_nodes_childless n : children n = [] -> count_nodes n = 1%nat.
Proof. destruct n. simpl. intros ->. reflexivity. Qed.

Lemma count_items_childless n :
  children n = [] -> has_item n = false -> count_items n = 0%nat.
Proof.
  rewrite count_items_eq. intros -> ->. reflexivity.
Qed.

Lemma revive_ch x : ch (revive x) = ch x.
Proof. reflexivity. Qed.

Lemma live_revive x : live (revive x) = true.
Proof. reflexivity. Qed.

Lemma no_dead_revive x : no_dead (revive x) = no_dead x.
Proof. rewrite !no_dead_eq. reflexivity. Qed.

Lemma prune_pre_exit root p n :
  prune_pre root p ->
  get_node (rnode root) p = Some n ->
  p = [] \/ live n = true ->
  no_dead (rnode root) = true.
Proof.
  intros [_ [_ Hd]] Hn Hlive.
  rewrite <- (update_node_id p (rnode root)).
  apply (no_dead_update_node_mono revive (fun x => x) p (rnode root));
    auto.
  intros y Hy. rewrite Hn in Hy. inversion Hy; subst y. split.
  - rewrite no_dead_revive. auto.
  - intros Hp _. destruct Hlive; [contradiction|auto].
Qed.

Lemma prune_step_pre root pp c n y d :
  prune_pre root (pp ++ [c]) ->
  get_node (rnode root) pp = Some y ->
  chfind c (children y) = Some n ->
  children n = [] -> has_item n = false ->
  let f := fun x => fst (trienode_remove_child x c d) in
  let rn' := update_node (rnode root) pp f in
  wf_node [] rn' = true
  /\ get_node rn' pp <> None
  /\ no_dead (update_node rn' pp revive) = true
  /\ (count_nodes rn' + 1 = count_nodes (rnode root))%nat
  /\ count_items rn' = count_items (rnode root)
  /\ (forall q, has_key_at rn' q = has_key_at (rnode root) q)
  /\ (all_flags_zero (rnode root) = true -> all_flags_zero rn' = true).
Proof.
  intros [Hw [_ Hd]] Hy Hn Hleaf Hnoitem f rn'.
  pose proof (wf_node_get pp [] _ _ Hw Hy) as Hwy. simpl in Hwy.
  pose proof (wf_node_parts _ _ Hwy) as [Hiy [Hndy Hcy]].
  pose proof (remove_child_list_found (children y) c d n Hn Hleaf Hndy)
    as [R1 [R2 [R3 R4]]].
  destruct (remove_child_fields y c d) as [F1 [F2 F3]].
  assert (Hfch : forall x, ch (f x) = ch x)
    by (intros; apply remove_child_ch).
  repeat split.
  - apply wf_node_update_node; auto. intros x Hx _.
    rewrite Hy in Hx. inversion Hx; subst x. split; auto.
    rewrite wf_node_eq. unfold f. rewrite F1, F3. simpl app.
    rewrite Hiy. simpl. apply nodup_ch_NoDup in R2. rewrite R2. simpl.
    apply forallb_forall. intros z Hz. apply Hcy. apply R1. exact Hz.
  - unfold rn'. rewrite get_node_update_same, Hy by auto. discriminate.
  - unfold rn'. rewrite update_node_compose by auto.
    rewrite update_node_app in Hd.
    apply (no_dead_update_node_mono
             (fun x => update_node x [c] revive)
             (fun x => revive (f x)) pp (rnode root)); auto.
    intros x Hx. rewrite Hy in Hx. inversion Hx; subst x. split; auto.
    rewrite no_dead_revive. rewrite !no_dead_eq. unfold f. rewrite F3.
    simpl. intros Hall. apply forallb_forall. intros z Hz.
    rewrite forallb_forall in Hall. apply Hall.
    destruct (R1 z Hz). apply in_update_child_other; auto.
  - unfold rn'.
    pose proof (measure_update_node count_nodes (fun _ => 1%nat)
                  count_nodes_measure pp f _ _ Hy) as Hm.
    rewrite (count_nodes_eq (f y)), (count_nodes_eq y) in Hm.
    unfold f in Hm at 2. rewrite F3 in Hm.
    pose proof (R3 count_nodes) as H3.
    rewrite (count_nodes_childless n Hleaf) in H3. lia.
  - unfold rn'.
    pose proof (measure_update_node count_items _
                  count_items_measure pp f _ _ Hy) as Hm.
    assert (Hfy : (count_items (f y) + count_items n = count_items y)%nat).
    { rewrite (count_items_eq (f y)), (count_items_eq y).
      unfold has_item, f. rewrite F1, F3.
      pose proof (R3 count_items) as H3. lia. }
    rewrite (count_items_childless n Hleaf Hnoitem) in Hfy. lia.
  - intros q. unfold rn'. apply has_key_at_update_node.
    intros x Hx. rewrite Hy in Hx. inversion Hx; subst x. split; auto.
    intros [|c' q'].
    + rewrite !has_key_at_nil. unfold has_item, f. rewrite F1. reflexivity.
    + rewrite !has_key_at_cons. unfold f. rewrite F3, R4.
      destruct (Byte.eqb c c') eqn:E; auto.
      apply byte_eqb_eq in E. subst c'. rewrite Hn.
      symmetry. apply has_key_at_childless; auto.
  - intros Hz. unfold rn'. apply all_flags_zero_update_node; auto.
    intros x Hx Hzx. rewrite Hy in Hx. inversion Hx; subst x.
    rewrite all_flags_zero_eq in *. unfold f. rewrite F2, F3.
    apply andb_prop in Hzx. destruct Hzx as [Hz1 Hz2].
    rewrite Hz1. simpl. apply forallb_forall. intros z Hz'.
    rewrite forallb_forall in Hz2. apply Hz2. apply R1. exact Hz'.
Qed.

Lemma del_prune_exit root p n X :
  prune_pre root p ->
  get_node (rnode root) p = Some n ->
  p = [] \/ live n = true ->
  num_nodes root = to_size_t X ->
  wf_node [] (rnode root) = true
  /\ no_dead (rnode root) = true
  /\ (exists removed : nat,
        (count_nodes (rnode root) + removed = count_nodes (rnode root))%nat
        /\ num_nodes root = to_size_t (X - Z.of_nat removed))
  /\ count_items (rnode root) = count_items (rnode root)
  /\ (forall q, has_key_at (rnode root) q = has_key_at (rnode root) q)
  /\ (all_flags_zero (rnode root) = true ->
      all_flags_zero (rnode root) = true)
  /\ (0 <= memsize root < 2 ^ 64 -> 0 <= memsize root < 2 ^ 64).
Proof.
  intros Hp Hn Hl HX. split; [apply Hp|].
  split; [eapply prune_pre_exit; eauto|].
  split; [exists 0%nat; split; [lia|rewrite HX; f_equal; lia]|].
  auto.
Qed.

Lemma del_prune_keeps d rp :
  forall root root' ev X,
    prune_pre root (rev rp) ->
    num_nodes root = to_size_t X ->
    del_prune rp root d = Some (root', ev) ->
    wf_node [] (rnode root') = true
    /\ no_dead (rnode root') = true
    /\ (exists removed : nat,
          (count_nodes (rnode root') + removed
           = count_nodes (rnode root))%nat
          /\ num_nodes root' = to_size_t (X - Z.of_nat removed))
    /\ count_items (rnode root') = count_items (rnode root)
    /\ (forall q, has_key_at (rnode root') q = has_key_at (rnode root) q)
    /\ (all_flags_zero (rnode root) = true ->
        all_flags_zero (rnode root') = true)
    /\ (0 <= memsize root < 2 ^ 64 -> 0 <= memsize root' < 2 ^ 64).
Proof.
  induction rp as [|c rp IH]; intros root root' ev X Hpre HX Hrun.
  - simpl in Hrun. inversion Hrun; subst.
    apply (del_prune_exit root' [] (rnode root') X); auto.
  - cbn [del_prune] in Hrun.
    destruct (get_node (rnode root) (rev (c :: rp))) as [n|] eqn:En;
      [|discriminate].
    destruct (children n) as [|z zs] eqn:Ecs.
    2:{ inversion Hrun; subst.
        apply (del_prune_exit root' (rev (c :: rp)) n X); auto.
        right. unfold live. rewrite Ecs. apply orb_true_r. }
    destruct (key (item n)) as [kn|] eqn:Ekey.
    { inversion Hrun; subst.
      apply (del_prune_exit root' (rev (c :: rp)) n X); auto.
      right. unfold live, has_item. rewrite Ekey. reflexivity. }
    simpl rev in En, Hpre.
    rewrite get_node_app in En.
    destruct (get_node (rnode root) (rev rp)) as [y|] eqn:Ey;
      [|discriminate].
    simpl in En. rewrite get_child_chfind in En.
    destruct (chfind c (children y)) as [n'|] eqn:Ec; [|discriminate].
    inversion En; subst n'.
    rewrite (chfind_ch _ _ _ Ec) in Hrun.
    assert (Hni : has_item n = false) by (unfold has_item; rewrite Ekey; auto).
    pose proof (prune_step_pre root (rev rp) c n y d Hpre Ey Ec Ecs Hni)
      as [S1 [S2 [S3 [S4 [S5 [S6 S7]]]]]].
    match type of Hrun with
    | match del_prune rp ?r d with _ => _ end = _ =>
        destruct (del_prune rp r d) as [[r2 ev2]|] eqn:E; [|discriminate];
        specialize (IH r r2 ev2 (X - 1))
    end.
    inversion Hrun; subst root' ev. simpl in IH.
    destruct IH as [I1 [I2 [[rem [I3 I3']] [I4 [I5 [I6 I7]]]]]]; auto.
    { repeat split; auto. }
    { rewrite HX. apply to_size_t_pred. }
    split; [exact I1|]. split; [exact I2|]. split.
    { exists (S rem). split; [lia|]. rewrite I3'. f_equal. lia. }
    split; [congruence|]. split; [intros q; rewrite I5; apply S6|].
    split; [auto|]. intros _. apply I7. apply to_size_t_range.
Qed.

Lemma trieitem_free_key i d : key (fst (trieitem_free i d)) = None.
Proof.
  unfold trieitem_free. destruct d; [destruct (value i =? NULL)|];
    reflexivity.
Qed.

Lemma has_key_at_of_items n n' q :
  option_map item (get_node n' q) = option_map item (get_node n q) ->
  has_key_at n' q = has_key_at n q.
Proof.
  unfold has_key_at, has_item.
  destruct (get_node n' q), (get_node n q); simpl; intros H;
    inversion H; auto.
Qed.

Lemma has_key_at_clear i k n x :
  key i = None ->
  get_node n k = Some x ->
  forall q,
    has_key_at (update_node n k (set_item i)) q
    = if key_eq_dec q k then false else has_key_at n q.
Proof.
  intros Hi Hx q. destruct (key_eq_dec q k) as [->|Hne].
  - unfold has_key_at. rewrite get_node_update_same, Hx by reflexivity.
    simpl. unfold has_item. simpl. rewrite Hi. reflexivity.
  - apply has_key_at_of_items.
    apply get_node_update_other_item; auto.
Qed.

Lemma trie_del_item_keeps root k d rc root' ev :
  wf_store root = true ->
  trie_del_item root k d = Some (rc, root', ev) ->
  wf_store root' = true
  /\ (forall q,
        has_key_at (rnode root') q
        = if key_eq_dec q (cstr k) then false
          else has_key_at (rnode root) q).
Proof.
  intros Hwf Hdel.
  destruct (trie_has_key root k) eqn:Hk.
  2:{ rewrite (trie_del_item_absent root k d Hk) in Hdel.
      inversion Hdel; subst. split; auto.
      intros q. destruct (key_eq_dec q (cstr k)) as [E|]; auto.
      rewrite !trie_has_key_has_key_at in *. congruence. }
  pose proof (wf_store_parts _ Hwf) as [Hw [Hnd [Hnn [Hni [Hms Hfl]]]]].
  unfold trie_del_item in Hdel.
  rewrite trie_has_key_has_key_at in Hk. unfold has_key_at in Hk.
  destruct (get_node (rnode root) (cstr k)) as [n|] eqn:En; [|discriminate].
  unfold has_item in Hk.
  destruct (key (item n)) as [kn|] eqn:Ekey; [|discriminate].
  pose proof (trieitem_free_key (item n) d) as Hfree.
  destruct (trieitem_free (item n) d) as [i' ev1]. simpl in Hfree.
  match type of Hdel with
  | match del_prune ?rp ?r d with _ => _ end = _ =>
      destruct (del_prune rp r d) as [[r2 ev2]|] eqn:E; [|discriminate];
      pose proof (del_prune_keeps d rp r r2 ev2
                    (Z.of_nat (count_nodes (rnode root)) - 1)) as K;
      pose proof (del_prune_frame d rp r r2 ev2 E) as [_ [Fd Fi]]
  end.
  inversion Hdel; subst rc root' ev. clear Hdel. simpl in *.
  rewrite rev_involutive in K.
  assert (Hcn : count_nodes (update_node (rnode root) (cstr k) (set_item i'))
                = count_nodes (rnode root)).
  { apply count_nodes_update_node. intros x _. destruct x; reflexivity. }
  assert (Hci : (count_items (update_node (rnode root) (cstr k) (set_item i'))
                 + 1 = count_items (rnode root))%nat).
  { pose proof (measure_update_node count_items _ count_items_measure
                  (cstr k) (set_item i') _ _ En) as Hm.
    rewrite (count_items_eq (set_item i' n)), (count_items_eq n) in Hm.
    unfold has_item in Hm. simpl in Hm. rewrite Hfree, Ekey in Hm. lia. }
  destruct K as [K1 [K2 [[rem [K3 K3']] [K4 [K5 [K6 K7]]]]]]; auto.
  { unfold prune_pre. cbn [rnode]. split; [|split].
    - apply wf_node_update_node; auto. intros x Hx Hwx. split; auto.
      rewrite wf_node_eq in *. simpl. unfold item_ok at 1. simpl.
      rewrite Hfree. simpl.
      rewrite !andb_true_iff in Hwx. rewrite !andb_true_iff. tauto.
    - rewrite get_node_update_same, En by reflexivity. discriminate.
    - rewrite update_node_compose by reflexivity.
      apply (no_dead_update_node_mono (fun x => x)); [|
        rewrite update_node_id; exact Hnd].
      intros y _. split; auto. rewrite !no_dead_eq. auto. }
  split.
  - apply wf_store_intro; simpl; auto.
    + rewrite K3'. f_equal. lia.
    + rewrite Fi, Hni, to_size_t_pred. f_equal. lia.
    + apply K7. apply to_size_t_range.
    + rewrite Fd. intros Hd. apply K6.
      apply all_flags_zero_update_node; auto.
      intros x _ Hx. rewrite all_flags_zero_eq in *. exact Hx.
  - intros q. simpl. rewrite K5.
    apply (has_key_at_clear i' (cstr k) (rnode root) n Hfree En).
Qed.

(* ------------------------------------------------------------------ *)
(** ** The counters against the abstract store *)

Lemma in_remove_iff (s : list (list TRIECHAR)) k q :
  In q (remove key_eq_dec k s) <-> In q s /\ q <> k.
Proof.
  split.
  - apply in_remove.
  - intros [H1 H2]. apply in_in_remove; auto.
Qed.

Lemma NoDup_remove_key (s : list (list TRIECHAR)) k :
  NoDup s -> NoDup (remove key_eq_dec k s).
Proof.
  induction s as [|x s IH]; simpl; intros H; [constructor|].
  inversion H; subst. destruct (key_eq_dec k x); auto.
  constructor; auto. intros Hin. apply in_remove in Hin. tauto.
Qed.

Lemma holds_keys_step root s m rc root' ev :
  holds_keys root s ->
  apply_mutation root m = Some (rc, root', ev) ->
  holds_keys root' (model_step s m).
Proof.
  intros [Hwf [Hnd Hin]] Hm. destruct m as [k v d|k d]; simpl in *.
  - inversion Hm as [Hm']. clear Hm.
    assert (Hr : root' = snd (fst (trie_set_item root k v d)))
      by (rewrite Hm'; reflexivity).
    subst root'. split; [apply trie_set_item_wf; exact Hwf|].
    assert (Hk : forall q,
               has_key_at (rnode (snd (fst (trie_set_item root k v d)))) q
               = if key_eq_dec q (cstr k) then true
                 else has_key_at (rnode root) q).
    { intros q. rewrite trie_set_item_rnode.
      apply set_node_has_key_at. discriminate. }
    destruct (in_dec key_eq_dec (cstr k) s) as [Hi|Hi].
    + split; auto. intros q. rewrite Hk, Hin.
      destruct (key_eq_dec q (cstr k)) as [->|]; [|tauto].
      apply Hin in Hi. tauto.
    + split; [constructor; auto|]. intros q. rewrite Hk. simpl.
      rewrite Hin. destruct (key_eq_dec q (cstr k)) as [->|]; [tauto|].
      split; [intros [H|H]; [congruence|auto]|auto].
  - destruct (trie_del_item_keeps root k d rc root' ev Hwf Hm) as [Hw Hk].
    split; auto. split; [apply NoDup_remove_key; auto|].
    intros q. rewrite in_remove_iff, Hk, Hin.
    destruct (key_eq_dec q (cstr k)); [split; [tauto|discriminate]|tauto].
Qed.

Lemma holds_keys_run ms :
  forall root s root',
    holds_keys root s ->
    run_mutations root ms = Some root' ->
    holds_keys root' (fold_left model_step ms s).
Proof.
  induction ms as [|m ms IH]; simpl; intros root s root' H Hrun.
  - inversion Hrun; subst. exact H.
  - destruct (apply_mutation root m) as [[[rc r1] ev]|] eqn:E;
      [|discriminate].
    eapply IH; eauto. eapply holds_keys_step; eauto.
Qed.

Lemma run_mutations_total ms :
  forall root, exists root', run_mutations root ms = Some root'.
Proof.
  induction ms as [|m ms IH]; simpl; intros root; [eauto|].
  destruct (apply_mutation_total root m) as [rc [r1 [ev ->]]]. apply IH.
Qed.

Lemma holds_keys_new : holds_keys trie_new [].
Proof.
  split; [reflexivity|]. split; [constructor|].
  intros q. split; [intros []|].
  destruct q; discriminate.
Qed.

(** *** Every node leads to a key *)

Lemma no_dead_get q :
  forall n x,
    no_dead n = true -> get_node n q = Some x -> q <> [] ->
    live x = true /\ no_dead x = true.
Proof.
  induction q as [|c r IH]; intros n x Hn Hg Hne; [congruence|].
  simpl in Hg. rewrite get_child_chfind in Hg.
  destruct (chfind c (children n)) as [y|] eqn:E; [|discriminate].
  rewrite no_dead_eq, forallb_forall in Hn.
  specialize (Hn y (chfind_in _ _ _ E)). apply andb_prop in Hn.
  destruct r as [|c' r'].
  - simpl in Hg. inversion Hg; subst. exact Hn.
  - apply (IH y x); [tauto|exact Hg|discriminate].
Qed.

Lemma live_has_key n :
  no_dead n = true -> live n = true -> exists s, has_key_at n s = true.
Proof.
  induction n as [i c fl cs IH] using TrieNode_ind'.
  intros Hn Hl. unfold live in Hl.
  destruct (has_item (Node i c fl cs)) eqn:Hi.
  - exists []. exact Hi.
  - simpl in Hl. destruct cs as [|y cs]; [discriminate|].
    rewrite no_dead_eq in Hn. simpl in Hn.
    apply andb_prop in Hn. destruct Hn as [Hy _].
    apply andb_prop in Hy. destruct Hy as [Hy1 Hy2].
    inversion IH as [|? ? IHy _]; subst.
    destruct (IHy Hy2 Hy1) as [s Hs].
    exists (ch y :: s). rewrite has_key_at_cons. simpl.
    unfold chfind. simpl. rewrite byte_eqb_refl. exact Hs.
Qed.

Lemma in_prefixes k :
  forall q, In q (prefixes k) <-> q <> [] /\ exists s, k = q ++ s.
Proof.
  induction k as [|c r IH]; intros q; simpl.
  - split; [intros []|]. intros [Hne [s Hs]].
    destruct q; [congruence|discriminate].
  - split.
    + intros [<-|H].
      * split; [discriminate|]. exists r. reflexivity.
      * apply in_map_iff in H. destruct H as [q' [<- Hq']].
        split; [discriminate|]. apply IH in Hq'.
        destruct Hq' as [_ [s ->]]. exists s. reflexivity.
    + intros [Hne [s Hs]]. destruct q as [|c' q']; [congruence|].
      inversion Hs; subst. destruct q' as [|c'' q''].
      * left. reflexivity.
      * right. apply in_map. apply IH. split; [discriminate|eauto].
Qed.

Lemma has_key_at_app n p s :
  has_key_at n (p ++ s)
  = match get_node n p with
    | Some x => has_key_at x s
    | None => false
    end.
Proof.
  unfold has_key_at. rewrite get_node_app.
  destruct (get_node n p); reflexivity.
Qed.

Lemma count_items_le_count_nodes n : (count_items n <= count_nodes n)%nat.
Proof.
  induction n as [i c fl cs IH] using TrieNode_ind'. simpl.
  assert (list_sum (map count_items cs) <= list_sum (map count_nodes cs))%nat.
  { induction IH; simpl; lia. }
  destruct (key i); lia.
Qed.

(** What a store that holds the keys [s] counts. *)
Lemma holds_keys_counts root s :
  holds_keys root s ->
  count_items (rnode root) = length s
  /\ (count_nodes (rnode root) = S (length (path_edges s)))%nat.
Proof.
  intros [Hwf [Hnd Hin]].
  pose proof (wf_store_parts _ Hwf) as [Hw [Hd _]]. split.
  - rewrite <- length_keys_below. apply Permutation_length.
    apply NoDup_Permutation; auto.
    + eapply NoDup_keys_below; eauto.
    + intros q. rewrite (in_keys_below _ [] q Hw), Hin. tauto.
  - rewrite <- length_nodes_below. f_equal. apply Permutation_length.
    apply NoDup_Permutation.
    + eapply NoDup_nodes_below; eauto.
    + apply NoDup_nodup.
    + intros q. rewrite (in_nodes_below _ [] q Hw).
      unfold path_edges. rewrite nodup_In, in_flat_map. split.
      * intros [Hne Hg].
        destruct (get_node (rnode root) q) as [x|] eqn:Ex; [|congruence].
        destruct (no_dead_get q _ _ Hd Ex Hne) as [Hl Hx].
        destruct (live_has_key x Hx Hl) as [t Ht].
        exists (q ++ t). split.
        -- apply Hin. rewrite has_key_at_app, Ex. exact Ht.
        -- apply in_prefixes. split; eauto.
      * intros [k [Hk Hq]]. apply in_prefixes in Hq.
        destruct Hq as [Hne [t ->]]. split; auto.
        apply Hin in Hk. rewrite has_key_at_app in Hk.
        destruct (get_node (rnode root) q); [discriminate|discriminate].
Qed.

(** C5.  After any sequence of [set]/[del] calls on a new store (every
    such sequence runs to its end), [num_items] is the number of keys set
    and not deleted since, [num_nodes] is the number of edges of the
    union of the root-to-key paths of these keys, and they are the
    number of item-bearing nodes and of nodes below the root of the
    tree.  The counters are [size_t]: the equalities hold modulo [2^64],
    and exactly for a tree of fewer than [2^64] nodes. *)
Theorem counters_track_keys ms :
  exists root,
    run_mutations trie_new ms = Some root
    /\ (forall k, In (cstr k) (model_keys ms) <-> trie_has_key root k = true)
    /\ count_items (rnode root) = length (model_keys ms)
    /\ (count_nodes (rnode root) - 1)%nat = length (path_edges (model_keys ms))
    /\ trie_num_items root
       = to_size_t (Z.of_nat (length (model_keys ms)))
    /\ trie_num_nodes root
       = to_size_t (Z.of_nat (length (path_edges (model_keys ms))))
    /\ (Z.of_nat (count_nodes (rnode root)) < 2 ^ 64 ->
        trie_num_items root = Z.of_nat (length (model_keys ms))
        /\ trie_num_nodes root
           = Z.of_nat (length (path_edges (model_keys ms)))).
Proof.
  destruct (run_mutations_total ms trie_new) as [root Hrun].
  exists root. split; [exact Hrun|].
  pose proof (holds_keys_run ms trie_new [] root holds_keys_new Hrun) as H.
  fold (model_keys ms) in H.
  destruct (holds_keys_counts root _ H) as [Hi Hn].
  destruct H as [Hwf [Hnd Hin]].
  pose proof (wf_store_parts _ Hwf) as [_ [_ [Hnn [Hni _]]]].
  pose proof (count_items_le_count_nodes (rnode root)) as Hle.
  unfold trie_num_items, trie_num_nodes.
  split; [intros k; rewrite Hin; reflexivity|].
  split; [exact Hi|]. split; [lia|].
  split; [rewrite Hni, Hi; reflexivity|].
  split; [rewrite Hnn; f_equal; lia|].
  intros Hsmall. split.
  - rewrite Hni, Hi. apply to_size_t_small. lia.
  - rewrite Hnn. rewrite to_size_t_small; lia.
Qed.

(* ------------------------------------------------------------------ *)
(** ** Loops *)

(** A loop whose body keeps an invariant and decreases a measure leaves
    through a [return], given fuel beyond the measure. *)
Lemma while_loop_rule {S R : Type} (body : S -> option (S + R))
  (Inv : S -> Prop) (mu : S -> nat) (Post : S -> R -> Prop) :
  (forall s, Inv s ->
     match body s with
     | None => False
     | Some (inl s') =>
         Inv s' /\ (mu s' < mu s)%nat /\ (forall r, Post s' r -> Post s r)
     | Some (inr r) => Post s r
     end) ->
  forall fuel s,
    Inv s -> (mu s < fuel)%nat ->
    exists r, while_loop body fuel s = Some r /\ Post s r.
Proof.
  intros Hbody. induction fuel as [|fuel IH]; intros s Hinv Hmu; [lia|].
  simpl. specialize (Hbody s Hinv).
  destruct (body s) as [[s'|r]|]; [|eauto|contradiction].
  destruct Hbody as [Hinv' [Hlt Hpost]].
  destruct (IH s' Hinv') as [r [Hr1 Hr2]]; [lia|]. eauto.
Qed.

Section Drain.
Variable inv : TrieRoot -> TrieIter -> Prop.
Variable size : TrieRoot -> TrieIter -> nat.
Variable out : TrieRoot -> TrieIter -> list TrieSearchResult.
Variable fin : TrieRoot -> TrieIter -> Prop.

(** One call of [trieiter_next] returns the first result still due, or
    end when none is. *)
Hypothesis next_spec :
  forall fuel root it,
    inv root it -> (size root it < fuel)%nat ->
    exists res root' it',
      trieiter_next fuel root it = Some (res, root', it')
      /\ match out root it with
         | [] => res = None /\ fin root' it'
         | r :: rest =>
             res = Some r /\ inv root' it' /\ out root' it' = rest
             /\ (size root' it' < size root it)%nat
         end.

Lemma drain_rule fuel root it :
  inv root it -> (size root it < fuel)%nat ->
  exists root' it',
    trieiter_drain fuel root it = Some (out root it, root', it')
    /\ fin root' it'.
Proof.
  intros Hinv Hsize. unfold trieiter_drain.
  destruct (while_loop_rule (drain_body fuel)
              (fun s => inv (fst (fst s)) (snd (fst s))
                        /\ (size (fst (fst s)) (snd (fst s)) < fuel)%nat)
              (fun s => size (fst (fst s)) (snd (fst s)))
              (fun s r => fst (fst r)
                          = snd s ++ out (fst (fst s)) (snd (fst s))
                          /\ fin (snd (fst r)) (snd r)))
    with (fuel := fuel) (s := (root, it, @nil TrieSearchResult))
    as [[[rs r'] i'] [Hrun Hpost]]; simpl; auto.
  - intros [[r0 i0] acc] [Hi Hs]. simpl in *.
    destruct (next_spec fuel r0 i0 Hi Hs) as [res [r1 [i1 [Hn Ho]]]].
    rewrite Hn. destruct (out r0 i0) as [|x rest].
    + destruct Ho as [-> Hfin]. simpl. rewrite app_nil_r. auto.
    + destruct Ho as [-> [Hi1 [Ho1 Hlt]]]. simpl.
      split; [split; [auto|lia]|]. split; [exact Hlt|].
      intros [[rs r2] i2]. simpl. intros [-> Hfin]. rewrite Ho1.
      rewrite <- app_assoc. auto.
  - simpl in Hpost. destruct Hpost as [-> Hfin]. eauto.
Qed.
End Drain.

(* ------------------------------------------------------------------ *)
(** ** The state stack *)

Lemma push_state_config it n q h d :
  same_config it (trieiter_push_state it n q h d)
  /\ stack (trieiter_push_state it n q h d) = stack it
  /\ states (trieiter_push_state it n q h d)
     = mkState n q h d :: states it.
Proof. unfold same_config. simpl. tauto. Qed.

Lemma same_config_refl it : same_config it it.
Proof. unfold same_config. tauto. Qed.

Lemma same_config_trans a b c :
  same_config a b -> same_config b c -> same_config a c.
Proof.
  unfold same_config. intros H1 H2.
  decompose [and] H1. decompose [and] H2. repeat split; congruence.
Qed.

Lemma pop_state_config it s it' :
  trieiter_pop_state it = Some (s, it') ->
  same_config it it' /\ stack it' = stack it
  /\ states it = s :: states it'.
Proof.
  unfold trieiter_pop_state. destruct (states it) as [|x r] eqn:E;
    [discriminate|].
  intros H. inversion H; subst. unfold same_config. simpl. tauto.
Qed.

Lemma pop_state_none it :
  trieiter_pop_state it = None -> states it = [].
Proof.
  unfold trieiter_pop_state. destruct (states it); [auto|discriminate].
Qed.

Lemma flat_map_rev_fold_right {A B : Type} (g : A -> list B) l :
  flat_map g (rev l) = fold_right (fun x acc => acc ++ g x) [] l.
Proof.
  induction l as [|x l IH]; simpl; auto.
  rewrite flat_map_app, IH. simpl. rewrite app_nil_r. reflexivity.
Qed.

Lemma get_node_child root p n x :
  wf_node [] (rnode root) = true ->
  get_node (rnode root) p = Some n ->
  In x (children n) ->
  get_node (rnode root) (p ++ [ch x]) = Some x.
Proof.
  intros Hw Hn Hx. rewrite get_node_app, Hn. simpl.
  rewrite get_child_chfind.
  pose proof (wf_node_get p [] _ _ Hw Hn) as Hwn.
  apply wf_node_parts in Hwn. destruct Hwn as [_ [Hnd _]].
  rewrite (chfind_NoDup _ _ Hnd Hx). reflexivity.
Qed.

Lemma list_sum_rev l : list_sum (rev l) = list_sum l.
Proof.
  induction l as [|x l IH]; simpl; auto.
  rewrite list_sum_app, IH. simpl. lia.
Qed.

Lemma stack_size_app root a b :
  stack_size root (a ++ b) = (stack_size root a + stack_size root b)%nat.
Proof.
  unfold stack_size. rewrite map_app, list_sum_app. reflexivity.
Qed.

(* ------------------------------------------------------------------ *)
(** ** The suffix iterator *)

Lemma suffixes_push_children_spec cs p q d :
  forall it,
    same_config it (suffixes_push_children cs p q d it)
    /\ stack (suffixes_push_children cs p q d it) = stack it
    /\ states (suffixes_push_children cs p q d it)
       = rev (map (fun x => mkState (p ++ [ch x]) q 0 (to_int (d + 1))) cs)
         ++ states it.
Proof.
  unfold suffixes_push_children.
  induction cs as [|x cs IH]; intros it; simpl.
  - split; [apply same_config_refl|auto].
  - destruct (IH (trieiter_push_state it (p ++ [ch x]) q 0 (to_int (d + 1))))
      as [H1 [H2 H3]].
    destruct (push_state_config it (p ++ [ch x]) q 0 (to_int (d + 1)))
      as [P1 [P2 P3]].
    split; [eapply same_config_trans; eauto|]. split; [congruence|].
    rewrite H3, P3, <- app_assoc. reflexivity.
Qed.

Lemma suffixes_out_eq q p n :
  suffixes_out q p n
  = (if has_item n then [mkResult q p 0] else [])
    ++ fold_right (fun x acc => acc ++ suffixes_out q (p ++ [ch x]) x) []
         (children n).
Proof.
  destruct n as [i c fl cs]. unfold has_item. simpl.
  destruct (key i); reflexivity.
Qed.

(** Popping a state and pushing its children leaves the results due
    unchanged, apart from the result for the node itself. *)
Lemma suffixes_expand root s n d :
  wf_node [] (rnode root) = true ->
  get_node (rnode root) (node s) = Some n ->
  let pushed :=
    rev (map (fun x => mkState (node s ++ [ch x]) (query s) 0 d)
             (children n)) in
  suffixes_state_out root s
  = (if has_item n then [mkResult (query s) (node s) 0] else [])
    ++ flat_map (suffixes_state_out root) pushed
  /\ Forall (fun s' => get_node (rnode root) (node s') <> None) pushed
  /\ (S (stack_size root pushed) = deref_size root s)%nat.
Proof.
  intros Hw Hn pushed. subst pushed.
  unfold suffixes_state_out at 1. unfold deref_size. rewrite Hn.
  rewrite suffixes_out_eq.
  assert (Hc : forall x, In x (children n) ->
                 get_node (rnode root) (node s ++ [ch x]) = Some x)
    by (intros; eapply get_node_child; eauto).
  split; [f_equal|split].
  - rewrite <- map_rev, flat_map_concat_map, map_map,
      <- flat_map_concat_map, flat_map_rev_fold_right.
    revert Hc. generalize (children n).
    induction l as [|x l IH]; simpl; intros Hc; auto.
    rewrite IH by auto. f_equal.
    unfold suffixes_state_out. simpl. rewrite Hc by auto. reflexivity.
  - apply Forall_rev. apply Forall_forall. intros s' Hs'.
    apply in_map_iff in Hs'. destruct Hs' as [x [<- Hx]]. simpl.
    rewrite Hc by auto. discriminate.
  - rewrite (count_nodes_eq n). f_equal.
    unfold stack_size. rewrite <- map_rev, map_map.
    rewrite <- (list_sum_rev (map count_nodes (children n))).
    rewrite <- map_rev. f_equal. apply map_ext_in.
    intros x Hx. apply in_rev in Hx.
    unfold deref_size. simpl. rewrite Hc by auto. reflexivity.
Qed.

Lemma suffixes_inv_config root it it' :
  suffixes_inv root it -> same_config it it' ->
  Forall (fun s => get_node (rnode root) (node s) <> None) (states it') ->
  suffixes_inv root it'.
Proof.
  unfold suffixes_inv, same_config. intros H1 H2 H3.
  decompose [and] H1. decompose [and] H2.
  repeat split; auto; congruence.
Qed.

Lemma suffixes_loop_spec fuel root it :
  suffixes_inv root it -> (states_size root it < fuel)%nat ->
  exists res it',
    while_loop (suffixes_body root) fuel it = Some (res, it')
    /\ match suffixes_due root it with
       | [] => res = None
       | r :: rest =>
           res = Some r /\ suffixes_inv root it'
           /\ suffixes_due root it' = rest
           /\ (states_size root it' < states_size root it)%nat
       end.
Proof.
  intros Hinv Hfuel.
  destruct (while_loop_rule (suffixes_body root) (suffixes_inv root)
              (states_size root)
              (fun i r =>
                 match suffixes_due root i with
                 | [] => fst r = None
                 | x :: rest =>
                     fst r = Some x /\ suffixes_inv root (snd r)
                     /\ suffixes_due root (snd r) = rest
                     /\ (states_size root (snd r) < states_size root i)%nat
                 end))
    with (fuel := fuel) (s := it) as [[res it'] [Hrun Hpost]]; auto.
  2:{ exists res, it'. split; auto. }
  clear. intros it Hinv. unfold suffixes_body.
  destruct (trieiter_pop_state it) as [[s it1]|] eqn:Epop.
  2:{ apply pop_state_none in Epop. unfold suffixes_due.
      rewrite Epop. reflexivity. }
  apply pop_state_config in Epop. destruct Epop as [Hc1 [_ Hst]].
  pose proof Hinv as [Hw [_ [_ [_ Hvalid]]]].
  rewrite Hst in Hvalid. inversion Hvalid as [|? ? Hs Hrest]; subst.
  destruct (get_node (rnode root) (node s)) as [n|] eqn:En; [|congruence].
  destruct (suffixes_push_children_spec (children n) (node s) (query s)
              (depth s) it1) as [Hc2 [_ Hst2]].
  destruct (suffixes_expand root s n (to_int (depth s + 1)) Hw En)
    as [Hout [Hval Hsize]].
  set (it2 := suffixes_push_children (children n) (node s) (query s)
                                     (depth s) it1) in *.
  assert (Hinv2 : suffixes_inv root it2).
  { apply (suffixes_inv_config root it); auto.
    - eapply same_config_trans; eauto.
    - rewrite Hst2. apply Forall_app. auto. }
  assert (Hdue : suffixes_due root it
                 = (if has_item n
                    then [mkResult (query s) (node s) 0] else [])
                   ++ suffixes_due root it2).
  { unfold suffixes_due. rewrite Hst, Hst2. simpl.
    rewrite flat_map_app, Hout, <- app_assoc. reflexivity. }
  assert (Hlt : (states_size root it2 < states_size root it)%nat).
  { unfold states_size. rewrite Hst, Hst2, stack_size_app.
    unfold stack_size at 3. simpl. fold (stack_size root (states it1)).
    lia. }
  destruct (has_item n).
  - rewrite Hdue. simpl. auto.
  - split; auto. split; auto. intros [res it']. rewrite Hdue. simpl.
    destruct (suffixes_due root it2); auto.
    intros [H1 [H2 [H3 H4]]]. simpl in *.
    split; [exact H1|]. split; [exact H2|]. split; [exact H3|]. lia.
Qed.

Lemma suffixes_next_spec root0 fuel root it :
  root = root0 /\ suffixes_inv root0 it ->
  (states_size root it < fuel)%nat ->
  exists res root' it',
    trieiter_next fuel root it = Some (res, root', it')
    /\ match suffixes_due root it with
       | [] => res = None /\ root' = root0
       | r :: rest =>
           res = Some r /\ (root' = root0 /\ suffixes_inv root0 it')
           /\ suffixes_due root' it' = rest
           /\ (states_size root' it' < states_size root it)%nat
       end.
Proof.
  intros [-> Hinv] Hfuel.
  destruct (suffixes_loop_spec fuel root0 it Hinv Hfuel)
    as [res [it' [Hrun Hpost]]].
  exists res, root0, it'. split.
  - destruct Hinv as [_ [Hn [Hd [Hs _]]]].
    unfold trieiter_next. rewrite Hs, Z.eqb_refl, Hd, Hn. simpl.
    unfold trieiter_suffixes_next. rewrite Hrun. reflexivity.
  - destruct (suffixes_due root0 it); [auto|tauto].
Qed.

(** *** The results as a set *)

Lemma Permutation_fold_right_flat_map {A B : Type} (g : A -> list B) l :
  Permutation (fold_right (fun x acc => acc ++ g x) [] l) (flat_map g l).
Proof.
  induction l as [|x l IH]; simpl; auto.
  eapply Permutation_trans; [apply Permutation_app_comm|].
  apply Permutation_app_head. exact IH.
Qed.

Lemma Permutation_flat_map_ext {A B : Type} (f g : A -> list B) l :
  (forall x, In x l -> Permutation (f x) (g x)) ->
  Permutation (flat_map f l) (flat_map g l).
Proof.
  induction l as [|x l IH]; simpl; intros H; auto.
  apply Permutation_app; auto.
Qed.

Lemma map_fold_right_app {A B C : Type} (f : B -> C) (g : A -> list B) l :
  map f (fold_right (fun x acc => acc ++ g x) [] l)
  = fold_right (fun x acc => acc ++ map f (g x)) [] l.
Proof.
  induction l as [|x l IH]; simpl; auto.
  rewrite map_app, IH. reflexivity.
Qed.

Lemma map_flat_map_comm {A B C : Type} (f : B -> C) (g : A -> list B) l :
  map f (flat_map g l) = flat_map (fun x => map f (g x)) l.
Proof.
  induction l as [|x l IH]; simpl; auto.
  rewrite map_app, IH. reflexivity.
Qed.

Lemma suffixes_out_targets q n :
  forall p,
    Permutation (map r_target (suffixes_out q p n))
                (map (app p) (keys_below n)).
Proof.
  induction n as [i c fl cs IH] using TrieNode_ind'. intros p.
  rewrite suffixes_out_eq, keys_below_eq. simpl children.
  rewrite !map_app. apply Permutation_app.
  - destruct (has_item _); simpl; [rewrite app_nil_r|]; auto.
  - rewrite map_fold_right_app.
    eapply Permutation_trans; [apply Permutation_fold_right_flat_map|].
    rewrite map_flat_map_comm.
    apply Permutation_flat_map_ext. intros x Hx.
    rewrite Forall_forall in IH.
    eapply Permutation_trans; [apply (IH x Hx)|].
    rewrite map_map. erewrite map_ext; [reflexivity|].
    intros s. simpl. rewrite <- app_assoc. reflexivity.
Qed.

Lemma in_fold_right_app {A B : Type} (g : A -> list B) l r :
  In r (fold_right (fun x acc => acc ++ g x) [] l)
  <-> exists x, In x l /\ In r (g x).
Proof.
  induction l as [|x l IH]; simpl.
  - split; [intros []|intros [x [[] _]]].
  - rewrite in_app_iff, IH. split.
    + intros [[y [Hy Hr]]|Hr]; eauto.
    + intros [y [[<-|Hy] Hr]]; eauto.
Qed.

Lemma suffixes_out_fields q n :
  forall p r, In r (suffixes_out q p n) -> r_query r = q /\ r_hd r = 0.
Proof.
  induction n as [i c fl cs IH] using TrieNode_ind'. intros p r.
  rewrite suffixes_out_eq. simpl children. rewrite in_app_iff.
  intros [H|H].
  - destruct (has_item _); [|contradiction].
    destruct H as [<-|[]]. auto.
  - rewrite Forall_forall in IH. apply in_fold_right_app in H.
    destruct H as [x [Hx Hr]]. eapply IH; eauto.
Qed.

Lemma count_occ_NoDup (l : list nodeptr) q :
  NoDup l ->
  count_occ key_eq_dec l q = if in_dec key_eq_dec q l then 1%nat else 0%nat.
Proof.
  intros Hnd. destruct (in_dec key_eq_dec q l) as [Hin|Hin].
  - apply NoDup_count_occ'; auto.
  - apply count_occ_not_In. exact Hin.
Qed.

Lemma has_key_at_item root q :
  wf_node [] (rnode root) = true ->
  has_key_at (rnode root) q = true ->
  exists x,
    get_node (rnode root) q = Some x
    /\ key (item x) = Some q
    /\ keylen (item x) = to_size_t (Z.of_nat (length q)).
Proof.
  unfold has_key_at, has_item. intros Hw H.
  destruct (get_node (rnode root) q) as [x|] eqn:E; [|discriminate].
  destruct (key (item x)) as [k0|] eqn:Ek; [|discriminate].
  destruct (wf_key_is_path root q x k0 Hw E Ek) as [-> Hl]. eauto.
Qed.

(** C3.  On a well-formed store, the suffix iterator of the empty key,
    advanced until it returns end (which it does, given fuel beyond the
    number of nodes), yields one result per stored key and no other:
    every pointer is the target of as many results as it is a stored key
    (one or none), each target is an item-bearing node whose key is the
    path to it, and every result has [hd = 0].  The store is left as it
    was. *)
Theorem suffixes_of_empty_key_yield_all_items root a fuel :
  wf_store root = true ->
  (count_nodes (rnode root) < fuel)%nat ->
  exists it rs it',
    trieiter_suffixes root a [] = Some (it, root)
    /\ trieiter_drain fuel root it = Some (rs, root, it')
    /\ (forall q,
          count_occ key_eq_dec (map r_target rs) q
          = if has_key_at (rnode root) q then 1%nat else 0%nat)
    /\ (forall k,
          count_occ key_eq_dec (map r_target rs) (cstr k)
          = if trie_has_key root k then 1%nat else 0%nat)
    /\ (forall r, In r rs ->
          r_hd r = 0
          /\ exists x,
               get_node (rnode root) (r_target r) = Some x
               /\ key (item x) = Some (r_target r)).
Proof.
  intros Hwf Hfuel.
  pose proof (wf_store_parts _ Hwf) as [Hw _].
  set (it := trieiter_push_state
               (mkIter a [] 1 0 0 0 false (state_id root) E_SUCCESS []
                       suffixes_next) [] [] 0 0).
  assert (Hinv : suffixes_inv root it).
  { unfold suffixes_inv. repeat split; auto.
    constructor; [discriminate|constructor]. }
  assert (Hsize : (states_size root it < fuel)%nat).
  { unfold states_size, stack_size, deref_size. simpl. lia. }
  destruct (drain_rule
              (fun r i => r = root /\ suffixes_inv root i)
              states_size suffixes_due (fun r _ => r = root)
              (suffixes_next_spec root) fuel root it)
    as [root' [it' [Hdrain ->]]]; auto.
  assert (Hdue : suffixes_due root it = suffixes_out [] [] (rnode root)).
  { unfold suffixes_due, suffixes_state_out. simpl. apply app_nil_r. }
  rewrite Hdue in Hdrain.
  assert (Hcount : forall q,
            count_occ key_eq_dec
              (map r_target (suffixes_out [] [] (rnode root))) q
            = if has_key_at (rnode root) q then 1%nat else 0%nat).
  { intros q.
    pose proof (suffixes_out_targets [] (rnode root) []) as HP.
    rewrite (map_ext (app []) (fun x => x)), map_id in HP by reflexivity.
    rewrite (Permutation_count_occ key_eq_dec) in HP. rewrite HP.
    rewrite count_occ_NoDup by (eapply NoDup_keys_below; eauto).
    pose proof (in_keys_below (rnode root) [] q Hw) as Hiff.
    destruct (in_dec key_eq_dec q (keys_below (rnode root))) as [Hi|Hi],
      (has_key_at (rnode root) q); try reflexivity; exfalso.
    - apply Hiff in Hi. discriminate.
    - apply Hi. apply Hiff. reflexivity. }
  exists it, (suffixes_out [] [] (rnode root)), it'.
  split; [reflexivity|]. split; [exact Hdrain|].
  split; [exact Hcount|]. split; [intros k; apply Hcount|].
  intros r Hr. split; [eapply suffixes_out_fields; eauto|].
  assert (Ht : has_key_at (rnode root) (r_target r) = true).
  { specialize (Hcount (r_target r)).
    destruct (has_key_at (rnode root) (r_target r)); auto.
    apply (count_occ_not_In key_eq_dec) in Hcount.
    exfalso. apply Hcount. apply in_map. exact Hr. }
  destruct (has_key_at_item root _ Hw Ht) as [x [H1 [H2 _]]]. eauto.
Qed.

Lemma suffixes_of_empty_key_yield_all_items_witness :
  wf_store store_aa_ab = true
  /\ (count_nodes (rnode store_aa_ab) < 10)%nat
  /\ exists it rs it',
       trieiter_suffixes store_aa_ab 1 [] = Some (it, store_aa_ab)
       /\ trieiter_drain 10 store_aa_ab it = Some (rs, store_aa_ab, it')
       /\ (forall q,
             count_occ key_eq_dec (map r_target rs) q
             = if has_key_at (rnode store_aa_ab) q then 1%nat else 0%nat)
       /\ (forall k,
             count_occ key_eq_dec (map r_target rs) (cstr k)
             = if trie_has_key store_aa_ab k then 1%nat else 0%nat)
       /\ (forall r, In r rs ->
             r_hd r = 0
             /\ exists x,
                  get_node (rnode store_aa_ab) (r_target r) = Some x
                  /\ key (item x) = Some (r_target r)).
Proof.
  assert (H1 : wf_store store_aa_ab = true) by (vm_compute; reflexivity).
  assert (H2 : (count_nodes (rnode store_aa_ab) < 10)%nat)
    by (vm_compute; lia).
  split; [exact H1|]. split; [exact H2|].
  exact (suffixes_of_empty_key_yield_all_items store_aa_ab 1 10 H1 H2).
Defined.

(* ------------------------------------------------------------------ *)
(** ** Hamming distance *)

Lemma hamming_nonneg a : forall b, 0 <= hamming a b.
Proof.
  induction a as [|x a IH]; intros [|y b]; simpl; try lia.
  specialize (IH b). destruct (Byte.eqb x y); lia.
Qed.

Lemma hamming_app a1 :
  forall b1 a2 b2,
    length a1 = length b1 ->
    hamming (a1 ++ a2) (b1 ++ b2) = hamming a1 b1 + hamming a2 b2.
Proof.
  induction a1 as [|x a1 IH]; intros [|y b1] a2 b2 H; simpl in *;
    try discriminate; auto.
  rewrite IH by lia. lia.
Qed.

Lemma hamming_refl a : hamming a a = 0.
Proof.
  induction a as [|x a IH]; simpl; auto.
  rewrite byte_eqb_refl, IH. reflexivity.
Qed.

Lemma hamming_zero a :
  forall b, length a = length b -> hamming a b = 0 -> a = b.
Proof.
  induction a as [|x a IH]; intros [|y b] Hl H; simpl in *;
    try discriminate; auto.
  pose proof (hamming_nonneg a b).
  destruct (Byte.eqb x y) eqn:E; [|lia].
  apply byte_eqb_eq in E. subst. f_equal. apply IH; lia.
Qed.

Lemma hamming_sym a : forall b, hamming a b = hamming b a.
Proof.
  induction a as [|x a IH]; intros [|y b]; simpl; auto.
  rewrite IH. destruct (Byte.eqb x y) eqn:E, (Byte.eqb y x) eqn:E'; auto.
  - apply byte_eqb_eq in E. apply byte_eqb_neq in E'. congruence.
  - apply byte_eqb_eq in E'. apply byte_eqb_neq in E. congruence.
Qed.

Lemma byte_eqb_sym (a b : byte) : Byte.eqb a b = Byte.eqb b a.
Proof.
  destruct (Byte.eqb a b) eqn:E, (Byte.eqb b a) eqn:E'; auto.
  - apply byte_eqb_eq in E. apply byte_eqb_neq in E'. congruence.
  - apply byte_eqb_eq in E'. apply byte_eqb_neq in E. congruence.
Qed.

(** Reading the byte of a key at a depth below its length. *)
Lemma key_char_inside q d :
  0 <= d < Z.of_nat (length q) ->
  exists c,
    key_char q d = Some c
    /\ nth_error q (Z.to_nat d) = Some c
    /\ firstn (S (Z.to_nat d)) q = firstn (Z.to_nat d) q ++ [c].
Proof.
  intros H. unfold key_char.
  replace (d <? 0) with false by (symmetry; apply Z.ltb_ge; lia).
  assert (Hlt : (Z.to_nat d < length q)%nat) by lia.
  destruct (nth_error q (Z.to_nat d)) as [c|] eqn:E.
  - exists c. rewrite nth_error_app1 by exact Hlt. split; auto. split; auto.
    clear H. revert E Hlt. generalize (Z.to_nat d). intros m. revert q.
    induction m as [|m IH]; intros [|x q] E Hlt; simpl in *;
      try discriminate; try lia.
    + inversion E. reflexivity.
    + f_equal. apply IH; auto. lia.
  - apply nth_error_None in E. lia.
Qed.

(** The distance so far, one level down. *)
Lemma hamming_step (q p : list TRIECHAR) c y :
  (length p < length q)%nat ->
  nth_error q (length p) = Some c ->
  firstn (S (length p)) q = firstn (length p) q ++ [c] ->
  hamming (firstn (S (length p)) q) (p ++ [y])
  = hamming (firstn (length p) q) p + (if Byte.eqb y c then 0 else 1).
Proof.
  intros Hlt _ ->. rewrite hamming_app.
  - simpl. rewrite (byte_eqb_sym c y). lia.
  - rewrite length_firstn. lia.
Qed.

(** The distance to a full-length key is at least the distance so
    far. *)
Lemma hamming_prefix_le q p s :
  length (p ++ s) = length q ->
  hamming (firstn (length p) q) p <= hamming q (p ++ s).
Proof.
  intros Hl. rewrite <- (firstn_skipn (length p) q) at 2.
  rewrite hamming_app.
  - pose proof (hamming_nonneg (skipn (length p) q) s). lia.
  - rewrite length_firstn. rewrite length_app in Hl. lia.
Qed.

(* ------------------------------------------------------------------ *)
(** ** The neighbor iterator: one call of next *)

Lemma neighbors_push_children_spec c mhd p q h d cs :
  forall it,
    maxhd it = mhd ->
    exists it2,
      neighbors_push_children cs (Some c) p q h d it = Some it2
      /\ same_config it it2
      /\ states it2
         = rev (neighbors_pushed c mhd p q h d cs) ++ states it.
Proof.
  unfold neighbors_pushed.
  induction cs as [|x cs IH]; intros it Hm; simpl.
  - exists it. split; auto. split; [apply same_config_refl|reflexivity].
  - rewrite Hm. destruct (Byte.eqb (ch x) c).
    + destruct (IH (trieiter_push_state it (p ++ [ch x]) q h (to_int (d + 1)))
                   Hm)
        as [it2 [H1 [H2 H3]]].
      exists it2. split; auto.
      destruct (push_state_config it (p ++ [ch x]) q h (to_int (d + 1)))
        as [P1 [_ P3]].
      split; [eapply same_config_trans; eauto|].
      rewrite H3, P3. simpl. rewrite <- app_assoc. reflexivity.
    + destruct (h <? mhd) eqn:E.
      * destruct (IH (trieiter_push_state it (p ++ [ch x]) q
                        (to_int (h + 1)) (to_int (d + 1))) Hm)
          as [it2 [H1 [H2 H3]]].
        exists it2. split; auto.
        destruct (push_state_config it (p ++ [ch x]) q (to_int (h + 1))
                    (to_int (d + 1))) as [P1 [_ P3]].
        split; [eapply same_config_trans; eauto|].
        rewrite H3, P3. simpl. rewrite <- app_assoc. reflexivity.
      * destruct (IH it Hm) as [it2 [H1 [H2 H3]]].
        exists it2. auto.
Qed.

Lemma neighbors_out_eq qk mhd td q p h d n :
  neighbors_out qk mhd td q p h d n
  = if d =? td then
      (if has_item n then if h =? 0 then [] else [mkResult q p h] else [])
    else
      fold_right
        (fun x acc =>
           acc ++
           match key_char qk d with
           | Some c =>
               if Byte.eqb (ch x) c then
                 neighbors_out qk mhd td q (p ++ [ch x]) h (to_int (d + 1)) x
               else if h <? mhd then
                 neighbors_out qk mhd td q (p ++ [ch x])
                               (to_int (h + 1)) (to_int (d + 1)) x
               else []
           | None => []
           end)
        [] (children n).
Proof.
  destruct n as [i c fl cs]. unfold has_item. simpl.
  destruct (d =? td); [destruct (key i)|]; reflexivity.
Qed.

Lemma rev_flat_map {A B : Type} (f : A -> list B) l :
  rev (flat_map f l) = flat_map (fun x => rev (f x)) (rev l).
Proof.
  induction l as [|x l IH]; simpl; auto.
  rewrite rev_app_distr, IH, flat_map_app. simpl.
  rewrite app_nil_r. reflexivity.
Qed.

Lemma flat_map_flat_map {A B C : Type} (f : A -> list B) (g : B -> list C) l :
  flat_map g (flat_map f l) = flat_map (fun x => flat_map g (f x)) l.
Proof.
  induction l as [|x l IH]; simpl; auto.
  rewrite flat_map_app, IH. reflexivity.
Qed.

Lemma flat_map_ext_in' {A B : Type} (f g : A -> list B) l :
  (forall x, In x l -> f x = g x) -> flat_map f l = flat_map g l.
Proof.
  induction l as [|x l IH]; simpl; intros H; auto.
  rewrite H, IH; auto.
Qed.

Lemma stack_size_flat_map_le root (f : TrieNode -> list TrieIterState)
  (w : TrieNode -> nat) cs :
  (forall x, In x cs -> (stack_size root (f x) <= w x)%nat) ->
  (stack_size root (flat_map f cs) <= list_sum (map w cs))%nat.
Proof.
  induction cs as [|x cs IH]; simpl; intros H.
  - unfold stack_size. simpl. lia.
  - rewrite stack_size_app.
    pose proof (H x (or_introl eq_refl)). specialize (IH (fun y Hy => H y (or_intror Hy))).
    lia.
Qed.

Lemma stack_size_rev root st :
  stack_size root (rev st) = stack_size root st.
Proof.
  unfold stack_size. rewrite map_rev. apply list_sum_rev.
Qed.

Lemma neighbors_expand root mhd td s n c :
  wf_node [] (rnode root) = true ->
  get_node (rnode root) (node s) = Some n ->
  (depth s =? td) = false ->
  key_char (query s) (depth s) = Some c ->
  let pushed :=
    rev (neighbors_pushed c mhd (node s) (query s) (hd s) (depth s)
                          (children n)) in
  neighbors_state_out root mhd td s
  = flat_map (neighbors_state_out root mhd td) pushed
  /\ Forall (fun s' => get_node (rnode root) (node s') <> None
                       /\ query s' = query s
                       /\ depth s' = to_int (depth s + 1)) pushed
  /\ (stack_size root pushed < deref_size root s)%nat.
Proof.
  intros Hw Hn Hd Hc pushed. subst pushed.
  assert (Hch : forall x, In x (children n) ->
                  get_node (rnode root) (node s ++ [ch x]) = Some x)
    by (intros; eapply get_node_child; eauto).
  split; [|split].
  - unfold neighbors_state_out at 1. rewrite Hn, neighbors_out_eq, Hd, Hc.
    rewrite <- flat_map_rev_fold_right.
    unfold neighbors_pushed. rewrite rev_flat_map, flat_map_flat_map.
    apply flat_map_ext_in'. intros x Hx. apply in_rev in Hx.
    unfold neighbors_state_out.
    destruct (Byte.eqb (ch x) c); simpl.
    + rewrite Hch by auto. rewrite app_nil_r. reflexivity.
    + destruct (hd s <? mhd); simpl; auto.
      rewrite Hch by auto. rewrite app_nil_r. reflexivity.
  - apply Forall_rev. apply Forall_forall. intros s' Hs'.
    unfold neighbors_pushed in Hs'. apply in_flat_map in Hs'.
    destruct Hs' as [x [Hx Hs']].
    destruct (Byte.eqb (ch x) c).
    + destruct Hs' as [<-|[]]. simpl. rewrite Hch by auto.
      repeat split; auto. discriminate.
    + destruct (hd s <? mhd); [|contradiction].
      destruct Hs' as [<-|[]]. simpl. rewrite Hch by auto.
      repeat split; auto. discriminate.
  - rewrite stack_size_rev. unfold deref_size. rewrite Hn.
    rewrite (count_nodes_eq n). apply Nat.lt_succ_r.
    unfold neighbors_pushed. apply stack_size_flat_map_le.
    intros x Hx. unfold stack_size, deref_size.
    destruct (Byte.eqb (ch x) c); simpl.
    + rewrite Hch by auto. lia.
    + destruct (hd s <? mhd); simpl; [|lia].
      rewrite Hch by auto. lia.
Qed.

Lemma query_char_key root q d :
  wf_node [] (rnode root) = true ->
  has_key_at (rnode root) q = true ->
  query_char root q d = key_char q d.
Proof.
  intros Hw Hq. destruct (has_key_at_item root q Hw Hq) as [x [H1 [H2 _]]].
  unfold query_char. rewrite H1, H2. reflexivity.
Qed.

Lemma deref_size_pos root s :
  get_node (rnode root) (node s) <> None -> (0 < deref_size root s)%nat.
Proof.
  unfold deref_size. destruct (get_node (rnode root) (node s)) as [n|];
    [|congruence].
  intros _. rewrite count_nodes_eq. lia.
Qed.

Lemma neighbors_due_config root it it' :
  same_config it it' ->
  neighbors_due root it'
  = flat_map (neighbors_state_out root (maxhd it) (target_depth it))
             (states it').
Proof.
  unfold neighbors_due, same_config. intros H. decompose [and] H.
  congruence.
Qed.

Lemma neighbors_inv_config root q it it' :
  neighbors_inv root q it -> same_config it it' ->
  Forall (neighbors_state_ok root q (target_depth it)) (states it') ->
  neighbors_inv root q it'.
Proof.
  unfold neighbors_inv, same_config. intros H1 H2 H3.
  decompose [and] H1. decompose [and] H2.
  repeat split; auto; congruence.
Qed.

Lemma neighbors_loop_spec fuel root q it :
  neighbors_inv root q it -> (states_size root it < fuel)%nat ->
  exists res it',
    while_loop (neighbors_body root) fuel it = Some (res, it')
    /\ match neighbors_due root it with
       | [] => res = None
       | r :: rest =>
           res = Some r /\ neighbors_inv root q it'
           /\ neighbors_due root it' = rest
           /\ (states_size root it' < states_size root it)%nat
       end.
Proof.
  intros Hinv Hfuel.
  destruct (while_loop_rule (neighbors_body root) (neighbors_inv root q)
              (states_size root)
              (fun i r =>
                 match neighbors_due root i with
                 | [] => fst r = None
                 | x :: rest =>
                     fst r = Some x /\ neighbors_inv root q (snd r)
                     /\ neighbors_due root (snd r) = rest
                     /\ (states_size root (snd r) < states_size root i)%nat
                 end))
    with (fuel := fuel) (s := it) as [[res it'] [Hrun Hpost]]; auto.
  2:{ exists res, it'. split; auto. }
  clear. intros it Hinv. unfold neighbors_body.
  destruct (trieiter_pop_state it) as [[s it1]|] eqn:Epop.
  2:{ apply pop_state_none in Epop. unfold neighbors_due.
      rewrite Epop. reflexivity. }
  apply pop_state_config in Epop. destruct Epop as [Hc1 [_ Hst]].
  pose proof Hinv as [Hw [_ [_ [_ [Hq [Htd [Htmax Hvalid]]]]]]].
  rewrite Hst in Hvalid. inversion Hvalid as [|? ? Hs Hrest]; subst.
  destruct Hs as [Hsn [Hsq Hsd]]. subst q.
  pose proof (deref_size_pos root s Hsn) as Hpos.
  destruct (get_node (rnode root) (node s)) as [n|] eqn:En; [|congruence].
  assert (Htd1 : target_depth it1 = target_depth it)
    by (destruct Hc1 as [_ [_ [H _]]]; exact H).
  assert (Hmh1 : maxhd it1 = maxhd it)
    by (destruct Hc1 as [_ [H _]]; exact H).
  assert (Hinv1 : neighbors_inv root (query s) it1).
  { exact (neighbors_inv_config root (query s) it it1 Hinv Hc1 Hrest). }
  assert (Hdue : neighbors_due root it
                 = neighbors_state_out root (maxhd it) (target_depth it) s
                   ++ neighbors_due root it1).
  { rewrite (neighbors_due_config root it it1 Hc1).
    unfold neighbors_due. rewrite Hst. reflexivity. }
  assert (Hlt1 : (states_size root it1 < states_size root it)%nat).
  { unfold states_size. rewrite Hst. unfold stack_size. simpl. lia. }
  rewrite Htd1. destruct (depth s =? target_depth it) eqn:Ed.
  - unfold neighbors_state_out in Hdue.
    rewrite En, neighbors_out_eq, Ed in Hdue.
    destruct (has_item n); simpl.
    + destruct (hd s =? 0); simpl.
      * split; auto. split; auto. intros [res it']. rewrite Hdue. simpl.
        destruct (neighbors_due root it1); auto.
        intros [H1 [H2 [H3 H4]]]. simpl in *.
        split; [exact H1|]. split; [exact H2|]. split; [exact H3|]. lia.
      * rewrite Hdue. simpl. auto.
    + split; auto. split; auto. intros [res it']. rewrite Hdue. simpl.
      destruct (neighbors_due root it1); auto.
      intros [H1 [H2 [H3 H4]]]. simpl in *.
      split; [exact H1|]. split; [exact H2|]. split; [exact H3|]. lia.
  - apply Z.eqb_neq in Ed.
    destruct (key_char_inside (query s) (depth s)) as [c [Hkc _]]; [lia|].
    rewrite (query_char_key root (query s) (depth s) Hw Hq), Hkc.
    destruct (neighbors_push_children_spec c (maxhd it) (node s) (query s)
                (hd s) (depth s) (children n) it1 Hmh1)
      as [it2 [Hpush [Hc2 Hst2]]].
    rewrite Hpush.
    apply Z.eqb_neq in Ed.
    destruct (neighbors_expand root (maxhd it) (target_depth it) s n c
                Hw En Ed Hkc) as [Hout [Hval Hsize]].
    assert (Hinv2 : neighbors_inv root (query s) it2).
    { apply (neighbors_inv_config root (query s) it); auto.
      - eapply same_config_trans; eauto.
      - rewrite Hst2. apply Forall_app. split; auto.
        eapply Forall_impl; [|exact Hval]. simpl.
        intros s' [H1 [H2 H3]]. split; auto. split; auto.
        rewrite H3. apply Z.eqb_neq in Ed. unfold INT_MAX in Htmax.
        rewrite to_int_small; lia. }
    assert (Hdue2 : neighbors_due root it = neighbors_due root it2).
    { rewrite Hdue.
      rewrite (neighbors_due_config root it it2
                 (same_config_trans _ _ _ Hc1 Hc2)).
      rewrite Hst2, flat_map_app, Hout.
      rewrite (neighbors_due_config root it it1 Hc1). reflexivity. }
    assert (Hlt : (states_size root it2 < states_size root it)%nat).
    { unfold states_size. rewrite Hst, Hst2, stack_size_app.
      unfold stack_size at 3. simpl. fold (stack_size root (states it1)).
      lia. }
    split; auto. split; auto. intros [res it']. rewrite Hdue2. simpl.
    destruct (neighbors_due root it2); auto.
    intros [H1 [H2 [H3 H4]]]. simpl in *.
    split; [exact H1|]. split; [exact H2|]. split; [exact H3|]. lia.
Qed.

Lemma neighbors_next_spec root0 q fuel root it :
  root = root0 /\ neighbors_inv root0 q it ->
  (states_size root it < fuel)%nat ->
  exists res root' it',
    trieiter_next fuel root it = Some (res, root', it')
    /\ match neighbors_due root it with
       | [] => res = None /\ root' = root0
       | r :: rest =>
           res = Some r /\ (root' = root0 /\ neighbors_inv root0 q it')
           /\ neighbors_due root' it' = rest
           /\ (states_size root' it' < states_size root it)%nat
       end.
Proof.
  intros [-> Hinv] Hfuel.
  destruct (neighbors_loop_spec fuel root0 q it Hinv Hfuel)
    as [res [it' [Hrun Hpost]]].
  exists res, root0, it'. split.
  - destruct Hinv as [_ [Hn [Hd [Hs _]]]].
    unfold trieiter_next. rewrite Hs, Z.eqb_refl, Hd, Hn. simpl.
    unfold trieiter_neighbors_next. rewrite Hrun. reflexivity.
  - destruct (neighbors_due root0 it); [auto|tauto].
Qed.

(* ------------------------------------------------------------------ *)
(** ** The neighbor iterator: the results as a set *)

Lemma filter_nil_all {A : Type} (f : A -> bool) l :
  (forall x, In x l -> f x = false) -> filter f l = [].
Proof.
  induction l as [|x l IH]; simpl; intros H; auto.
  rewrite (H x (or_introl eq_refl)). apply IH. auto.
Qed.

Lemma filter_flat_map {A B : Type} (f : B -> bool) (g : A -> list B) l :
  filter f (flat_map g l) = flat_map (fun x => filter f (g x)) l.
Proof.
  induction l as [|x l IH]; simpl; auto.
  rewrite filter_app, IH. reflexivity.
Qed.

Lemma filter_map_comm {A B : Type} (f : B -> bool) (g : A -> B) l :
  filter f (map g l) = map g (filter (fun x => f (g x)) l).
Proof.
  induction l as [|x l IH]; simpl; auto.
  destruct (f (g x)); simpl; rewrite IH; reflexivity.
Qed.

Lemma is_neighbor_length q mhd t :
  length t <> length q -> is_neighbor q mhd t = false.
Proof.
  intros H. unfold is_neighbor.
  replace (length t =? length q)%nat with false; auto.
  symmetry. apply Nat.eqb_neq. exact H.
Qed.

Lemma is_neighbor_far q mhd p s :
  mhd < hamming (firstn (length p) q) p ->
  is_neighbor q mhd (p ++ s) = false.
Proof.
  intros H. unfold is_neighbor.
  destruct (length (p ++ s) =? length q)%nat eqn:E; auto.
  apply Nat.eqb_eq in E. pose proof (hamming_prefix_le q p s E).
  replace (hamming q (p ++ s) <=? mhd) with false.
  - apply andb_false_r.
  - symmetry. apply Z.leb_gt. lia.
Qed.

Lemma neighbors_out_perm q mhd :
  0 <= mhd <= INT_MAX ->
  Z.of_nat (length q) <= INT_MAX ->
  forall n p h,
    (length p <= length q)%nat ->
    h = hamming (firstn (length p) q) p ->
    h <= mhd ->
    Permutation
      (neighbors_out q mhd (Z.of_nat (length q)) q p h
                     (Z.of_nat (length p)) n)
      (map (neighbor_result q p)
           (filter (fun s => is_neighbor q mhd (p ++ s)) (keys_below n))).
Proof.
  unfold INT_MAX. intros Hmhd HL.
  induction n as [i c0 fl cs IH] using TrieNode_ind'.
  intros p h Hlen Hh Hle.
  pose proof (hamming_nonneg (firstn (length p) q) p) as Hnn.
  assert (H0 : 0 <= h) by (rewrite Hh; exact Hnn).
  rewrite neighbors_out_eq, keys_below_eq. simpl children.
  rewrite filter_app, map_app, filter_flat_map, map_flat_map_comm.
  destruct (Z.of_nat (length p) =? Z.of_nat (length q)) eqn:E.
  - apply Z.eqb_eq in E. apply Nat2Z.inj in E.
    rewrite E, firstn_all in Hh.
    rewrite (flat_map_ext_in' _ (fun _ => [])).
    2:{ intros x _. rewrite filter_nil_all; auto.
        intros s Hs. apply in_map_iff in Hs. destruct Hs as [s' [<- _]].
        apply is_neighbor_length. rewrite length_app. simpl. lia. }
    replace (flat_map (fun _ : TrieNode => []) cs)
      with (@nil TrieSearchResult)
      by (clear; induction cs; simpl; auto).
    rewrite app_nil_r.
    destruct (has_item (Node i c0 fl cs)); simpl; auto.
    unfold is_neighbor. rewrite app_nil_r, E, Nat.eqb_refl, <- Hh. simpl.
    destruct (h =? 0) eqn:E0.
    + apply Z.eqb_eq in E0. subst h. rewrite E0. simpl. auto.
    + apply Z.eqb_neq in E0.
      replace (0 <? h) with true by (symmetry; apply Z.ltb_lt; lia).
      replace (h <=? mhd) with true by (symmetry; apply Z.leb_le; lia).
      simpl. unfold neighbor_result. rewrite app_nil_r, <- Hh. auto.
  - apply Z.eqb_neq in E.
    assert (Hlt : (length p < length q)%nat) by lia.
    rewrite (filter_nil_all _ (if has_item _ then [[]] else [])).
    2:{ intros s Hs. destruct (has_item _); [|contradiction].
        destruct Hs as [<-|[]]. apply is_neighbor_length.
        rewrite app_nil_r. lia. }
    simpl.
    destruct (key_char_inside q (Z.of_nat (length p))) as [c [Hkc [Hnth Hfn]]];
      [lia|].
    rewrite Nat2Z.id in Hnth, Hfn. rewrite Hkc.
    eapply Permutation_trans; [apply Permutation_fold_right_flat_map|].
    apply Permutation_flat_map_ext. intros x Hx.
    rewrite Forall_forall in IH.
    rewrite filter_map_comm, map_map.
    assert (Hmap : forall l,
              map (fun s => neighbor_result q p (ch x :: s)) l
              = map (neighbor_result q (p ++ [ch x])) l).
    { intros l. apply map_ext. intros s. unfold neighbor_result.
      rewrite <- app_assoc. reflexivity. }
    assert (Hfil : filter (fun s => is_neighbor q mhd (p ++ ch x :: s))
                          (keys_below x)
                   = filter (fun s => is_neighbor q mhd ((p ++ [ch x]) ++ s))
                            (keys_below x)).
    { apply filter_ext. intros s. rewrite <- app_assoc. reflexivity. }
    rewrite Hmap, Hfil.
    assert (Hlen' : length (p ++ [ch x]) = S (length p))
      by (rewrite length_app; simpl; lia).
    assert (Hd : to_int (Z.of_nat (length p) + 1)
                 = Z.of_nat (length (p ++ [ch x]))).
    { rewrite Hlen', to_int_small; lia. }
    pose proof (hamming_step q p c (ch x) Hlt Hnth Hfn) as Hstep.
    rewrite Hd.
    destruct (Byte.eqb (ch x) c) eqn:Ec.
    + apply IH; auto; [lia|]. rewrite Hlen', Hstep. lia.
    + destruct (h <? mhd) eqn:Eh.
      * apply Z.ltb_lt in Eh. rewrite to_int_small by lia.
        apply IH; auto; [lia| |lia]. rewrite Hlen', Hstep. lia.
      * apply Z.ltb_ge in Eh. rewrite filter_nil_all; [simpl; auto|].
        intros s _. apply is_neighbor_far. rewrite Hlen', Hstep. lia.
Qed.

Lemma NoDup_filter {A : Type} (f : A -> bool) l :
  NoDup l -> NoDup (filter f l).
Proof.
  induction l as [|x l IH]; simpl; intros H; auto.
  inversion H; subst. destruct (f x); auto.
  constructor; auto. intros Hin. apply filter_In in Hin. tauto.
Qed.

Lemma count_occ_filter_keys root q f :
  wf_node [] (rnode root) = true ->
  count_occ key_eq_dec (filter f (keys_below (rnode root))) q
  = if has_key_at (rnode root) q && f q then 1%nat else 0%nat.
Proof.
  intros Hw.
  rewrite count_occ_NoDup
    by (apply NoDup_filter; eapply NoDup_keys_below; eauto).
  pose proof (in_keys_below (rnode root) [] q Hw) as Hiff.
  destruct (in_dec key_eq_dec q (filter f (keys_below (rnode root))))
    as [Hi|Hi].
  - apply filter_In in Hi. destruct Hi as [H1 H2].
    apply Hiff in H1. rewrite H1, H2. reflexivity.
  - destruct (has_key_at (rnode root) q) eqn:E1; auto.
    destruct (f q) eqn:E2; auto.
    exfalso. apply Hi. apply filter_In. split; auto. apply Hiff. auto.
Qed.

(** C2.  On a well-formed store, for a stored key [k] of at most
    [INT_MAX] bytes and a bound [1 <= h], the neighbor iterator is
    created and, advanced until it returns end (which it does, given
    fuel beyond the number of nodes), yields one result per stored key
    [t] of the length of [k] with [0 < hamming k t <= h] and no other;
    the query of every result is [k] and its [hd] is the Hamming
    distance of [k] and its target; [k] itself is not a target. *)
Theorem neighbors_yield_hamming_ball root a k h fuel :
  wf_store root = true ->
  trie_has_key root k = true ->
  1 <= h <= INT_MAX ->
  Z.of_nat (length (cstr k)) <= INT_MAX ->
  (count_nodes (rnode root) < fuel)%nat ->
  exists it rs it',
    trieiter_neighbors root a k h = Some (it, root)
    /\ trieiter_drain fuel root it = Some (rs, root, it')
    /\ (forall t,
          count_occ key_eq_dec (map r_target rs) t
          = if has_key_at (rnode root) t && is_neighbor (cstr k) h t
            then 1%nat else 0%nat)
    /\ (forall r, In r rs ->
          r_query r = cstr k
          /\ r_hd r = hamming (cstr k) (r_target r)
          /\ 0 < r_hd r <= h
          /\ length (r_target r) = length (cstr k)
          /\ exists x,
               get_node (rnode root) (r_target r) = Some x
               /\ key (item x) = Some (r_target r))
    /\ ~ In (cstr k) (map r_target rs).
Proof.
  intros Hwf Hk Hh HL Hfuel.
  pose proof (wf_store_parts _ Hwf) as [Hw _].
  rewrite trie_has_key_has_key_at in Hk.
  destruct (has_key_at_item root (cstr k) Hw Hk) as [qn [Hqn [Hkey Hklen]]].
  set (q := cstr k) in *.
  set (L := Z.of_nat (length q)) in *.
  assert (HL' : to_int (keylen (item qn)) = L).
  { rewrite Hklen. unfold INT_MAX in HL. fold L.
    rewrite to_size_t_small by lia. apply to_int_small. lia. }
  set (it := trieiter_push_state
               (mkIter a [] 1 h L L false (state_id root) E_SUCCESS []
                       neighbors_next) [] q 0 0).
  assert (Hcreate : trieiter_neighbors root a k h = Some (it, root)).
  { unfold trieiter_neighbors, trie_get_node. fold q.
    replace (h <? 1) with false by (symmetry; apply Z.ltb_ge; lia).
    rewrite Hqn, Hkey, HL'. unfold trieiter_new.
    replace (h <? 0) with false by (symmetry; apply Z.ltb_ge; lia).
    replace (L <? 0) with false by (symmetry; apply Z.ltb_ge; lia).
    reflexivity. }
  assert (Hinv : neighbors_inv root q it).
  { unfold neighbors_inv. simpl. repeat split; auto; try lia.
    constructor; [|constructor].
    unfold neighbors_state_ok. simpl. repeat split; auto; try lia.
    discriminate. }
  assert (Hsize : (states_size root it < fuel)%nat).
  { unfold states_size, stack_size, deref_size. simpl. lia. }
  destruct (drain_rule
              (fun r i => r = root /\ neighbors_inv root q i)
              states_size neighbors_due (fun r _ => r = root)
              (neighbors_next_spec root q) fuel root it)
    as [root' [it' [Hdrain ->]]]; auto.
  assert (Hdue : neighbors_due root it
                 = neighbors_out q h L q [] 0 0 (rnode root)).
  { unfold neighbors_due, neighbors_state_out. simpl. apply app_nil_r. }
  rewrite Hdue in Hdrain.
  pose proof (neighbors_out_perm q h ltac:(lia) HL (rnode root) [] 0
                ltac:(simpl; lia) eq_refl ltac:(lia)) as HP.
  simpl in HP. fold L in HP.
  set (rs := neighbors_out q h L q [] 0 0 (rnode root)) in *.
  assert (HT : Permutation (map r_target rs)
                 (filter (is_neighbor q h) (keys_below (rnode root)))).
  { eapply Permutation_trans; [apply Permutation_map; exact HP|].
    rewrite map_map. simpl. rewrite map_id. apply Permutation_refl. }
  assert (Hcount : forall t,
            count_occ key_eq_dec (map r_target rs) t
            = if has_key_at (rnode root) t && is_neighbor q h t
              then 1%nat else 0%nat).
  { intros t. rewrite (Permutation_count_occ key_eq_dec) in HT.
    rewrite HT. apply count_occ_filter_keys. exact Hw. }
  exists it, rs, it'.
  split; [exact Hcreate|]. split; [exact Hdrain|].
  split; [exact Hcount|]. split.
  - intros r Hr. apply (Permutation_in _ HP) in Hr.
    apply in_map_iff in Hr. destruct Hr as [s [<- Hs]].
    apply filter_In in Hs. destruct Hs as [Hs1 Hs2]. simpl in *.
    unfold is_neighbor in Hs2. rewrite !andb_true_iff in Hs2.
    destruct Hs2 as [[E1 E2] E3].
    apply Nat.eqb_eq in E1. apply Z.ltb_lt in E2. apply Z.leb_le in E3.
    split; auto. split; auto. split; auto. split; auto.
    apply (in_keys_below (rnode root) [] s Hw) in Hs1.
    destruct (has_key_at_item root s Hw Hs1) as [x [H1 [H2 _]]]. eauto.
  - intros Hin. specialize (Hcount q).
    unfold is_neighbor in Hcount. rewrite hamming_refl in Hcount.
    simpl in Hcount. rewrite andb_false_r, andb_false_r in Hcount.
    apply (count_occ_not_In key_eq_dec) in Hcount. contradiction.
Qed.

Lemma neighbors_yield_hamming_ball_witness :
  wf_store store_words = true
  /\ trie_has_key store_words (bytes "abcd") = true
  /\ 1 <= 1 <= INT_MAX
  /\ Z.of_nat (length (cstr (bytes "abcd"))) <= INT_MAX
  /\ (count_nodes (rnode store_words) < 20)%nat
  /\ exists it rs it',
       trieiter_neighbors store_words 1 (bytes "abcd") 1
       = Some (it, store_words)
       /\ trieiter_drain 20 store_words it = Some (rs, store_words, it')
       /\ (forall t,
             count_occ key_eq_dec (map r_target rs) t
             = if has_key_at (rnode store_words) t
                  && is_neighbor (cstr (bytes "abcd")) 1 t
               then 1%nat else 0%nat)
       /\ (forall r, In r rs ->
             r_query r = cstr (bytes "abcd")
             /\ r_hd r = hamming (cstr (bytes "abcd")) (r_target r)
             /\ 0 < r_hd r <= 1
             /\ length (r_target r) = length (cstr (bytes "abcd"))
             /\ exists x,
                  get_node (rnode store_words) (r_target r) = Some x
                  /\ key (item x) = Some (r_target r))
       /\ ~ In (cstr (bytes "abcd")) (map r_target rs).
Proof.
  assert (H1 : wf_store store_words = true) by (vm_compute; reflexivity).
  assert (H2 : trie_has_key store_words (bytes "abcd") = true)
    by (vm_compute; reflexivity).
  assert (H3 : 1 <= 1 <= INT_MAX)
    by (split; vm_compute; discriminate).
  assert (H4 : Z.of_nat (length (cstr (bytes "abcd"))) <= INT_MAX)
    by (vm_compute; discriminate).
  assert (H5 : (count_nodes (rnode store_words) < 20)%nat)
    by (vm_compute; lia).
  split; [exact H1|]. split; [exact H2|]. split; [exact H3|].
  split; [exact H4|]. split; [exact H5|].
  exact (neighbors_yield_hamming_ball store_words 1 (bytes "abcd") 1 20
           H1 H2 H3 H4 H5).
Defined.

(** The neighbor-search scenario of the interface description. *)
Example neighbors_of_abcd :
  exists it it',
    trieiter_neighbors store_words 1 (bytes "abcd") 1
    = Some (it, store_words)
    /\ trieiter_drain 20 store_words it
       = Some ([mkResult (bytes "abcd") (bytes "abce") 1;
                mkResult (bytes "abcd") (bytes "abzd") 1],
               store_words, it').
Proof.
  eexists _, _. split.
  - vm_compute. reflexivity.
  - vm_compute. reflexivity.
Qed.

(** *** Keys longer than [INT_MAX] *)

Lemma cstr_repeat_a n l :
  cstr (repeat "a"%byte n ++ l) = repeat "a"%byte n ++ cstr l.
Proof.
  induction n as [|n IH]; simpl; [reflexivity|]. rewrite IH. reflexivity.
Qed.

Lemma trieiter_neighbors_refused root a k h x :
  trie_get_node root k = Some x ->
  to_int (keylen (item x)) < 0 ->
  trieiter_neighbors root a k h = None.
Proof.
  intros Hx Hneg. unfold trieiter_neighbors.
  destruct (h <? 1); auto. rewrite Hx.
  destruct (key (item x)); auto. unfold trieiter_new.
  replace (to_int (keylen (item x)) <? 0) with true
    by (symmetry; apply Z.ltb_lt; exact Hneg).
  rewrite orb_true_r. reflexivity.
Qed.

Lemma neighbors_of_keys_of_length_2_31 n :
  Z.of_nat n = 2 ^ 31 - 1 ->
  trie_has_key (long_store n) (long_a n) = true
  /\ trie_has_key (long_store n) (long_b n) = true
  /\ Z.of_nat (length (cstr (long_a n))) = 2 ^ 31
  /\ is_neighbor (cstr (long_a n)) 1 (cstr (long_b n)) = true
  /\ trieiter_neighbors (long_store n) 1 (long_a n) 1 = None.
Proof.
  intros Hn.
  assert (Hca : cstr (long_a n) = long_a n)
    by (unfold long_a; rewrite cstr_repeat_a; reflexivity).
  assert (Hcb : cstr (long_b n) = long_b n)
    by (unfold long_b; rewrite cstr_repeat_a; reflexivity).
  assert (Hla : length (long_a n) = S n)
    by (unfold long_a; rewrite length_app, repeat_length; simpl; lia).
  assert (Hlb : length (long_b n) = S n)
    by (unfold long_b; rewrite length_app, repeat_length; simpl; lia).
  assert (Hl : Z.of_nat (length (cstr (long_a n))) = 2 ^ 31)
    by (rewrite Hca, Hla; lia).
  assert (Hh : hamming (long_a n) (long_b n) = 1).
  { unfold long_a, long_b. rewrite hamming_app by reflexivity.
    rewrite hamming_refl. reflexivity. }
  assert (Hka : trie_has_key (long_store n) (long_a n) = true).
  { unfold long_store. rewrite !trie_set_item_has_key.
    destruct (key_eq_dec (cstr (long_a n)) (cstr (long_b n)));
      [reflexivity|].
    destruct (key_eq_dec (cstr (long_a n)) (cstr (long_a n)));
      congruence. }
  assert (Hkb : trie_has_key (long_store n) (long_b n) = true).
  { unfold long_store. rewrite trie_set_item_has_key.
    destruct (key_eq_dec (cstr (long_b n)) (cstr (long_b n)));
      congruence. }
  split; [exact Hka|]. split; [exact Hkb|]. split; [exact Hl|]. split.
  - unfold is_neighbor. rewrite Hca, Hcb, Hla, Hlb, Hh, Nat.eqb_refl.
    reflexivity.
  - assert (Hwf : wf_store (long_store n) = true).
    { unfold long_store. apply trie_set_item_wf. apply trie_set_item_wf.
      reflexivity. }
    apply wf_store_parts in Hwf. destruct Hwf as [Hwf _].
    rewrite trie_has_key_has_key_at in Hka.
    destruct (has_key_at_item (long_store n) (cstr (long_a n)) Hwf Hka)
      as [x [Hx [_ Hlen]]].
    apply (trieiter_neighbors_refused (long_store n) 1 (long_a n) 1 x Hx).
    rewrite Hlen, Hl. vm_compute. reflexivity.
Qed.

(** C2, as stated, fails: two stored keys of [2^31] bytes are at Hamming
    distance one, so each is to be returned for the other; but the
    target depth, an [int], is negative and no iterator is created. *)
Lemma neighbors_of_long_key_is_refused :
  trie_has_key (long_store long_len) (long_a long_len) = true
  /\ trie_has_key (long_store long_len) (long_b long_len) = true
  /\ Z.of_nat (length (cstr (long_a long_len))) = 2 ^ 31
  /\ is_neighbor (cstr (long_a long_len)) 1 (cstr (long_b long_len)) = true
  /\ trieiter_neighbors (long_store long_len) 1 (long_a long_len) 1 = None.
Proof.
  apply neighbors_of_keys_of_length_2_31.
  apply Z2Nat.id. vm_compute. discriminate.
Qed.

(* ------------------------------------------------------------------ *)
(** ** The all-pairs iterator *)

(** *** Flags do not change what a store holds *)

Lemma trie_reset_eq n :
  trie_reset n = Node (item n) (ch n) 0 (map trie_reset (children n)).
Proof. destruct n; reflexivity. Qed.

Lemma map_update_child {A : Type} (g : TrieNode -> A) c f cs :
  (forall x, chfind c cs = Some x -> g (f x) = g x) ->
  map g (update_child c f cs) = map g cs.
Proof.
  induction cs as [|x r IH]; intros H; simpl; [reflexivity|].
  unfold chfind in H. simpl in H.
  destruct (Byte.eqb (ch x) c) eqn:Hc; simpl.
  - rewrite (H x eq_refl). reflexivity.
  - rewrite IH; [reflexivity|]. exact H.
Qed.

Lemma trie_reset_mark p :
  forall n, trie_reset (update_node n p mark_explored) = trie_reset n.
Proof.
  induction p as [|c p IH]; intros n.
  - destruct n; reflexivity.
  - cbn [update_node]. rewrite !trie_reset_eq. cbn [item ch children].
    f_equal. apply map_update_child. intros x _. apply IH.
Qed.

Lemma chfind_map_reset c cs :
  chfind c (map trie_reset cs) = option_map trie_reset (chfind c cs).
Proof.
  unfold chfind. induction cs as [|x r IH]; simpl; [reflexivity|].
  replace (ch (trie_reset x)) with (ch x) by (destruct x; reflexivity).
  destruct (Byte.eqb (ch x) c); [reflexivity|exact IH].
Qed.

Lemma get_node_reset q :
  forall n, get_node (trie_reset n) q = option_map trie_reset (get_node n q).
Proof.
  induction q as [|c q IH]; intros n; [reflexivity|].
  cbn [get_node]. rewrite !get_child_chfind.
  rewrite (trie_reset_eq n). cbn [children]. rewrite chfind_map_reset.
  destruct (chfind c (children n)) as [x|]; simpl; [apply IH|reflexivity].
Qed.

Lemma count_nodes_reset n : count_nodes (trie_reset n) = count_nodes n.
Proof.
  induction n as [i c fl cs IH] using TrieNode_ind'. simpl. f_equal.
  f_equal. rewrite map_map. apply map_ext_in. intros x Hx.
  rewrite Forall_forall in IH. auto.
Qed.

Lemma has_item_reset n : has_item (trie_reset n) = has_item n.
Proof. destruct n; reflexivity. Qed.

Lemma has_key_at_reset n q :
  has_key_at (trie_reset n) q = has_key_at n q.
Proof.
  unfold has_key_at. rewrite get_node_reset.
  destruct (get_node n q); simpl; [apply has_item_reset|reflexivity].
Qed.

Lemma forallb_map_ext {A B : Type} (f : B -> bool) (g : A -> B)
  (h : A -> bool) l :
  (forall x, In x l -> f (g x) = h x) ->
  forallb f (map g l) = forallb h l.
Proof.
  induction l as [|x r IH]; intros H; simpl; [reflexivity|].
  rewrite H by (left; reflexivity). rewrite IH; [reflexivity|].
  intros y Hy. apply H. right. exact Hy.
Qed.

Lemma wf_node_reset n :
  forall p, wf_node p (trie_reset n) = wf_node p n.
Proof.
  induction n as [i c fl cs IH] using TrieNode_ind'. intros p. simpl.
  rewrite map_map. f_equal; [f_equal; f_equal|].
  - apply map_ext. intros x. destruct x; reflexivity.
  - apply forallb_map_ext.
    intros x Hx. rewrite Forall_forall in IH.
    replace (ch (trie_reset x)) with (ch x) by (destruct x; reflexivity).
    auto.
Qed.

(** *** The flag of a node *)

Lemma is_explored_reset n : is_explored (trie_reset n) = false.
Proof. destruct n; reflexivity. Qed.

Lemma explored_at_reset n p : explored_at (trie_reset n) p = false.
Proof.
  unfold explored_at. rewrite get_node_reset.
  destruct (get_node n p); simpl; [apply is_explored_reset|reflexivity].
Qed.

Lemma is_explored_mark n : is_explored (mark_explored n) = true.
Proof.
  unfold is_explored, mark_explored, set_flags, TRIE_EXPLORED.
  cbn [flags]. apply Z.eqb_eq. apply Z.bits_inj'. intros i Hi.
  rewrite Z.land_spec, Z.lor_spec.
  destruct (Z.testbit 1 i) eqn:E1.
  - rewrite orb_true_r. reflexivity.
  - rewrite andb_false_r. reflexivity.
Qed.

Lemma get_node_update_other_flags f :
  (forall x, ch (f x) = ch x) ->
  (forall x, children (f x) = children x) ->
  forall q p n,
    p <> q ->
    option_map flags (get_node (update_node n p f) q)
    = option_map flags (get_node n q).
Proof.
  intros Hch Hcs. induction q as [|c' q IH]; intros p n Hne.
  - destruct p; [contradiction|]. reflexivity.
  - destruct p as [|c r].
    + simpl. rewrite !get_child_chfind, Hcs. reflexivity.
    + simpl. rewrite !get_child_chfind. simpl.
      destruct (Byte.eqb c c') eqn:E.
      * apply byte_eqb_eq in E. subst c'.
        rewrite chfind_update_child_same.
        -- destruct (chfind c (children n)) as [x|]; simpl; auto.
           apply IH. congruence.
        -- intros x Hx. rewrite ch_update_node; [eapply chfind_ch; eauto|].
           intros _. apply Hch.
      * apply byte_eqb_neq in E.
        rewrite chfind_update_child_other; auto.
        intros x Hx. rewrite ch_update_node; [eapply chfind_ch; eauto|].
        intros _. apply Hch.
Qed.

Lemma explored_at_mark n q x p :
  get_node n q = Some x ->
  explored_at (update_node n q mark_explored) p
  = if key_eq_dec p q then true else explored_at n p.
Proof.
  intros Hq. unfold explored_at. destruct (key_eq_dec p q) as [->|Hne].
  - rewrite get_node_update_same by (intros y _; destruct y; reflexivity).
    rewrite Hq. simpl. apply is_explored_mark.
  - pose proof (get_node_update_other_flags mark_explored
                  (fun y => match y with Node _ _ _ _ => eq_refl end)
                  (fun y => match y with Node _ _ _ _ => eq_refl end)
                  p q n (fun H => Hne (eq_sym H))) as H.
    unfold is_explored.
    destruct (get_node (update_node n q mark_explored) p) as [a|],
             (get_node n p) as [b|]; simpl in H; try discriminate.
    + injection H as ->. reflexivity.
    + reflexivity.
Qed.

Lemma explored_at_mark_mono n q p :
  explored_at n p = true ->
  explored_at (update_node n q mark_explored) p = true.
Proof.
  intros H. destruct (get_node n q) as [x|] eqn:Hq.
  - rewrite (explored_at_mark n q x p Hq).
    destruct (key_eq_dec p q); auto.
  - rewrite update_node_invalid; auto.
Qed.

Lemma get_node_mark_some n q p :
  get_node (update_node n q mark_explored) p <> None
  <-> get_node n p <> None.
Proof.
  pose proof (get_node_reset p (update_node n q mark_explored)) as H1.
  pose proof (get_node_reset p n) as H2.
  rewrite trie_reset_mark in H1. rewrite H1 in H2.
  destruct (get_node (update_node n q mark_explored) p),
           (get_node n p); simpl in H2; try discriminate;
    split; intros H; congruence.
Qed.

Lemma has_key_at_mark n q p :
  has_key_at (update_node n q mark_explored) p = has_key_at n p.
Proof.
  rewrite <- (has_key_at_reset (update_node n q mark_explored)).
  rewrite trie_reset_mark. apply has_key_at_reset.
Qed.

Lemma flags_sound_reset L n : flags_sound L [] (trie_reset n).
Proof.
  repeat split.
  - intros p c _ H. rewrite explored_at_reset in H. discriminate.
  - intros t _ H. rewrite explored_at_reset in H. discriminate.
  - intros t [].
Qed.

(** Below an explored node every string has been a query. *)
Lemma flags_sound_below L E n :
  flags_sound L E n ->
  forall s p,
    length (p ++ s) = L -> explored_at n p = true ->
    has_key_at n (p ++ s) = true -> In (p ++ s) E.
Proof.
  intros [S1 [S2 S3]]. induction s as [|c s IH]; intros p Hl He Hk.
  - rewrite app_nil_r in *. auto.
  - replace (p ++ c :: s) with ((p ++ [c]) ++ s) in *
      by (rewrite <- app_assoc; reflexivity).
    apply IH; auto. apply S1; auto.
    + rewrite length_app in Hl. rewrite length_app in Hl. simpl in Hl. lia.
    + unfold has_key_at in Hk.
      destruct (get_node n ((p ++ [c]) ++ s)) eqn:Hg; [|discriminate].
      apply get_node_prefix in Hg. destruct Hg as [y Hy]. congruence.
Qed.

Lemma flags_sound_mark L E E' n p x :
  flags_sound L E n ->
  get_node n p = Some x ->
  ((length p < L)%nat ->
   forall c, get_node n (p ++ [c]) <> None ->
             explored_at n (p ++ [c]) = true) ->
  (length p = L -> has_key_at n p = true -> In p E') ->
  (forall t, In t E' <-> (In t E \/ (t = p /\ In p E'))) ->
  flags_sound L E' (update_node n p mark_explored).
Proof.
  intros [S1 [S2 S3]] Hx Hin Hstr HE. repeat split.
  - intros p' c Hl He Hv. apply get_node_mark_some in Hv.
    rewrite (explored_at_mark n p x p' Hx) in He.
    destruct (key_eq_dec p' p) as [->|Hne].
    + apply explored_at_mark_mono. auto.
    + apply explored_at_mark_mono. auto.
  - intros t Hl He Hk. rewrite has_key_at_mark in Hk.
    rewrite (explored_at_mark n p x t Hx) in He.
    destruct (key_eq_dec t p) as [->|Hne]; [auto|].
    apply HE. left. auto.
  - intros t Ht. apply HE in Ht. destruct Ht as [Ht|[-> _]].
    + apply explored_at_mark_mono. auto.
    + rewrite (explored_at_mark n p x p Hx).
      destruct (key_eq_dec p p); congruence.
Qed.

(** *** The queries *)

Lemma fold_left_find_all (g : TrieNode -> list nodeptr)
  (f : list nodeptr -> TrieNode -> list nodeptr) cs :
  (forall x tg, In x cs -> f tg x = rev (g x) ++ tg) ->
  forall tg, fold_left f cs tg = rev (flat_map g cs) ++ tg.
Proof.
  induction cs as [|x r IH]; intros H tg; [reflexivity|].
  simpl. rewrite H by (left; reflexivity).
  rewrite IH by (intros y t Hy; apply H; right; exact Hy).
  rewrite rev_app_distr, <- app_assoc. reflexivity.
Qed.

Lemma flat_map_nil {A B : Type} (f : A -> list B) l :
  (forall x, In x l -> f x = []) -> flat_map f l = [].
Proof.
  induction l as [|x r IH]; intros H; simpl; [reflexivity|].
  rewrite H by (left; reflexivity). simpl. apply IH.
  intros y Hy. apply H. right. exact Hy.
Qed.

Lemma trie_find_all_strings_spec n :
  forall p d tg,
    Z.of_nat d <= INT_MAX ->
    trie_find_all_strings n p (Z.of_nat d) tg
    = rev (map (app p)
             (filter (fun s => (length s =? d)%nat) (keys_below n)))
      ++ tg.
Proof.
  induction n as [i c fl cs IH] using TrieNode_ind'. intros p d tg Hd.
  cbn [trie_find_all_strings keys_below]. rewrite filter_app.
  rewrite filter_flat_map.
  destruct d as [|d].
  - rewrite (flat_map_nil
               (fun x => filter (fun s => (length s =? 0)%nat)
                           (map (cons (ch x)) (keys_below x))) cs).
    + simpl Z.of_nat. simpl (0 =? 0). cbn [andb].
      destruct (key i); simpl; rewrite ?app_nil_r; reflexivity.
    + intros x _. apply filter_nil_all. intros y Hy.
      apply in_map_iff in Hy. destruct Hy as [z [<- _]]. reflexivity.
  - replace (Z.of_nat (S d) =? 0) with false
      by (symmetry; apply Z.eqb_neq; lia).
    cbn [andb].
    replace (Z.of_nat (S d) >? 0) with true
      by (symmetry; apply Z.gtb_lt; lia).
    replace (filter (fun s => (length s =? S d)%nat)
               match key i with Some _ => [[]] | None => [] end)
      with (@nil nodeptr) by (destruct (key i); reflexivity).
    cbn [app].
    rewrite (fold_left_find_all
               (fun x => map (app (p ++ [ch x]))
                           (filter (fun s => (length s =? d)%nat)
                                   (keys_below x)))).
    + f_equal. f_equal. rewrite map_flat_map_comm.
      apply flat_map_ext_in'. intros x Hx.
      rewrite filter_map_comm, map_map. simpl.
      apply map_ext. intros s. rewrite <- app_assoc. reflexivity.
    + intros x t Hx. rewrite Forall_forall in IH.
      replace (to_int (Z.of_nat (S d) - 1)) with (Z.of_nat d).
      * apply IH; auto. lia.
      * rewrite to_int_small; [lia|]. unfold INT_MAX in Hd. lia.
Qed.

Lemma in_hp_targets R L t :
  wf_node [] R = true -> Z.of_nat L <= INT_MAX ->
  (In t (hp_targets R L) <-> length t = L /\ has_key_at R t = true).
Proof.
  intros Hwf HL. unfold hp_targets.
  rewrite trie_find_all_strings_spec by exact HL.
  rewrite app_nil_r, <- in_rev, in_map_iff. split.
  - intros [s [<- Hs]]. apply filter_In in Hs. destruct Hs as [Hs Hl].
    apply Nat.eqb_eq in Hl. simpl.
    split; [exact Hl|]. apply (in_keys_below R [] s Hwf). exact Hs.
  - intros [Hl Hk]. exists t. split; [reflexivity|].
    apply filter_In. split.
    + apply (in_keys_below R [] t Hwf). exact Hk.
    + apply Nat.eqb_eq. exact Hl.
Qed.

Lemma NoDup_hp_targets R L :
  wf_node [] R = true -> Z.of_nat L <= INT_MAX ->
  NoDup (hp_targets R L).
Proof.
  intros Hwf HL. unfold hp_targets.
  rewrite trie_find_all_strings_spec by exact HL.
  rewrite app_nil_r. apply NoDup_rev.
  rewrite map_ext with (g := fun s => s) by reflexivity.
  rewrite map_id. apply NoDup_filter.
  apply (NoDup_keys_below R [] Hwf).
Qed.

Lemma length_hp_targets R L :
  wf_node [] R = true -> Z.of_nat L <= INT_MAX ->
  (length (hp_targets R L) <= count_items R)%nat.
Proof.
  intros Hwf HL. unfold hp_targets.
  rewrite trie_find_all_strings_spec by exact HL.
  rewrite app_nil_r, length_rev, length_map.
  rewrite <- length_keys_below. apply filter_length_le.
Qed.

Lemma keys_below_reset n : keys_below (trie_reset n) = keys_below n.
Proof.
  induction n as [i c fl cs IH] using TrieNode_ind'. simpl.
  apply f_equal.
  rewrite flat_map_concat_map, map_map, <- flat_map_concat_map.
  apply flat_map_ext_in'. intros x Hx. rewrite Forall_forall in IH.
  rewrite IH by exact Hx. destruct x; reflexivity.
Qed.

Lemma hp_targets_reset n L :
  Z.of_nat L <= INT_MAX ->
  hp_targets (trie_reset n) L = hp_targets n L.
Proof.
  intros HL. unfold hp_targets.
  rewrite !trie_find_all_strings_spec by exact HL.
  rewrite keys_below_reset. reflexivity.
Qed.

(** *** The loop over the children *)

Lemma NoDup_bytes_length (l : list byte) :
  NoDup l -> (length l <= 256)%nat.
Proof.
  intros H.
  assert (Hn : NoDup (map Byte.to_nat l)).
  { apply Finite.Injective_map_NoDup; [|exact H].
    intros a b Hab.
    pose proof (Byte.of_to_nat a) as Ha. pose proof (Byte.of_to_nat b) as Hb.
    rewrite Hab in Ha. congruence. }
  apply NoDup_incl_length with (l' := seq 0 256) in Hn.
  - rewrite length_map, length_seq in Hn. exact Hn.
  - intros x Hx. apply in_map_iff in Hx. destruct Hx as [b [<- _]].
    apply in_seq. pose proof (Byte.to_nat_bounded b). lia.
Qed.

Lemma filter_length_all {A : Type} (f : A -> bool) l :
  length (filter f l) = length l <-> (forall x, In x l -> f x = true).
Proof.
  induction l as [|x r IH]; simpl.
  - split; [intros _ y []|reflexivity].
  - pose proof (filter_length_le f r) as Hle.
    destruct (f x) eqn:E; simpl; split.
    + intros H y [<-|Hy]; [exact E|]. apply IH; [lia|exact Hy].
    + intros H. f_equal. apply IH. intros y Hy. apply H. right. exact Hy.
    + intros H. lia.
    + intros H. rewrite (H x) in E by (left; reflexivity). discriminate.
Qed.

Lemma hammingpairs_push_children_spec c mhd p q h d cs :
  forall it nc ne,
    maxhd it = mhd ->
    0 <= ne -> 0 <= nc ->
    nc + Z.of_nat (length cs) <= INT_MAX ->
    ne + Z.of_nat (length cs) <= INT_MAX ->
    exists it2,
      hammingpairs_push_children cs (Some c) p q h d (it, nc, ne)
      = Some (it2, nc + Z.of_nat (length cs),
              ne + Z.of_nat (length (filter is_explored cs)))
      /\ same_config it it2
      /\ stack it2 = stack it
      /\ states it2 = rev (hp_pushed c mhd p q h d cs) ++ states it.
Proof.
  unfold hp_pushed, INT_MAX.
  induction cs as [|x cs IH]; intros it nc ne Hm Hne Hnc Hb1 Hb2.
  - exists it. simpl. rewrite !Z.add_0_r.
    split; [reflexivity|]. split; [apply same_config_refl|]. auto.
  - cbn [hammingpairs_push_children filter flat_map length].
    cbn [length] in Hb1, Hb2.
    rewrite (to_int_small (nc + 1)) by lia.
    destruct (is_explored x) eqn:Ex.
    + rewrite (to_int_small (ne + 1)) by lia.
      destruct (IH it (nc + 1) (ne + 1) Hm) as [it2 [H1 H2]]; try lia.
      exists it2. split; [|exact H2]. rewrite H1. cbn [length].
      f_equal. f_equal; [f_equal|]; lia.
    + rewrite Hm. destruct (Byte.eqb (ch x) c).
      * destruct (IH (trieiter_push_state it (p ++ [ch x]) q h
                        (to_int (d + 1))) (nc + 1) ne Hm)
          as [it2 [H1 [H2 [H3 H4]]]]; try lia.
        exists it2. split.
        { rewrite H1. f_equal. f_equal. f_equal. lia. }
        destruct (push_state_config it (p ++ [ch x]) q h (to_int (d + 1)))
          as [P1 [P2 P3]].
        split; [eapply same_config_trans; eauto|].
        split; [congruence|].
        rewrite H4, P3. simpl. rewrite <- app_assoc. reflexivity.
      * destruct (h <? mhd) eqn:E.
        -- destruct (IH (trieiter_push_state it (p ++ [ch x]) q
                          (to_int (h + 1)) (to_int (d + 1)))
                        (nc + 1) ne Hm)
             as [it2 [H1 [H2 [H3 H4]]]]; try lia.
           exists it2. split.
           { rewrite H1. f_equal. f_equal. f_equal. lia. }
           destruct (push_state_config it (p ++ [ch x]) q (to_int (h + 1))
                       (to_int (d + 1))) as [P1 [P2 P3]].
           split; [eapply same_config_trans; eauto|].
           split; [congruence|].
           rewrite H4, P3. simpl. rewrite <- app_assoc. reflexivity.
        -- destruct (IH it (nc + 1) ne Hm) as [it2 [H1 H2]]; try lia.
           exists it2. split; [|exact H2]. rewrite H1.
           f_equal. f_equal. f_equal. lia.
Qed.

(** *** What is still owed *)

Lemma mem_true t l : mem t l = true <-> In t l.
Proof. unfold mem. destruct (in_dec key_eq_dec t l); split; auto; discriminate. Qed.

Lemma mem_false t l : mem t l = false <-> ~ In t l.
Proof.
  unfold mem. destruct (in_dec key_eq_dec t l); split; auto;
    [discriminate|contradiction].
Qed.

Lemma pair_due_true T E mhd q r :
  pair_due T E mhd q r = true
  <-> r_query r = q /\ In (r_target r) T /\ ~ In (r_target r) E
      /\ r_hd r = hamming q (r_target r)
      /\ hamming q (r_target r) <= mhd.
Proof.
  unfold pair_due. rewrite !andb_true_iff, negb_true_iff, mem_true,
    mem_false, Z.eqb_eq, Z.leb_le.
  destruct (key_eq_dec (r_query r) q); intuition discriminate.
Qed.

Lemma is_prefix_true p t : is_prefix p t = true <-> exists s, t = p ++ s.
Proof.
  unfold is_prefix. destruct (key_eq_dec (firstn (length p) t) p) as [H|H].
  - split; [intros _|reflexivity]. exists (skipn (length p) t).
    rewrite <- H at 1. symmetry. apply firstn_skipn.
  - split; [discriminate|]. intros [s ->]. exfalso. apply H.
    rewrite firstn_app, Nat.sub_diag, firstn_all. simpl.
    apply app_nil_r.
Qed.

Lemma is_prefix_nil t : is_prefix [] t = true.
Proof. apply is_prefix_true. exists t. reflexivity. Qed.

Lemma is_prefix_snoc p a c0 s :
  is_prefix (p ++ [a]) (p ++ c0 :: s) = Byte.eqb a c0.
Proof.
  destruct (Byte.eqb a c0) eqn:E.
  - apply byte_eqb_eq in E. subst. apply is_prefix_true. exists s.
    rewrite <- app_assoc. reflexivity.
  - apply byte_eqb_neq in E.
    destruct (is_prefix (p ++ [a]) (p ++ c0 :: s)) eqn:P; [|reflexivity].
    apply is_prefix_true in P. destruct P as [s' P].
    rewrite <- app_assoc in P. apply app_inv_head in P.
    simpl in P. congruence.
Qed.

Lemma is_prefix_snoc_weaken p a t :
  is_prefix (p ++ [a]) t = true -> is_prefix p t = true.
Proof.
  rewrite !is_prefix_true. intros [s ->]. exists ([a] ++ s).
  rewrite <- app_assoc. reflexivity.
Qed.

Lemma hp_pushed_in c mhd p q h d cs s :
  In s (hp_pushed c mhd p q h d cs) ->
  exists y,
    In y cs /\ is_explored y = false
    /\ node s = p ++ [ch y] /\ query s = q /\ depth s = to_int (d + 1)
    /\ ((Byte.eqb (ch y) c = true /\ hd s = h)
        \/ (Byte.eqb (ch y) c = false /\ h < mhd /\ hd s = to_int (h + 1))).
Proof.
  unfold hp_pushed. rewrite in_flat_map. intros [y [Hy Hs]].
  exists y. split; [exact Hy|].
  destruct (is_explored y); [contradiction|].
  destruct (Byte.eqb (ch y) c).
  - destruct Hs as [<-|[]]. simpl. auto 8.
  - destruct (h <? mhd) eqn:E; [|contradiction].
    apply Z.ltb_lt in E. destruct Hs as [<-|[]]. simpl. auto 10.
Qed.

(** A state that owes nothing pushes states that owe nothing. *)
Lemma hp_pushed_not_due T E mhd r c p q h h0 d d0 cs :
  state_due T E mhd r (mkState p q h0 d0) = false ->
  filter (state_due T E mhd r) (hp_pushed c mhd p q h d cs) = [].
Proof.
  intros H. apply filter_nil_all. intros s Hs.
  apply hp_pushed_in in Hs.
  destruct Hs as [y [_ [_ [Hn [Hq _]]]]].
  unfold state_due in *. cbn [query node] in H. rewrite Hn, Hq.
  destruct (pair_due T E mhd q r); [|reflexivity]. simpl in *.
  destruct (is_prefix (p ++ [ch y]) (r_target r)) eqn:P; [|reflexivity].
  apply is_prefix_snoc_weaken in P. congruence.
Qed.

(** Of the states pushed for the children, only the one for the child
    on the way to the target owes the result. *)
Lemma hp_pushed_count T E mhd r c p q h d c0 s' cs :
  pair_due T E mhd q r = true ->
  r_target r = p ++ c0 :: s' ->
  NoDup (map ch cs) ->
  length (filter (state_due T E mhd r) (hp_pushed c mhd p q h d cs))
  = match chfind c0 cs with
    | Some y =>
        if negb (is_explored y) && (Byte.eqb (ch y) c || (h <? mhd))
        then 1%nat else 0%nat
    | None => 0%nat
    end.
Proof.
  intros Hd Ht. unfold hp_pushed, chfind.
  induction cs as [|x cs IH]; intros Hnd; [reflexivity|].
  cbn [flat_map find map]. rewrite filter_app, length_app.
  inversion Hnd as [|a l Hnotin Hnd']; subst.
  assert (Hst : forall hh dd,
            state_due T E mhd r (mkState (p ++ [ch x]) q hh dd)
            = Byte.eqb (ch x) c0).
  { intros hh dd. unfold state_due. cbn [query node].
    rewrite Hd, Ht, is_prefix_snoc. reflexivity. }
  destruct (Byte.eqb (ch x) c0) eqn:Ec.
  - apply byte_eqb_eq in Ec.
    assert (Hrest : find (fun y => Byte.eqb (ch y) c0) cs = None).
    { destruct (find (fun y => Byte.eqb (ch y) c0) cs) as [y|] eqn:F;
        [|reflexivity].
      exfalso. apply Hnotin. rewrite Ec.
      pose proof (chfind_ch c0 cs y F) as <-.
      apply in_map. eapply chfind_in; eauto. }
    rewrite IH by exact Hnd'. rewrite Hrest, Nat.add_0_r.
    destruct (is_explored x); [reflexivity|]. cbn [negb andb].
    destruct (Byte.eqb (ch x) c); cbn [orb].
    + cbn [filter]. rewrite Hst. reflexivity.
    + destruct (h <? mhd); [|reflexivity].
      cbn [filter]. rewrite Hst. reflexivity.
  - rewrite IH by exact Hnd'.
    destruct (is_explored x); [reflexivity|].
    destruct (Byte.eqb (ch x) c).
    + cbn [filter]. rewrite Hst. reflexivity.
    + destruct (h <? mhd); [|reflexivity].
      cbn [filter]. rewrite Hst. reflexivity.
Qed.

Lemma later_due_not_query T mhd r qs :
  forall E, ~ In (r_query r) qs -> later_due T E mhd qs r = 0%nat.
Proof.
  induction qs as [|q qs IH]; intros E H; [reflexivity|].
  cbn [later_due]. rewrite IH by (intros H1; apply H; right; exact H1).
  destruct (pair_due T (q :: E) mhd q r) eqn:P; [|reflexivity].
  apply pair_due_true in P. destruct P as [P _].
  exfalso. apply H. left. auto.
Qed.

Lemma later_due_taken T mhd r qs :
  forall E, In (r_target r) E -> later_due T E mhd qs r = 0%nat.
Proof.
  induction qs as [|q qs IH]; intros E H; [reflexivity|].
  cbn [later_due]. rewrite IH by (right; exact H).
  destruct (pair_due T (q :: E) mhd q r) eqn:P; [|reflexivity].
  apply pair_due_true in P. destruct P as [_ [_ [P _]]].
  exfalso. apply P. right. exact H.
Qed.

Lemma later_due_positive T mhd r qs :
  forall E,
    (0 < later_due T E mhd qs r)%nat ->
    In (r_query r) T /\ In (r_target r) T
    /\ r_query r <> r_target r
    /\ r_hd r = hamming (r_query r) (r_target r)
    /\ r_hd r <= mhd
    \/ ~ incl qs T.
Proof.
  induction qs as [|q qs IH]; intros E H; [simpl in H; lia|].
  cbn [later_due] in H.
  destruct (in_dec key_eq_dec q T) as [HqT|HqT];
    [|right; intros Hi; apply HqT; apply Hi; left; reflexivity].
  destruct (pair_due T (q :: E) mhd q r) eqn:P.
  - apply pair_due_true in P. destruct P as [P1 [P2 [P3 [P4 P5]]]].
    left. subst q. repeat split; auto.
    + intros Heq. apply P3. left. exact Heq.
    + rewrite P4. exact P5.
  - destruct (IH (q :: E)) as [H1|H1]; [simpl in H; lia|left; exact H1|].
    right. intros Hi. apply H1. intros x Hx. apply Hi. right. exact Hx.
Qed.

Lemma pair_due_other_query T E mhd q r :
  r_query r <> q -> pair_due T E mhd q r = false.
Proof.
  intros H. destruct (pair_due T E mhd q r) eqn:P; [|reflexivity].
  apply pair_due_true in P. destruct P as [P _]. contradiction.
Qed.

Lemma pair_due_first T E mhd x y :
  In y T -> ~ In y E -> x <> y -> hamming x y <= mhd ->
  pair_due T (x :: E) mhd x (mkResult x y (hamming x y)) = true.
Proof.
  intros HyT HyE Hne Hh. apply pair_due_true. simpl.
  repeat split; auto. intros [H|H]; auto.
Qed.

(** Two strings still to be taken: the one taken first owes the pair,
    the other does not. *)
Lemma later_due_pair T mhd x y qs :
  forall E,
    NoDup qs -> In x qs -> In y qs -> x <> y ->
    In x T -> In y T -> ~ In x E -> ~ In y E ->
    hamming x y <= mhd ->
    (later_due T E mhd qs (mkResult x y (hamming x y))
     + later_due T E mhd qs (mkResult y x (hamming x y)) = 1)%nat.
Proof.
  induction qs as [|q qs IH];
    intros E Hnd Hx Hy Hne HxT HyT HxE HyE Hh; [contradiction|].
  inversion Hnd as [|a l Hq Hnd']; subst. cbn [later_due].
  unfold nodeptr in *.
  destruct (key_eq_dec q x) as [->|Hqx].
  - destruct Hy as [Hy|Hy]; [congruence|].
    rewrite (later_due_not_query T mhd (mkResult x y (hamming x y)) qs)
      by exact Hq.
    rewrite (later_due_taken T mhd (mkResult y x (hamming x y)) qs)
      by (left; reflexivity).
    rewrite (pair_due_first T E mhd x y HyT HyE Hne Hh).
    rewrite (pair_due_other_query T (x :: E) mhd x
               (mkResult y x (hamming x y)))
      by (simpl; congruence).
    reflexivity.
  - destruct (key_eq_dec q y) as [->|Hqy].
    + destruct Hx as [Hx|Hx]; [congruence|].
      rewrite (later_due_not_query T mhd (mkResult y x (hamming x y)) qs)
        by exact Hq.
      rewrite (later_due_taken T mhd (mkResult x y (hamming x y)) qs)
        by (left; reflexivity).
      rewrite (hamming_sym x y) in *.
      rewrite (pair_due_first T E mhd y x HxT HxE Hqx Hh).
      rewrite (pair_due_other_query T (y :: E) mhd y
                 (mkResult x y (hamming y x)))
        by (simpl; congruence).
      reflexivity.
    + destruct Hx as [Hx|Hx]; [congruence|].
      destruct Hy as [Hy|Hy]; [congruence|].
      rewrite (pair_due_other_query T (q :: E) mhd q
                 (mkResult x y (hamming x y)))
        by (simpl; congruence).
      rewrite (pair_due_other_query T (q :: E) mhd q
                 (mkResult y x (hamming x y)))
        by (simpl; congruence).
      simpl. apply IH; auto.
      * intros [H|H]; auto.
      * intros [H|H]; auto.
Qed.

(** *** Draining an iterator, by counting *)

Section DrainCount.
Variable inv : (TrieSearchResult -> nat) -> TrieRoot -> TrieIter -> Prop.
Variable size : TrieRoot -> TrieIter -> nat.
Variable fin : TrieRoot -> TrieIter -> Prop.

(** One call of [trieiter_next] returns a result that is still owed, or
    end when none is. *)
Hypothesis next_count_spec :
  forall fuel c root it,
    inv c root it -> (size root it < fuel)%nat ->
    exists res root' it',
      trieiter_next fuel root it = Some (res, root', it')
      /\ match res with
         | None => (forall x, c x = 0%nat) /\ fin root' it'
         | Some r =>
             exists c',
               (forall x, c x = ((if result_eq_dec x r then 1 else 0)
                                 + c' x)%nat)
               /\ inv c' root' it'
               /\ (size root' it' < size root it)%nat
         end.

Lemma drain_count_rule fuel c root it :
  inv c root it -> (size root it < fuel)%nat ->
  exists rs root' it',
    trieiter_drain fuel root it = Some (rs, root', it')
    /\ (forall x, count_occ result_eq_dec rs x = c x)
    /\ fin root' it'.
Proof.
  intros Hinv Hsize. unfold trieiter_drain.
  assert (Hbody :
    forall s,
      (exists c',
          inv c' (fst (fst s)) (snd (fst s))
          /\ (size (fst (fst s)) (snd (fst s)) < fuel)%nat
          /\ forall x,
               (count_occ result_eq_dec (snd s) x + c' x = c x)%nat) ->
      match drain_body fuel s with
      | None => False
      | Some (inl s') =>
          (exists c',
              inv c' (fst (fst s')) (snd (fst s'))
              /\ (size (fst (fst s')) (snd (fst s')) < fuel)%nat
              /\ forall x,
                   (count_occ result_eq_dec (snd s') x + c' x = c x)%nat)
          /\ (size (fst (fst s')) (snd (fst s'))
              < size (fst (fst s)) (snd (fst s)))%nat
          /\ (forall r : list TrieSearchResult * TrieRoot * TrieIter,
                ((forall x, count_occ result_eq_dec (fst (fst r)) x = c x)
                 /\ fin (snd (fst r)) (snd r)) ->
                ((forall x, count_occ result_eq_dec (fst (fst r)) x = c x)
                 /\ fin (snd (fst r)) (snd r)))
      | Some (inr r) =>
          (forall x, count_occ result_eq_dec (fst (fst r)) x = c x)
          /\ fin (snd (fst r)) (snd r)
      end).
  { intros [[r0 i0] acc] [c0 [Hi [Hs Hc]]]. simpl in *.
    destruct (next_count_spec fuel c0 r0 i0 Hi Hs)
      as [res [r1 [i1 [Hn Ho]]]].
    rewrite Hn. destruct res as [y|].
    + destruct Ho as [c1 [Hc1 [Hi1 Hlt]]]. simpl.
      split; [|split; [exact Hlt|auto]].
      exists c1. split; [exact Hi1|]. split; [lia|].
      intros x. rewrite count_occ_app. simpl.
      specialize (Hc x). specialize (Hc1 x).
      destruct (result_eq_dec y x) as [Hyx|Hne];
        destruct (result_eq_dec x y) as [He|He]; try congruence; lia.
    + destruct Ho as [Hz Hfin]. simpl. split; [|exact Hfin].
      intros x. specialize (Hc x). rewrite Hz in Hc. lia. }
  destruct (while_loop_rule (drain_body fuel) _ _ _ Hbody fuel
              (root, it, @nil TrieSearchResult))
    as [[[rs r'] i'] [Hrun Hpost]].
  - simpl. exists c. split; [exact Hinv|]. split; [exact Hsize|].
    intros x. reflexivity.
  - simpl. exact Hsize.
  - simpl in Hpost. destruct Hpost as [H1 H2].
    exists rs, r', i'. split; [exact Hrun|]. split; [exact H1|exact H2].
Qed.
End DrainCount.

(** *** The steps of the walk *)

Lemma with_rnode_mark root1 root p :
  root = with_rnode root1 (rnode root) ->
  mark_at root p = with_rnode root1 (rnode (mark_at root p)).
Proof. intros H. unfold mark_at. rewrite H. reflexivity. Qed.

Section Pairs.
Variable root1 : TrieRoot.
Variable it1 : TrieIter.
Variable L : nat.
Hypothesis HwfR : wf_node [] (rnode root1) = true.
Hypothesis HLpos : (0 < L)%nat.
Hypothesis HLmax : Z.of_nat L <= INT_MAX.
Hypothesis Hmhd : 0 <= maxhd it1 <= INT_MAX.
Hypothesis Htd : target_depth it1 = Z.of_nat L.
Hypothesis Hnext : next it1 = hammingpairs_next.
Hypothesis Hdirty : is_dirty it1 = true.
Hypothesis Hsid : trie_state_id it1 = state_id root1.
Hypothesis Hreg : dirty_iter root1 = Some (self it1).

Lemma hp_get_node root p :
  trie_reset (rnode root) = rnode root1 ->
  get_node (rnode root1) p <> None ->
  exists n, get_node (rnode root) p = Some n
            /\ get_node (rnode root1) p = Some (trie_reset n).
Proof.
  intros Hr Hv. rewrite <- Hr in *. rewrite get_node_reset in *.
  destruct (get_node (rnode root) p) as [n|]; [|contradiction]. eauto.
Qed.

Lemma hp_wf root :
  trie_reset (rnode root) = rnode root1 -> wf_node [] (rnode root) = true.
Proof. intros Hr. rewrite <- wf_node_reset, Hr. exact HwfR. Qed.

Lemma hp_target_facts root q :
  trie_reset (rnode root) = rnode root1 ->
  In q (hp_targets (rnode root1) L) ->
  length q = L /\ has_key_at (rnode root) q = true
  /\ get_node (rnode root1) q <> None.
Proof.
  intros Hr Hq. apply in_hp_targets in Hq; auto. destruct Hq as [Hl Hk].
  split; [exact Hl|]. split.
  - rewrite <- Hr, has_key_at_reset in Hk. exact Hk.
  - unfold has_key_at in Hk. destruct (get_node (rnode root1) q);
      [discriminate|discriminate Hk].
Qed.

Lemma hp_take_query E c root it q rest :
  hp_inv_at root1 it1 L E c root it ->
  states it = [] -> stack it = q :: rest ->
  exists x,
    get_node (rnode root) q = Some x
    /\ hp_inv_at root1 it1 L (q :: E) c (mark_at root q)
         (trieiter_push_state (with_stack it rest) [] q 0 0)
    /\ (hp_size root1 (trieiter_push_state (with_stack it rest) [] q 0 0)
        < hp_size root1 it)%nat.
Proof.
  intros [Hroot [Hreset [Hcfg [HT [Hfs [Hok Hc]]]]]] Hst Hstk.
  assert (HqT : In q (hp_targets (rnode root1) L)).
  { rewrite <- HT, Hstk. apply in_or_app. right. left. reflexivity. }
  destruct (hp_target_facts root q Hreset HqT) as [Hlen [Hkey Hval]].
  destruct (hp_get_node root q Hreset Hval) as [x [Hx HxR]].
  exists x. split; [exact Hx|]. split.
  - split; [apply with_rnode_mark; exact Hroot|].
    split; [unfold mark_at; cbn [rnode with_rnode];
            rewrite trie_reset_mark; exact Hreset|].
    split; [unfold same_config in *; simpl; exact Hcfg|].
    split.
    { simpl. rewrite <- app_assoc. simpl. rewrite <- Hstk. exact HT. }
    split.
    { unfold mark_at. cbn [rnode with_rnode].
      apply (flags_sound_mark L E (q :: E) (rnode root) q x Hfs Hx).
      - intros Hlt. lia.
      - intros _ _. left. reflexivity.
      - intros t. simpl. split.
        + intros [<-|Ht]; auto.
        + intros [Ht|[-> _]]; auto. }
    split.
    { simpl. rewrite Hst. constructor; [|constructor].
      unfold hp_state_ok. cbn [query node depth hd length firstn].
      split; [exact HqT|]. split; [discriminate|].
      split; [lia|]. split; [reflexivity|].
      split; [reflexivity|]. split; [lia|]. intros H0. lia. }
    intros r. rewrite Hc. unfold hp_due. simpl states. simpl stack.
    rewrite Hst, Hstk. cbn [later_due filter length].
    unfold state_due at 1. cbn [query node].
    rewrite is_prefix_nil, andb_true_r.
    destruct (pair_due (hp_targets (rnode root1) L) (q :: E) (maxhd it1) q r);
      reflexivity.
  - unfold hp_size. simpl states. simpl stack. rewrite Hst, Hstk.
    unfold stack_size, deref_size. simpl. lia.
Qed.

Lemma hp_inv_at_mark E c root it p x :
  hp_inv_at root1 it1 L E c root it ->
  get_node (rnode root) p = Some x ->
  ((length p < L)%nat ->
   forall a, get_node (rnode root) (p ++ [a]) <> None ->
             explored_at (rnode root) (p ++ [a]) = true) ->
  (length p = L -> has_key_at (rnode root) p = false) ->
  hp_inv_at root1 it1 L E c (mark_at root p) it.
Proof.
  intros [Hroot [Hreset [Hcfg [HT [Hfs [Hok Hc]]]]]] Hx Hin Hno.
  split; [apply with_rnode_mark; exact Hroot|].
  split; [unfold mark_at; cbn [rnode with_rnode];
          rewrite trie_reset_mark; exact Hreset|].
  split; [exact Hcfg|]. split; [exact HT|].
  split; [|split; [exact Hok|exact Hc]].
  unfold mark_at. cbn [rnode with_rnode].
  apply (flags_sound_mark L E E (rnode root) p x Hfs Hx Hin).
  - intros Hl Hk. rewrite Hno in Hk by exact Hl. discriminate.
  - intros t. split; [auto|]. intros [Ht|[-> Ht]]; exact Ht.
Qed.

Lemma hp_inv_at_states E c c' root it it' :
  hp_inv_at root1 it1 L E c root it ->
  same_config it it' -> stack it' = stack it ->
  Forall (hp_state_ok (rnode root1) (hp_targets (rnode root1) L)
                      E L (maxhd it1)) (states it') ->
  (forall r,
     c' r = hp_due (hp_targets (rnode root1) L) E (maxhd it1) it' r) ->
  hp_inv_at root1 it1 L E c' root it'.
Proof.
  intros [Hroot [Hreset [Hcfg [HT [Hfs [Hok Hc]]]]]] Hsame Hstk Hok' Hc'.
  split; [exact Hroot|]. split; [exact Hreset|].
  split; [eapply same_config_trans; eauto|].
  split; [rewrite Hstk; exact HT|].
  split; [exact Hfs|]. split; [exact Hok'|exact Hc'].
Qed.

Lemma hp_state_ok_query E s :
  hp_state_ok (rnode root1) (hp_targets (rnode root1) L) E L (maxhd it1) s ->
  length (query s) = L.
Proof.
  intros [Hq _]. apply in_hp_targets in Hq; auto. tauto.
Qed.

(** A state at the depth of the strings owes its own node, when that
    is a string, and nothing else. *)
Lemma hp_state_at_depth E c root it s st n :
  hp_inv_at root1 it1 L E c root it ->
  states it = s :: st ->
  get_node (rnode root) (node s) = Some n ->
  length (node s) = L ->
  forall r,
    (if state_due (hp_targets (rnode root1) L) E (maxhd it1) r s
     then 1 else 0)%nat
    = if has_item n
      then if result_eq_dec r (mkResult (query s) (node s) (hd s))
           then 1%nat else 0%nat
      else 0%nat.
Proof.
  intros [Hroot [Hreset [Hcfg [HT [Hfs [Hok Hc]]]]]] Hst Hn Hlen r.
  rewrite Hst in Hok. inversion Hok as [|a l Hs _]; subst a l.
  pose proof (hp_state_ok_query E s Hs) as Hql.
  destruct Hs as [HqT [Hv [_ [_ [Hhd [Hle HnE]]]]]].
  rewrite Hlen, <- Hql, firstn_all in Hhd.
  assert (Hk : has_key_at (rnode root1) (node s) = has_item n).
  { rewrite <- Hreset, has_key_at_reset. unfold has_key_at.
    rewrite Hn. reflexivity. }
  assert (Hone : forall t,
            In t (hp_targets (rnode root1) L) ->
            is_prefix (node s) t = true -> t = node s).
  { intros t Ht Hp. apply in_hp_targets in Ht; auto.
    destruct Ht as [Htl _]. apply is_prefix_true in Hp.
    destruct Hp as [s' ->]. rewrite length_app in Htl.
    destruct s'; [apply app_nil_r|simpl in Htl; lia]. }
  destruct (state_due (hp_targets (rnode root1) L) E (maxhd it1) r s)
    eqn:D.
  - unfold state_due in D. apply andb_true_iff in D.
    destruct D as [D1 D2]. apply pair_due_true in D1.
    destruct D1 as [P1 [P2 [P3 [P4 P5]]]].
    pose proof (Hone _ P2 D2) as Ht.
    assert (Hi : has_item n = true).
    { rewrite <- Hk. rewrite <- Ht.
      apply in_hp_targets in P2; auto. tauto. }
    rewrite Hi.
    destruct (result_eq_dec r (mkResult (query s) (node s) (hd s)))
      as [_|Hne]; [reflexivity|].
    exfalso. apply Hne. destruct r as [rq rt rh]. simpl in *.
    subst rq rt rh. rewrite Hhd. reflexivity.
  - destruct (has_item n) eqn:Hi; [|reflexivity].
    destruct (result_eq_dec r (mkResult (query s) (node s) (hd s)))
      as [->|_]; [|reflexivity].
    exfalso. unfold state_due in D. cbn [r_target] in D.
    assert (P : pair_due (hp_targets (rnode root1) L) E (maxhd it1)
                  (query s) (mkResult (query s) (node s) (hd s)) = true).
    { apply pair_due_true. cbn [r_query r_target r_hd].
      split; [reflexivity|]. split.
      - apply in_hp_targets; [exact HwfR|exact HLmax|].
        split; [exact Hlen|]. rewrite Hk. reflexivity.
      - split; [apply HnE; exact Hlen|]. split; [exact Hhd|].
        rewrite <- Hhd. exact Hle. }
    rewrite P in D. simpl in D.
    assert (P' : is_prefix (node s) (node s) = true).
    { apply is_prefix_true. exists []. symmetry. apply app_nil_r. }
    congruence.
Qed.

Lemma hp_pop_size it it0 s :
  states it = s :: states it0 -> stack it0 = stack it ->
  get_node (rnode root1) (node s) <> None ->
  (hp_size root1 it0 < hp_size root1 it)%nat.
Proof.
  intros Hst Hstk Hv. unfold hp_size. rewrite Hst, Hstk.
  replace (stack_size root1 (s :: states it0))
    with (deref_size root1 s + stack_size root1 (states it0))%nat
    by reflexivity.
  pose proof (deref_size_pos root1 s Hv).
  set (w := (length (stack it) * S (count_nodes (rnode root1)))%nat).
  lia.
Qed.

Lemma hp_child_facts root p n y :
  trie_reset (rnode root) = rnode root1 ->
  get_node (rnode root) p = Some n ->
  In y (children n) ->
  get_node (rnode root) (p ++ [ch y]) = Some y
  /\ get_node (rnode root1) (p ++ [ch y]) = Some (trie_reset y).
Proof.
  intros Hreset Hn Hy.
  pose proof (get_node_child root p n y (hp_wf root Hreset) Hn Hy) as H.
  split; [exact H|]. rewrite <- Hreset, get_node_reset, H. reflexivity.
Qed.

Lemma hp_scan E c root it s st n :
  hp_inv_at root1 it1 L E c root it ->
  states it = s :: st ->
  get_node (rnode root) (node s) = Some n ->
  (length (node s) < L)%nat ->
  exists c0,
    query_char root (query s) (depth s) = Some c0
    /\ forall it0,
         same_config it it0 -> stack it0 = stack it -> states it0 = st ->
         exists it2,
           hammingpairs_push_children (children n) (Some c0) (node s)
             (query s) (hd s) (depth s) (it0, 0, 0)
           = Some (it2, Z.of_nat (length (children n)),
                   Z.of_nat (length (filter is_explored (children n))))
           /\ hp_inv_at root1 it1 L E c root it2
           /\ (hp_size root1 it2 < hp_size root1 it)%nat.
Proof.
  intros Hinv Hst Hn Hlt.
  pose proof Hinv as [Hroot [Hreset [Hcfg [HT [Hfs [Hok Hc]]]]]].
  rewrite Hst in Hok. inversion Hok as [|a l Hs Hok']; subst a l.
  pose proof (hp_state_ok_query E s Hs) as Hql.
  destruct Hs as [HqT [Hv [_ [Hd [Hhd [Hle HnE]]]]]].
  destruct (hp_target_facts root (query s) Hreset HqT) as [_ [Hqk _]].
  pose proof (hp_wf root Hreset) as Hwf.
  destruct (key_char_inside (query s) (depth s)) as [c0 [Hc0 [Hnth Hfn]]];
    [rewrite Hd, Hql; lia|].
  rewrite Hd, Nat2Z.id in Hnth, Hfn.
  exists c0. split.
  { rewrite (query_char_key root (query s) (depth s) Hwf Hqk). exact Hc0. }
  intros it0 Hsame Hstk0 Hst0.
  pose proof (wf_node_get (node s) [] (rnode root) n Hwf Hn) as Hwfn.
  apply wf_node_parts in Hwfn. destruct Hwfn as [_ [Hnd _]].
  pose proof (NoDup_bytes_length _ Hnd) as Hlen.
  rewrite length_map in Hlen.
  assert (Hm0 : maxhd it0 = maxhd it1).
  { destruct Hcfg as [_ [Hm _]]. destruct Hsame as [_ [Hm' _]].
    congruence. }
  destruct (hammingpairs_push_children_spec c0 (maxhd it1) (node s)
              (query s) (hd s) (depth s) (children n) it0 0 0 Hm0)
    as [it2 [Hrun [Hsame2 [Hstk2 Hst2]]]];
    try (unfold INT_MAX; lia).
  exists it2. split; [exact Hrun|].
  assert (Hhn : 0 <= hd s) by (rewrite Hhd; apply hamming_nonneg).
  split.
  - apply (hp_inv_at_states E c c root it it2 Hinv).
    + eapply same_config_trans; eauto.
    + congruence.
    + rewrite Hst2, Hst0. apply Forall_app. split; [|exact Hok'].
      apply Forall_rev. apply Forall_forall. intros s' Hs'.
      apply hp_pushed_in in Hs'.
      destruct Hs' as [y [Hy [Hey [Hnode [Hquery [Hdepth Hhd']]]]]].
      destruct (hp_child_facts root (node s) n y Hreset Hn Hy)
        as [Hyr HyR].
      unfold hp_state_ok. rewrite Hnode, Hquery, Hdepth.
      rewrite length_app. cbn [length].
      split; [exact HqT|]. split; [congruence|].
      split; [lia|]. split.
      { rewrite Hd. rewrite to_int_small; [lia|].
        unfold INT_MAX in HLmax. lia. }
      replace (length (node s) + 1)%nat with (S (length (node s))) by lia.
      rewrite (hamming_step (query s) (node s) c0 (ch y));
        [|lia|exact Hnth|exact Hfn].
      rewrite <- Hhd.
      destruct Hhd' as [[He ->]|[He [Hlt' ->]]]; rewrite He.
      * split; [lia|]. split; [lia|].
        intros _ HinE. destruct Hfs as [_ [_ S3]].
        apply S3 in HinE. unfold explored_at in HinE.
        rewrite Hyr in HinE. congruence.
      * rewrite to_int_small by (unfold INT_MAX in Hmhd; lia).
        split; [lia|]. split; [lia|].
        intros _ HinE. destruct Hfs as [_ [_ S3]].
        apply S3 in HinE. unfold explored_at in HinE.
        rewrite Hyr in HinE. congruence.
    + intros r. rewrite Hc. unfold hp_due.
      rewrite Hstk2, Hstk0, Hst, Hst2, Hst0. f_equal.
      rewrite filter_app, length_app. cbn [filter].
      rewrite filter_rev, length_rev.
      assert (Hcount :
        length (filter (state_due (hp_targets (rnode root1) L) E
                          (maxhd it1) r)
                  (hp_pushed c0 (maxhd it1) (node s) (query s) (hd s)
                             (depth s) (children n)))
        = if state_due (hp_targets (rnode root1) L) E (maxhd it1) r s
          then 1%nat else 0%nat).
      { destruct (state_due (hp_targets (rnode root1) L) E (maxhd it1) r s)
          eqn:D.
        - unfold state_due in D. apply andb_true_iff in D.
          destruct D as [D1 D2]. pose proof D1 as P.
          apply pair_due_true in P.
          destruct P as [P1 [P2 [P3 [P4 P5]]]].
          destruct (hp_target_facts root (r_target r) Hreset P2)
            as [Htl [Htk _]].
          apply is_prefix_true in D2. destruct D2 as [s' Hs'].
          destruct s' as [|c1 s''].
          { rewrite app_nil_r in Hs'. rewrite Hs' in Htl. lia. }
          rewrite (hp_pushed_count _ _ _ _ _ _ _ _ _ c1 s'' _ D1 Hs' Hnd).
          assert (Hch : exists y, chfind c1 (children n) = Some y).
          { unfold has_key_at in Htk. rewrite Hs' in Htk.
            rewrite get_node_app, Hn in Htk. cbn [get_node] in Htk.
            rewrite get_child_chfind in Htk.
            destruct (chfind c1 (children n)) as [y|]; [eauto|discriminate]. }
          destruct Hch as [y Hy]. rewrite Hy.
          pose proof (chfind_ch _ _ _ Hy) as Hchy.
          pose proof (chfind_in _ _ _ Hy) as Hyin.
          destruct (hp_child_facts root (node s) n y Hreset Hn Hyin)
            as [Hyr _].
          rewrite Hchy in Hyr.
          assert (Hey : is_explored y = false).
          { destruct (is_explored y) eqn:Ey; [|reflexivity].
            exfalso. apply P3.
            replace (r_target r) with ((node s ++ [c1]) ++ s'')
              by (rewrite Hs', <- app_assoc; reflexivity).
            apply (flags_sound_below L E (rnode root) Hfs).
            - rewrite <- app_assoc. simpl. rewrite <- Hs'. exact Htl.
            - unfold explored_at. rewrite Hyr. exact Ey.
            - rewrite <- app_assoc. simpl. rewrite <- Hs'. exact Htk. }
          rewrite Hey. cbn [negb andb]. rewrite Hchy.
          destruct (Byte.eqb c1 c0) eqn:Ec; [reflexivity|]. cbn [orb].
          replace (hd s <? maxhd it1) with true; [reflexivity|].
          symmetry. apply Z.ltb_lt.
          pose proof (hamming_step (query s) (node s) c0 c1) as Hstep.
          rewrite Ec in Hstep.
          assert (Hpre :
            hamming (firstn (S (length (node s))) (query s))
                    (node s ++ [c1])
            <= hamming (query s) (r_target r)).
          { replace (S (length (node s))) with (length (node s ++ [c1]))
              by (rewrite length_app; simpl; lia).
            rewrite Hs'.
            replace (node s ++ c1 :: s'') with ((node s ++ [c1]) ++ s'')
              by (rewrite <- app_assoc; reflexivity).
            apply hamming_prefix_le.
            rewrite <- app_assoc. simpl. rewrite <- Hs'. congruence. }
          rewrite Hstep in Hpre; [|lia|exact Hnth|exact Hfn].
          rewrite <- Hhd in Hpre. lia.
        - rewrite (hp_pushed_not_due _ _ _ _ _ _ _ _ (hd s) _ (depth s));
            [reflexivity|].
          destruct s; exact D. }
      rewrite Hcount.
      destruct (state_due (hp_targets (rnode root1) L) E (maxhd it1) r s);
        simpl; lia.
  - unfold hp_size. rewrite Hstk2, Hstk0, Hst, Hst2, Hst0.
    rewrite stack_size_app, stack_size_rev.
    replace (stack_size root1 (s :: st))
      with (deref_size root1 s + stack_size root1 st)%nat by reflexivity.
    assert (Hs1 : deref_size root1 s = count_nodes n).
    { unfold deref_size. rewrite <- Hreset, get_node_reset, Hn. simpl.
      apply count_nodes_reset. }
    assert (Hs2 : (stack_size root1
                     (hp_pushed c0 (maxhd it1) (node s) (query s) (hd s)
                                (depth s) (children n))
                   <= list_sum (map count_nodes (children n)))%nat).
    { unfold hp_pushed. apply stack_size_flat_map_le. intros y Hy.
      destruct (hp_child_facts root (node s) n y Hreset Hn Hy)
        as [_ HyR].
      assert (Hone : forall hh dd,
                stack_size root1 [mkState (node s ++ [ch y]) (query s) hh dd]
                = count_nodes y).
      { intros hh dd. unfold stack_size, deref_size. cbn [map node list_sum].
        rewrite HyR, count_nodes_reset. simpl. lia. }
      destruct (is_explored y); [unfold stack_size; simpl; lia|].
      destruct (Byte.eqb (ch y) c0); [rewrite Hone; lia|].
      destruct (hd s <? maxhd it1); [rewrite Hone; lia|].
      unfold stack_size; simpl; lia. }
    rewrite Hs1. rewrite (count_nodes_measure n). cbv beta.
    set (w := (length (stack it) * S (count_nodes (rnode root1)))%nat).
    lia.
Qed.

(** One turn of the loop of [trieiter_hammingpairs_next]. *)
Lemma hammingpairs_body_step c root it :
  hp_inv root1 it1 L c root it ->
  match hammingpairs_body (root, it) with
  | None => False
  | Some (inl (root', it')) =>
      hp_inv root1 it1 L c root' it'
      /\ (hp_size root1 it' < hp_size root1 it)%nat
  | Some (inr (None, root', it')) =>
      (forall x, c x = 0%nat) /\ hp_fin root1 it1 L root' it'
  | Some (inr (Some r, root', it')) =>
      exists c',
        (forall x, c x = ((if result_eq_dec x r then 1 else 0) + c' x)%nat)
        /\ hp_inv root1 it1 L c' root' it'
        /\ (hp_size root1 it' < hp_size root1 it)%nat
  end.
Proof.
  intros [E Hinv]. unfold hammingpairs_body.
  pose proof Hinv as [Hroot [Hreset [Hcfg [HT [Hfs [Hok Hc]]]]]].
  destruct (trieiter_pop_state it) as [[s it0]|] eqn:Hpop.
  - destruct (pop_state_config it s it0 Hpop) as [Hsame [Hstk Hst]].
    rewrite Hst in Hok. inversion Hok as [|a l Hs Hok']; subst a l.
    pose proof Hs as [HqT [Hv [Hle [Hd _]]]].
    destruct (hp_get_node root (node s) Hreset Hv) as [n [Hn HnR]].
    rewrite Hn.
    assert (Htd0 : target_depth it0 = Z.of_nat L).
    { destruct Hcfg as [_ [_ [Ht _]]]. destruct Hsame as [_ [_ [Ht' _]]].
      congruence. }
    rewrite Htd0, Hd.
    assert (Hdue0 : forall r,
              c r = ((if state_due (hp_targets (rnode root1) L) E
                           (maxhd it1) r s then 1 else 0)
                     + hp_due (hp_targets (rnode root1) L) E (maxhd it1)
                         it0 r)%nat).
    { intros r. rewrite Hc. unfold hp_due. rewrite Hst, Hstk.
      cbn [filter].
      destruct (state_due (hp_targets (rnode root1) L) E (maxhd it1) r s);
        simpl; lia. }
    destruct (Nat.eq_dec (length (node s)) L) as [Heq|Hneq].
    + replace (Z.of_nat (length (node s)) =? Z.of_nat L) with true
        by (symmetry; apply Z.eqb_eq; lia).
      pose proof (hp_state_at_depth E c root it s (states it0) n Hinv Hst
                    Hn Heq) as Hat.
      pose proof (hp_pop_size it it0 s Hst Hstk Hv) as Hsz.
      destruct (has_item n) eqn:Hi; cbn [negb].
      * exists (hp_due (hp_targets (rnode root1) L) E (maxhd it1) it0).
        split; [|split; [|exact Hsz]].
        -- intros x. rewrite Hdue0, Hat. reflexivity.
        -- exists E.
           apply (hp_inv_at_states E c _ root it it0 Hinv Hsame Hstk Hok').
           intros r. reflexivity.
      * split; [|exact Hsz]. exists E.
        apply (hp_inv_at_mark E c root it0 (node s) n); auto.
        -- apply (hp_inv_at_states E c c root it it0 Hinv Hsame Hstk Hok').
           intros r. rewrite Hdue0, Hat. reflexivity.
        -- intros Hlt. lia.
        -- intros _. unfold has_key_at. rewrite Hn. exact Hi.
    + replace (Z.of_nat (length (node s)) =? Z.of_nat L) with false
        by (symmetry; apply Z.eqb_neq; lia).
      assert (Hlt : (length (node s) < L)%nat) by lia.
      destruct (hp_scan E c root it s (states it0) n Hinv Hst Hn Hlt)
        as [c0 [Hqc Hall]].
      rewrite <- Hd. rewrite Hqc.
      destruct (Hall it0 Hsame Hstk eq_refl) as [it2 [Hrun [Hinv2 Hsz]]].
      rewrite Hrun.
      destruct (Z.of_nat (length (children n))
                =? Z.of_nat (length (filter is_explored (children n))))
        eqn:Hall_explored.
      * split; [|exact Hsz]. exists E.
        apply (hp_inv_at_mark E c root it2 (node s) n); auto.
        -- intros _ a Ha. apply Z.eqb_eq in Hall_explored.
           assert (Hex : forall y, In y (children n) -> is_explored y = true).
           { apply filter_length_all. lia. }
           unfold explored_at. rewrite get_node_app, Hn in *.
           cbn [get_node] in *. rewrite get_child_chfind in *.
           destruct (chfind a (children n)) as [y|] eqn:Hy;
             [|contradiction].
           apply Hex. eapply chfind_in; eauto.
        -- intros Hl. lia.
      * split; [|exact Hsz]. exists E. exact Hinv2.
  - apply pop_state_none in Hpop.
    unfold stack_pop. destruct (stack it) as [|q rest] eqn:Hstk.
    + split.
      * intros x. rewrite Hc. unfold hp_due. rewrite Hpop, Hstk.
        reflexivity.
      * split; [exact Hroot|]. split; [exact Hreset|].
        split; [exact Hcfg|]. exists c, E. exact Hinv.
    + destruct (hp_take_query E c root it q rest Hinv Hpop Hstk)
        as [x [Hx [Hinv' Hsz]]].
      rewrite Hx. split; [|exact Hsz]. exists (q :: E). exact Hinv'.
Qed.

Lemma hammingpairs_next_loop fuel c root it :
  hp_inv root1 it1 L c root it -> (hp_size root1 it < fuel)%nat ->
  exists res root' it',
    while_loop hammingpairs_body fuel (root, it) = Some (res, root', it')
    /\ match res with
       | None => (forall x, c x = 0%nat) /\ hp_fin root1 it1 L root' it'
       | Some r =>
           exists c',
             (forall x, c x = ((if result_eq_dec x r then 1 else 0)
                               + c' x)%nat)
             /\ hp_inv root1 it1 L c' root' it'
             /\ (hp_size root1 it' < hp_size root1 it)%nat
       end.
Proof.
  intros Hinv Hsize.
  destruct (while_loop_rule hammingpairs_body
              (fun s => hp_inv root1 it1 L c (fst s) (snd s))
              (fun s => hp_size root1 (snd s))
              (fun s r =>
                 match fst (fst r) with
                 | None => (forall x, c x = 0%nat)
                           /\ hp_fin root1 it1 L (snd (fst r)) (snd r)
                 | Some y =>
                     exists c',
                       (forall x, c x = ((if result_eq_dec x y then 1 else 0)
                                         + c' x)%nat)
                       /\ hp_inv root1 it1 L c' (snd (fst r)) (snd r)
                       /\ (hp_size root1 (snd r) < hp_size root1 (snd s))%nat
                 end))
    with (fuel := fuel) (s := (root, it))
    as [[[res r'] i'] [Hrun Hpost]].
  - intros [r0 i0] Hi. cbn [fst snd] in *.
    pose proof (hammingpairs_body_step c r0 i0 Hi) as Hstep.
    destruct (hammingpairs_body (r0, i0)) as [[[r2 i2]|[[res r2] i2]]|];
      cbn [fst snd]; [| |contradiction].
    + destruct Hstep as [Hi2 Hlt]. split; [exact Hi2|].
      split; [exact Hlt|]. intros [[res r3] i3]. cbn [fst snd].
      destruct res as [y|]; [|auto].
      intros [c' [H1 [H2 H3]]]. exists c'.
      split; [exact H1|]. split; [exact H2|]. lia.
    + destruct res as [y|]; exact Hstep.
  - exact Hinv.
  - exact Hsize.
  - exists res, r', i'. split; [exact Hrun|]. exact Hpost.
Qed.

Lemma hammingpairs_next_spec fuel c root it :
  hp_inv root1 it1 L c root it -> (hp_size root1 it < fuel)%nat ->
  exists res root' it',
    trieiter_next fuel root it = Some (res, root', it')
    /\ match res with
       | None => (forall x, c x = 0%nat) /\ hp_fin root1 it1 L root' it'
       | Some r =>
           exists c',
             (forall x, c x = ((if result_eq_dec x r then 1 else 0)
                               + c' x)%nat)
             /\ hp_inv root1 it1 L c' root' it'
             /\ (hp_size root1 it' < hp_size root1 it)%nat
       end.
Proof.
  intros Hinv Hsize. pose proof Hinv as [E [Hroot [_ [Hcfg _]]]].
  destruct Hcfg as [C1 [_ [_ [_ [C5 [C6 [_ C8]]]]]]].
  unfold trieiter_next. rewrite C6, Hsid, C5, Hdirty, C8, Hnext.
  rewrite Hroot. cbn [state_id dirty_iter with_rnode].
  rewrite Z.eqb_refl, Hreg, C1, Pos.eqb_refl. cbn [negb andb].
  unfold trieiter_hammingpairs_next.
  rewrite <- Hroot. apply hammingpairs_next_loop; assumption.
Qed.

End Pairs.

(** Exhausting the iterator returns every result as often as it was
    owed at the start. *)
Lemma hammingpairs_drain root1 it1 L c fuel :
  wf_node [] (rnode root1) = true ->
  (0 < L)%nat -> Z.of_nat L <= INT_MAX ->
  0 <= maxhd it1 <= INT_MAX ->
  target_depth it1 = Z.of_nat L ->
  next it1 = hammingpairs_next ->
  is_dirty it1 = true ->
  trie_state_id it1 = state_id root1 ->
  dirty_iter root1 = Some (self it1) ->
  hp_inv root1 it1 L c root1 it1 ->
  (hp_size root1 it1 < fuel)%nat ->
  exists rs root' it',
    trieiter_drain fuel root1 it1 = Some (rs, root', it')
    /\ (forall x, count_occ result_eq_dec rs x = c x)
    /\ hp_fin root1 it1 L root' it'.
Proof.
  intros H1 H2 H3 H4 H5 H6 H7 H8 H9 Hinv Hsize.
  apply (drain_count_rule (hp_inv root1 it1 L)
           (fun _ it => hp_size root1 it) (hp_fin root1 it1 L)); auto.
  intros f c0 r0 i0.
  apply (hammingpairs_next_spec root1 it1 L H1 H2 H3 H4 H5 H6 H7 H8 H9).
Qed.

(** *** Each pair once *)

Lemma filter_two_count (f : TrieSearchResult -> bool) a b rs :
  a <> b ->
  (forall r, In r rs -> (f r = true <-> r = a \/ r = b)) ->
  length (filter f rs)
  = (count_occ result_eq_dec rs a + count_occ result_eq_dec rs b)%nat.
Proof.
  intros Hab. induction rs as [|x rs IH]; intros H; [reflexivity|].
  cbn [filter count_occ].
  assert (IH' := IH (fun r Hr => H r (or_intror Hr))).
  pose proof (H x (or_introl eq_refl)) as Hx.
  destruct (f x) eqn:Fx.
  - destruct (proj1 Hx eq_refl) as [-> | ->].
    + destruct (result_eq_dec a a) as [_|N]; [|congruence].
      destruct (result_eq_dec a b) as [N|_]; [congruence|].
      simpl. rewrite IH'. lia.
    + destruct (result_eq_dec b b) as [_|N]; [|congruence].
      destruct (result_eq_dec b a) as [N|_]; [congruence|].
      simpl. rewrite IH'. lia.
  - destruct (result_eq_dec x a) as [Ea|_].
    { assert (false = true) by (apply Hx; auto). discriminate. }
    destruct (result_eq_dec x b) as [Eb|_].
    { assert (false = true) by (apply Hx; auto). discriminate. }
    exact IH'.
Qed.

Lemma joins_true x y r :
  joins x y r = true
  <-> (r_query r = x /\ r_target r = y) \/ (r_query r = y /\ r_target r = x).
Proof.
  unfold joins. rewrite orb_true_iff, !andb_true_iff, !bytes_eqb_eq.
  reflexivity.
Qed.

Lemma is_pair_true n L h x y :
  wf_node [] n = true -> Z.of_nat L <= INT_MAX ->
  (is_pair n (Z.of_nat L) h x y = true
   <-> In x (hp_targets n L) /\ In y (hp_targets n L)
       /\ x <> y /\ hamming x y <= h).
Proof.
  intros Hwf HL. unfold is_pair.
  rewrite !andb_true_iff, !Z.eqb_eq, Z.ltb_lt, Z.leb_le.
  rewrite !(in_hp_targets n L _ Hwf HL). split.
  - intros [[[[[Hx Hy] Hlx] Hly] Hpos] Hle].
    repeat split; auto; try lia.
    intros ->. rewrite hamming_refl in Hpos. lia.
  - intros [[Hlx Hx] [[Hly Hy] [Hne Hle]]].
    repeat split; auto; try lia.
    pose proof (hamming_nonneg x y) as H0.
    destruct (Z.eq_dec (hamming x y) 0) as [Hz|Hz]; [|lia].
    exfalso. apply Hne. apply hamming_zero; [congruence|exact Hz].
Qed.

Lemma pairs_counted T h rs :
  NoDup T ->
  (forall r, count_occ result_eq_dec rs r = later_due T [] h T r) ->
  (forall r, In r rs ->
     In (r_query r) T /\ In (r_target r) T /\ r_query r <> r_target r
     /\ r_hd r = hamming (r_query r) (r_target r) /\ r_hd r <= h)
  /\ forall x y,
       length (filter (joins x y) rs)
       = if (if in_dec key_eq_dec x T then true else false)
            && (if in_dec key_eq_dec y T then true else false)
            && (if key_eq_dec x y then false else true)
            && (hamming x y <=? h)
         then 1%nat else 0%nat.
Proof.
  intros Hnd Hcount.
  assert (Hpos : forall r,
            (0 < later_due T [] h T r)%nat ->
            In (r_query r) T /\ In (r_target r) T
            /\ r_query r <> r_target r
            /\ r_hd r = hamming (r_query r) (r_target r) /\ r_hd r <= h).
  { intros r Hr. destruct (later_due_positive T h r T [] Hr) as [H|H];
      [exact H|]. exfalso. apply H. apply incl_refl. }
  assert (Hres : forall r, In r rs ->
            In (r_query r) T /\ In (r_target r) T
            /\ r_query r <> r_target r
            /\ r_hd r = hamming (r_query r) (r_target r) /\ r_hd r <= h).
  { intros r Hr. apply Hpos. rewrite <- Hcount.
    apply (count_occ_In result_eq_dec). exact Hr. }
  split; [exact Hres|]. intros x y.
  destruct (key_eq_dec x y) as [->|Hne].
  - rewrite !andb_false_r. simpl.
    rewrite filter_nil_all; [reflexivity|].
    intros r Hr. destruct (joins y y r) eqn:J; [|reflexivity].
    apply joins_true in J. destruct (Hres r Hr) as [_ [_ [Hq _]]].
    exfalso. apply Hq. destruct J as [[-> ->]|[-> ->]]; reflexivity.
  - rewrite andb_true_r.
    assert (Hab : mkResult x y (hamming x y) <> mkResult y x (hamming x y))
      by congruence.
    assert (Hj : forall r, In r rs ->
              (joins x y r = true
               <-> r = mkResult x y (hamming x y)
                   \/ r = mkResult y x (hamming x y))).
    { intros r Hr. rewrite joins_true.
      destruct (Hres r Hr) as [_ [_ [_ [Hh _]]]].
      destruct r as [rq rt rh]. simpl in *. split.
      - intros [[Hq Ht]|[Hq Ht]]; subst rq rt rh.
        + left. reflexivity.
        + right. rewrite (hamming_sym y x). reflexivity.
      - intros [H|H]; inversion H; subst; auto. }
    rewrite (filter_two_count (joins x y) _ _ rs Hab Hj).
    rewrite !Hcount.
    destruct (in_dec key_eq_dec x T) as [Hx|Hx];
      destruct (in_dec key_eq_dec y T) as [Hy|Hy];
      destruct (hamming x y <=? h) eqn:Hle; cbn [andb];
      try apply Z.leb_le in Hle; try apply Z.leb_gt in Hle;
      try (apply (later_due_pair T h x y T []); auto; fail).
    all: destruct (later_due T [] h T (mkResult x y (hamming x y)))
           as [|k1] eqn:K1;
         [|exfalso;
           destruct (Hpos (mkResult x y (hamming x y)))
             as [P1 [P2 [_ [_ P5]]]]; [lia|simpl in *; auto; lia]].
    all: destruct (later_due T [] h T (mkResult y x (hamming x y)))
           as [|k2] eqn:K2;
         [reflexivity
         |exfalso;
          destruct (Hpos (mkResult y x (hamming x y)))
            as [P1 [P2 [_ [_ P5]]]]; [lia|simpl in *; auto; lia]].
Qed.

(** What [trieiter_hammingpairs] returns on a well-formed store. *)
Lemma trieiter_hammingpairs_created root a L h :
  wf_store root = true ->
  (0 < L)%nat -> Z.of_nat L <= INT_MAX -> 0 <= h ->
  trieiter_hammingpairs root a (Z.of_nat L) h
  = Some (mkIter a [] 1 h (Z.of_nat L) (Z.of_nat L) true (state_id root)
                 E_SUCCESS (hp_targets (trie_reset (rnode root)) L)
                 hammingpairs_next,
          mkRoot (trie_reset (rnode root)) (num_nodes root) (num_items root)
                 (memsize root) (state_id root) (Some a)).
Proof.
  intros Hwf HL HLmax Hh.
  destruct (wf_store_parts root Hwf) as [_ [_ [_ [_ [_ Hflags]]]]].
  unfold trieiter_hammingpairs, trieiter_new.
  replace (Z.of_nat L <=? 0) with false by (symmetry; apply Z.leb_gt; lia).
  replace (h <? 0) with false by (symmetry; apply Z.ltb_ge; lia).
  replace (Z.of_nat L <? 0) with false by (symmetry; apply Z.ltb_ge; lia).
  replace (1 <? 1) with false by reflexivity. cbn [orb].
  rewrite hp_targets_reset by exact HLmax. unfold hp_targets.
  destruct (dirty_iter root); [reflexivity|].
  rewrite (trie_reset_id (rnode root)) by auto. reflexivity.
Qed.

(** The all-pairs iterator on a well-formed store: it is created, it
    is exhausted within the fuel, and it returns every result as often
    as its queries, taken in their order, owe it. *)
Lemma hammingpairs_drained root a L h fuel :
  wf_store root = true ->
  1 <= L <= INT_MAX ->
  1 <= h <= INT_MAX ->
  (count_items (rnode root) * S (count_nodes (rnode root)) < fuel)%nat ->
  exists it root1 rs root' it',
    trieiter_hammingpairs root a L h = Some (it, root1)
    /\ root1 = mkRoot (trie_reset (rnode root)) (num_nodes root)
                      (num_items root) (memsize root) (state_id root)
                      (Some a)
    /\ trieiter_drain fuel root1 it = Some (rs, root', it')
    /\ root' = with_rnode root1 (rnode root')
    /\ trie_reset (rnode root') = trie_reset (rnode root)
    /\ trieiter_errcode it' = E_SUCCESS
    /\ (forall r,
          count_occ result_eq_dec rs r
          = later_due (hp_targets (trie_reset (rnode root)) (Z.to_nat L)) []
                      h (hp_targets (trie_reset (rnode root)) (Z.to_nat L))
                      r).
Proof.
  intros Hwf HL Hh Hfuel.
  destruct (wf_store_parts root Hwf) as [Hwfn _].
  assert (HLn : Z.of_nat (Z.to_nat L) = L) by (apply Z2Nat.id; lia).
  set (Ln := Z.to_nat L) in *.
  assert (HLpos : (0 < Ln)%nat) by lia.
  assert (HLmax : Z.of_nat Ln <= INT_MAX) by lia.
  set (R := trie_reset (rnode root)).
  assert (HwfR : wf_node [] R = true)
    by (unfold R; rewrite wf_node_reset; exact Hwfn).
  set (T := hp_targets R Ln).
  set (it1 := mkIter a [] 1 h (Z.of_nat Ln) (Z.of_nat Ln) true
                (state_id root) E_SUCCESS T hammingpairs_next).
  set (root1 := mkRoot R (num_nodes root) (num_items root) (memsize root)
                  (state_id root) (Some a)).
  assert (Hnew : trieiter_hammingpairs root a L h = Some (it1, root1)).
  { rewrite <- HLn. apply trieiter_hammingpairs_created; auto. lia. }
  assert (Hinv : hp_inv root1 it1 Ln (hp_due T [] h it1) root1 it1).
  { exists []. split; [reflexivity|]. split.
    { simpl. unfold R. apply trie_reset_id. apply trie_reset_flags_zero. }
    split; [apply same_config_refl|]. split; [reflexivity|].
    split; [apply flags_sound_reset|]. split; [constructor|].
    intros r. reflexivity. }
  assert (Hsize : (hp_size root1 it1 < fuel)%nat).
  { unfold hp_size. simpl states. simpl stack. simpl rnode.
    unfold stack_size. simpl list_sum.
    pose proof (length_hp_targets R Ln HwfR HLmax) as Hlen.
    fold T in Hlen. unfold R in Hlen.
    replace (count_items (trie_reset (rnode root)))
      with (count_items (rnode root)) in Hlen
      by (rewrite <- !length_keys_below, keys_below_reset; reflexivity).
    unfold R at 1. rewrite count_nodes_reset.
    apply Nat.le_lt_trans with (2 := Hfuel).
    simpl. apply Nat.mul_le_mono_r. exact Hlen. }
  destruct (hammingpairs_drain root1 it1 Ln (hp_due T [] h it1) fuel)
    as [rs [root' [it' [Hdrain [Hcount [Hfin1 [Hfin2 [Hfin3 _]]]]]]]]; auto.
  { simpl. lia. }
  exists it1, root1, rs, root', it'.
  split; [exact Hnew|]. split; [reflexivity|]. split; [exact Hdrain|].
  split; [exact Hfin1|]. split.
  { rewrite Hfin2. reflexivity. }
  split.
  { destruct Hfin3 as [_ [_ [_ [_ [_ [_ [He _]]]]]]].
    unfold trieiter_errcode. rewrite He. reflexivity. }
  intros r. rewrite Hcount. reflexivity.
Qed.

(** Results returned as often as the queries owe them join each pair
    of stored keys of length [L] within the bound once, and nothing
    else. *)
Lemma pairs_counted_store n L h rs :
  wf_node [] n = true ->
  1 <= L <= INT_MAX ->
  (forall r,
     count_occ result_eq_dec rs r
     = later_due (hp_targets (trie_reset n) (Z.to_nat L)) [] h
                 (hp_targets (trie_reset n) (Z.to_nat L)) r) ->
  (forall x y,
     length (filter (joins x y) rs)
     = if is_pair n L h x y then 1%nat else 0%nat)
  /\ (forall r, In r rs ->
        r_hd r = hamming (r_query r) (r_target r)
        /\ r_query r <> r_target r
        /\ has_key_at n (r_query r) = true
        /\ has_key_at n (r_target r) = true
        /\ Z.of_nat (length (r_query r)) = L
        /\ Z.of_nat (length (r_target r)) = L).
Proof.
  intros Hwfn HL Hc.
  assert (HLn : Z.of_nat (Z.to_nat L) = L) by (apply Z2Nat.id; lia).
  set (Ln := Z.to_nat L) in *.
  assert (HLmax : Z.of_nat Ln <= INT_MAX) by lia.
  set (R := trie_reset n) in *.
  assert (HwfR : wf_node [] R = true)
    by (unfold R; rewrite wf_node_reset; exact Hwfn).
  set (T := hp_targets R Ln) in *.
  destruct (pairs_counted T h rs (NoDup_hp_targets R Ln HwfR HLmax) Hc)
    as [Hres Hpairs].
  assert (HT : forall t,
            In t T <-> length t = Ln /\ has_key_at n t = true).
  { intros t. unfold T. rewrite (in_hp_targets R Ln t HwfR HLmax).
    unfold R. rewrite has_key_at_reset. reflexivity. }
  split.
  - intros x y. rewrite Hpairs. rewrite <- HLn.
    destruct (is_pair n (Z.of_nat Ln) h x y) eqn:P.
    + apply (is_pair_true n Ln h x y Hwfn HLmax) in P.
      destruct P as [Px [Py [Pne Ple]]].
      rewrite <- (hp_targets_reset n Ln HLmax) in Px, Py.
      fold R in Px, Py. fold T in Px, Py.
      destruct (in_dec key_eq_dec x T); [|contradiction].
      destruct (in_dec key_eq_dec y T); [|contradiction].
      destruct (key_eq_dec x y); [contradiction|].
      replace (hamming x y <=? h) with true
        by (symmetry; apply Z.leb_le; exact Ple).
      reflexivity.
    + destruct (in_dec key_eq_dec x T) as [Hx|]; [|reflexivity].
      destruct (in_dec key_eq_dec y T) as [Hy|]; [|reflexivity].
      destruct (key_eq_dec x y) as [|Hne]; [reflexivity|].
      destruct (hamming x y <=? h) eqn:Hle; [|reflexivity].
      exfalso. apply Z.leb_le in Hle.
      assert (P' : is_pair n (Z.of_nat Ln) h x y = true).
      { apply (is_pair_true n Ln h x y Hwfn HLmax).
        rewrite <- (hp_targets_reset n Ln HLmax).
        fold R. fold T. auto. }
      congruence.
  - intros r Hr. destruct (Hres r Hr) as [Hq [Ht [Hne [Hhd _]]]].
    apply HT in Hq. apply HT in Ht.
    destruct Hq as [Hq1 Hq2]. destruct Ht as [Ht1 Ht2].
    repeat split; auto; lia.
Qed.

(** C1.  On a well-formed store, for a key length [1 <= L <= INT_MAX]
    and a bound [1 <= h <= INT_MAX], [trieiter_hammingpairs] returns an
    iterator, and calling [trieiter_next] until it returns NULL, with
    fuel beyond [count_items * (count_nodes + 1)], terminates with
    status [E_SUCCESS] and leaves the store as it was, flags apart.
    For all strings [x] and [y] the number of results that join [x]
    and [y], in either orientation, is one when [x] and [y] are stored
    keys of length [L] with [0 < hamming x y <= h], and zero otherwise
    (so none joins a string with itself); every result carries the
    Hamming distance of its query and target, which are two different
    stored keys of length [L]. *)
Theorem hammingpairs_yield_each_pair_once root a L h fuel :
  wf_store root = true ->
  1 <= L <= INT_MAX ->
  1 <= h <= INT_MAX ->
  (count_items (rnode root) * S (count_nodes (rnode root)) < fuel)%nat ->
  exists it root1 rs root' it',
    trieiter_hammingpairs root a L h = Some (it, root1)
    /\ root1 = mkRoot (trie_reset (rnode root)) (num_nodes root)
                      (num_items root) (memsize root) (state_id root)
                      (Some a)
    /\ trieiter_drain fuel root1 it = Some (rs, root', it')
    /\ root' = with_rnode root1 (rnode root')
    /\ trie_reset (rnode root') = trie_reset (rnode root)
    /\ trieiter_errcode it' = E_SUCCESS
    /\ (forall x y,
          length (filter (joins x y) rs)
          = if is_pair (rnode root) L h x y then 1%nat else 0%nat)
    /\ (forall r, In r rs ->
          r_hd r = hamming (r_query r) (r_target r)
          /\ r_query r <> r_target r
          /\ has_key_at (rnode root) (r_query r) = true
          /\ has_key_at (rnode root) (r_target r) = true
          /\ Z.of_nat (length (r_query r)) = L
          /\ Z.of_nat (length (r_target r)) = L).
Proof.
  intros Hwf HL Hh Hfuel.
  destruct (hammingpairs_drained root a L h fuel Hwf HL Hh Hfuel)
    as [it [root1 [rs [root' [it' [Hnew [Hroot1 [Hdrain [Hsame [Hreset
         [Herr Hcount]]]]]]]]]]].
  destruct (wf_store_parts root Hwf) as [Hwfn _].
  destruct (pairs_counted_store (rnode root) L h rs Hwfn HL Hcount)
    as [Hpairs Hres].
  exists it, root1, rs, root', it'.
  split; [exact Hnew|]. split; [exact Hroot1|]. split; [exact Hdrain|].
  split; [exact Hsame|]. split; [exact Hreset|]. split; [exact Herr|].
  split; [exact Hpairs|exact Hres].
Qed.

Lemma hammingpairs_yield_each_pair_once_witness :
  wf_store store_aa_ab = true
  /\ 1 <= 2 <= INT_MAX
  /\ 1 <= 1 <= INT_MAX
  /\ (count_items (rnode store_aa_ab) * S (count_nodes (rnode store_aa_ab))
      < 20)%nat
  /\ exists it root1 rs root' it',
       trieiter_hammingpairs store_aa_ab 1 2 1 = Some (it, root1)
       /\ root1 = mkRoot (trie_reset (rnode store_aa_ab))
                         (num_nodes store_aa_ab) (num_items store_aa_ab)
                         (memsize store_aa_ab) (state_id store_aa_ab)
                         (Some 1%positive)
       /\ trieiter_drain 20 root1 it = Some (rs, root', it')
       /\ root' = with_rnode root1 (rnode root')
       /\ trie_reset (rnode root') = trie_reset (rnode store_aa_ab)
       /\ trieiter_errcode it' = E_SUCCESS
       /\ (forall x y,
             length (filter (joins x y) rs)
             = if is_pair (rnode store_aa_ab) 2 1 x y
               then 1%nat else 0%nat)
       /\ (forall r, In r rs ->
             r_hd r = hamming (r_query r) (r_target r)
             /\ r_query r <> r_target r
             /\ has_key_at (rnode store_aa_ab) (r_query r) = true
             /\ has_key_at (rnode store_aa_ab) (r_target r) = true
             /\ Z.of_nat (length (r_query r)) = 2
             /\ Z.of_nat (length (r_target r)) = 2).
Proof.
  assert (H1 : wf_store store_aa_ab = true) by (vm_compute; reflexivity).
  assert (H2 : 1 <= 2 <= INT_MAX) by (split; vm_compute; discriminate).
  assert (H3 : 1 <= 1 <= INT_MAX) by (split; vm_compute; discriminate).
  assert (H4 : (count_items (rnode store_aa_ab)
                * S (count_nodes (rnode store_aa_ab)) < 20)%nat)
    by (vm_compute; lia).
  split; [exact H1|]. split; [exact H2|]. split; [exact H3|].
  split; [exact H4|].
  exact (hammingpairs_yield_each_pair_once store_aa_ab 1 2 1 20
           H1 H2 H3 H4).
Defined.

(** The all-pairs scenario of the interface description. *)
Example pairs_of_four_words :
  exists it root1 root' it',
    trieiter_hammingpairs store_four_words 1 4 1 = Some (it, root1)
    /\ trieiter_drain 100 root1 it
       = Some ([mkResult (bytes "aaaa") (bytes "aaab") 1;
                mkResult (bytes "aaab") (bytes "aabb") 1;
                mkResult (bytes "aabb") (bytes "abbb") 1], root', it').
Proof.
  eexists _, _, _, _. split.
  - vm_compute. reflexivity.
  - vm_compute. reflexivity.
Qed.

(* ------------------------------------------------------------------ *)
(** ** Replacing the dirty iterator *)


(** *** More fuel changes nothing *)

Lemma while_loop_mono {S R : Type} (body : S -> option (S + R)) f :
  forall f' s r,
    while_loop body f s = Some r -> (f <= f')%nat ->
    while_loop body f' s = Some r.
Proof.
  induction f as [|f IH]; intros f' s r H Hle; [discriminate|].
  destruct f' as [|f']; [lia|]. simpl in *.
  destruct (body s) as [[s'|x]|]; auto. apply IH; [exact H|lia].
Qed.

Lemma trieiter_next_mono f f' root it r :
  trieiter_next f root it = Some r -> (f <= f')%nat ->
  trieiter_next f' root it = Some r.
Proof.
  unfold trieiter_next. intros H Hle.
  destruct (negb (trie_state_id it =? state_id root)); [exact H|].
  destruct (is_dirty it
            && negb match dirty_iter root with
                    | Some a => Pos.eqb a (self it)
                    | None => false
                    end); [exact H|].
  destruct (next it).
  - unfold trieiter_suffixes_next in *.
    destruct (while_loop (suffixes_body root) f it) as [x|] eqn:W;
      [|discriminate].
    rewrite (while_loop_mono _ f f' it x W Hle). exact H.
  - unfold trieiter_neighbors_next in *.
    destruct (while_loop (neighbors_body root) f it) as [x|] eqn:W;
      [|discriminate].
    rewrite (while_loop_mono _ f f' it x W Hle). exact H.
  - unfold trieiter_hammingpairs_next in *.
    apply (while_loop_mono _ f f' _ _ H Hle).
Qed.

(** *** The first iterator stays what it was *)

Lemma hp_inv_fin root1 it1 L c root it :
  hp_inv root1 it1 L c root it -> hp_fin root1 it1 L root it.
Proof.
  intros Hinv. pose proof Hinv as [E [H1 [H2 [H3 _]]]].
  split; [exact H1|]. split; [exact H2|]. split; [exact H3|].
  exists c. exact Hinv.
Qed.

Lemma hp_fin_next root1 it1 L :
  wf_node [] (rnode root1) = true ->
  (0 < L)%nat -> Z.of_nat L <= INT_MAX ->
  0 <= maxhd it1 <= INT_MAX ->
  target_depth it1 = Z.of_nat L ->
  next it1 = hammingpairs_next ->
  is_dirty it1 = true ->
  trie_state_id it1 = state_id root1 ->
  dirty_iter root1 = Some (self it1) ->
  forall root it fuel res root' it',
    hp_fin root1 it1 L root it ->
    trieiter_next fuel root it = Some (res, root', it') ->
    hp_fin root1 it1 L root' it'.
Proof.
  intros H1 H2 H3 H4 H5 H6 H7 H8 H9 root it fuel res root' it'
         [_ [_ [_ [c Hinv]]]] Hnext.
  destruct (hammingpairs_next_spec root1 it1 L H1 H2 H3 H4 H5 H6 H7 H8 H9
              (Nat.max fuel (S (hp_size root1 it))) c root it Hinv)
    as [res2 [r2 [i2 [Hn2 Hpost]]]]; [lia|].
  rewrite (trieiter_next_mono fuel _ root it _ Hnext) in Hn2 by lia.
  injection Hn2 as <- <- <-.
  destruct res as [r|].
  - destruct Hpost as [c' [_ [Hinv' _]]]. eapply hp_inv_fin; eauto.
  - destruct Hpost as [_ Hfin]. exact Hfin.
Qed.

Lemma hp_fin_advanced root1 it1 L :
  wf_node [] (rnode root1) = true ->
  (0 < L)%nat -> Z.of_nat L <= INT_MAX ->
  0 <= maxhd it1 <= INT_MAX ->
  target_depth it1 = Z.of_nat L ->
  next it1 = hammingpairs_next ->
  is_dirty it1 = true ->
  trie_state_id it1 = state_id root1 ->
  dirty_iter root1 = Some (self it1) ->
  hp_fin root1 it1 L root1 it1 ->
  forall root it,
    iter_advanced root1 it1 root it -> hp_fin root1 it1 L root it.
Proof.
  intros H1 H2 H3 H4 H5 H6 H7 H8 H9 H0 root it Hadv.
  induction Hadv as [|root it fuel res root' it' _ IH Hnext];
    [exact H0|].
  eapply (hp_fin_next root1 it1 L H1 H2 H3 H4 H5 H6 H7 H8 H9); eauto.
Qed.




Lemma is_pair_reset n n' L h x y :
  trie_reset n = trie_reset n' ->
  is_pair n L h x y = is_pair n' L h x y.
Proof.
  intros H. unfold is_pair.
  rewrite <- (has_key_at_reset n x), <- (has_key_at_reset n y), H.
  rewrite !has_key_at_reset. reflexivity.
Qed.

(** The replacement scenario, with the first iterator advanced once
    before the second is created: the first latches [E_REPLACED], the
    second returns the pair. *)
Example replaced_iterator_scenario :
  exists root2 it2 root' it2',
    trieiter_next 10 pairs_store_1 pairs_iter_1
    = Some (Some (mkResult (bytes "aa") (bytes "ab") 1),
            pairs_store_1', pairs_iter_1')
    /\ trieiter_hammingpairs pairs_store_1' 2 2 1 = Some (it2, root2)
    /\ trieiter_next 10 root2 pairs_iter_1'
       = Some (None, root2, with_errcode pairs_iter_1' E_REPLACED)
    /\ trieiter_drain 20 root2 it2
       = Some ([mkResult (bytes "aa") (bytes "ab") 1], root', it2').
Proof.
  eexists _, _, _, _. split.
  - vm_compute. reflexivity.
  - split.
    + vm_compute. reflexivity.
    + split.
      * vm_compute. reflexivity.
      * vm_compute. reflexivity.
Qed.

(* ------------------------------------------------------------------ *)
(** ** Longest stored prefix *)

Lemma cstr_no_nul k : existsb (Byte.eqb NUL) (cstr k) = false.
Proof.
  induction k as [|c k IH]; simpl; [reflexivity|].
  destruct (Byte.eqb c NUL) eqn:E; [reflexivity|]. simpl.
  rewrite byte_eqb_sym, E. exact IH.
Qed.

(** A prefix of the contents of a C string is its own contents. *)
Lemma cstr_prefix k p s : cstr k = p ++ s -> cstr p = p.
Proof.
  intros H. apply cstr_id. pose proof (cstr_no_nul k) as Hn.
  rewrite H, existsb_app in Hn. apply orb_false_iff in Hn. tauto.
Qed.

Lemma cstr_idem k : cstr (cstr k) = cstr k.
Proof. apply (cstr_prefix k (cstr k) []). symmetry. apply app_nil_r. Qed.

Lemma has_key_at_none n q s :
  get_node n q = None -> has_key_at n (q ++ s) = false.
Proof. intros H. rewrite has_key_at_app, H. reflexivity. Qed.

Lemma app_split_short (a b c d : nodeptr) :
  a ++ b = c ++ d -> (length c <= length a)%nat -> exists t, a = c ++ t.
Proof.
  intros H Hle. destruct (app_eq_app _ _ _ _ H) as [l [[H1 _]|[H1 _]]].
  - eauto.
  - exists []. rewrite app_nil_r. subst c. rewrite length_app in Hle.
    destruct l; [rewrite app_nil_r; reflexivity|simpl in Hle; lia].
Qed.

Lemma app_split_long (a b c d : nodeptr) :
  a ++ b = c ++ d -> (length a <= length c)%nat -> exists t, c = a ++ t.
Proof. intros H Hle. symmetry in H. eapply app_split_short; eauto. Qed.

Lemma prefix_cases (p : nodeptr) c q s :
  p ++ [c] = q ++ s -> (exists s', p = q ++ s') \/ q = p ++ [c].
Proof.
  intros H. destruct s as [|y s] using rev_ind.
  - right. rewrite app_nil_r in H. auto.
  - left. rewrite app_assoc in H. apply app_inj_tail in H.
    destruct H as [H _]. eauto.
Qed.

Lemma longest_prefix_walk_spec n :
  forall s p res,
    longest_so_far n p res ->
    longest_so_far n (p ++ s) (longest_prefix_walk (get_node n p) s res).
Proof.
  induction s as [|c s IH]; intros p res H.
  - rewrite app_nil_r. exact H.
  - cbn [longest_prefix_walk].
    destruct (get_node n p) as [x|] eqn:Hp.
    + replace (p ++ c :: s) with ((p ++ [c]) ++ s)
        by (rewrite <- app_assoc; reflexivity).
      assert (Hpc : get_node n (p ++ [c]) = trienode_get_child x c).
      { rewrite get_node_app, Hp. cbn [get_node].
        destruct (trienode_get_child x c); reflexivity. }
      rewrite <- Hpc. apply IH. rewrite Hpc.
      destruct (trienode_get_child x c) as [y|] eqn:Hc.
      * destruct (has_item y) eqn:Hy.
        -- exists (p ++ [c]), [], y. rewrite app_nil_r.
           split; [reflexivity|]. split; [rewrite Hpc; reflexivity|].
           split; [exact Hy|]. split; [reflexivity|].
           intros q' s' Heq Hlt. exfalso.
           apply (f_equal (@length _)) in Heq.
           rewrite !length_app in Heq. rewrite length_app in Hlt. lia.
        -- destruct res as [i|].
           ++ destruct H as [q [s0 [x0 [H1 [H2 [H3 [H4 H5]]]]]]].
              exists q, (s0 ++ [c]), x0.
              split; [rewrite H1, <- app_assoc; reflexivity|].
              split; [exact H2|]. split; [exact H3|]. split; [exact H4|].
              intros q' s' Heq Hlt.
              destruct (prefix_cases p c q' s' Heq) as [[s1 Hs1]| ->].
              ** eapply H5; eauto.
              ** unfold has_key_at. rewrite Hpc. exact Hy.
           ++ intros q s' Heq.
              destruct (prefix_cases p c q s' Heq) as [[s1 Hs1]| ->].
              ** eapply H; eauto.
              ** unfold has_key_at. rewrite Hpc. exact Hy.
      * destruct res as [i|].
        -- destruct H as [q [s0 [x0 [H1 [H2 [H3 [H4 H5]]]]]]].
           exists q, (s0 ++ [c]), x0.
           split; [rewrite H1, <- app_assoc; reflexivity|].
           split; [exact H2|]. split; [exact H3|]. split; [exact H4|].
           intros q' s' Heq Hlt.
           destruct (prefix_cases p c q' s' Heq) as [[s1 Hs1]| ->].
           ** eapply H5; eauto.
           ** unfold has_key_at. rewrite Hpc. reflexivity.
        -- intros q s' Heq.
           destruct (prefix_cases p c q s' Heq) as [[s1 Hs1]| ->].
           ** eapply H; eauto.
           ** unfold has_key_at. rewrite Hpc. reflexivity.
    + (* the walk has left the tree: nothing below is stored *)
      assert (Hout : forall q' s',
                p ++ c :: s = q' ++ s' -> (length p < length q')%nat ->
                has_key_at n q' = false).
      { intros q' s' Heq Hlt.
        destruct (app_split_long p (c :: s) q' s' Heq) as [t ->]; [lia|].
        apply has_key_at_none. exact Hp. }
      destruct res as [i|].
      * destruct H as [q [s0 [x0 [H1 [H2 [H3 [H4 H5]]]]]]].
        exists q, (s0 ++ c :: s), x0.
        split; [rewrite H1, <- app_assoc; reflexivity|].
        split; [exact H2|]. split; [exact H3|]. split; [exact H4|].
        intros q' s' Heq Hlt.
        destruct (le_lt_dec (length q') (length p)) as [Hle|Hgt].
        -- destruct (app_split_short p (c :: s) q' s' Heq Hle) as [t Ht].
           apply (H5 q' t Ht Hlt).
        -- apply (Hout q' s' Heq Hgt).
      * intros q s' Heq.
        destruct (le_lt_dec (length q) (length p)) as [Hle|Hgt].
        -- destruct (app_split_short p (c :: s) q s' Heq Hle) as [t Ht].
           apply (H q t Ht).
        -- apply (Hout q s' Heq Hgt).
Qed.

Lemma trie_longest_prefix_so_far root k :
  longest_so_far (rnode root) (cstr k) (trie_longest_prefix root k).
Proof.
  unfold trie_longest_prefix.
  apply (longest_prefix_walk_spec (rnode root) (cstr k) []).
  destruct (has_item (rnode root)) eqn:Hr; simpl.
  - exists [], [], (rnode root). repeat split; auto.
    intros q' s' Heq Hlt. destruct q'; [simpl in Hlt; lia|discriminate].
  - intros q s Heq. destruct q; [|discriminate].
    rewrite has_key_at_nil. exact Hr.
Qed.

(** X1.  [trie_longest_prefix] returns the item of the longest prefix
    of the key that is a stored key, and NULL when no prefix of the key,
    the empty one included, is stored. *)
Theorem trie_longest_prefix_is_longest root k :
  match trie_longest_prefix root k with
  | Some i =>
      exists p s,
        cstr k = p ++ s
        /\ trie_get_item root p = Some i
        /\ forall p' s', cstr k = p' ++ s' -> (length p < length p')%nat ->
                         trie_has_key root p' = false
  | None => forall p s, cstr k = p ++ s -> trie_has_key root p = false
  end.
Proof.
  pose proof (trie_longest_prefix_so_far root k) as H.
  destruct (trie_longest_prefix root k) as [i|]; simpl in H.
  - destruct H as [q [s [x [H1 [H2 [H3 [H4 H5]]]]]]].
    exists q, s. split; [exact H1|]. split.
    + unfold trie_get_item, trie_get_node.
      rewrite (cstr_prefix k q s H1), H2, H3, H4. reflexivity.
    + intros p' s' Heq Hlt. rewrite trie_has_key_has_key_at.
      rewrite (cstr_prefix k p' s' Heq). eapply H5; eauto.
  - intros p s Heq. rewrite trie_has_key_has_key_at.
    rewrite (cstr_prefix k p s Heq). eapply H; eauto.
Qed.

(** X2.  For a stored key, [trie_longest_prefix] returns what
    [trie_get_item] returns: the item of the key itself. *)
Theorem trie_longest_prefix_of_stored_key root k :
  trie_has_key root k = true ->
  trie_longest_prefix root k = trie_get_item root k.
Proof.
  intros Hk. pose proof (trie_longest_prefix_so_far root k) as H.
  rewrite trie_has_key_has_key_at in Hk.
  destruct (trie_longest_prefix root k) as [i|]; simpl in H.
  - destruct H as [q [s [x [H1 [H2 [H3 [H4 H5]]]]]]].
    destruct s as [|c s].
    + rewrite app_nil_r in H1. unfold trie_get_item, trie_get_node.
      rewrite H1, H2, H3, H4. reflexivity.
    + rewrite (H5 (cstr k) []) in Hk; [discriminate| |].
      * symmetry. apply app_nil_r.
      * rewrite H1, length_app. simpl. lia.
  - rewrite (H (cstr k) []) in Hk; [discriminate|].
    symmetry. apply app_nil_r.
Qed.

Lemma trie_longest_prefix_of_stored_key_witness :
  trie_has_key store_ab_plus_a (bytes "ab") = true
  /\ trie_longest_prefix store_ab_plus_a (bytes "ab")
     = trie_get_item store_ab_plus_a (bytes "ab").
Proof.
  assert (H : trie_has_key store_ab_plus_a (bytes "ab") = true)
    by (vm_compute; reflexivity).
  split; [exact H|].
  exact (trie_longest_prefix_of_stored_key store_ab_plus_a (bytes "ab") H).
Defined.

(** The lookup scenario of the interface description: with "cat"
    stored, the longest stored prefix of "catalog" is "cat". *)
Example longest_prefix_of_catalog :
  let root := snd (fst (trie_set_item trie_new (bytes "cat") 5 None)) in
  trie_longest_prefix root (bytes "catalog")
  = Some (mkItem (Some (bytes "cat")) 5 3)
  /\ trie_longest_prefix root (bytes "ca") = None.
Proof. split; vm_compute; reflexivity. Qed.

(* ------------------------------------------------------------------ *)
(** ** Nodes and the keys below them *)

Lemma in_list_sum_le (g : TrieNode -> nat) cs x :
  In x cs -> (g x <= list_sum (map g cs))%nat.
Proof.
  induction cs as [|y cs IH]; simpl; [tauto|].
  intros [->|H]; [lia|]. specialize (IH H). lia.
Qed.

Lemma count_nodes_get p :
  forall n x, get_node n p = Some x -> (count_nodes x <= count_nodes n)%nat.
Proof.
  induction p as [|c p IH]; simpl; intros n x H.
  - inversion H; subst. lia.
  - rewrite get_child_chfind in H.
    destruct (chfind c (children n)) as [y|] eqn:E; [|discriminate].
    specialize (IH _ _ H). apply chfind_in in E.
    pose proof (in_list_sum_le count_nodes _ _ E).
    rewrite (count_nodes_eq n). lia.
Qed.

Lemma trie_has_node_get_node root k :
  trie_has_node root k = true <-> get_node (rnode root) (cstr k) <> None.
Proof.
  unfold trie_has_node, trie_get_node.
  destruct (get_node (rnode root) (cstr k)); split; intros H;
    try reflexivity; try discriminate. exfalso. apply H. reflexivity.
Qed.

Lemma node_on_path_of_key n p s :
  has_key_at n (p ++ s) = true -> get_node n p <> None.
Proof.
  rewrite has_key_at_app. destruct (get_node n p); discriminate.
Qed.

Lemma node_has_key_below n p x :
  no_dead n = true -> get_node n p = Some x -> p <> [] ->
  exists s, has_key_at n (p ++ s) = true.
Proof.
  intros Hnd Hx Hp.
  destruct (no_dead_get p n x Hnd Hx Hp) as [Hl Hd].
  destruct (live_has_key x Hd Hl) as [s Hs].
  exists s. rewrite has_key_at_app, Hx. exact Hs.
Qed.

(** X3. In a well-formed store a node exists at a non-empty path exactly
    when the path is a prefix of a stored key: [trie_has_node] answers
    "is this string a prefix of some key" (the root, at the empty path,
    always exists).  For a key given as a buffer, a stored key that
    extends it makes [trie_has_node] true in any store. *)
Theorem trie_has_node_iff_prefix_of_key root p :
  wf_store root = true ->
  (trie_has_node root p = true
   <-> cstr p = []
       \/ exists s, has_key_at (rnode root) (cstr p ++ s) = true)
  /\ (forall k s,
        trie_has_key root k = true -> cstr k = cstr p ++ s ->
        trie_has_node root p = true).
Proof.
  intros Hwf.
  pose proof (wf_store_parts _ Hwf) as [_ [Hnd _]].
  split; [split|].
  - intros H. apply trie_has_node_get_node in H.
    destruct (get_node (rnode root) (cstr p)) as [x|] eqn:Ex;
      [|exfalso; apply H; reflexivity].
    destruct (cstr p) as [|c r] eqn:Ep; [left; reflexivity|right].
    apply (node_has_key_below _ _ x Hnd Ex). discriminate.
  - intros [H|[s H]]; apply trie_has_node_get_node.
    + rewrite H. discriminate.
    + eapply node_on_path_of_key; eauto.
  - intros k s Hk Hs. apply trie_has_node_get_node.
    rewrite trie_has_key_has_key_at, Hs in Hk.
    eapply node_on_path_of_key; eauto.
Qed.

Lemma trie_has_node_iff_prefix_of_key_witness :
  wf_store store_aa_ab = true
  /\ (trie_has_node store_aa_ab (bytes "a") = true
      <-> cstr (bytes "a") = []
          \/ exists s,
               has_key_at (rnode store_aa_ab) (cstr (bytes "a") ++ s) = true).
Proof.
  assert (H : wf_store store_aa_ab = true) by (vm_compute; reflexivity).
  split; [exact H|].
  exact (proj1 (trie_has_node_iff_prefix_of_key store_aa_ab (bytes "a") H)).
Defined.

(* ------------------------------------------------------------------ *)
(** ** The suffix iterator below any node *)

Lemma NoDup_map_app (p : nodeptr) (l : list nodeptr) :
  NoDup l -> NoDup (map (app p) l).
Proof.
  induction 1 as [|x l Hx Hl IH]; simpl; constructor; auto.
  intros Hin. apply in_map_iff in Hin. destruct Hin as [y [Hy Hin]].
  apply app_inv_head in Hy. subst. auto.
Qed.

Lemma suffixes_out_count root p x q0 :
  wf_node [] (rnode root) = true ->
  get_node (rnode root) p = Some x ->
  forall q,
    count_occ key_eq_dec (map r_target (suffixes_out q0 p x)) q
    = if is_prefix p q && has_key_at (rnode root) q then 1%nat else 0%nat.
Proof.
  intros Hw Hx q.
  pose proof (wf_node_get p [] _ _ Hw Hx) as Hwx. simpl in Hwx.
  pose proof (suffixes_out_targets q0 x p) as HP.
  rewrite (Permutation_count_occ key_eq_dec) in HP. rewrite HP.
  rewrite count_occ_NoDup
    by (apply NoDup_map_app; eapply NoDup_keys_below; eauto).
  assert (Hiff : In q (map (app p) (keys_below x))
                 <-> is_prefix p q && has_key_at (rnode root) q = true).
  { rewrite in_map_iff, andb_true_iff, is_prefix_true. split.
    - intros [s [<- Hs]]. split; [eauto|].
      rewrite has_key_at_app, Hx.
      apply (in_keys_below x p s Hwx). exact Hs.
    - intros [[s ->] Hk]. exists s. split; [reflexivity|].
      rewrite has_key_at_app, Hx in Hk.
      apply (in_keys_below x p s Hwx). exact Hk. }
  destruct (in_dec key_eq_dec q (map (app p) (keys_below x))) as [Hi|Hi],
    (is_prefix p q && has_key_at (rnode root) q); try reflexivity; exfalso.
  - apply Hiff in Hi. discriminate.
  - apply Hi. apply Hiff. reflexivity.
Qed.

(** X4. [trieiter_suffixes] returns NULL exactly when no node exists at
    the key; otherwise it leaves the store as it is, and calling
    [trieiter_next] until it returns NULL yields every stored key that
    starts with the given key exactly once and nothing else, each result
    with Hamming distance 0 and the node of the given key as its query,
    and the store is still unchanged. *)
Theorem suffixes_yield_keys_with_prefix root a k fuel :
  wf_store root = true ->
  (count_nodes (rnode root) < fuel)%nat ->
  match trieiter_suffixes root a k with
  | None => trie_has_node root k = false
  | Some (it, root1) =>
      root1 = root
      /\ trie_has_node root k = true
      /\ exists rs it',
           trieiter_drain fuel root it = Some (rs, root, it')
           /\ (forall q,
                 count_occ key_eq_dec (map r_target rs) q
                 = if is_prefix (cstr k) q && has_key_at (rnode root) q
                   then 1%nat else 0%nat)
           /\ (forall r, In r rs -> r_hd r = 0 /\ r_query r = cstr k)
  end.
Proof.
  intros Hwf Hfuel.
  pose proof (wf_store_parts _ Hwf) as [Hw _].
  unfold trieiter_suffixes, trie_has_node, trie_get_node.
  destruct (get_node (rnode root) (cstr k)) as [x|] eqn:Ex; [|reflexivity].
  cbn.
  set (it := trieiter_push_state
               (mkIter a [] 1 0 0 (to_int (strlen k)) false (state_id root)
                       E_SUCCESS [] suffixes_next) (cstr k) (cstr k) 0 0).
  split; [reflexivity|]. split; [reflexivity|].
  assert (Hinv : suffixes_inv root it).
  { unfold suffixes_inv. repeat split; auto.
    constructor; [simpl; rewrite Ex; discriminate|constructor]. }
  assert (Hsize : (states_size root it < fuel)%nat).
  { unfold states_size, stack_size, deref_size. simpl. rewrite Ex.
    pose proof (count_nodes_get _ _ _ Ex). lia. }
  destruct (drain_rule
              (fun r i => r = root /\ suffixes_inv root i)
              states_size suffixes_due (fun r _ => r = root)
              (suffixes_next_spec root) fuel root it)
    as [root' [it' [Hdrain ->]]]; auto.
  assert (Hdue : suffixes_due root it = suffixes_out (cstr k) (cstr k) x).
  { unfold suffixes_due, suffixes_state_out. simpl. rewrite Ex.
    apply app_nil_r. }
  rewrite Hdue in Hdrain.
  exists (suffixes_out (cstr k) (cstr k) x), it'.
  split; [exact Hdrain|]. split.
  - apply suffixes_out_count; auto.
  - intros r Hr. destruct (suffixes_out_fields _ _ _ _ Hr). auto.
Qed.

Lemma suffixes_yield_keys_with_prefix_witness :
  wf_store store_four_words = true
  /\ (count_nodes (rnode store_four_words) < 20)%nat
  /\ match trieiter_suffixes store_four_words 1 (bytes "a") with
     | None => trie_has_node store_four_words (bytes "a") = false
     | Some (it, root1) =>
         root1 = store_four_words
         /\ trie_has_node store_four_words (bytes "a") = true
         /\ exists rs it',
              trieiter_drain 20 store_four_words it
              = Some (rs, store_four_words, it')
              /\ (forall q,
                    count_occ key_eq_dec (map r_target rs) q
                    = if is_prefix (cstr (bytes "a")) q
                         && has_key_at (rnode store_four_words) q
                      then 1%nat else 0%nat)
              /\ (forall r, In r rs ->
                    r_hd r = 0 /\ r_query r = cstr (bytes "a"))
     end.
Proof.
  assert (H1 : wf_store store_four_words = true) by (vm_compute; reflexivity).
  assert (H2 : (count_nodes (rnode store_four_words) < 20)%nat)
    by (vm_compute; lia).
  split; [exact H1|]. split; [exact H2|].
  exact (suffixes_yield_keys_with_prefix store_four_words 1 (bytes "a") 20
           H1 H2).
Defined.

(* ------------------------------------------------------------------ *)
(** ** What a mutation does to the other keys *)

Lemma trie_get_item_at root k :
  trie_get_item root k = get_item_at (rnode root) (cstr k).
Proof. reflexivity. Qed.

Lemma get_item_at_nil n :
  get_item_at n [] = if has_item n then Some (item n) else None.
Proof. reflexivity. Qed.

Lemma get_item_at_cons n c q :
  get_item_at n (c :: q)
  = match chfind c (children n) with
    | Some x => get_item_at x q
    | None => None
    end.
Proof.
  unfold get_item_at. simpl. rewrite get_child_chfind.
  destruct (chfind c (children n)); reflexivity.
Qed.

Lemma has_key_at_get_item n q :
  has_key_at n q
  = match get_item_at n q with Some _ => true | None => false end.
Proof.
  unfold has_key_at, get_item_at.
  destruct (get_node n q) as [x|]; [|reflexivity].
  destruct (has_item x); reflexivity.
Qed.

Lemma get_item_at_leaf c q :
  get_item_at (trienode_new None NULL 0 [] c 0) q = None.
Proof. destruct q; reflexivity. Qed.

Lemma get_item_at_childless n q :
  children n = [] -> has_item n = false -> get_item_at n q = None.
Proof.
  intros Hc Hi. destruct q as [|c q].
  - rewrite get_item_at_nil, Hi. reflexivity.
  - rewrite get_item_at_cons, Hc. reflexivity.
Qed.

Lemma get_item_at_of_items n n' q :
  option_map item (get_node n' q) = option_map item (get_node n q) ->
  get_item_at n' q = get_item_at n q.
Proof.
  unfold get_item_at, has_item.
  destruct (get_node n' q), (get_node n q); simpl; intros H;
    inversion H; auto.
Qed.

Lemma set_node_get_item_at i k :
  key i <> None ->
  forall n q,
    get_item_at (set_node n k (set_item i)) q
    = if key_eq_dec q k then Some i else get_item_at n q.
Proof.
  intros Hi. induction k as [|c r IH]; intros n q.
  - simpl. destruct q as [|c' q'].
    + rewrite get_item_at_nil. unfold has_item. simpl.
      destruct (key i); [|congruence].
      destruct (key_eq_dec [] []); [reflexivity|congruence].
    + destruct (key_eq_dec (c' :: q') []); [discriminate|].
      rewrite !get_item_at_cons. reflexivity.
  - cbn [set_node]. destruct q as [|c' q'].
    + destruct (key_eq_dec [] (c :: r)); [discriminate|].
      destruct (chfind c (children n)); reflexivity.
    + rewrite (get_item_at_cons n).
      destruct (chfind c (children n)) as [x|] eqn:E.
      * rewrite get_item_at_cons. simpl.
        destruct (Byte.byte_eq_dec c c') as [<-|Hne].
        -- rewrite chfind_update_child_same, E.
           ++ simpl. rewrite IH.
              destruct (key_eq_dec q' r), (key_eq_dec (c :: q') (c :: r));
                congruence.
           ++ intros y Hy. rewrite set_node_ch by reflexivity.
              eapply chfind_ch; eauto.
        -- rewrite chfind_update_child_other; auto.
           ++ destruct (key_eq_dec (c' :: q') (c :: r)); congruence.
           ++ intros y Hy. rewrite set_node_ch by reflexivity.
              eapply chfind_ch; eauto.
      * rewrite get_item_at_cons. simpl. unfold chfind at 1. simpl.
        rewrite set_node_ch by reflexivity. simpl.
        destruct (Byte.eqb c c') eqn:Ec.
        -- apply byte_eqb_eq in Ec. subst c'. rewrite E, IH.
           rewrite get_item_at_leaf.
           destruct (key_eq_dec q' r), (key_eq_dec (c :: q') (c :: r));
             congruence.
        -- apply byte_eqb_neq in Ec. fold (chfind c' (children n)).
           destruct (key_eq_dec (c' :: q') (c :: r)); congruence.
Qed.

(** X5. A [set] of one key returns 0, makes a lookup of that key return
    the new item, and changes the result of [trie_get_item] for no other
    key, in any store and with any handler. *)
Theorem trie_set_item_changes_one_key root k v d k' :
  fst (fst (trie_set_item root k v d)) = 0
  /\ trie_get_item (snd (fst (trie_set_item root k v d))) k'
     = if key_eq_dec (cstr k') (cstr k)
       then Some (mkItem (Some (cstr k)) v
                         (to_size_t (Z.of_nat (length (cstr k)))))
       else trie_get_item root k'.
Proof.
  split; [apply trie_set_item_fields|].
  rewrite !trie_get_item_at, trie_set_item_rnode.
  apply set_node_get_item_at. discriminate.
Qed.

(* ------------------------------------------------------------------ *)
(** ** The nodes that a deletion unlinks *)

Lemma get_item_at_update_node f p :
  forall n q,
    (forall x, get_node n p = Some x ->
       ch (f x) = ch x
       /\ forall q', get_item_at (f x) q' = get_item_at x q') ->
    get_item_at (update_node n p f) q = get_item_at n q.
Proof.
  induction p as [|c r IH]; intros n q H.
  - simpl. apply H. reflexivity.
  - cbn [update_node]. destruct q as [|c' q']; [reflexivity|].
    rewrite !get_item_at_cons. cbn [children].
    assert (Hch : forall x, chfind c (children n) = Some x ->
                            ch (update_node x r f) = c).
    { intros x Hx. rewrite ch_update_node; [eapply chfind_ch; eauto|].
      intros ->. apply H. simpl. rewrite get_child_chfind, Hx. reflexivity. }
    destruct (Byte.byte_eq_dec c c') as [<-|Hne].
    + rewrite chfind_update_child_same by exact Hch.
      destruct (chfind c (children n)) as [x|] eqn:E; simpl; auto.
      apply IH. intros y Hy. apply H. simpl.
      rewrite get_child_chfind, E. exact Hy.
    + rewrite chfind_update_child_other; auto.
Qed.

Lemma get_item_at_clear i k n x :
  key i = None ->
  get_node n k = Some x ->
  forall q,
    get_item_at (update_node n k (set_item i)) q
    = if key_eq_dec q k then None else get_item_at n q.
Proof.
  intros Hi Hx q. destruct (key_eq_dec q k) as [->|Hne].
  - unfold get_item_at. rewrite get_node_update_same, Hx by reflexivity.
    simpl. unfold has_item. simpl. rewrite Hi. reflexivity.
  - apply get_item_at_of_items.
    apply get_node_update_other_item; auto.
Qed.

Lemma remove_child_list_events cs c d n :
  chfind c cs = Some n -> children n = [] ->
  snd (remove_child_list cs c d) = trienode_free n d.
Proof.
  unfold chfind. induction cs as [|y cs IH]; simpl; intros Hf Hleaf.
  - discriminate.
  - destruct (Byte.eqb (ch y) c) eqn:E.
    + inversion Hf; subst y. rewrite Hleaf. reflexivity.
    + specialize (IH Hf Hleaf).
      destruct (remove_child_list cs c d) as [cs' ev]. exact IH.
Qed.

Lemma remove_child_events y c d n :
  chfind c (children y) = Some n -> children n = [] ->
  snd (trienode_remove_child y c d) = snd (trieitem_free (item n) d).
Proof.
  intros Hf Hleaf. unfold trienode_remove_child.
  pose proof (remove_child_list_events _ _ d _ Hf Hleaf) as H.
  destruct (remove_child_list (children y) c d) as [cs' ev]. exact H.
Qed.

(** One round of the upward loop: the lookups and every additive
    measure of the tree, after the childless and keyless node [n] has
    been unlinked from its parent [y]. *)
Lemma prune_step_frame root pp c n y d :
  wf_node [] (rnode root) = true ->
  get_node (rnode root) pp = Some y ->
  chfind c (children y) = Some n ->
  children n = [] -> has_item n = false ->
  let rn' :=
    update_node (rnode root) pp
      (fun x => fst (trienode_remove_child x c d)) in
  (forall q, get_item_at rn' q = get_item_at (rnode root) q)
  /\ (forall (g : TrieNode -> nat) (w : TrieItem -> nat),
        (forall m, g m = (w (item m) + list_sum (map g (children m)))%nat) ->
        (g rn' + w (item n) = g (rnode root))%nat).
Proof.
  intros Hw Hy Hc Hleaf Hni rn'.
  pose proof (wf_node_get pp [] _ _ Hw Hy) as Hwy. simpl in Hwy.
  destruct (wf_node_parts _ _ Hwy) as [_ [Hnd _]].
  destruct (remove_child_list_found _ _ d _ Hc Hleaf Hnd)
    as [_ [_ [R3 R4]]].
  destruct (remove_child_fields y c d) as [F1 [F2 F3]].
  split.
  - intros q. apply get_item_at_update_node.
    intros x Hx. rewrite Hy in Hx. inversion Hx; subst x.
    split; [apply remove_child_ch|].
    intros [|c' q'].
    + rewrite !get_item_at_nil. unfold has_item. rewrite F1. reflexivity.
    + rewrite !get_item_at_cons, F3, R4.
      destruct (Byte.eqb c c') eqn:E; [|reflexivity].
      apply byte_eqb_eq in E. subst c'. rewrite Hc.
      symmetry. apply get_item_at_childless; auto.
  - intros g w Hg.
    pose proof (measure_update_node g w Hg pp
                  (fun x => fst (trienode_remove_child x c d)) _ _ Hy) as Hm.
    cbv beta in Hm. fold rn' in Hm.
    rewrite (Hg (fst (trienode_remove_child y c d))), (Hg y), F1, F3 in Hm.
    specialize (R3 g). rewrite (Hg n), Hleaf in R3. simpl in R3, Hm. lia.
Qed.

Lemma to_size_t_sub_idemp X a :
  to_size_t (to_size_t X - a) = to_size_t (X - a).
Proof. unfold to_size_t. apply Zminus_mod_idemp_l. Qed.

(** The upward loop of [trie_del_item] as a whole: the items of the
    nodes it unlinked, in the order they were unlinked. *)
Lemma del_prune_pruned d rp :
  forall root root' ev,
    prune_pre root (rev rp) ->
    del_prune rp root d = Some (root', ev) ->
    exists pruned : list TrieItem,
      Forall (fun i => key i = None) pruned
      /\ ev = flat_map (fun i => snd (trieitem_free i d)) pruned
      /\ (forall X, num_nodes root = to_size_t X ->
            num_nodes root' = to_size_t (X - Z.of_nat (length pruned)))
      /\ (forall Y, memsize root = to_size_t Y ->
            memsize root'
            = to_size_t (Y - sizeof_TrieNode * Z.of_nat (length pruned)))
      /\ (forall q, get_item_at (rnode root') q = get_item_at (rnode root) q)
      /\ (forall (g : TrieNode -> nat) (w : TrieItem -> nat),
            (forall m,
               g m = (w (item m) + list_sum (map g (children m)))%nat) ->
            (g (rnode root') + list_sum (map w pruned)
             = g (rnode root))%nat).
Proof.
  assert (Hstop : forall root : TrieRoot,
            exists pruned : list TrieItem,
              Forall (fun i => key i = None) pruned
              /\ @nil event = flat_map (fun i => snd (trieitem_free i d)) pruned
              /\ (forall X, num_nodes root = to_size_t X ->
                    num_nodes root = to_size_t (X - Z.of_nat (length pruned)))
              /\ (forall Y, memsize root = to_size_t Y ->
                    memsize root
                    = to_size_t (Y - sizeof_TrieNode
                                     * Z.of_nat (length pruned)))
              /\ (forall q, get_item_at (rnode root) q
                            = get_item_at (rnode root) q)
              /\ (forall (g : TrieNode -> nat) (w : TrieItem -> nat),
                    (forall m,
                       g m = (w (item m)
                              + list_sum (map g (children m)))%nat) ->
                    (g (rnode root) + list_sum (map w pruned)
                     = g (rnode root))%nat)).
  { intros root. exists []. simpl.
    split; [constructor|]. split; [reflexivity|].
    split; [intros X ->; f_equal; lia|].
    split; [intros Y ->; f_equal; lia|].
    split; [reflexivity|]. intros g w _. lia. }
  induction rp as [|c rp IH]; intros root root' ev Hpre Hrun.
  - simpl in Hrun. inversion Hrun; subst. apply Hstop.
  - cbn [del_prune] in Hrun.
    destruct (get_node (rnode root) (rev (c :: rp))) as [n|] eqn:En;
      [|discriminate].
    destruct (children n) as [|z zs] eqn:Ecs.
    2:{ inversion Hrun; subst. apply Hstop. }
    destruct (key (item n)) as [kn|] eqn:Ekey.
    { inversion Hrun; subst. apply Hstop. }
    simpl rev in En, Hpre.
    rewrite get_node_app in En.
    destruct (get_node (rnode root) (rev rp)) as [y|] eqn:Ey;
      [|discriminate].
    simpl in En. rewrite get_child_chfind in En.
    destruct (chfind c (children y)) as [n'|] eqn:Ec; [|discriminate].
    inversion En; subst n'.
    rewrite (chfind_ch _ _ _ Ec) in Hrun.
    assert (Hni : has_item n = false) by (unfold has_item; rewrite Ekey; auto).
    pose proof (prune_step_pre root (rev rp) c n y d Hpre Ey Ec Ecs Hni)
      as [S1 [S2 [S3 _]]].
    destruct Hpre as [Hw _].
    pose proof (prune_step_frame root (rev rp) c n y d Hw Ey Ec Ecs Hni)
      as [T1 T2].
    rewrite (remove_child_events y c d n Ec Ecs) in Hrun.
    match type of Hrun with
    | match del_prune rp ?r d with _ => _ end = _ =>
        destruct (del_prune rp r d) as [[r2 ev2]|] eqn:E; [|discriminate];
        specialize (IH r r2 ev2)
    end.
    inversion Hrun; subst root' ev. cbn [rnode num_nodes memsize] in IH.
    destruct IH as [pruned [I1 [I2 [I3 [I4 [I5 I6]]]]]];
      [repeat split; auto | exact E |].
    exists (item n :: pruned). cbn [flat_map map list_sum length rnode].
    rewrite Nat2Z.inj_succ.
    split; [constructor; auto|]. split; [rewrite I2; reflexivity|].
    split.
    { intros X HX. rewrite (I3 (X - 1)).
      - f_equal. lia.
      - cbn [num_nodes]. rewrite HX. apply to_size_t_pred. }
    split.
    { intros Y HY. rewrite (I4 (Y - sizeof_TrieNode)).
      - f_equal. unfold sizeof_TrieNode. lia.
      - cbn [memsize]. rewrite HY. apply to_size_t_sub_idemp. }
    split; [intros q; rewrite I5; apply T1|].
    intros g w Hg. specialize (I6 g w Hg). specialize (T2 g w Hg).
    cbn [rnode] in I6.
    change (list_sum (w (item n) :: map w pruned))
      with (w (item n) + list_sum (map w pruned))%nat.
    lia.
Qed.

(** The state in which [trie_del_item] enters its upward loop. *)
Lemma trie_del_item_prune_pre root k n i nn ni ms sid di :
  wf_node [] (rnode root) = true ->
  no_dead (rnode root) = true ->
  get_node (rnode root) k = Some n ->
  key i = None ->
  prune_pre (mkRoot (update_node (rnode root) k (set_item i))
                    nn ni ms sid di) k.
Proof.
  intros Hw Hnd En Hi.
  unfold prune_pre. cbn [rnode]. split; [|split].
  - apply wf_node_update_node; auto. intros x Hx Hwx. split; auto.
    rewrite wf_node_eq in *. simpl. unfold item_ok at 1. simpl.
    rewrite Hi. simpl.
    rewrite !andb_true_iff in Hwx. rewrite !andb_true_iff. tauto.
  - rewrite get_node_update_same, En by reflexivity. discriminate.
  - rewrite update_node_compose by reflexivity.
    apply (no_dead_update_node_mono (fun x => x)); [|
      rewrite update_node_id; exact Hnd].
    intros y _. split; auto. rewrite !no_dead_eq. auto.
Qed.

(** What [trie_del_item] does to the lookups. *)
Lemma trie_del_item_get_item_at root k d rc root' ev :
  wf_store root = true ->
  trie_del_item root k d = Some (rc, root', ev) ->
  forall q,
    get_item_at (rnode root') q
    = if key_eq_dec q (cstr k) then None else get_item_at (rnode root) q.
Proof.
  intros Hwf Hdel.
  destruct (trie_has_key root k) eqn:Hk.
  2:{ rewrite (trie_del_item_absent root k d Hk) in Hdel.
      inversion Hdel; subst.
      intros q. destruct (key_eq_dec q (cstr k)) as [E|]; auto.
      rewrite trie_has_key_has_key_at, has_key_at_get_item in Hk.
      rewrite E.
      destruct (get_item_at (rnode root') (cstr k)); [discriminate|auto]. }
  pose proof (wf_store_parts _ Hwf) as [Hw [Hnd _]].
  unfold trie_del_item in Hdel.
  rewrite trie_has_key_has_key_at in Hk. unfold has_key_at in Hk.
  destruct (get_node (rnode root) (cstr k)) as [n|] eqn:En; [|discriminate].
  unfold has_item in Hk.
  destruct (key (item n)) as [kn|] eqn:Ekey; [|discriminate].
  pose proof (trieitem_free_key (item n) d) as Hfree.
  destruct (trieitem_free (item n) d) as [i' ev1]. simpl in Hfree.
  match type of Hdel with
  | match del_prune ?rp ?r d with _ => _ end = _ =>
      destruct (del_prune rp r d) as [[r2 ev2]|] eqn:E; [|discriminate];
      pose proof (del_prune_pruned d rp r r2 ev2) as K
  end.
  inversion Hdel; subst rc root' ev. clear Hdel.
  rewrite rev_involutive in K.
  destruct K as [pruned [_ [_ [_ [_ [K5 _]]]]]]; auto.
  { eapply trie_del_item_prune_pre; eauto. }
  intros q. cbn [rnode]. rewrite K5. cbn [rnode].
  apply (get_item_at_clear i' (cstr k) (rnode root) n); auto.
Qed.

Lemma remove_child_no_handler y c :
  snd (trienode_remove_child y c None) = [].
Proof.
  unfold trienode_remove_child.
  assert (H : forall cs, snd (remove_child_list cs c None) = []).
  { induction cs as [|x cs IH]; simpl; [reflexivity|].
    destruct (Byte.eqb (ch x) c).
    - destruct (children x); reflexivity.
    - destruct (remove_child_list cs c None). exact IH. }
  specialize (H (children y)).
  destruct (remove_child_list (children y) c None). exact H.
Qed.

Lemma del_prune_no_handler rp :
  forall root root' ev,
    del_prune rp root None = Some (root', ev) -> ev = [].
Proof.
  induction rp as [|c rp IH]; intros root root' ev Hrun.
  - simpl in Hrun. inversion Hrun. reflexivity.
  - cbn [del_prune] in Hrun.
    destruct (get_node (rnode root) (rev (c :: rp))) as [n|];
      [|discriminate].
    destruct (children n); [|inversion Hrun; reflexivity].
    destruct (key (item n)); [inversion Hrun; reflexivity|].
    destruct (get_node (rnode root) (rev rp)) as [y|]; [|discriminate].
    rewrite remove_child_no_handler in Hrun.
    match type of Hrun with
    | match del_prune rp ?r None with _ => _ end = _ =>
        destruct (del_prune rp r None) as [[r2 ev2]|] eqn:E; [|discriminate]
    end.
    inversion Hrun; subst. simpl. eapply IH; eauto.
Qed.

Lemma trie_del_item_no_handler root k rc root' ev :
  trie_del_item root k None = Some (rc, root', ev) -> ev = [].
Proof.
  unfold trie_del_item. intros Hdel.
  destruct (get_node (rnode root) (cstr k)) as [n|];
    [|inversion Hdel; reflexivity].
  destruct (key (item n)); [|inversion Hdel; reflexivity].
  cbn [trieitem_free] in Hdel.
  match type of Hdel with
  | match del_prune ?rp ?r None with _ => _ end = _ =>
      destruct (del_prune rp r None) as [[r2 ev2]|] eqn:E; [|discriminate]
  end.
  inversion Hdel; subst. simpl. eapply del_prune_no_handler; eauto.
Qed.

(** X6. [trie_del_item] in a well-formed store: it returns 0 when the
    key is stored and -1 otherwise; afterwards the key is not stored,
    [trie_get_item] gives for every other key the item it gave before,
    and the store is again well formed.  Without a handler it calls no
    deallocator, and when the key is not stored it changes nothing. *)
Theorem trie_del_item_removes_one_key root k d rc root' ev :
  wf_store root = true ->
  trie_del_item root k d = Some (rc, root', ev) ->
  rc = (if trie_has_key root k then 0 else -1)
  /\ wf_store root' = true
  /\ (forall k',
        trie_get_item root' k'
        = if key_eq_dec (cstr k') (cstr k) then None
          else trie_get_item root k')
  /\ (d = None -> ev = [])
  /\ (trie_has_key root k = false -> root' = root /\ ev = []).
Proof.
  intros Hwf Hdel.
  destruct (trie_del_item_keeps root k d rc root' ev Hwf Hdel) as [Hwf' _].
  pose proof (trie_del_item_get_item_at root k d rc root' ev Hwf Hdel) as Hg.
  split; [|split; [exact Hwf'|split; [|split]]].
  - destruct (trie_has_key root k) eqn:Hk.
    + destruct (trie_del_item_present root k d Hk) as [r [e [H _]]].
      congruence.
    + rewrite (trie_del_item_absent root k d Hk) in Hdel. congruence.
  - intros k'. rewrite !trie_get_item_at. apply Hg.
  - intros ->. eapply trie_del_item_no_handler; eauto.
  - intros Hk. rewrite (trie_del_item_absent root k d Hk) in Hdel.
    inversion Hdel; subst. split; reflexivity.
Qed.

Lemma trie_del_item_removes_one_key_witness :
  wf_store store_aa_ab = true
  /\ trie_del_item store_aa_ab (bytes "aa") None = Some (0, store_ab_again, [])
  /\ 0 = (if trie_has_key store_aa_ab (bytes "aa") then 0 else -1)
  /\ wf_store store_ab_again = true
  /\ (forall k',
        trie_get_item store_ab_again k'
        = if key_eq_dec (cstr k') (cstr (bytes "aa")) then None
          else trie_get_item store_aa_ab k').
Proof.
  assert (H1 : wf_store store_aa_ab = true) by (vm_compute; reflexivity).
  assert (H2 : trie_del_item store_aa_ab (bytes "aa") None
               = Some (0, store_ab_again, []))
    by (vm_compute; reflexivity).
  split; [exact H1|]. split; [exact H2|].
  destruct (trie_del_item_removes_one_key _ _ _ _ _ _ H1 H2)
    as [A [B [C _]]].
  split; [exact A|]. split; [exact B|exact C].
Defined.

(* ------------------------------------------------------------------ *)
(** ** Additive measures of the tree *)

(** Equations between [size_t] values: every [mod] is replaced by its
    defining equation. *)
Ltac mod64 :=
  unfold to_size_t in *;
  change (2 ^ 64) with 18446744073709551616 in *;
  Z.to_euclidean_division_equations; lia.

Lemma fresh_nodes_leaf c k :
  fresh_nodes (trienode_new None NULL 0 [] c 0) k = length k.
Proof. destruct k; reflexivity. Qed.

Lemma fresh_nodes_found k :
  forall n x, get_node n k = Some x -> fresh_nodes n k = 0%nat.
Proof.
  induction k as [|c r IH]; intros n x H; [reflexivity|].
  simpl in *. rewrite get_child_chfind in H.
  destruct (chfind c (children n)) as [y|]; [|discriminate]. eauto.
Qed.

Lemma end_node_get n k x : get_node n k = Some x -> end_node n k = x.
Proof. unfold end_node. intros ->. reflexivity. Qed.

Section Measures.

Variable g : TrieNode -> nat.
Variable w : TrieItem -> nat.
Hypothesis g_eq :
  forall n, g n = (w (item n) + list_sum (map g (children n)))%nat.

(** The walk of [trie_set_item]: what it adds to the measure are the
    nodes it creates and the change [f] makes to the node it ends at. *)
Lemma measure_set_node k f :
  forall n,
    (g (set_node n k f) + g (end_node n k)
     = g n + g (f (end_node n k))
       + fresh_nodes n k * w (mkItem None NULL 0))%nat.
Proof.
  induction k as [|c r IH]; intros n.
  - simpl. rewrite end_node_nil. lia.
  - cbn [set_node fresh_nodes].
    destruct (chfind c (children n)) as [x|] eqn:E.
    + rewrite (end_node_found n c r x)
        by (rewrite get_child_chfind; exact E).
      rewrite (g_eq (Node _ _ _ _)), (g_eq n). cbn [item children].
      pose proof (list_sum_update_child_gen g c
                    (fun _ => set_node x r f) _ _ E) as Hu.
      cbv beta in Hu. specialize (IH x). lia.
    + rewrite (end_node_fresh n c r)
        by (rewrite get_child_chfind; exact E).
      rewrite (g_eq (Node _ _ _ _)), (g_eq n). cbn [item children map].
      specialize (IH (trienode_new None NULL 0 [] c 0)).
      rewrite fresh_nodes_leaf in IH.
      rewrite (g_eq (trienode_new None NULL 0 [] c 0)) in IH.
      cbn [trienode_new item children map] in IH.
      change (list_sum (?a :: ?l)) with (a + list_sum l)%nat.
      change (list_sum []) with 0%nat in IH. lia.
Qed.

Lemma measure_get p :
  forall n x, get_node n p = Some x -> (g x <= g n)%nat.
Proof.
  induction p as [|c p IH]; simpl; intros n x H.
  - inversion H; subst. lia.
  - rewrite get_child_chfind in H.
    destruct (chfind c (children n)) as [y|] eqn:E; [|discriminate].
    specialize (IH _ _ H). apply chfind_in in E.
    pose proof (in_list_sum_le g _ _ E). rewrite (g_eq n). lia.
Qed.

End Measures.

Lemma key_bytes_measure n :
  key_bytes n
  = ((fun i => match key i with Some k => S (length k) | None => 0 end)%nat
       (item n)
     + list_sum (map key_bytes (children n)))%nat.
Proof. destruct n; reflexivity. Qed.

Lemma count_value_measure v n :
  count_value v n
  = ((fun i => if (value i =? v)%Z then 1 else 0)%nat (item n)
     + list_sum (map (count_value v) (children n)))%nat.
Proof. destruct n; reflexivity. Qed.

Lemma count_stale_measure n :
  count_stale n
  = ((fun i => match key i with
               | Some _ => 0
               | None => if (value i =? NULL)%Z then 0 else 1
               end)%nat (item n)
     + list_sum (map count_stale (children n)))%nat.
Proof. destruct n; reflexivity. Qed.

(** The counters that the walk of [trie_set_item] keeps. *)
Lemma set_walk_counters {A : Type} (fin : TrieNode -> TrieNode * A) k :
  forall n nn ms X Y,
    nn = to_size_t X -> ms = to_size_t Y ->
    snd (fst (fst (set_walk n k nn ms fin)))
    = to_size_t (X + Z.of_nat (fresh_nodes n k))
    /\ snd (fst (set_walk n k nn ms fin))
       = to_size_t (Y + sizeof_TrieNode * Z.of_nat (fresh_nodes n k)).
Proof.
  induction k as [|c r IH]; intros n nn ms X Y HX HY.
  - simpl. destruct (fin n). simpl. subst. split; f_equal; lia.
  - cbn [set_walk fresh_nodes]. rewrite get_child_chfind.
    destruct (chfind c (children n)) as [x|] eqn:E.
    + specialize (IH x nn ms X Y HX HY).
      destruct (set_walk x r nn ms fin) as [[[x' nn'] ms'] a]. exact IH.
    + specialize (IH (trienode_new None NULL 0 [] c 0)
                     (to_size_t (nn + 1)) (to_size_t (ms + sizeof_TrieNode))
                     (X + 1) (Y + sizeof_TrieNode)).
      rewrite fresh_nodes_leaf in IH.
      destruct (set_walk (trienode_new None NULL 0 [] c 0) r
                         (to_size_t (nn + 1))
                         (to_size_t (ms + sizeof_TrieNode)) fin)
        as [[[x' nn'] ms'] a].
      cbn [fst snd] in *.
      destruct IH as [I1 I2].
      { subst nn. mod64. }
      { subst ms. unfold sizeof_TrieNode. mod64. }
      rewrite I1, I2. rewrite Nat2Z.inj_succ.
      split; f_equal; unfold sizeof_TrieNode; lia.
Qed.

Lemma list_sum_map_const {A : Type} (l : list A) (c : nat) :
  list_sum (map (fun _ => c) l) = (length l * c)%nat.
Proof. induction l as [|x l IH]; simpl; [reflexivity|]. rewrite IH. lia. Qed.

Lemma list_sum_map_zero {A : Type} (w : A -> nat) (l : list A) :
  Forall (fun x => w x = 0%nat) l -> list_sum (map w l) = 0%nat.
Proof. induction 1 as [|x l Hx Hl IH]; simpl; [reflexivity|]. lia. Qed.

(** The parts of a successful [trie_del_item]: the node [n] of the key
    gives up its item, then the upward loop unlinks the nodes whose
    items are [pruned]. *)
Lemma trie_del_item_parts root k d rc root' ev :
  wf_store root = true ->
  trie_has_key root k = true ->
  trie_del_item root k d = Some (rc, root', ev) ->
  exists n pruned,
    get_node (rnode root) (cstr k) = Some n
    /\ key (item n) = Some (cstr k)
    /\ keylen (item n) = to_size_t (Z.of_nat (length (cstr k)))
    /\ Forall (fun i => key i = None) pruned
    /\ ev = snd (trieitem_free (item n) d)
            ++ flat_map (fun i => snd (trieitem_free i d)) pruned
    /\ memsize root'
       = to_size_t (memsize root
                    - to_size_t (sizeof_TRIECHAR * (keylen (item n) + 1))
                    - sizeof_TrieNode * Z.of_nat (length pruned))
    /\ (forall (g : TrieNode -> nat) (w : TrieItem -> nat),
          (forall m,
             g m = (w (item m) + list_sum (map g (children m)))%nat) ->
          (g (rnode root') + w (item n) + list_sum (map w pruned)
           = g (rnode root) + w (fst (trieitem_free (item n) d)))%nat).
Proof.
  intros Hwf Hk Hdel.
  pose proof (wf_store_parts _ Hwf) as [Hw [Hnd _]].
  unfold trie_del_item in Hdel.
  rewrite trie_has_key_has_key_at in Hk. unfold has_key_at in Hk.
  destruct (get_node (rnode root) (cstr k)) as [n|] eqn:En; [|discriminate].
  unfold has_item in Hk.
  destruct (key (item n)) as [kn|] eqn:Ekey; [|discriminate].
  destruct (wf_key_is_path root _ _ _ Hw En Ekey) as [-> Hlen].
  pose proof (trieitem_free_key (item n) d) as Hfree.
  destruct (trieitem_free (item n) d) as [i' ev1] eqn:Ef.
  cbn [fst] in Hfree.
  match type of Hdel with
  | match del_prune ?rp ?r d with _ => _ end = _ =>
      destruct (del_prune rp r d) as [[r2 ev2]|] eqn:E; [|discriminate];
      pose proof (del_prune_pruned d rp r r2 ev2) as K
  end.
  inversion Hdel; subst rc root' ev. clear Hdel.
  rewrite rev_involutive in K.
  destruct K as [pruned [K1 [K2 [_ [K4 [_ K6]]]]]]; auto.
  { eapply trie_del_item_prune_pre; eauto. }
  exists n, pruned. rewrite Ef. cbn [rnode memsize fst snd] in *.
  split; [reflexivity|]. split; [exact Ekey|]. split; [exact Hlen|].
  split; [exact K1|]. split; [rewrite K2; reflexivity|]. split.
  - rewrite (K4 (memsize root
                 - to_size_t (sizeof_TRIECHAR * (keylen (item n) + 1))
                 - 0)).
    + f_equal. lia.
    + f_equal. lia.
  - intros g w Hg. specialize (K6 g w Hg).
    pose proof (measure_update_node g w Hg (cstr k) (set_item i') _ _ En)
      as Hm.
    rewrite (Hg (set_item i' n)), (Hg n) in Hm.
    cbn [set_item item children] in Hm. lia.
Qed.

Lemma count_nodes_set_item i x : count_nodes (set_item i x) = count_nodes x.
Proof. destruct x; reflexivity. Qed.

(** *** The memory counter *)

Lemma trie_set_item_memsize root k v d :
  wf_store root = true ->
  memsize root = to_size_t (store_bytes (rnode root)) ->
  memsize (snd (fst (trie_set_item root k v d)))
  = to_size_t (store_bytes (rnode (snd (fst (trie_set_item root k v d))))).
Proof.
  intros Hwf Hmem.
  pose proof (wf_store_parts _ Hwf) as [Hw _].
  destruct (trie_set_item_fields root k v d)
    as [_ [_ [_ [_ [_ [_ [_ Hm]]]]]]].
  rewrite Hm, trie_set_item_rnode. clear Hm.
  destruct (set_walk_counters (set_final (cstr k) v d) (cstr k) (rnode root)
              (num_nodes root) (memsize root) (num_nodes root)
              (store_bytes (rnode root))) as [_ Hms]; [| exact Hmem |].
  { symmetry. apply to_size_t_small.
    destruct (wf_store_parts _ Hwf) as [_ [_ [-> _]]].
    apply to_size_t_range. }
  rewrite Hms. clear Hms.
  set (new := mkItem (Some (cstr k)) v
                     (to_size_t (Z.of_nat (length (cstr k))))).
  set (e := end_node (rnode root) (cstr k)).
  pose proof (measure_set_node count_nodes _ count_nodes_measure (cstr k)
                (set_item new) (rnode root)) as Hc.
  pose proof (measure_set_node key_bytes _ key_bytes_measure (cstr k)
                (set_item new) (rnode root)) as Hb.
  fold e in Hc, Hb. rewrite count_nodes_set_item in Hc.
  rewrite (key_bytes_measure (set_item new e)), (key_bytes_measure e) in Hb.
  cbn [set_item item children key new] in Hb. cbv beta in Hb, Hc.
  cbn [key] in Hb.
  unfold store_bytes, sizeof_TRIECHAR, sizeof_TrieNode, sizeof_TrieRoot.
  destruct (has_item e) eqn:He.
  - assert (Hx : get_node (rnode root) (cstr k) = Some e).
    { unfold e, end_node in *.
      destruct (get_node (rnode root) (cstr k)); [reflexivity|].
      discriminate. }
    rewrite (fresh_nodes_found _ _ _ Hx) in *.
    unfold has_item in He.
    destruct (key (item e)) as [k0|] eqn:Ek; [|discriminate].
    destruct (wf_key_is_path root _ _ _ Hw Hx Ek) as [-> Hlen].
    rewrite Hlen.
    assert (Hc' : count_nodes (set_node (rnode root) (cstr k) (set_item new))
                  = count_nodes (rnode root)) by lia.
    assert (Hb' : key_bytes (set_node (rnode root) (cstr k) (set_item new))
                  = key_bytes (rnode root)) by lia.
    rewrite Hc', Hb'. mod64.
  - unfold has_item in He.
    destruct (key (item e)) as [k0|] eqn:Ek; [discriminate|].
    assert (Hc' : Z.of_nat (count_nodes (set_node (rnode root) (cstr k)
                                                  (set_item new)))
                  = Z.of_nat (count_nodes (rnode root))
                    + Z.of_nat (fresh_nodes (rnode root) (cstr k))) by lia.
    assert (Hb' : Z.of_nat (key_bytes (set_node (rnode root) (cstr k)
                                                (set_item new)))
                  = Z.of_nat (key_bytes (rnode root))
                    + Z.of_nat (length (cstr k)) + 1) by lia.
    rewrite Hc', Hb'. mod64.
Qed.

Lemma trie_del_item_memsize root k d rc root' ev :
  wf_store root = true ->
  memsize root = to_size_t (store_bytes (rnode root)) ->
  trie_del_item root k d = Some (rc, root', ev) ->
  memsize root' = to_size_t (store_bytes (rnode root')).
Proof.
  intros Hwf Hmem Hdel.
  destruct (trie_has_key root k) eqn:Hk.
  2:{ rewrite (trie_del_item_absent root k d Hk) in Hdel.
      inversion Hdel; subst. exact Hmem. }
  destruct (trie_del_item_parts root k d rc root' ev Hwf Hk Hdel)
    as [n [pruned [En [Ekey [Hlen [Hp [_ [Hm Hg]]]]]]]].
  pose proof (Hg count_nodes _ count_nodes_measure) as Hc.
  pose proof (Hg key_bytes _ key_bytes_measure) as Hb.
  cbv beta in Hc, Hb.
  rewrite list_sum_map_const in Hc.
  rewrite list_sum_map_zero in Hb
    by (eapply Forall_impl; [|exact Hp]; intros i Hi; simpl in Hi;
        rewrite Hi; reflexivity).
  rewrite (trieitem_free_key (item n) d), Ekey in Hb.
  rewrite Hm, Hmem, Hlen.
  unfold store_bytes, sizeof_TRIECHAR, sizeof_TrieNode, sizeof_TrieRoot.
  assert (Hc' : Z.of_nat (count_nodes (rnode root))
                = Z.of_nat (count_nodes (rnode root'))
                  + Z.of_nat (length pruned)) by lia.
  assert (Hb' : Z.of_nat (key_bytes (rnode root))
                = Z.of_nat (key_bytes (rnode root'))
                  + Z.of_nat (length (cstr k)) + 1) by lia.
  rewrite Hc', Hb'. mod64.
Qed.

Lemma apply_mutation_wf root m rc root' ev :
  wf_store root = true ->
  apply_mutation root m = Some (rc, root', ev) ->
  wf_store root' = true.
Proof.
  intros Hwf H. destruct m as [k v d|k d]; simpl in H.
  - injection H as H.
    replace root' with (snd (fst (trie_set_item root k v d)))
      by (rewrite H; reflexivity).
    apply trie_set_item_wf. exact Hwf.
  - eapply trie_del_item_keeps; eauto.
Qed.

Lemma apply_mutation_memsize root m rc root' ev :
  wf_store root = true ->
  memsize root = to_size_t (store_bytes (rnode root)) ->
  apply_mutation root m = Some (rc, root', ev) ->
  memsize root' = to_size_t (store_bytes (rnode root')).
Proof.
  intros Hwf Hmem H. destruct m as [k v d|k d]; simpl in H.
  - injection H as H.
    replace root' with (snd (fst (trie_set_item root k v d)))
      by (rewrite H; reflexivity).
    apply (trie_set_item_memsize root k v d Hwf Hmem).
  - eapply trie_del_item_memsize; eauto.
Qed.

Lemma run_mutations_memsize ms :
  forall root root',
    wf_store root = true ->
    memsize root = to_size_t (store_bytes (rnode root)) ->
    run_mutations root ms = Some root' ->
    memsize root' = to_size_t (store_bytes (rnode root')).
Proof.
  induction ms as [|m ms IH]; intros root root' Hwf Hmem Hrun.
  - simpl in Hrun. inversion Hrun; subst. exact Hmem.
  - simpl in Hrun.
    destruct (apply_mutation root m) as [[[rc r1] ev]|] eqn:E;
      [|discriminate].
    apply (IH r1 root'); auto.
    + eapply apply_mutation_wf; eauto.
    + eapply apply_mutation_memsize; eauto.
Qed.

(** The key buffers of a well-formed tree are those of its keys. *)
Lemma key_bytes_keys_below n :
  forall p,
    wf_node p n = true ->
    key_bytes n
    = list_sum (map (fun q => S (length (p ++ q))) (keys_below n)).
Proof.
  induction n as [i c fl cs IH] using TrieNode_ind'. intros p Hwf.
  destruct (wf_node_parts _ _ Hwf) as [Hi [_ Hcs]]. cbn [item children] in *.
  cbn [key_bytes keys_below]. rewrite map_app, list_sum_app. f_equal.
  - destruct (key i) as [k0|] eqn:Ek; [|reflexivity].
    destruct (item_ok_key _ _ _ Hi Ek) as [-> _].
    simpl. rewrite app_nil_r. lia.
  - clear Hi Hwf. induction cs as [|x cs IHcs]; [reflexivity|].
    inversion IH as [|? ? Hx Hrest]; subst.
    cbn [map flat_map list_sum fold_right].
    change (fold_right Nat.add 0%nat ?l) with (list_sum l).
    rewrite map_app, list_sum_app, map_map.
    rewrite IHcs; auto; [|intros y Hy; apply Hcs; right; exact Hy].
    f_equal. rewrite (Hx (p ++ [ch x])) by (apply Hcs; left; reflexivity).
    f_equal. apply map_ext. intros q. rewrite <- app_assoc. reflexivity.
Qed.

Lemma Permutation_list_sum l l' :
  Permutation l l' -> list_sum l = list_sum l'.
Proof.
  induction 1; simpl; lia.
Qed.

Lemma holds_keys_key_bytes root s :
  holds_keys root s -> key_bytes (rnode root) = key_sizes s.
Proof.
  intros [Hwf [Hnd Hin]].
  pose proof (wf_store_parts _ Hwf) as [Hw _].
  rewrite (key_bytes_keys_below _ [] Hw). unfold key_sizes.
  apply Permutation_list_sum. apply Permutation_map.
  apply NoDup_Permutation; auto.
  - eapply NoDup_keys_below; eauto.
  - intros q. rewrite (in_keys_below _ [] q Hw). symmetry. apply Hin.
Qed.

Lemma holds_keys_store_bytes root s :
  holds_keys root s ->
  store_bytes (rnode root)
  = sizeof_TrieRoot
    + sizeof_TrieNode * Z.of_nat (length (path_edges s))
    + sizeof_TRIECHAR * Z.of_nat (key_sizes s).
Proof.
  intros H. unfold store_bytes.
  rewrite (holds_keys_key_bytes _ _ H).
  destruct (holds_keys_counts _ _ H) as [_ ->]. f_equal. f_equal. f_equal.
  lia.
Qed.

(** X7. After any sequence of [set] and [del] calls on a new store,
    [trie_mem_usage] is the size of the root structure plus the size of a
    node for every edge of the paths of the stored keys plus, for every
    stored key, its length and one byte for the terminator: the sum
    modulo 2^64, and the sum itself when that is below 2^64. *)
Theorem mem_usage_tracks_keys ms :
  exists root,
    run_mutations trie_new ms = Some root
    /\ trie_mem_usage root
       = to_size_t (sizeof_TrieRoot
                    + sizeof_TrieNode
                      * Z.of_nat (length (path_edges (model_keys ms)))
                    + sizeof_TRIECHAR * Z.of_nat (key_sizes (model_keys ms)))
    /\ trie_mem_usage root
       = to_size_t (sizeof_TrieRoot
                    + sizeof_TrieNode * trie_num_nodes root
                    + sizeof_TRIECHAR * Z.of_nat (key_sizes (model_keys ms)))
    /\ (sizeof_TrieRoot
        + sizeof_TrieNode * Z.of_nat (length (path_edges (model_keys ms)))
        + sizeof_TRIECHAR * Z.of_nat (key_sizes (model_keys ms)) < 2 ^ 64 ->
        trie_mem_usage root
        = sizeof_TrieRoot
          + sizeof_TrieNode * Z.of_nat (length (path_edges (model_keys ms)))
          + sizeof_TRIECHAR * Z.of_nat (key_sizes (model_keys ms))).
Proof.
  destruct (run_mutations_total ms trie_new) as [root Hrun].
  exists root. split; [exact Hrun|].
  pose proof (holds_keys_run ms trie_new [] root holds_keys_new Hrun) as Hk.
  fold (model_keys ms) in Hk.
  assert (Hmem : memsize root = to_size_t (store_bytes (rnode root))).
  { apply (run_mutations_memsize ms trie_new root); auto. }
  rewrite (holds_keys_store_bytes _ _ Hk) in Hmem.
  unfold trie_mem_usage, trie_num_nodes.
  split; [exact Hmem|]. split.
  - destruct Hk as [Hwf _].
    destruct (wf_store_parts _ Hwf) as [_ [_ [Hnn _]]].
    destruct (holds_keys_counts root (model_keys ms)) as [_ Hc].
    { split; auto. apply (holds_keys_run ms trie_new [] root
                            holds_keys_new Hrun). }
    rewrite Hmem, Hnn, Hc.
    unfold sizeof_TrieRoot, sizeof_TrieNode, sizeof_TRIECHAR.
    rewrite Nat2Z.inj_succ. mod64.
  - intros Hlt. rewrite Hmem. apply to_size_t_small.
    unfold sizeof_TrieRoot, sizeof_TrieNode, sizeof_TRIECHAR in *. lia.
Qed.

(* ------------------------------------------------------------------ *)
(** ** A key that comes and goes *)

Lemma nodes_of_same_keys n n' p :
  no_dead n = true ->
  (forall q, has_key_at n' q = has_key_at n q) ->
  get_node n p <> None -> get_node n' p <> None.
Proof.
  intros Hnd Hk Hp. destruct p as [|c r]; [discriminate|].
  destruct (get_node n (c :: r)) as [x|] eqn:Ex; [|congruence].
  destruct (node_has_key_below n (c :: r) x Hnd Ex) as [s Hs];
    [discriminate|].
  rewrite <- Hk in Hs. eapply node_on_path_of_key; eauto.
Qed.

Lemma trie_has_node_same_keys root root' k :
  wf_store root = true -> wf_store root' = true ->
  (forall q, has_key_at (rnode root') q = has_key_at (rnode root) q) ->
  trie_has_node root' k = trie_has_node root k.
Proof.
  intros Hwf Hwf' Hk.
  destruct (wf_store_parts _ Hwf) as [_ [Hnd _]].
  destruct (wf_store_parts _ Hwf') as [_ [Hnd' _]].
  destruct (trie_has_node root' k) eqn:E1, (trie_has_node root k) eqn:E2;
    try reflexivity; exfalso.
  - apply trie_has_node_get_node in E1.
    apply (nodes_of_same_keys _ (rnode root)) in E1; auto.
    apply trie_has_node_get_node in E1. congruence.
  - apply trie_has_node_get_node in E2.
    apply (nodes_of_same_keys _ (rnode root')) in E2; auto.
    apply trie_has_node_get_node in E2. congruence.
Qed.

Lemma remove_not_in (s : list (list TRIECHAR)) k :
  ~ In k s -> remove key_eq_dec k s = s.
Proof.
  induction s as [|x s IH]; simpl; intros H; [reflexivity|].
  destruct (key_eq_dec k x) as [->|Hne]; [exfalso; apply H; left; auto|].
  f_equal. apply IH. intros Hin. apply H. right. exact Hin.
Qed.

(* ------------------------------------------------------------------ *)
(** ** The values handed to the deallocator *)

Lemma released_app h v a b :
  released h v (a ++ b) = (released h v a + released h v b)%nat.
Proof. unfold released. apply count_occ_app. Qed.

Lemma released_trieitem_free h v i :
  v <> NULL ->
  released h v (snd (trieitem_free i (Some h)))
  = if value i =? v then 1%nat else 0%nat.
Proof.
  intros Hv. unfold trieitem_free, released.
  destruct (value i =? NULL) eqn:E0; cbn [snd count_occ].
  - apply Z.eqb_eq in E0. rewrite E0.
    destruct (NULL =? v) eqn:E; [|reflexivity].
    apply Z.eqb_eq in E. congruence.
  - destruct (event_eq_dec (Dealloc h (value i)) (Dealloc h v)) as [E|E].
    + inversion E as [E']. rewrite Z.eqb_refl. reflexivity.
    + destruct (value i =? v) eqn:E'; [|reflexivity].
      apply Z.eqb_eq in E'. exfalso. apply E. congruence.
Qed.

Lemma released_flat_map h v l :
  v <> NULL ->
  released h v (flat_map (fun i => snd (trieitem_free i (Some h))) l)
  = list_sum (map (fun i => if value i =? v then 1%nat else 0%nat) l).
Proof.
  intros Hv. induction l as [|i l IH]; [reflexivity|].
  cbn [flat_map map]. rewrite released_app, released_trieitem_free, IH by auto.
  reflexivity.
Qed.

Lemma trieitem_free_value h i :
  value (fst (trieitem_free i (Some h))) = NULL.
Proof.
  unfold trieitem_free. destruct (value i =? NULL) eqn:E; simpl; auto.
  apply Z.eqb_eq in E. exact E.
Qed.

Lemma trieitem_free_events i d e :
  In e (snd (trieitem_free i d)) ->
  exists h, d = Some h /\ e = Dealloc h (value i) /\ value i <> NULL.
Proof.
  unfold trieitem_free. destruct d as [h|]; [|simpl; tauto].
  destruct (value i =? NULL) eqn:E; simpl; [tauto|].
  intros [<-|[]]. exists h. apply Z.eqb_neq in E. auto.
Qed.

(** A keyless node of a tree without stale values has no value. *)
Lemma count_stale_value n p x :
  count_stale n = 0%nat ->
  get_node n p = Some x -> key (item x) = None -> value (item x) = NULL.
Proof.
  intros Hn Hx Hk.
  pose proof (measure_get count_stale _ count_stale_measure p n x Hx) as Hle.
  rewrite (count_stale_measure x) in Hle. cbv beta in Hle.
  rewrite Hk in Hle.
  destruct (value (item x) =? NULL) eqn:E; [apply Z.eqb_eq; exact E|lia].
Qed.

Lemma end_node_stale n k :
  count_stale n = 0%nat ->
  key (item (end_node n k)) = None -> value (item (end_node n k)) = NULL.
Proof.
  intros Hn. unfold end_node.
  destruct (get_node n k) as [x|] eqn:Ex; [|reflexivity].
  eapply count_stale_value; eauto.
Qed.

(** *** One call *)

Lemma trie_set_item_values root k v d :
  count_stale (rnode root) = 0%nat ->
  count_stale (rnode (snd (fst (trie_set_item root k v d)))) = 0%nat
  /\ (forall h v0,
        d = Some h -> v0 <> NULL ->
        (count_value v0 (rnode (snd (fst (trie_set_item root k v d))))
         + released h v0 (snd (trie_set_item root k v d))
         = count_value v0 (rnode root)
           + if (v =? v0)%Z then 1 else 0)%nat)
  /\ (forall e, In e (snd (trie_set_item root k v d)) ->
        exists h v', d = Some h /\ e = Dealloc h v' /\ v' <> NULL).
Proof.
  intros Hst.
  destruct (trie_set_item_fields root k v d)
    as [_ [_ [_ [_ [_ [_ [Hev _]]]]]]].
  rewrite Hev, trie_set_item_rnode. clear Hev.
  set (new := mkItem (Some (cstr k)) v
                     (to_size_t (Z.of_nat (length (cstr k))))).
  set (e := end_node (rnode root) (cstr k)).
  pose proof (end_node_stale (rnode root) (cstr k) Hst) as Hnull.
  fold e in Hnull.
  split; [|split].
  - pose proof (measure_set_node count_stale _ count_stale_measure (cstr k)
                  (set_item new) (rnode root)) as Hs.
    fold e in Hs.
    rewrite (count_stale_measure (set_item new e)), (count_stale_measure e)
      in Hs.
    cbn [set_item item children key value new] in Hs. cbv beta in Hs.
    cbn [key value] in Hs. change (NULL =? NULL) with true in Hs.
    cbv iota in Hs. lia.
  - intros h v0 -> Hv0.
    pose proof (measure_set_node (count_value v0) _ (count_value_measure v0)
                  (cstr k) (set_item new) (rnode root)) as Hc.
    fold e in Hc.
    rewrite (count_value_measure v0 (set_item new e)),
      (count_value_measure v0 e) in Hc.
    cbn [set_item item children value new] in Hc. cbv beta in Hc.
    cbn [value] in Hc.
    replace (NULL =? v0) with false in Hc
      by (symmetry; apply Z.eqb_neq; congruence).
    destruct (has_item e) eqn:He.
    + rewrite released_trieitem_free by auto. lia.
    + unfold has_item in He.
      destruct (key (item e)) eqn:Ek; [discriminate|].
      rewrite (Hnull eq_refl) in Hc.
      replace (NULL =? v0) with false in Hc
        by (symmetry; apply Z.eqb_neq; congruence).
      change (released h v0 []) with 0%nat. lia.
  - intros ev Hin. destruct (has_item e); [|destruct Hin].
    destruct (trieitem_free_events _ _ _ Hin) as [h [H1 [H2 H3]]].
    exists h, (value (item e)). auto.
Qed.

Lemma trie_del_item_values root k h rc root' ev :
  wf_store root = true ->
  count_stale (rnode root) = 0%nat ->
  trie_del_item root k (Some h) = Some (rc, root', ev) ->
  count_stale (rnode root') = 0%nat
  /\ (forall v0,
        v0 <> NULL ->
        (count_value v0 (rnode root') + released h v0 ev
         = count_value v0 (rnode root))%nat)
  /\ (forall e, In e ev -> exists v', e = Dealloc h v' /\ v' <> NULL).
Proof.
  intros Hwf Hst Hdel.
  destruct (trie_has_key root k) eqn:Hk.
  2:{ rewrite (trie_del_item_absent root k _ Hk) in Hdel.
      inversion Hdel; subst. split; [exact Hst|]. split.
      - intros v0 _. change (released h v0 []) with 0%nat. lia.
      - intros e []. }
  destruct (trie_del_item_parts root k _ rc root' ev Hwf Hk Hdel)
    as [n [pruned [En [Ekey [Hlen [Hp [Hev [_ Hg]]]]]]]].
  split; [|split].
  - pose proof (Hg count_stale _ count_stale_measure) as Hs.
    cbv beta in Hs.
    rewrite trieitem_free_key, trieitem_free_value in Hs.
    change (NULL =? NULL) with true in Hs. cbv iota in Hs. lia.
  - intros v0 Hv0.
    pose proof (Hg (count_value v0) _ (count_value_measure v0)) as Hc.
    cbv beta in Hc. rewrite trieitem_free_value in Hc.
    replace (NULL =? v0) with false in Hc
      by (symmetry; apply Z.eqb_neq; congruence).
    rewrite Hev, released_app, released_trieitem_free, released_flat_map
      by auto.
    lia.
  - intros e Hin. rewrite Hev in Hin. apply in_app_or in Hin.
    destruct Hin as [Hin|Hin].
    + destruct (trieitem_free_events _ _ _ Hin) as [h' [H1 [H2 H3]]].
      inversion H1; subst h'. eauto.
    + apply in_flat_map in Hin. destruct Hin as [i [_ Hin]].
      destruct (trieitem_free_events _ _ _ Hin) as [h' [H1 [H2 H3]]].
      inversion H1; subst h'. eauto.
Qed.

Lemma uses_handler_true h m :
  uses_handler h m = true -> handler_of m = Some h.
Proof.
  unfold uses_handler. destruct (handler_of m) as [h'|]; [|discriminate].
  intros H. apply Pos.eqb_eq in H. congruence.
Qed.

Lemma apply_mutation_values root m h rc root' ev :
  wf_store root = true ->
  count_stale (rnode root) = 0%nat ->
  uses_handler h m = true ->
  apply_mutation root m = Some (rc, root', ev) ->
  count_stale (rnode root') = 0%nat
  /\ (forall v0,
        v0 <> NULL ->
        (count_value v0 (rnode root') + released h v0 ev
         = count_value v0 (rnode root) + stored v0 [m])%nat)
  /\ (forall e, In e ev -> exists v', e = Dealloc h v' /\ v' <> NULL).
Proof.
  intros Hwf Hst Hh H. apply uses_handler_true in Hh.
  destruct m as [k v d|k d]; simpl in H, Hh; subst d.
  - injection H as H.
    destruct (trie_set_item_values root k v (Some h) Hst) as [A [B C]].
    rewrite H in A, B, C. cbn [fst snd] in A, B, C.
    split; [exact A|]. split.
    + intros v0 Hv0. rewrite (B h v0 eq_refl Hv0). simpl. lia.
    + intros e Hin. destruct (C e Hin) as [h' [v' [H1 [H2 H3]]]].
      inversion H1; subst h'. eauto.
  - destruct (trie_del_item_values root k h rc root' ev Hwf Hst H)
      as [A [B C]].
    split; [exact A|]. split; [|exact C].
    intros v0 Hv0. rewrite (B v0 Hv0). simpl. lia.
Qed.

(** *** Teardown *)

Lemma _trie_free_eq n sib d :
  _trie_free n sib d
  = fold_right (fun x acc => _trie_free x acc d) [] (children n)
    ++ sib ++ trienode_free n d.
Proof.
  destruct n as [i c fl cs]. reflexivity.
Qed.

Lemma _trie_free_released h v0 :
  v0 <> NULL ->
  forall n sib,
    released h v0 (_trie_free n sib (Some h))
    = (count_value v0 n + released h v0 sib)%nat.
Proof.
  intros Hv0. induction n as [i c fl cs IH] using TrieNode_ind'.
  intros sib. rewrite _trie_free_eq, !released_app.
  unfold trienode_free. rewrite released_trieitem_free by auto.
  rewrite (count_value_measure v0 (Node i c fl cs)).
  cbn [item children]. cbv beta.
  assert (Hs : released h v0
                 (fold_right (fun x acc => _trie_free x acc (Some h)) [] cs)
               = list_sum (map (count_value v0) cs)).
  { clear sib. induction cs as [|x cs IHcs]; [reflexivity|].
    inversion IH as [|? ? Hx Hrest]; subst.
    cbn [fold_right map]. rewrite Hx, (IHcs Hrest).
    change (list_sum (?a :: ?l)) with (a + list_sum l)%nat. lia. }
  rewrite Hs. lia.
Qed.

Lemma _trie_free_events d e :
  forall n sib,
    In e (_trie_free n sib d) ->
    In e sib
    \/ exists h v, d = Some h /\ e = Dealloc h v /\ v <> NULL.
Proof.
  induction n as [i c fl cs IH] using TrieNode_ind'.
  intros sib. rewrite _trie_free_eq. cbn [children].
  intros Hin. apply in_app_or in Hin. destruct Hin as [Hin|Hin].
  - right. clear sib. induction cs as [|x cs IHcs]; [destruct Hin|].
    inversion IH as [|? ? Hx Hrest]; subst.
    cbn [fold_right] in Hin. apply Hx in Hin.
    destruct Hin as [Hin|Hin]; auto.
  - apply in_app_or in Hin. destruct Hin as [Hin|Hin]; [left; exact Hin|].
    right. unfold trienode_free in Hin.
    destruct (trieitem_free_events _ _ _ Hin) as [h [H1 [H2 H3]]].
    exists h, (value (item (Node i c fl cs))). auto.
Qed.

(** X9. [trie_free] without a handler calls no deallocator.  With a
    handler it calls that handler, and no other, once for every node
    whose value field is not NULL, be the node's key still stored or
    deleted without a handler, and never on NULL. *)
Theorem trie_free_releases_held_values root :
  trie_free root None = []
  /\ forall h,
       (forall v, v <> NULL ->
          released h v (trie_free root (Some h))
          = count_value v (rnode root))
       /\ (forall h' v, In (Dealloc h' v) (trie_free root (Some h)) ->
             h' = h /\ v <> NULL).
Proof.
  unfold trie_free. split; [|intros h; split].
  - destruct (_trie_free (rnode root) [] None) as [|e l] eqn:E;
      [reflexivity|].
    destruct (_trie_free_events None e (rnode root) []) as [[]|H].
    + rewrite E. left. reflexivity.
    + destruct H as [h [v [H _]]]. discriminate.
  - intros v Hv. rewrite _trie_free_released by exact Hv.
    change (released h v []) with 0%nat. lia.
  - intros h' v Hin.
    destruct (_trie_free_events _ _ _ _ Hin) as [[]|[h0 [v0 [H1 [H2 H3]]]]].
    inversion H1; inversion H2; subst. auto.
Qed.

(** *** A whole life of a store *)

Lemma stored_cons v m ms :
  stored v (m :: ms) = (stored v [m] + stored v ms)%nat.
Proof. destruct m; simpl; lia. Qed.

Lemma run_events_values h ms :
  forall root,
    wf_store root = true ->
    count_stale (rnode root) = 0%nat ->
    forallb (uses_handler h) ms = true ->
    exists root' ev,
      run_events root ms = Some (root', ev)
      /\ (forall v0,
            v0 <> NULL ->
            (count_value v0 (rnode root') + released h v0 ev
             = count_value v0 (rnode root) + stored v0 ms)%nat)
      /\ (forall e, In e ev -> exists v', e = Dealloc h v' /\ v' <> NULL).
Proof.
  induction ms as [|m ms IH]; intros root Hwf Hst Hms.
  - exists root, []. split; [reflexivity|]. split.
    + intros v0 _. change (released h v0 []) with 0%nat. simpl. lia.
    + intros e [].
  - cbn [forallb] in Hms. apply andb_true_iff in Hms.
    destruct Hms as [Hm Hms].
    destruct (apply_mutation_total root m) as [rc [r1 [ev1 E]]].
    destruct (apply_mutation_values root m h rc r1 ev1 Hwf Hst Hm E)
      as [A [B C]].
    pose proof (apply_mutation_wf root m rc r1 ev1 Hwf E) as Hwf1.
    destruct (IH r1 Hwf1 A Hms) as [root' [ev2 [Hrun [B2 C2]]]].
    exists root', (ev1 ++ ev2). cbn [run_events]. rewrite E, Hrun.
    split; [reflexivity|]. split.
    + intros v0 Hv0. specialize (B v0 Hv0). specialize (B2 v0 Hv0).
      rewrite released_app, stored_cons. lia.
    + intros e Hin. apply in_app_or in Hin. destruct Hin; auto.
Qed.

(** X10. A store that is filled and emptied by [set] and [del] calls
    which all pass the same handler, and is then freed with that handler,
    passes every value that is not NULL to the handler exactly as often
    as it was stored: no value is lost and none is passed twice.  The
    handler is never called on NULL and no other handler is called. *)
Theorem values_released_as_often_as_stored ms h :
  forallb (uses_handler h) ms = true ->
  exists root ev,
    run_events trie_new ms = Some (root, ev)
    /\ (forall v, v <> NULL ->
          released h v (ev ++ trie_free root (Some h)) = stored v ms)
    /\ (forall h' v, In (Dealloc h' v) (ev ++ trie_free root (Some h)) ->
          h' = h /\ v <> NULL).
Proof.
  intros Hms.
  destruct (run_events_values h ms trie_new) as [root [ev [Hrun [B C]]]];
    auto.
  exists root, ev. split; [exact Hrun|]. split.
  - intros v Hv. specialize (B v Hv).
    rewrite released_app. unfold trie_free.
    rewrite _trie_free_released by exact Hv.
    change (released h v []) with 0%nat.
    assert (H0 : count_value v (rnode trie_new) = 0%nat).
    { rewrite count_value_measure.
      cbn [trie_new rnode item children value map].
      replace (NULL =? v) with false
        by (symmetry; apply Z.eqb_neq; congruence).
      reflexivity. }
    lia.
  - intros h' v Hin. apply in_app_or in Hin. destruct Hin as [Hin|Hin].
    + destruct (C _ Hin) as [v' [H1 H2]]. inversion H1; subst. auto.
    + unfold trie_free in Hin.
      destruct (_trie_free_events _ _ _ _ Hin)
        as [[]|[h0 [v0 [H1 [H2 H3]]]]].
      inversion H1; inversion H2; subst. auto.
Qed.

Lemma values_released_as_often_as_stored_witness :
  forallb (uses_handler 1%positive)
          [Set_item (bytes "ab") 5 (Some 1%positive);
           Set_item (bytes "a") 6 (Some 1%positive);
           Set_item (bytes "ab") 8 (Some 1%positive);
           Del_item (bytes "a") (Some 1%positive)] = true
  /\ exists root ev,
       run_events trie_new
         [Set_item (bytes "ab") 5 (Some 1%positive);
          Set_item (bytes "a") 6 (Some 1%positive);
          Set_item (bytes "ab") 8 (Some 1%positive);
          Del_item (bytes "a") (Some 1%positive)] = Some (root, ev)
       /\ (forall v, v <> NULL ->
             released 1%positive v (ev ++ trie_free root (Some 1%positive))
             = stored v [Set_item (bytes "ab") 5 (Some 1%positive);
                         Set_item (bytes "a") 6 (Some 1%positive);
                         Set_item (bytes "ab") 8 (Some 1%positive);
                         Del_item (bytes "a") (Some 1%positive)])
       /\ (forall h' v,
             In (Dealloc h' v) (ev ++ trie_free root (Some 1%positive)) ->
             h' = 1%positive /\ v <> NULL).
Proof.
  split; [reflexivity|].
  apply (values_released_as_often_as_stored _ 1%positive). reflexivity.
Defined.

(** The calls of the handler in that life of a store, in their order. *)
Example values_released_in_order :
  exists root,
    run_events trie_new
      [Set_item (bytes "ab") 5 (Some 1%positive);
       Set_item (bytes "a") 6 (Some 1%positive);
       Set_item (bytes "ab") 8 (Some 1%positive);
       Del_item (bytes "a") (Some 1%positive)]
    = Some (root, [Dealloc 1%positive 5; Dealloc 1%positive 6])
    /\ trie_free root (Some 1%positive) = [Dealloc 1%positive 8].
Proof.
  eexists. split.
  - vm_compute. reflexivity.
  - vm_compute. reflexivity.
Qed.

(* ------------------------------------------------------------------ *)
(** ** A key that comes and goes *)

Lemma keyless_without_stale_value (l : list TrieItem) :
  Forall (fun i => key i = None) l ->
  list_sum (map (fun i => match key i with
                          | Some _ => 0
                          | None => if (value i =? NULL)%Z then 0 else 1
                          end)%nat l) = 0%nat ->
  Forall (fun i => value i = NULL) l.
Proof.
  induction 1 as [|i l Hi Hl IH]; intros Hs; constructor.
  - cbn [map] in Hs. rewrite Hi in Hs.
    change (list_sum (?a :: ?r)) with (a + list_sum r)%nat in Hs.
    destruct (value i =? NULL) eqn:E; [apply Z.eqb_eq; exact E|lia].
  - apply IH. cbn [map] in Hs.
    change (list_sum (?a :: ?r)) with (a + list_sum r)%nat in Hs. lia.
Qed.

Lemma no_value_nothing_released d (l : list TrieItem) :
  Forall (fun i => value i = NULL) l ->
  flat_map (fun i => snd (trieitem_free i d)) l = [].
Proof.
  induction 1 as [|i l Hi Hl IH]; [reflexivity|].
  cbn [flat_map]. rewrite IH. unfold trieitem_free.
  destruct d; [|reflexivity]. rewrite Hi. reflexivity.
Qed.

Lemma no_value_not_counted v0 (l : list TrieItem) :
  v0 <> NULL ->
  Forall (fun i => value i = NULL) l ->
  list_sum (map (fun i => if (value i =? v0)%Z then 1 else 0)%nat l)
  = 0%nat.
Proof.
  intros Hv Hl. apply list_sum_map_zero.
  eapply Forall_impl; [|exact Hl]. intros i Hi. cbv beta in Hi.
  rewrite Hi. destruct (NULL =? v0) eqn:E; [|reflexivity].
  apply Z.eqb_eq in E. congruence.
Qed.

(** X8. In a store built by [set] and [del] calls from a new one, a
    key that is not stored is set and then deleted again.  The [del]
    returns 0; afterwards every lookup returns the item it returned
    before the two calls, a node exists where one existed before, and
    the counters of nodes, items and bytes are back at their values;
    the state id has moved on by two.  The value fields come back under
    a condition: when the [del] passes a handler and no keyless node of
    the store held a value before, the handler is called on the value
    that was set, and on nothing else, unless that value is NULL, and a
    [trie_free] afterwards passes every value to its handler as often as
    it would have before the two calls. *)
Theorem set_then_del_restores ms root k v d1 d2 :
  run_mutations trie_new ms = Some root ->
  trie_has_key root k = false ->
  exists root2 ev,
    trie_del_item (snd (fst (trie_set_item root k v d1))) k d2
    = Some (0, root2, ev)
    /\ (forall k', trie_get_item root2 k' = trie_get_item root k')
    /\ (forall k', trie_has_node root2 k' = trie_has_node root k')
    /\ trie_num_nodes root2 = trie_num_nodes root
    /\ trie_num_items root2 = trie_num_items root
    /\ trie_mem_usage root2 = trie_mem_usage root
    /\ state_id root2 = to_llong (to_llong (state_id root + 1) + 1)
    /\ (forall h,
          d2 = Some h -> count_stale (rnode root) = 0%nat ->
          ev = (if v =? NULL then [] else [Dealloc h v])
          /\ forall h' v0,
               v0 <> NULL ->
               released h' v0 (trie_free root2 (Some h'))
               = released h' v0 (trie_free root (Some h'))).
Proof.
  intros Hrun Hk.
  set (root1 := snd (fst (trie_set_item root k v d1))).
  pose proof (holds_keys_run ms trie_new [] root holds_keys_new Hrun) as Hs.
  fold (model_keys ms) in Hs. set (s := model_keys ms) in *.
  assert (Hmem : memsize root = to_size_t (store_bytes (rnode root))).
  { apply (run_mutations_memsize ms trie_new root); auto. }
  pose proof Hs as [Hwf [Hnd Hin]].
  assert (Hwf1 : wf_store root1 = true) by (apply trie_set_item_wf; auto).
  assert (Hmem1 : memsize root1 = to_size_t (store_bytes (rnode root1)))
    by (apply trie_set_item_memsize; auto).
  assert (Hk1 : trie_has_key root1 k = true).
  { unfold root1. rewrite trie_set_item_has_key.
    destruct (key_eq_dec (cstr k) (cstr k)); congruence. }
  destruct (trie_del_item_present root1 k d2 Hk1)
    as [root2 [ev [Hdel [Hsid [_ _]]]]].
  exists root2, ev. split; [exact Hdel|].
  destruct (trie_del_item_keeps root1 k d2 0 root2 ev Hwf1 Hdel)
    as [Hwf2 Hkeys2].
  pose proof (trie_del_item_get_item_at root1 k d2 0 root2 ev Hwf1 Hdel)
    as Hget2.
  pose proof (trie_del_item_memsize root1 k d2 0 root2 ev Hwf1 Hmem1 Hdel)
    as Hmem2.
  assert (Hnot : ~ In (cstr k) s).
  { intros Hi. apply Hin in Hi.
    rewrite trie_has_key_has_key_at in Hk. congruence. }
  assert (Hkeys : forall q,
            has_key_at (rnode root2) q = has_key_at (rnode root) q).
  { intros q. rewrite Hkeys2. unfold root1.
    rewrite trie_set_item_rnode, set_node_has_key_at by discriminate.
    destruct (key_eq_dec q (cstr k)) as [->|]; [|reflexivity].
    rewrite trie_has_key_has_key_at in Hk. congruence. }
  assert (Hs2 : holds_keys root2 s).
  { split; [exact Hwf2|]. split; [exact Hnd|].
    intros q. rewrite Hkeys. apply Hin. }
  split.
  { intros k'. rewrite !trie_get_item_at, Hget2. unfold root1.
    rewrite trie_set_item_rnode, set_node_get_item_at by discriminate.
    destruct (key_eq_dec (cstr k') (cstr k)) as [->|]; [|reflexivity].
    rewrite trie_has_key_has_key_at, has_key_at_get_item in Hk.
    destruct (get_item_at (rnode root) (cstr k)); [discriminate|auto]. }
  split.
  { intros k'. apply trie_has_node_same_keys; auto. }
  destruct (holds_keys_counts _ _ Hs) as [Hci Hcn].
  destruct (holds_keys_counts _ _ Hs2) as [Hci2 Hcn2].
  destruct (wf_store_parts _ Hwf) as [_ [_ [Hnn [Hni _]]]].
  destruct (wf_store_parts _ Hwf2) as [_ [_ [Hnn2 [Hni2 _]]]].
  unfold trie_num_nodes, trie_num_items, trie_mem_usage.
  split; [congruence|]. split; [congruence|]. split.
  { rewrite Hmem2, Hmem, (holds_keys_store_bytes _ _ Hs),
      (holds_keys_store_bytes _ _ Hs2). reflexivity. }
  split.
  { rewrite Hsid. unfold root1. rewrite trie_set_item_state_id, Hk.
    reflexivity. }
  intros h -> Hst.
  set (new := mkItem (Some (cstr k)) v
                     (to_size_t (Z.of_nat (length (cstr k))))) in *.
  set (e := end_node (rnode root) (cstr k)) in *.
  assert (Hke : key (item e) = None).
  { rewrite trie_has_key_end_node in Hk. fold e in Hk.
    unfold has_item in Hk. destruct (key (item e)); [discriminate|auto]. }
  pose proof (end_node_stale (rnode root) (cstr k) Hst Hke) as Hve.
  fold e in Hve.
  destruct (trie_set_item_values root k v d1 Hst) as [Hst1 _].
  fold root1 in Hst1.
  destruct (trie_del_item_parts root1 k _ 0 root2 ev Hwf1 Hk1 Hdel)
    as [n [pruned [En [_ [_ [Hp [Hev [_ Hg]]]]]]]].
  assert (Hn : n = set_item new e).
  { pose proof (trie_set_item_get_node root k v d1) as Hgn.
    unfold trie_get_node in Hgn. fold root1 new e in Hgn. congruence. }
  assert (Hpv : Forall (fun i => value i = NULL) pruned).
  { apply keyless_without_stale_value; [exact Hp|].
    pose proof (Hg count_stale _ count_stale_measure) as H0.
    cbv beta in H0.
    rewrite Hst1, trieitem_free_key, trieitem_free_value in H0.
    change (NULL =? NULL) with true in H0. cbv iota in H0. lia. }
  split.
  - rewrite Hev, (no_value_nothing_released _ _ Hpv), app_nil_r, Hn.
    cbn [set_item item]. unfold trieitem_free, new. cbn [value].
    destruct (v =? NULL); reflexivity.
  - intros h' v0 Hv0. unfold trie_free.
    rewrite !_trie_free_released by exact Hv0. f_equal.
    pose proof (measure_set_node (count_value v0) _ (count_value_measure v0)
                  (cstr k) (set_item new) (rnode root)) as Hc.
    fold e in Hc.
    assert (Hr1 : rnode root1
                  = set_node (rnode root) (cstr k) (set_item new))
      by apply trie_set_item_rnode.
    rewrite <- Hr1 in Hc.
    rewrite (count_value_measure v0 (set_item new e)),
      (count_value_measure v0 e) in Hc.
    cbn [set_item item children value new] in Hc. cbv beta in Hc.
    cbn [value] in Hc. rewrite Hve in Hc.
    replace (NULL =? v0) with false in Hc
      by (symmetry; apply Z.eqb_neq; congruence).
    pose proof (Hg (count_value v0) _ (count_value_measure v0)) as Hc2.
    cbv beta in Hc2. rewrite trieitem_free_value in Hc2.
    replace (NULL =? v0) with false in Hc2
      by (symmetry; apply Z.eqb_neq; congruence).
    rewrite (no_value_not_counted v0 pruned Hv0 Hpv) in Hc2.
    rewrite Hn in Hc2. cbn [set_item item value new] in Hc2.
    lia.
Qed.

Lemma set_then_del_restores_witness :
  run_mutations trie_new [Set_item (bytes "a") 7 None] = Some store_a
  /\ trie_has_key store_a (bytes "b") = false
  /\ exists root2 ev,
       trie_del_item (snd (fst (trie_set_item store_a (bytes "b") 9
                                              (Some 1%positive))))
                     (bytes "b") (Some 1%positive)
       = Some (0, root2, ev)
       /\ (forall k', trie_get_item root2 k' = trie_get_item store_a k')
       /\ (forall k', trie_has_node root2 k' = trie_has_node store_a k')
       /\ trie_num_nodes root2 = trie_num_nodes store_a
       /\ trie_num_items root2 = trie_num_items store_a
       /\ trie_mem_usage root2 = trie_mem_usage store_a
       /\ state_id root2 = to_llong (to_llong (state_id store_a + 1) + 1)
       /\ (forall h,
             Some 1%positive = Some h ->
             count_stale (rnode store_a) = 0%nat ->
             ev = (if 9 =? NULL then [] else [Dealloc h 9])
             /\ forall h' v0,
                  v0 <> NULL ->
                  released h' v0 (trie_free root2 (Some h'))
                  = released h' v0 (trie_free store_a (Some h'))).
Proof.
  assert (H1 : run_mutations trie_new [Set_item (bytes "a") 7 None]
               = Some store_a) by (vm_compute; reflexivity).
  assert (H2 : trie_has_key store_a (bytes "b") = false)
    by (vm_compute; reflexivity).
  split; [exact H1|]. split; [exact H2|].
  exact (set_then_del_restores _ store_a (bytes "b") 9 (Some 1%positive)
           (Some 1%positive) H1 H2).
Defined.

(** Without a handler the value stays behind: the key "a", a proper
    prefix of the stored key "ab", is set and deleted with a NULL
    handler; its node survives with the value, and [trie_free] with a
    handler is then called on it. *)
Example deleted_prefix_keeps_its_value :
  exists root2,
    trie_has_key store_ab (bytes "a") = false
    /\ trie_del_item (snd (fst (trie_set_item store_ab (bytes "a") 9 None)))
                     (bytes "a") None
       = Some (0, root2, [])
    /\ trie_get_item root2 (bytes "a") = None
    /\ option_map (fun x => value (item x)) (trie_get_node root2 (bytes "a"))
       = Some 9
    /\ trie_free store_ab (Some 1%positive) = [Dealloc 1%positive 7]
    /\ trie_free root2 (Some 1%positive)
       = [Dealloc 1%positive 7; Dealloc 1%positive 9].
Proof.
  eexists. split; [vm_compute; reflexivity|].
  split; [vm_compute; reflexivity|].
  split; [vm_compute; reflexivity|].
  split; [vm_compute; reflexivity|].
  split; vm_compute; reflexivity.
Qed.

(* ------------------------------------------------------------------ *)
(** ** What an all-pairs iterator leaves behind *)

Lemma item_reset n : item (trie_reset n) = item n.
Proof. destruct n; reflexivity. Qed.

Lemma get_item_at_reset n q :
  get_item_at (trie_reset n) q = get_item_at n q.
Proof.
  unfold get_item_at. rewrite get_node_reset.
  destruct (get_node n q) as [x|]; simpl; [|reflexivity].
  rewrite has_item_reset, item_reset. reflexivity.
Qed.

Lemma get_item_at_same_reset n n' q :
  trie_reset n = trie_reset n' -> get_item_at n q = get_item_at n' q.
Proof.
  intros H. rewrite <- (get_item_at_reset n), <- (get_item_at_reset n'), H.
  reflexivity.
Qed.

Lemma trie_has_node_same_reset root root' k :
  trie_reset (rnode root) = trie_reset (rnode root') ->
  trie_has_node root k = trie_has_node root' k.
Proof.
  intros H. unfold trie_has_node, trie_get_node.
  pose proof (get_node_reset (cstr k) (rnode root)) as H1.
  pose proof (get_node_reset (cstr k) (rnode root')) as H2.
  rewrite H in H1. rewrite H1 in H2.
  destruct (get_node (rnode root) (cstr k)),
    (get_node (rnode root') (cstr k)); simpl in H2; congruence.
Qed.

(** An all-pairs iterator and its store after any number of calls of
    [trieiter_next]: the store differs from the one the iterator was
    created on in flags and in the registered iterator only. *)
Lemma hammingpairs_advanced root0 a L h it1 root1 root it :
  wf_store root0 = true ->
  L <= INT_MAX ->
  h <= INT_MAX ->
  trieiter_hammingpairs root0 a L h = Some (it1, root1) ->
  iter_advanced root1 it1 root it ->
  root = mkRoot (rnode root) (num_nodes root0) (num_items root0)
                (memsize root0) (state_id root0) (Some a)
  /\ trie_reset (rnode root) = trie_reset (rnode root0)
  /\ self it = a.
Proof.
  intros Hwf HL1 Hh1 Hnew1 Hadv.
  assert (HL1pos : 1 <= L).
  { unfold trieiter_hammingpairs in Hnew1.
    destruct (L <=? 0) eqn:E; [discriminate|]. apply Z.leb_gt in E. lia. }
  assert (Hh1pos : 0 <= h).
  { unfold trieiter_hammingpairs, trieiter_new in Hnew1.
    destruct (L <=? 0); [discriminate|].
    destruct (h <? 0) eqn:E;
      [rewrite orb_true_r in Hnew1; discriminate|].
    apply Z.ltb_ge in E. exact E. }
  assert (HLn : Z.of_nat (Z.to_nat L) = L) by (apply Z2Nat.id; lia).
  set (Ln := Z.to_nat L) in *.
  rewrite <- HLn in Hnew1.
  rewrite trieiter_hammingpairs_created in Hnew1 by (auto; lia).
  injection Hnew1 as Hit1 Hroot1.
  destruct (wf_store_parts root0 Hwf) as [Hwfn _].
  assert (HwfR : wf_node [] (rnode root1) = true).
  { rewrite <- Hroot1. simpl. rewrite wf_node_reset. exact Hwfn. }
  assert (Hfin0 : hp_fin root1 it1 Ln root1 it1).
  { apply (hp_inv_fin root1 it1 Ln
             (hp_due (hp_targets (rnode root1) Ln) [] (maxhd it1) it1)).
    exists []. rewrite <- Hroot1, <- Hit1.
    split; [reflexivity|]. split.
    { simpl. apply trie_reset_id. apply trie_reset_flags_zero. }
    split; [apply same_config_refl|]. split; [reflexivity|].
    split; [apply flags_sound_reset|]. split; [constructor|].
    intros r. reflexivity. }
  assert (Hfin : hp_fin root1 it1 Ln root it).
  { apply (hp_fin_advanced root1 it1 Ln); auto;
      rewrite <- ?Hit1, <- ?Hroot1; simpl; auto; lia. }
  destruct Hfin as [Hroot [Hreset [Hcfg _]]].
  destruct Hcfg as [C1 _].
  split; [|split].
  - rewrite Hroot at 1. rewrite <- Hroot1. reflexivity.
  - rewrite Hreset, <- Hroot1. reflexivity.
  - rewrite C1, <- Hit1. reflexivity.
Qed.

(** X11. An all-pairs iterator changes nothing but flags.  While it
    is being advanced every lookup, node test and counter of the store
    answers as before the iterator was created; [trieiter_free] then
    clears the flags and the registration, and when no other dirty
    iterator was registered before, the store is again exactly the one
    the iterator was created on. *)
Theorem hammingpairs_leaves_no_trace root0 a L h it1 root1 root it :
  wf_store root0 = true ->
  L <= INT_MAX ->
  h <= INT_MAX ->
  trieiter_hammingpairs root0 a L h = Some (it1, root1) ->
  iter_advanced root1 it1 root it ->
  (forall k,
     trie_get_item root k = trie_get_item root0 k
     /\ trie_has_node root k = trie_has_node root0 k)
  /\ trie_num_nodes root = trie_num_nodes root0
  /\ trie_num_items root = trie_num_items root0
  /\ trie_mem_usage root = trie_mem_usage root0
  /\ state_id root = state_id root0
  /\ trieiter_free root it
     = mkRoot (trie_reset (rnode root0)) (num_nodes root0)
              (num_items root0) (memsize root0) (state_id root0) None
  /\ (dirty_iter root0 = None -> trieiter_free root it = root0).
Proof.
  intros Hwf HL Hh Hnew Hadv.
  destruct (hammingpairs_advanced root0 a L h it1 root1 root it
              Hwf HL Hh Hnew Hadv) as [Hroot [Hreset Hself]].
  assert (Hfree : trieiter_free root it
                  = mkRoot (trie_reset (rnode root0)) (num_nodes root0)
                           (num_items root0) (memsize root0)
                           (state_id root0) None).
  { unfold trieiter_free. rewrite Hroot. cbn [dirty_iter rnode num_nodes
      num_items memsize state_id]. rewrite Hself, Pos.eqb_refl, Hreset.
    reflexivity. }
  split.
  { intros k. split.
    - rewrite !trie_get_item_at. apply get_item_at_same_reset. exact Hreset.
    - apply trie_has_node_same_reset. exact Hreset. }
  unfold trie_num_nodes, trie_num_items, trie_mem_usage.
  split; [rewrite Hroot; reflexivity|].
  split; [rewrite Hroot; reflexivity|].
  split; [rewrite Hroot; reflexivity|].
  split; [rewrite Hroot; reflexivity|].
  split; [exact Hfree|].
  intros Hd. rewrite Hfree.
  destruct (wf_store_parts root0 Hwf) as [_ [_ [_ [_ [_ Hflags]]]]].
  rewrite (trie_reset_id (rnode root0)) by auto.
  destruct root0. simpl in *. subst. reflexivity.
Qed.

Lemma hammingpairs_leaves_no_trace_witness :
  wf_store store_aa_ab = true
  /\ 2 <= INT_MAX
  /\ 1 <= INT_MAX
  /\ trieiter_hammingpairs store_aa_ab 1 2 1
     = Some (pairs_iter_1, pairs_store_1)
  /\ iter_advanced pairs_store_1 pairs_iter_1 pairs_store_1' pairs_iter_1'
  /\ rnode pairs_store_1' <> rnode store_aa_ab
  /\ (forall k,
        trie_get_item pairs_store_1' k = trie_get_item store_aa_ab k
        /\ trie_has_node pairs_store_1' k = trie_has_node store_aa_ab k)
  /\ (dirty_iter store_aa_ab = None ->
      trieiter_free pairs_store_1' pairs_iter_1' = store_aa_ab).
Proof.
  assert (H1 : wf_store store_aa_ab = true) by (vm_compute; reflexivity).
  assert (H2 : 2 <= INT_MAX) by (vm_compute; discriminate).
  assert (H3 : 1 <= INT_MAX) by (vm_compute; discriminate).
  assert (H4 : trieiter_hammingpairs store_aa_ab 1 2 1
               = Some (pairs_iter_1, pairs_store_1))
    by (vm_compute; reflexivity).
  assert (H5 : iter_advanced pairs_store_1 pairs_iter_1
                 pairs_store_1' pairs_iter_1').
  { apply (iter_advanced_next pairs_store_1 pairs_iter_1
             pairs_store_1 pairs_iter_1 10
             (Some (mkResult (bytes "aa") (bytes "ab") 1))
             pairs_store_1' pairs_iter_1'
             (iter_advanced_zero pairs_store_1 pairs_iter_1)).
    vm_compute. reflexivity. }
  assert (H6 : rnode pairs_store_1' <> rnode store_aa_ab)
    by (vm_compute; discriminate).
  split; [exact H1|]. split; [exact H2|]. split; [exact H3|].
  split; [exact H4|]. split; [exact H5|]. split; [exact H6|].
  destruct (hammingpairs_leaves_no_trace store_aa_ab 1 2 1
              pairs_iter_1 pairs_store_1 pairs_store_1' pairs_iter_1'
              H1 H2 H3 H4 H5) as [A [_ [_ [_ [_ [_ B]]]]]].
  split; [exact A|exact B].
Defined.

(* ------------------------------------------------------------------ *)
(** ** The strings of one length *)

(** X12. [trie_find_all_strings] pushes onto the stack of targets
    the nodes of the stored keys that lie exactly [d] levels below the
    node it starts at, each of them once, and leaves the entries that
    were on the stack below them. *)
Theorem trie_find_all_strings_collects n q p d tg :
  wf_node q n = true ->
  Z.of_nat d <= INT_MAX ->
  exists found,
    trie_find_all_strings n p (Z.of_nat d) tg = found ++ tg
    /\ NoDup found
    /\ forall t,
         In t found
         <-> exists s, t = p ++ s /\ length s = d /\ has_key_at n s = true.
Proof.
  intros Hwf Hd.
  exists (rev (map (app p)
                 (filter (fun s => (length s =? d)%nat) (keys_below n)))).
  split; [apply trie_find_all_strings_spec; exact Hd|]. split.
  - apply NoDup_rev. apply NoDup_map_app. apply NoDup_filter.
    eapply NoDup_keys_below; eauto.
  - intros t. rewrite <- in_rev, in_map_iff. split.
    + intros [s [<- Hs]]. apply filter_In in Hs. destruct Hs as [Hin Hlen].
      exists s. split; [reflexivity|]. split; [apply Nat.eqb_eq; exact Hlen|].
      apply (in_keys_below n q s Hwf). exact Hin.
    + intros [s [-> [Hlen Hk]]]. exists s. split; [reflexivity|].
      apply filter_In. split; [|apply Nat.eqb_eq; exact Hlen].
      apply (in_keys_below n q s Hwf). exact Hk.
Qed.

Lemma trie_find_all_strings_collects_witness :
  wf_node [] (rnode store_words) = true
  /\ Z.of_nat 4 <= INT_MAX
  /\ exists found,
       trie_find_all_strings (rnode store_words) [] (Z.of_nat 4) []
       = found ++ []
       /\ NoDup found
       /\ forall t,
            In t found
            <-> exists s,
                  t = [] ++ s /\ length s = 4%nat
                  /\ has_key_at (rnode store_words) s = true.
Proof.
  assert (H1 : wf_node [] (rnode store_words) = true)
    by (vm_compute; reflexivity).
  assert (H2 : Z.of_nat 4 <= INT_MAX) by (vm_compute; discriminate).
  split; [exact H1|]. split; [exact H2|].
  exact (trie_find_all_strings_collects (rnode store_words) [] [] 4 [] H1 H2).
Defined.

(* ------------------------------------------------------------------ *)
(** ** The store as a finite map *)

Lemma apply_mutation_get_item_at root m rc root' ev :
  wf_store root = true ->
  apply_mutation root m = Some (rc, root', ev) ->
  forall f,
    (forall q, get_item_at (rnode root) q = f q) ->
    forall q, get_item_at (rnode root') q = model_item_step f m q.
Proof.
  intros Hwf H f Hf q. destruct m as [k v d|k d]; simpl in H.
  - injection H as H.
    replace root' with (snd (fst (trie_set_item root k v d)))
      by (rewrite H; reflexivity).
    rewrite trie_set_item_rnode, set_node_get_item_at by discriminate.
    simpl. rewrite Hf. reflexivity.
  - rewrite (trie_del_item_get_item_at root k d rc root' ev Hwf H).
    simpl. rewrite Hf. reflexivity.
Qed.

Lemma run_mutations_get_item_at ms :
  forall root root' f,
    wf_store root = true ->
    (forall q, get_item_at (rnode root) q = f q) ->
    run_mutations root ms = Some root' ->
    forall q, get_item_at (rnode root') q = fold_left model_item_step ms f q.
Proof.
  induction ms as [|m ms IH]; intros root root' f Hwf Hf Hrun.
  - simpl in Hrun. inversion Hrun; subst. exact Hf.
  - simpl in Hrun.
    destruct (apply_mutation root m) as [[[rc r1] ev]|] eqn:E;
      [|discriminate].
    simpl. apply (IH r1 root' (model_item_step f m)); auto.
    + eapply apply_mutation_wf; eauto.
    + eapply apply_mutation_get_item_at; eauto.
Qed.

(** X13. The store is a finite map.  After any sequence of [set] and
    [del] calls on a new store, [trie_get_item] returns for every key the
    item of the last [set] of that key, with the key, the value and the
    key length of that call, unless a later [del] removed it; it returns
    NULL for a key that was never set or was deleted since. *)
Theorem trie_get_item_after_run ms :
  exists root,
    run_mutations trie_new ms = Some root
    /\ forall k, trie_get_item root k = model_items ms (cstr k).
Proof.
  destruct (run_mutations_total ms trie_new) as [root Hrun].
  exists root. split; [exact Hrun|].
  intros k. rewrite trie_get_item_at.
  apply (run_mutations_get_item_at ms trie_new root (fun _ => None));
    auto.
  intros [|c q]; reflexivity.
Qed.

(** A run on three keys, read back. *)
Example get_item_after_run :
  exists root,
    run_mutations trie_new
      [Set_item (bytes "ab") 5 None; Set_item (bytes "a") 6 None;
       Set_item (bytes "ab") 8 None; Del_item (bytes "a") None;
       Del_item (bytes "zz") None]
    = Some root
    /\ trie_get_item root (bytes "ab") = Some (mkItem (Some (bytes "ab")) 8 2)
    /\ trie_get_item root (bytes "a") = None
    /\ trie_get_item root (bytes "zz") = None.
Proof.
  eexists. split; [vm_compute; reflexivity|].
  split; [|split]; vm_compute; reflexivity.
Qed.

(* ------------------------------------------------------------------ *)
(** ** The end of an iteration *)

Lemma while_loop_exit {S R : Type} (body : S -> option (S + R))
  (P : S -> Prop) (Q : R -> Prop) :
  (forall s s', P s -> body s = Some (inl s') -> P s') ->
  (forall s r, P s -> body s = Some (inr r) -> Q r) ->
  forall fuel s r, P s -> while_loop body fuel s = Some r -> Q r.
Proof.
  intros Hstep Hexit. induction fuel as [|fuel IH]; intros s r Hs Hrun.
  - discriminate.
  - simpl in Hrun. destruct (body s) as [[s'|r']|] eqn:E; [| |discriminate].
    + apply (IH s'); [apply (Hstep s); assumption|exact Hrun].
    + inversion Hrun; subst. apply (Hexit s); assumption.
Qed.

Lemma with_stack_config it st :
  same_config it (with_stack it st) /\ states (with_stack it st) = states it.
Proof. unfold same_config. simpl. repeat split; reflexivity. Qed.

Lemma neighbors_push_children_config cs qc p q h d :
  forall it it2,
    neighbors_push_children cs qc p q h d it = Some it2 ->
    same_config it it2 /\ stack it2 = stack it.
Proof.
  induction cs as [|x cs IH]; intros it it2 H; simpl in H.
  - inversion H; subst. split; [apply same_config_refl|reflexivity].
  - destruct qc as [c|]; [|discriminate].
    destruct (Byte.eqb (ch x) c); [|destruct (h <? maxhd it)].
    + destruct (IH _ _ H) as [H1 H2].
      destruct (push_state_config it (p ++ [ch x]) q h (to_int (d + 1)))
        as [P1 [P2 _]].
      split; [eapply same_config_trans; eauto|congruence].
    + destruct (IH _ _ H) as [H1 H2].
      destruct (push_state_config it (p ++ [ch x]) q (to_int (h + 1))
                                  (to_int (d + 1))) as [P1 [P2 _]].
      split; [eapply same_config_trans; eauto|congruence].
    + eauto.
Qed.

Lemma hammingpairs_push_children_config cs qc p q h d :
  forall it nc ne it2 nc2 ne2,
    hammingpairs_push_children cs qc p q h d (it, nc, ne)
    = Some (it2, nc2, ne2) ->
    same_config it it2 /\ stack it2 = stack it.
Proof.
  induction cs as [|x cs IH]; intros it nc ne it2 nc2 ne2 H; simpl in H.
  - inversion H; subst. split; [apply same_config_refl|reflexivity].
  - destruct (is_explored x); [eauto|].
    destruct qc as [c|]; [|discriminate].
    destruct (Byte.eqb (ch x) c); [|destruct (h <? maxhd it)].
    + destruct (IH _ _ _ _ _ _ H) as [H1 H2].
      destruct (push_state_config it (p ++ [ch x]) q h (to_int (d + 1)))
        as [P1 [P2 _]].
      split; [eapply same_config_trans; eauto|congruence].
    + destruct (IH _ _ _ _ _ _ H) as [H1 H2].
      destruct (push_state_config it (p ++ [ch x]) q (to_int (h + 1))
                                  (to_int (d + 1))) as [P1 [P2 _]].
      split; [eapply same_config_trans; eauto|congruence].
    + eauto.
Qed.

(** Where the three loops leave the iterator when they return NULL. *)
Lemma suffixes_loop_end root fuel it res it' :
  while_loop (suffixes_body root) fuel it = Some (res, it') ->
  same_config it it' /\ (res = None -> states it' = []).
Proof.
  apply (while_loop_exit (suffixes_body root)
           (fun i => same_config it i)
           (fun r => same_config it (snd r)
                     /\ (fst r = None -> states (snd r) = []))
           ); [| |apply same_config_refl].
  - intros s s' Hs Hb. unfold suffixes_body in Hb.
    destruct (trieiter_pop_state s) as [[st i1]|] eqn:Ep; [|discriminate].
    destruct (get_node (rnode root) (node st)) as [n|]; [|discriminate].
    destruct (has_item n); [discriminate|]. inversion Hb; subst.
    destruct (pop_state_config _ _ _ Ep) as [C1 _].
    destruct (suffixes_push_children_spec (children n) (node st) (query st)
                (depth st) i1) as [C2 _].
    eapply same_config_trans; [exact Hs|].
    eapply same_config_trans; eauto.
  - intros s r Hs Hb. unfold suffixes_body in Hb.
    destruct (trieiter_pop_state s) as [[st i1]|] eqn:Ep.
    + destruct (get_node (rnode root) (node st)) as [n|]; [|discriminate].
      destruct (has_item n); [|discriminate]. inversion Hb; subst.
      cbn [fst snd]. split; [|discriminate].
      destruct (pop_state_config _ _ _ Ep) as [C1 _].
      destruct (suffixes_push_children_spec (children n) (node st)
                  (query st) (depth st) i1) as [C2 _].
      eapply same_config_trans; [exact Hs|].
      eapply same_config_trans; eauto.
    + inversion Hb; subst. cbn [fst snd]. split; [exact Hs|].
      intros _. apply pop_state_none. exact Ep.
Qed.

Lemma neighbors_loop_end root fuel it res it' :
  while_loop (neighbors_body root) fuel it = Some (res, it') ->
  same_config it it' /\ (res = None -> states it' = []).
Proof.
  apply (while_loop_exit (neighbors_body root)
           (fun i => same_config it i)
           (fun r => same_config it (snd r)
                     /\ (fst r = None -> states (snd r) = []))
           ); [| |apply same_config_refl].
  - intros s s' Hs Hb. unfold neighbors_body in Hb.
    destruct (trieiter_pop_state s) as [[st i1]|] eqn:Ep; [|discriminate].
    destruct (pop_state_config _ _ _ Ep) as [C1 _].
    destruct (get_node (rnode root) (node st)) as [n|]; [|discriminate].
    destruct (depth st =? target_depth i1).
    + destruct (negb (has_item n) || (hd st =? 0)); [|discriminate].
      inversion Hb; subst. eapply same_config_trans; eauto.
    + destruct (neighbors_push_children _ _ _ _ _ _ i1) as [i2|] eqn:En;
        [|discriminate].
      inversion Hb; subst.
      destruct (neighbors_push_children_config _ _ _ _ _ _ _ _ En)
        as [C2 _].
      eapply same_config_trans; [exact Hs|].
      eapply same_config_trans; eauto.
  - intros s r Hs Hb. unfold neighbors_body in Hb.
    destruct (trieiter_pop_state s) as [[st i1]|] eqn:Ep.
    + destruct (pop_state_config _ _ _ Ep) as [C1 _].
      destruct (get_node (rnode root) (node st)) as [n|]; [|discriminate].
      destruct (depth st =? target_depth i1).
      * destruct (negb (has_item n) || (hd st =? 0)); [discriminate|].
        inversion Hb; subst. cbn [fst snd]. split; [|discriminate].
        eapply same_config_trans; eauto.
      * destruct (neighbors_push_children _ _ _ _ _ _ i1); discriminate.
    + inversion Hb; subst. cbn [fst snd]. split; [exact Hs|].
      intros _. apply pop_state_none. exact Ep.
Qed.

Lemma hammingpairs_loop_end fuel root it res root' it' :
  while_loop hammingpairs_body fuel (root, it) = Some (res, root', it') ->
  same_config it it'
  /\ state_id root' = state_id root
  /\ dirty_iter root' = dirty_iter root
  /\ (res = None -> states it' = [] /\ stack it' = []).
Proof.
  apply (while_loop_exit hammingpairs_body
           (fun s => same_config it (snd s)
                     /\ state_id (fst s) = state_id root
                     /\ dirty_iter (fst s) = dirty_iter root)
           (fun r => same_config it (snd r)
                     /\ state_id (snd (fst r)) = state_id root
                     /\ dirty_iter (snd (fst r)) = dirty_iter root
                     /\ (fst (fst r) = None ->
                         states (snd r) = [] /\ stack (snd r) = [])));
    [| |cbn [fst snd]; split; [apply same_config_refl|split; reflexivity]].
  - intros [r i] [r' i'] [Hs [Hid Hdi]] Hb. cbn [fst snd] in *.
    unfold hammingpairs_body in Hb.
    destruct (trieiter_pop_state i) as [[st i1]|] eqn:Ep.
    + destruct (pop_state_config _ _ _ Ep) as [C1 _].
      destruct (get_node (rnode r) (node st)) as [n|]; [|discriminate].
      destruct (depth st =? target_depth i1).
      * destruct (negb (has_item n)); [|discriminate].
        inversion Hb; subst. cbn [mark_at with_rnode state_id dirty_iter].
        split; [eapply same_config_trans; eauto|auto].
      * destruct (hammingpairs_push_children _ _ _ _ _ _ (i1, 0, 0))
          as [[[i2 nc] ne]|] eqn:En; [|discriminate].
        destruct (hammingpairs_push_children_config _ _ _ _ _ _ _ _ _ _ _ _
                    En) as [C2 _].
        assert (C : same_config it i2).
        { eapply same_config_trans; [exact Hs|].
          eapply same_config_trans; eauto. }
        destruct (nc =? ne); inversion Hb; subst;
          cbn [mark_at with_rnode state_id dirty_iter]; auto.
    + destruct (stack_pop (stack i)) as [[q rest]|] eqn:Es; [|discriminate].
      destruct (get_node (rnode r) q) as [x|]; [|discriminate].
      inversion Hb; subst. cbn [mark_at with_rnode state_id dirty_iter].
      split; [|auto].
      destruct (with_stack_config i rest) as [C1 _].
      destruct (push_state_config (with_stack i rest) [] q 0 0) as [C2 _].
      eapply same_config_trans; [exact Hs|].
      eapply same_config_trans; eauto.
  - intros [r i] [[res0 r'] i'] [Hs [Hid Hdi]] Hb. cbn [fst snd] in *.
    unfold hammingpairs_body in Hb.
    destruct (trieiter_pop_state i) as [[st i1]|] eqn:Ep.
    + destruct (pop_state_config _ _ _ Ep) as [C1 _].
      destruct (get_node (rnode r) (node st)) as [n|]; [|discriminate].
      destruct (depth st =? target_depth i1).
      * destruct (negb (has_item n)); [discriminate|].
        inversion Hb; subst.
        split; [eapply same_config_trans; eauto|].
        split; [auto|]. split; [auto|discriminate].
      * destruct (hammingpairs_push_children _ _ _ _ _ _ (i1, 0, 0))
          as [[[i2 nc] ne]|]; [|discriminate].
        destruct (nc =? ne); discriminate.
    + destruct (stack_pop (stack i)) as [[q rest]|] eqn:Es.
      * destruct (get_node (rnode r) q); discriminate.
      * inversion Hb; subst. split; [exact Hs|]. split; [auto|].
        split; [auto|]. intros _. split.
        -- apply pop_state_none. exact Ep.
        -- unfold stack_pop in Es. destruct (stack i'); [reflexivity|].
           discriminate.
Qed.

(** X14. NULL is final.  Once [trieiter_next] has returned NULL, be it
    at the end of the iteration or with [E_OUT_OF_SYNC] or [E_REPLACED]
    latched, every later call on the same store returns NULL again and
    changes neither the store nor the iterator, its error code
    included. *)
Theorem trieiter_next_null_is_final fuel root it root' it' fuel' :
  trieiter_next fuel root it = Some (None, root', it') ->
  (0 < fuel')%nat ->
  trieiter_next fuel' root' it' = Some (None, root', it').
Proof.
  intros H Hf. destruct fuel' as [|f]; [lia|]. clear Hf.
  unfold trieiter_next in H.
  destruct (negb (trie_state_id it =? state_id root)) eqn:E1.
  { inversion H; subst. unfold trieiter_next.
    cbn [with_errcode trie_state_id]. rewrite E1. reflexivity. }
  destruct (is_dirty it
            && negb match dirty_iter root with
                    | Some a => Pos.eqb a (self it)
                    | None => false
                    end) eqn:E2.
  { inversion H; subst. unfold trieiter_next.
    cbn [with_errcode trie_state_id is_dirty self]. rewrite E1, E2.
    reflexivity. }
  assert (Hgo : forall r i,
            same_config it i ->
            state_id r = state_id root ->
            dirty_iter r = dirty_iter root ->
            trieiter_next (S f) r i
            = match next it with
              | suffixes_next => trieiter_suffixes_next (S f) r i
              | neighbors_next => trieiter_neighbors_next (S f) r i
              | hammingpairs_next => trieiter_hammingpairs_next (S f) r i
              end).
  { intros r i [C1 [_ [_ [_ [C5 [C6 [_ C8]]]]]]] Hid Hdi.
    unfold trieiter_next. rewrite C1, C5, C6, C8, Hid, Hdi, E1, E2.
    reflexivity. }
  destruct (next it) eqn:En.
  - unfold trieiter_suffixes_next in H.
    destruct (while_loop (suffixes_body root) fuel it) as [[res i]|] eqn:W;
      [|discriminate].
    inversion H; subst res root' i.
    destruct (suffixes_loop_end _ _ _ _ _ W) as [C Hend].
    rewrite (Hgo root it' C eq_refl eq_refl).
    unfold trieiter_suffixes_next, suffixes_body, trieiter_pop_state.
    cbn [while_loop]. rewrite (Hend eq_refl). reflexivity.
  - unfold trieiter_neighbors_next in H.
    destruct (while_loop (neighbors_body root) fuel it) as [[res i]|] eqn:W;
      [|discriminate].
    inversion H; subst res root' i.
    destruct (neighbors_loop_end _ _ _ _ _ W) as [C Hend].
    rewrite (Hgo root it' C eq_refl eq_refl).
    unfold trieiter_neighbors_next, neighbors_body, trieiter_pop_state.
    cbn [while_loop]. rewrite (Hend eq_refl). reflexivity.
  - unfold trieiter_hammingpairs_next in H.
    destruct (hammingpairs_loop_end _ _ _ _ _ _ H) as [C [Hid [Hdi Hend]]].
    rewrite (Hgo root' it' C Hid Hdi).
    destruct (Hend eq_refl) as [Hst Hsk].
    unfold trieiter_hammingpairs_next, hammingpairs_body, trieiter_pop_state,
      stack_pop.
    cbn [while_loop]. rewrite Hst, Hsk. reflexivity.
Qed.

Lemma trieiter_next_null_is_final_witness :
  trieiter_next 10 pairs_store_2 pairs_iter_1'
  = Some (None, pairs_store_2, with_errcode pairs_iter_1' E_REPLACED)
  /\ (0 < 1)%nat
  /\ trieiter_next 1 pairs_store_2 (with_errcode pairs_iter_1' E_REPLACED)
     = Some (None, pairs_store_2, with_errcode pairs_iter_1' E_REPLACED).
Proof.
  assert (H1 : trieiter_next 10 pairs_store_2 pairs_iter_1'
               = Some (None, pairs_store_2,
                       with_errcode pairs_iter_1' E_REPLACED))
    by (vm_compute; reflexivity).
  assert (H2 : (0 < 1)%nat) by lia.
  split; [exact H1|]. split; [exact H2|].
  exact (trieiter_next_null_is_final 10 pairs_store_2 pairs_iter_1'
           pairs_store_2 (with_errcode pairs_iter_1' E_REPLACED) 1 H1 H2).
Defined.

(* ------------------------------------------------------------------ *)
(** ** An iterator and the mutations of its store *)







(* ------------------------------------------------------------------ *)
(** ** A second dirty iterator *)






